(** * Itinerary agent: allowed-list projection, JSON slicing, validation
      and the bounded generate-validate-repair loop.

    A shallow embedding of the TypeScript sources
      - itinerary-agent/src/index.ts      (interactive [main], batch [planFromIntake])
      - itinerary-agent/src/validate.ts   ([validateItineraryProduction], as a function
                                           and as a program on a heap)
      - itinerary-agent/src/llm.ts        ([extractFirstJsonSlice], [parseJsonObjectSafe])
      - itinerary-agent/src/schema.ts     (the zod schemas)
      - tools/buildCandidates.ts          ([dedupe], [cap], [isJunkName], [extractAndValidate])
      - itinerary-agent/src/cache.ts      ([TtlCache])
      - itinerary-agent/src/images.ts     ([resolvePlaceMedia], [getHotelsForCity])
      - the server of index.ts            ([IntakeSchema], the handler of [POST /api/plan])
    followed by the properties proved about them. *)

From Stdlib Require Import Bool Arith ZArith Lia List Ascii String Permutation.
From Stdlib Require Import DecimalString DecimalPos DecimalZ.
Import ListNotations.
Open Scope string_scope.
Open Scope list_scope.

(* ================================================================== *)
(** * 1. JavaScript strings                                            *)
(* ================================================================== *)

(** A JavaScript string is a sequence of UTF-16 code units.  The model
    keeps to the code units 0..255 (the Latin-1 range), on which
    [String.prototype.trim] and [String.prototype.toLowerCase] are given
    below in full; [string] of the standard library is exactly a sequence
    of such units. *)

Definition dquote : ascii := ascii_of_nat 34.
Definition backslash : ascii := ascii_of_nat 92.
Definition lbrace : ascii := ascii_of_nat 123.
Definition rbrace : ascii := ascii_of_nat 125.
Definition lbracket : ascii := ascii_of_nat 91.
Definition rbracket : ascii := ascii_of_nat 93.

(** The template fragment ["${s}"] : [s] between two double quotes. *)
Definition quoted (s : string) : string := String dquote (s ++ String dquote "").

(** WhiteSpace and LineTerminator code units below 256:
    TAB, LF, VT, FF, CR, SP and NBSP. *)
Definition isWhiteSpace (c : ascii) : bool :=
  let n := nat_of_ascii c in
  ((n =? 9) || (n =? 10) || (n =? 11) || (n =? 12) || (n =? 13) || (n =? 32) || (n =? 160))%nat.

(** Lower-casing of one code unit: A-Z, and U+00C0..U+00DE without the
    multiplication sign U+00D7, move up by 32. *)
Definition lowerChar (c : ascii) : ascii :=
  let n := nat_of_ascii c in
  if (((65 <=? n) && (n <=? 90)) || ((192 <=? n) && (n <=? 222) && negb (n =? 215)))%nat
  then ascii_of_nat (n + 32)
  else c.

Fixpoint toLowerCase (s : string) : string :=
  match s with
  | "" => ""
  | String c s' => String (lowerChar c) (toLowerCase s')
  end.

Fixpoint trimStart (s : string) : string :=
  match s with
  | "" => ""
  | String c s' => if isWhiteSpace c then trimStart s' else s
  end.

Fixpoint trimEnd (s : string) : string :=
  match s with
  | "" => ""
  | String c s' =>
      match trimEnd s' with
      | "" => if isWhiteSpace c then "" else String c ""
      | t => String c t
      end
  end.

Definition trim (s : string) : string := trimEnd (trimStart s).

(** [Boolean(s)] for a string: false exactly on the empty string. *)
Definition truthy (s : string) : bool :=
  match s with "" => false | _ => true end.

Definition startsWith (s p : string) : bool := prefix p s.

(** [s.includes(sub)] *)
Fixpoint includes (s sub : string) : bool :=
  prefix sub s
  || match s with
     | "" => false
     | String _ s' => includes s' sub
     end.

(** [s.indexOf(c)] for a one-unit needle; [None] stands for [-1]. *)
Fixpoint indexOf (s : string) (c : ascii) : option nat :=
  match s with
  | "" => None
  | String d s' =>
      if Ascii.eqb d c then Some 0
      else match indexOf s' c with
           | Some i => Some (S i)
           | None => None
           end
  end.

(** [s.slice(a, b)] for [0 <= a <= b]. *)
Definition slice (s : string) (a b : nat) : string := substring a (b - a) s.

(** [s.split(sep)] for a non-empty separator: the pieces between the
    successive, non-overlapping occurrences of [sep], left to right.
    [splitFrom] returns the piece under construction and the pieces after
    it; [skip] counts the units of a matched separator still to pass. *)
Fixpoint splitFrom (sep s : string) (skip : nat) : string * list string :=
  match s with
  | "" => ("", [])
  | String c s' =>
      match skip with
      | S k => splitFrom sep s' k
      | O =>
          if prefix sep s
          then ("", let (p, ps) := splitFrom sep s' (String.length sep - 1) in p :: ps)
          else let (p, ps) := splitFrom sep s' 0 in (String c p, ps)
      end
  end.

Definition split (s sep : string) : list string :=
  let (p, ps) := splitFrom sep s 0 in p :: ps.

(** [arr.join(sep)] *)
Fixpoint join (arr : list string) (sep : string) : string :=
  match arr with
  | [] => ""
  | [x] => x
  | x :: rest => x ++ sep ++ join rest sep
  end.

(** [`${n}`] for an integer [n]: its decimal digits, with a leading minus
    sign when negative (what JavaScript prints for every integer of
    magnitude below 10^21). *)
Definition showZ (n : Z) : string := NilZero.string_of_int (Z.to_int n).
Definition showNat (n : nat) : string := showZ (Z.of_nat n).

(* ================================================================== *)
(** * 2. Data model (schema.ts)                                        *)
(* ================================================================== *)

Inductive Category := restaurant | attraction | indoor_backup.
Inductive Pace := relaxed | balanced | packed.
Inductive BudgetLevel := low | mid | high.

Definition Category_eqb (a b : Category) : bool :=
  match a, b with
  | restaurant, restaurant | attraction, attraction | indoor_backup, indoor_backup => true
  | _, _ => false
  end.

Definition Pace_text (p : Pace) : string :=
  match p with relaxed => "relaxed" | balanced => "balanced" | packed => "packed" end.

Record Candidate := mkCandidate {
  c_name : string;
  c_category : Category;
  c_url : string;
  c_notes : option string
}.

Record TripRequest := mkTripRequest {
  destination : string;
  tripLengthDays : Z;
  dates_start : option string;
  dates_end : option string;
  travelers : Z;
  budgetLevel : BudgetLevel;
  pace : Pace;
  interests : list string;
  constraints : list string;
  missingInfoQuestions : list string
}.

Record DayBlock := mkDayBlock {
  b_time : string;
  b_title : string;
  b_details : option string
}.

Record DayPlan := mkDayPlan {
  d_day : Z;
  d_theme : string;
  d_blocks : list DayBlock;
  d_meals : list string;
  d_notes : list string
}.

Record Itinerary := mkItinerary {
  summary : string;
  days : list DayPlan;
  mustBook : list string;
  rainBackups : list string;
  estimatedDailyCostRange : option string
}.

Record ValidationResult := mkValidationResult {
  ok : bool;
  violations : list string
}.

(* ================================================================== *)
(** * 3. Allowed-list projector (index.ts) and candidate dedupe         *)
(* ================================================================== *)

(** A JavaScript [Set] of strings, kept as the list of its members in
    insertion order. *)
Definition Set_has (s : list string) (x : string) : bool := existsb (String.eqb x) s.
Definition Set_add (s : list string) (x : string) : list string :=
  if Set_has s x then s else s ++ [x].
(** [new Set(arr)] *)
Definition Set_of (arr : list string) : list string := fold_left Set_add arr [].

(** index.ts, [cap]: [arr.length > n ? arr.slice(0, n) : arr] *)
Definition cap {T : Type} (arr : list T) (n : nat) : list T :=
  if (n <? List.length arr)%nat then firstn n arr else arr.

(** index.ts, [unique]: [[...new Set(arr.map(s => s.trim()).filter(Boolean))]] *)
Definition unique (arr : list string) : list string :=
  Set_of (filter truthy (map trim arr)).

Record AllowedLists := mkAllowedLists {
  allowedAttractions : list string;
  allowedRestaurants : list string;
  allowedIndoorBackups : list string
}.

Definition namesOf (cat : Category) (candidates : list Candidate) : list string :=
  map c_name (filter (fun c => Category_eqb (c_category c) cat) candidates).

(** The two copies of [allowedListsFromCandidates] differ in their caps
    only: 25/25/15 beside [main], 60/40/30 beside [planFromIntake]. *)
Definition allowedListsWithCaps (nA nR nI : nat) (candidates : list Candidate) : AllowedLists :=
  let allowedAttractions := unique (namesOf attraction candidates) in
  let allowedRestaurants := unique (namesOf restaurant candidates) in
  let allowedIndoorBackups := unique (namesOf indoor_backup candidates) in
  {| allowedAttractions := cap allowedAttractions nA;
     allowedRestaurants := cap allowedRestaurants nR;
     allowedIndoorBackups := cap allowedIndoorBackups nI |}.

Definition allowedListsFromCandidates : list Candidate -> AllowedLists :=
  allowedListsWithCaps 25 25 15.

Definition allowedListsFromCandidates_batch : list Candidate -> AllowedLists :=
  allowedListsWithCaps 60 40 30.

(** tools/buildCandidates.ts, [dedupe]: the loop state is the [seen] set
    and the [out] array. *)
Definition dedupeKey (c : Candidate) : string := toLowerCase (trim (c_name c)).

Definition dedupeStep (st : list string * list Candidate) (c : Candidate)
  : list string * list Candidate :=
  let (seen, out) := st in
  let key := dedupeKey c in
  if negb (truthy key) then st
  else if Set_has seen key then st
  else (Set_add seen key, out ++ [c]).

Definition dedupe (cands : list Candidate) : list Candidate :=
  snd (fold_left dedupeStep cands ([], [])).

(** tools/buildCandidates.ts, [cap]: [arr.slice(0, n)] *)
Definition capSlice {T : Type} (arr : list T) (n : nat) : list T := firstn n arr.

(** The tail of [buildCandidatesForCity]: what is done with the merged
    extraction results [all]. *)
Definition assembleCandidates (all : list Candidate) : list Candidate :=
  let all := dedupe all in
  let restaurantsOut := capSlice (filter (fun c => Category_eqb (c_category c) restaurant) all) 40 in
  let attractionsOut := capSlice (filter (fun c => Category_eqb (c_category c) attraction) all) 60 in
  let indoorOut := capSlice (filter (fun c => Category_eqb (c_category c) indoor_backup) all) 30 in
  restaurantsOut ++ attractionsOut ++ indoorOut.

(* ================================================================== *)
(** * 4. Balanced JSON slice (llm.ts)                                  *)
(* ================================================================== *)

(** A call either returns a value or throws. *)
Inductive Outcome (A : Type) : Type :=
| Returned (a : A)
| Thrown (msg : string).
Arguments Returned {A} a.
Arguments Thrown {A} msg.

(** The loop variables of [extractFirstJsonSlice]. *)
Record ScanState := mkScanState {
  depth : Z;
  inString : bool;
  escaped : bool
}.

(** One turn of the loop body on the unit [ch]: the variables after it,
    and whether the body reached [return raw.slice(start, i + 1)]. *)
Definition scanStep (open close : ascii) (st : ScanState) (ch : ascii) : ScanState * bool :=
  if inString st then
    if escaped st then (mkScanState (depth st) true false, false)
    else if Ascii.eqb ch backslash then (mkScanState (depth st) true true, false)
    else if Ascii.eqb ch dquote then (mkScanState (depth st) false (escaped st), false)
    else (st, false)
  else if Ascii.eqb ch dquote then (mkScanState (depth st) true (escaped st), false)
  else
    let depth1 := if Ascii.eqb ch open then (depth st + 1)%Z else depth st in
    let depth2 := if Ascii.eqb ch close then (depth1 - 1)%Z else depth1 in
    (mkScanState depth2 (inString st) (escaped st), (depth2 =? 0)%Z).

(** The [for] loop from index [i] over the units [rest] that remain:
    the index at which it returns, or [None] when it runs off the end. *)
Fixpoint scanFrom (open close : ascii) (rest : string) (i : nat) (st : ScanState) : option nat :=
  match rest with
  | "" => None
  | String ch rest' =>
      let (st', ret) := scanStep open close st ch in
      if ret then Some i else scanFrom open close rest' (S i) st'
  end.

Definition extractFirstJsonSlice (raw : string) (open close : ascii) : Outcome string :=
  match indexOf raw open with
  | None => Thrown "No JSON found"
  | Some start =>
      match scanFrom open close (substring start (String.length raw - start) raw) start
                     (mkScanState 0 false false) with
      | Some i => Returned (slice raw start (i + 1))
      | None => Thrown "Unterminated JSON"
      end
  end.

(* ================================================================== *)
(** * 5. Itinerary validator (validate.ts)                             *)
(* ================================================================== *)

Definition isTimeRange (s : string) : bool := includes s " - ".

Definition extractRestaurantNameFromMeal (meal : string) : option string :=
  let parts := split meal ":" in
  if (List.length parts <? 2)%nat then None
  else
    let afterColon := trim (join (skipn 1 parts) ":") in
    let rest := trim (nth 0 (split afterColon " - ") "") in
    if truthy rest then Some rest else None.

(** [violations.push(msg)] *)
Definition push (violations : list string) (msg : string) : list string :=
  violations ++ [msg].

(** [arr.includes(x)] on an array of strings. *)
Definition Array_includes (arr : list string) (x : string) : bool :=
  existsb (String.eqb x) arr.

(** [arr.sort((a, b) => a - b)] on integers: ascending order. *)
Fixpoint insertNumber (x : Z) (l : list Z) : list Z :=
  match l with
  | [] => [x]
  | y :: l' => if (x <=? y)%Z then x :: l else y :: insertNumber x l'
  end.

Definition sortNumbers (l : list Z) : list Z := fold_right insertNumber [] l.

Definition Pace_eqb (a b : Pace) : bool :=
  match a, b with
  | relaxed, relaxed | balanced, balanced | packed, packed => true
  | _, _ => false
  end.

Definition paceOk (pace : Pace) (blocks : nat) : bool :=
  ((Pace_eqb pace relaxed && (2 <=? blocks) && (blocks <=? 3))
   || (Pace_eqb pace balanced && (3 <=? blocks) && (blocks <=? 4))
   || (Pace_eqb pace packed && (4 <=? blocks) && (blocks <=? 6)))%nat.

Definition vegHints : list string :=
  ["veg"; "vegetarian"; "vegan"; "plant"; "tofu"; "paneer"; "lentil"; "chickpea"; "vegetable"].

Section Messages.
Local Open Scope string_scope.

Definition msgDayCount (n : nat) (m : Z) : string :=
  "days.length=" ++ showNat n ++ " must equal tripLengthDays=" ++ showZ m.
Definition msgDayNumber (i : nat) : string :=
  "Missing or wrong day number: expected day " ++ showNat i.
Definition msgPace (day : Z) (blocks : nat) (pace : Pace) : string :=
  "Day " ++ showZ day ++ " blocks=" ++ showNat blocks ++ " violates pace=" ++ Pace_text pace.
Definition msgNotes (day : Z) : string :=
  "Day " ++ showZ day ++ " notes must have at least 2 items".
Definition msgTime (day : Z) (time : string) : string :=
  "Day " ++ showZ day ++ " block time not a range: " ++ quoted time.
Definition msgAttraction (title : string) : string :=
  "Invalid attraction in blocks: " ++ quoted title.
Definition msgDining (title : string) : string :=
  "Block title includes dining text (Option B): " ++ quoted title.
Definition msgLunch (day : Z) : string :=
  "Day " ++ showZ day ++ " missing Lunch: in meals".
Definition msgDinner (day : Z) : string :=
  "Day " ++ showZ day ++ " missing Dinner: in meals".
Definition msgMealFormat (meal : string) : string :=
  "Meal format invalid: " ++ quoted meal.
Definition msgRestaurant (rest : string) : string :=
  "Invalid restaurant in meals: " ++ quoted rest.
Definition msgVegetarian (meal : string) : string :=
  "Meal may not clearly indicate vegetarian dish: " ++ quoted meal.
Definition msgRainBackup (rb : string) : string :=
  "Invalid rain backup (not in allowedIndoorBackups): " ++ quoted rb.

End Messages.

(** The bodies of the validator's loops, each from the [violations]
    array before one turn to the array after it. *)

Definition dayNumberBody (dayNums : list Z) (violations : list string) (i : nat) : list string :=
  match nth_error dayNums (i - 1) with
  | Some d => if negb (d =? Z.of_nat i)%Z then push violations (msgDayNumber i) else violations
  | None => push violations (msgDayNumber i)
  end.

Definition paceBody (trip : TripRequest) (violations : list string) (day : DayPlan) : list string :=
  let blocks := List.length (d_blocks day) in
  let pace := pace trip in
  let ok := paceOk pace blocks in
  if negb ok then push violations (msgPace (d_day day) blocks pace) else violations.

Definition notesBody (violations : list string) (day : DayPlan) : list string :=
  if (List.length (d_notes day) <? 2)%nat then push violations (msgNotes (d_day day)) else violations.

Definition blockBody (allowedAttractionSet : list string) (day : DayPlan)
  (violations : list string) (b : DayBlock) : list string :=
  let violations :=
    if negb (isTimeRange (b_time b)) then push violations (msgTime (d_day day) (b_time b))
    else violations in
  let violations :=
    if negb (Set_has allowedAttractionSet (b_title b)) then push violations (msgAttraction (b_title b))
    else violations in
  if includes (toLowerCase (b_title b)) "lunch" || includes (toLowerCase (b_title b)) "dinner"
  then push violations (msgDining (b_title b))
  else violations.

Definition blocksBody (allowedAttractionSet : list string)
  (violations : list string) (day : DayPlan) : list string :=
  fold_left (blockBody allowedAttractionSet day) (d_blocks day) violations.

Definition mealBody (trip : TripRequest) (allowedRestaurantSet : list string)
  (violations : list string) (meal : string) : list string :=
  let rest := extractRestaurantNameFromMeal meal in
  let violations :=
    match rest with
    | None => push violations (msgMealFormat meal)
    | Some rest =>
        if negb (Set_has allowedRestaurantSet rest) then push violations (msgRestaurant rest)
        else violations
    end in
  if Array_includes (constraints trip) "vegetarian" then
    let lower := toLowerCase meal in
    if negb (existsb (fun h => includes lower h) vegHints)
    then push violations (msgVegetarian meal)
    else violations
  else violations.

Definition mealsBody (trip : TripRequest) (allowedRestaurantSet : list string)
  (violations : list string) (day : DayPlan) : list string :=
  let hasLunch := existsb (fun m => startsWith m "Lunch:") (d_meals day) in
  let hasDinner := existsb (fun m => startsWith m "Dinner:") (d_meals day) in
  let violations := if negb hasLunch then push violations (msgLunch (d_day day)) else violations in
  let violations := if negb hasDinner then push violations (msgDinner (d_day day)) else violations in
  fold_left (mealBody trip allowedRestaurantSet) (d_meals day) violations.

Definition rainBody (allowedIndoorSet : list string) (violations : list string) (rb : string)
  : list string :=
  if negb (Set_has allowedIndoorSet rb) then push violations (msgRainBackup rb) else violations.

Definition validateItineraryProduction (trip : TripRequest) (itinerary : Itinerary)
  (allowedAttractions allowedRestaurants allowedIndoorBackups : list string) : ValidationResult :=
  let violations : list string := [] in
  (* Day count and numbering *)
  let violations :=
    if negb (Z.of_nat (List.length (days itinerary)) =? tripLengthDays trip)%Z
    then push violations (msgDayCount (List.length (days itinerary)) (tripLengthDays trip))
    else violations in
  let dayNums := sortNumbers (map d_day (days itinerary)) in
  let violations :=
    fold_left (dayNumberBody dayNums) (seq 1 (Z.to_nat (tripLengthDays trip))) violations in
  (* Pace rules: blocks per day *)
  let violations := fold_left (paceBody trip) (days itinerary) violations in
  (* Notes: at least 2 per day *)
  let violations := fold_left notesBody (days itinerary) violations in
  (* Blocks: attraction-only + allowed list + time range *)
  let allowedAttractionSet := Set_of allowedAttractions in
  let violations := fold_left (blocksBody allowedAttractionSet) (days itinerary) violations in
  (* Meals: must include Lunch: and Dinner:, restaurants must be allowed *)
  let allowedRestaurantSet := Set_of allowedRestaurants in
  let violations := fold_left (mealsBody trip allowedRestaurantSet) (days itinerary) violations in
  (* Rain backups: allowed list only *)
  let allowedIndoorSet := Set_of allowedIndoorBackups in
  let violations := fold_left (rainBody allowedIndoorSet) (rainBackups itinerary) violations in
  {| ok := (List.length violations =? 0)%nat; violations := violations |}.

(* ================================================================== *)
(** * 6. JSON values and the zod schemas (schema.ts)                   *)
(* ================================================================== *)

(** What [JSON.parse] can return.  Numbers are split into the integers
    and the rest, which is all the schemas below tell apart; an object is
    the list of its properties, each key once. *)
#[warnings="-register-all"]
Inductive Json : Type :=
| JNull
| JBool (b : bool)
| JInt (n : Z)
| JFrac
| JStr (s : string)
| JArr (items : list Json)
| JObj (props : list (string * Json)).

(** [obj.key]; [None] is [undefined]. *)
Definition getProp (props : list (string * Json)) (key : string) : option Json :=
  option_map snd (find (fun p => String.eqb (fst p) key) props).

(** index.ts, [looksLikeItinerary]:
    [obj && typeof obj === "object" && typeof obj.summary === "string" && Array.isArray(obj.days)],
    read as a condition. *)
Definition looksLikeItinerary (obj : Json) : bool :=
  match obj with
  | JObj props =>
      match getProp props "summary", getProp props "days" with
      | Some (JStr _), Some (JArr _) => true
      | _, _ => false
      end
  | _ => false
  end.

Fixpoint traverse {A B : Type} (f : A -> option B) (l : list A) : option (list B) :=
  match l with
  | [] => Some []
  | x :: l' =>
      match f x, traverse f l' with
      | Some y, Some ys => Some (y :: ys)
      | _, _ => None
      end
  end.

(** The zod combinators the schemas use, on the value of a property
    ([None] when the key is absent); the result [None] is a thrown
    [ZodError]. *)

(** [z.string().min(1)] *)
Definition z_string_min1 (v : option Json) : option string :=
  match v with
  | Some (JStr s) => if (1 <=? String.length s)%nat then Some s else None
  | _ => None
  end.

(** [z.string().optional()] *)
Definition z_string_optional (v : option Json) : option (option string) :=
  match v with
  | None => Some None
  | Some (JStr s) => Some (Some s)
  | _ => None
  end.

(** [z.number().int().min(1)] *)
Definition z_int_min1 (v : option Json) : option Z :=
  match v with
  | Some (JInt n) => if (1 <=? n)%Z then Some n else None
  | _ => None
  end.

Definition z_string (j : Json) : option string :=
  match j with JStr s => Some s | _ => None end.

(** [z.array(item).min(n)] *)
Definition z_array_min {A : Type} (item : Json -> option A) (n : nat) (v : option Json)
  : option (list A) :=
  match v with
  | Some (JArr items) =>
      match traverse item items with
      | Some l => if (n <=? List.length l)%nat then Some l else None
      | None => None
      end
  | _ => None
  end.

(** [z.array(z.string()).default([])] *)
Definition z_strings_default (v : option Json) : option (list string) :=
  match v with
  | None => Some []
  | Some (JArr items) => traverse z_string items
  | _ => None
  end.

Definition DayBlockSchema_parse (j : Json) : option DayBlock :=
  match j with
  | JObj props =>
      match z_string_min1 (getProp props "time"),
            z_string_min1 (getProp props "title"),
            z_string_optional (getProp props "details") with
      | Some time, Some title, Some details => Some (mkDayBlock time title details)
      | _, _, _ => None
      end
  | _ => None
  end.

Definition DayPlanSchema_parse (j : Json) : option DayPlan :=
  match j with
  | JObj props =>
      match z_int_min1 (getProp props "day"),
            z_string_min1 (getProp props "theme"),
            z_array_min DayBlockSchema_parse 2 (getProp props "blocks"),
            z_array_min z_string 2 (getProp props "meals"),
            z_strings_default (getProp props "notes") with
      | Some day, Some theme, Some blocks, Some meals, Some notes =>
          Some (mkDayPlan day theme blocks meals notes)
      | _, _, _, _, _ => None
      end
  | _ => None
  end.

Definition ItinerarySchema_parse (j : Json) : option Itinerary :=
  match j with
  | JObj props =>
      match z_string_min1 (getProp props "summary"),
            z_array_min DayPlanSchema_parse 1 (getProp props "days"),
            z_strings_default (getProp props "mustBook"),
            z_strings_default (getProp props "rainBackups"),
            z_string_optional (getProp props "estimatedDailyCostRange") with
      | Some summary, Some days, Some mustBook, Some rainBackups, Some cost =>
          Some (mkItinerary summary days mustBook rainBackups cost)
      | _, _, _, _, _ => None
      end
  | _ => None
  end.

(** The object [tripObj] that [planFromIntake] hands to
    [TripRequestSchema.parse].  Its [tripLengthDays] is an integer or
    [NaN] ([None]); every other field already has its type. *)
Record TripObj := mkTripObj {
  o_destination : string;
  o_tripLengthDays : option Z;
  o_start : string;
  o_end : string;
  o_travelers : Z;
  o_budgetLevel : BudgetLevel;
  o_pace : Pace;
  o_interests : list string;
  o_constraints : list string;
  o_missingInfoQuestions : list string
}.

(** [TripRequestSchema.parse(tripObj)]: destination [min(1)],
    tripLengthDays [int().min(1).max(30)], travelers [int().min(1).max(20)]. *)
Definition TripRequestSchema_parse (o : TripObj) : option TripRequest :=
  match o_tripLengthDays o with
  | Some n =>
      if ((1 <=? String.length (o_destination o))%nat
          && (1 <=? n)%Z && (n <=? 30)%Z
          && (1 <=? o_travelers o)%Z && (o_travelers o <=? 20)%Z)%bool
      then Some (mkTripRequest (o_destination o) n (Some (o_start o)) (Some (o_end o))
                   (o_travelers o) (o_budgetLevel o) (o_pace o)
                   (o_interests o) (o_constraints o) (o_missingInfoQuestions o))
      else None
  | None => None
  end.

(* ================================================================== *)
(** * 7. UI projection (planFromIntake.ts)                             *)
(* ================================================================== *)

Inductive UiTimelineItem : Type :=
| UiActivity (time title : string) (details : option string)
| UiMeal (time mealType : string) (place dishIdea : option string).

Record UiDay := mkUiDay {
  ui_day : Z;
  ui_theme : string;
  ui_timeline : list UiTimelineItem;
  ui_notes : list string
}.

Record UiItinerary := mkUiItinerary {
  ui_summary : string;
  ui_days : list UiDay;
  ui_mustBook : list string;
  ui_rainBackups : list string
}.

(** [s.replace(/^Label:\s*/i, "")] with [label] the lower-cased label
    and its colon: the label and the white space after it are dropped
    when the string starts with it in any letter case. *)
Definition dropMealLabel (label s : string) : string :=
  if startsWith (toLowerCase s) label
  then trimStart (substring (String.length label) (String.length s - String.length label) s)
  else s.

(** [const [place, dishIdea] = rest.split(" - ").map(s => s.trim())] *)
Definition placeAndDish (rest : string) : option string * option string :=
  let parts := map trim (split rest " - ") in
  (nth_error parts 0, nth_error parts 1).

Definition toTimelineDay (day : DayPlan) : UiDay :=
  let timeline := map (fun b => UiActivity (b_time b) (b_title b) (b_details b)) (d_blocks day) in
  let meals := d_meals day in
  let lunch := find (fun m => startsWith (toLowerCase m) "lunch:") meals in
  let dinner := find (fun m => startsWith (toLowerCase m) "dinner:") meals in
  let timeline :=
    match lunch with
    | Some lunch =>
        let rest := dropMealLabel "lunch:" lunch in
        let (place, dishIdea) := placeAndDish rest in
        let insertAt := if (2 <=? List.length timeline)%nat then 1 else List.length timeline in
        firstn insertAt timeline
          ++ [UiMeal "12:15 PM - 01:15 PM" "Lunch" place dishIdea]
          ++ skipn insertAt timeline
    | None => timeline
    end in
  let timeline :=
    match dinner with
    | Some dinner =>
        let rest := dropMealLabel "dinner:" dinner in
        let (place, dishIdea) := placeAndDish rest in
        timeline ++ [UiMeal "06:30 PM - 08:00 PM" "Dinner" place dishIdea]
    | None => timeline
    end in
  mkUiDay (d_day day) (d_theme day) timeline (d_notes day).

Definition toUiItinerary (itinerary : Itinerary) : UiItinerary :=
  mkUiItinerary (summary itinerary) (map toTimelineDay (days itinerary))
    (mustBook itinerary) (rainBackups itinerary).

(* ================================================================== *)
(** * 8. Collaborators and the effect monad                            *)
(* ================================================================== *)

(** Arguments of the calls to the generative collaborators (llm.ts). *)
Record GenerateArgs := mkGenerateArgs {
  g_trip : TripRequest;
  g_allowedAttractions : list string;
  g_allowedRestaurants : list string;
  g_allowedIndoorBackups : list string
}.

Record ReviseArgs := mkReviseArgs {
  r_trip : TripRequest;
  r_itinerary : Itinerary;
  r_fixes : list string;
  r_allowedAttractions : list string;
  r_allowedRestaurants : list string;
  r_allowedIndoorBackups : list string;
  r_violations : option (list string)
}.

Inductive JsonMode := ModeObject | ModeArray.

(** One observable step of a run: a call that leaves the process, or a
    run of the validator. *)
Inductive Step : Type :=
| CallGather (city : string)
| CallGenerate (args : GenerateArgs)
| CallRevise (args : ReviseArgs)
| CallFixJson (raw : string) (mode : JsonMode)
| RanValidator.

(** What the code takes from outside itself.  [World] is the state of
    everything beyond the process (the model, the search service); a
    call reads and changes it, and returns text or throws.
    [JSON_parse] and [Date_getTime] are the runtime's [JSON.parse] and
    [new Date(text).getTime()] ([None]: a thrown [SyntaxError], resp.
    [NaN]); [gatherCandidates] is the search-and-extract fan-out of
    [buildCandidatesForCity] up to the merged array [all]. *)
Record Environment (World : Type) := mkEnvironment {
  JSON_parse : string -> option Json;
  Date_getTime : string -> option Z;
  gatherCandidates : string -> World -> Outcome (list Candidate) * World;
  generateItineraryOptionB : GenerateArgs -> World -> Outcome string * World;
  reviseItineraryJson : ReviseArgs -> World -> Outcome string * World;
  fixJsonOnly : string -> JsonMode -> World -> Outcome string * World
}.
Arguments JSON_parse {World} _ _.
Arguments Date_getTime {World} _ _.
Arguments gatherCandidates {World} _ _ _.
Arguments generateItineraryOptionB {World} _ _ _.
Arguments reviseItineraryJson {World} _ _ _.
Arguments fixJsonOnly {World} _ _ _ _.

(** A run: the outside world and the steps taken so far. *)
Record Run (World : Type) := mkRun {
  world : World;
  trace : list Step
}.
Arguments mkRun {World} _ _.
Arguments world {World} _.
Arguments trace {World} _.

Definition M (World A : Type) : Type := Run World -> Outcome A * Run World.

Definition ret {World A : Type} (a : A) : M World A := fun r => (Returned a, r).

Definition throw {World A : Type} (msg : string) : M World A := fun r => (Thrown msg, r).

Definition bind {World A B : Type} (m : M World A) (k : A -> M World B) : M World B :=
  fun r =>
    match m r with
    | (Returned a, r') => k a r'
    | (Thrown msg, r') => (Thrown msg, r')
    end.

(** [try { m } catch { handler }] *)
Definition tryCatch {World A : Type} (m handler : M World A) : M World A :=
  fun r =>
    match m r with
    | (Returned a, r') => (Returned a, r')
    | (Thrown _, r') => handler r'
    end.

(** A call to the outside, recorded as [step]. *)
Definition call {World A : Type} (step : Step) (f : World -> Outcome A * World) : M World A :=
  fun r =>
    let (o, w) := f (world r) in
    (o, mkRun w (trace r ++ [step])).

Definition lift {World A : Type} (o : Outcome A) : M World A := fun r => (o, r).

(** A schema parse: the value, or a thrown [ZodError]. *)
Definition zodParse {World A : Type} (v : option A) : M World A :=
  match v with
  | Some a => ret a
  | None => throw "ZodError"
  end.

Declare Scope agent_scope.
Delimit Scope agent_scope with agent.
Notation "x <- m ;; k" := (bind m (fun x => k))
  (at level 61, m at next level, right associativity) : agent_scope.

Section Agent.
Context {World : Type} (env : Environment World).
Local Open Scope agent_scope.

(** llm.ts, [extractFirstJsonObject] *)
Definition extractFirstJsonObject (raw : string) : Outcome Json :=
  match extractFirstJsonSlice raw lbrace rbrace with
  | Returned text =>
      match JSON_parse env text with
      | Some obj => Returned obj
      | None => Thrown "SyntaxError"
      end
  | Thrown msg => Thrown msg
  end.

(** llm.ts, [parseJsonObjectSafe] *)
Definition parseJsonObjectSafe (raw : string) : M World Json :=
  tryCatch (lift (extractFirstJsonObject raw))
    (fixed <- call (CallFixJson raw ModeObject) (fixJsonOnly env raw ModeObject) ;;
     lift (extractFirstJsonObject fixed)).

(** tools/buildCandidates.ts, [buildCandidatesForCity] *)
Definition buildCandidatesForCity (city : string) : M World (list Candidate) :=
  all <- call (CallGather city) (gatherCandidates env city) ;;
  ret (assembleCandidates all).

(** A run of the validator, recorded in the trace. *)
Definition runValidator (trip : TripRequest) (itinerary : Itinerary) (lists : AllowedLists)
  : M World ValidationResult :=
  fun r =>
    (Returned (validateItineraryProduction trip itinerary
                 (allowedAttractions lists) (allowedRestaurants lists) (allowedIndoorBackups lists)),
     mkRun (world r) (trace r ++ [RanValidator])).

Definition fixViolations : list string :=
  ["Fix all violations strictly using allowed lists and Option B rules."].

Definition fixSchema : list string :=
  ["Return a FULL Itinerary JSON object (not partial).";
   "Must include: summary (string) and days (array). Never omit them.";
   "Fix all violations strictly using allowed lists and Option B rules."].

Definition reviseArgs (trip : TripRequest) (itinerary : Itinerary) (fixes : list string)
  (lists : AllowedLists) (validation : ValidationResult) : ReviseArgs :=
  mkReviseArgs trip itinerary fixes
    (allowedAttractions lists) (allowedRestaurants lists) (allowedIndoorBackups lists)
    (Some (violations validation)).

(** ** Batch path: planFromIntake.ts *)

(** The body of the [for] loop up to the re-validation: one repair pass,
    giving the itinerary the loop goes on with. *)
Definition repairPass (trip : TripRequest) (lists : AllowedLists)
  (itinerary : Itinerary) (validation : ValidationResult) : M World Itinerary :=
  let args := reviseArgs trip itinerary fixViolations lists validation in
  revisedRaw <- call (CallRevise args) (reviseItineraryJson env args) ;;
  revisedObj <- parseJsonObjectSafe revisedRaw ;;
  if looksLikeItinerary revisedObj
  then zodParse (ItinerarySchema_parse revisedObj)
  else ret itinerary.

(** [for (let i = 0; i < 2 && !validation.ok; i++) { ... }] with
    [budget = 2 - i] turns left. *)
Fixpoint reviseLoop (budget : nat) (trip : TripRequest) (lists : AllowedLists)
  (itinerary : Itinerary) (validation : ValidationResult)
  : M World (Itinerary * ValidationResult) :=
  match budget with
  | O => ret (itinerary, validation)
  | S budget' =>
      if negb (ok validation) then
        itinerary' <- repairPass trip lists itinerary validation ;;
        validation' <- runValidator trip itinerary' lists ;;
        reviseLoop budget' trip lists itinerary' validation'
      else ret (itinerary, validation)
  end.

Record Intake := mkIntake {
  in_destination : string;
  in_startDate : string;
  in_endDate : string;
  in_travelers : Z;
  in_pace : Pace;
  in_budgetLevel : BudgetLevel;
  in_constraints : list string;
  in_interests : list string
}.

Record PlanResponse := mkPlanResponse {
  p_itinerary : UiItinerary;
  p_allowedLists : AllowedLists;
  p_validation : ValidationResult
}.

(** The inclusive day count at the head of [planFromIntake]; [None] is
    [NaN], from a date the runtime does not read.  The times are
    integers far below 2^53 in magnitude, where [Math.floor] of the
    floating-point quotient is the integer quotient rounded down. *)
Definition inclusiveDayCount (startDate endDate : string) : option Z :=
  let start := Date_getTime env (startDate ++ "T00:00:00")%string in
  let end_ := Date_getTime env (endDate ++ "T00:00:00")%string in
  match start, end_ with
  | Some start, Some end_ =>
      let diff := (end_ - start)%Z in
      Some (Z.max 1 (diff / (24 * 60 * 60 * 1000) + 1))%Z
  | _, _ => None
  end.

Definition tripObjOf (input : Intake) : TripObj :=
  mkTripObj (in_destination input)
    (inclusiveDayCount (in_startDate input) (in_endDate input))
    (in_startDate input) (in_endDate input)
    (in_travelers input) (in_budgetLevel input) (in_pace input)
    (in_interests input) (in_constraints input) [].

Definition planFromIntake (input : Intake) : M World PlanResponse :=
  let tripObj := tripObjOf input in
  trip <- zodParse (TripRequestSchema_parse tripObj) ;;
  (* Candidates + allowed lists *)
  candidates <- buildCandidatesForCity (destination trip) ;;
  let lists := allowedListsFromCandidates_batch candidates in
  (* Generate itinerary *)
  let gargs := mkGenerateArgs trip (allowedAttractions lists) (allowedRestaurants lists)
                 (allowedIndoorBackups lists) in
  raw <- call (CallGenerate gargs) (generateItineraryOptionB env gargs) ;;
  itObj <- parseJsonObjectSafe raw ;;
  if negb (looksLikeItinerary itObj)
  then throw "Model did not return itinerary-shaped JSON."
  else
    itinerary <- zodParse (ItinerarySchema_parse itObj) ;;
    (* Validate + revise (bounded) *)
    validation <- runValidator trip itinerary lists ;;
    final <- reviseLoop 2 trip lists itinerary validation ;;
    ret (mkPlanResponse (toUiItinerary (fst final)) lists (snd final)).

(** ** Interactive path: index.ts, [main], step 7 ("if violations, revise
    once").  The writes of run artifacts to disk between the calls are
    left out. *)
Definition mainReviseOnce (trip : TripRequest) (lists : AllowedLists)
  (itinerary : Itinerary) (validation : ValidationResult)
  : M World (Itinerary * ValidationResult) :=
  if negb (ok validation) then
    let args := reviseArgs trip itinerary fixViolations lists validation in
    rawRevise1 <- call (CallRevise args) (reviseItineraryJson env args) ;;
    revisedObj <- parseJsonObjectSafe rawRevise1 ;;
    itinerary' <-
      (if negb (looksLikeItinerary revisedObj) then
         let args' := reviseArgs trip itinerary fixSchema lists validation in
         rawRevise1SchemaFix <- call (CallRevise args') (reviseItineraryJson env args') ;;
         fixedObj <- parseJsonObjectSafe rawRevise1SchemaFix ;;
         zodParse (ItinerarySchema_parse fixedObj)
       else zodParse (ItinerarySchema_parse revisedObj)) ;;
    validation' <- runValidator trip itinerary' lists ;;
    ret (itinerary', validation')
  else ret (itinerary, validation).

End Agent.

(* ================================================================== *)
(** * 8A. The validator on the heap, candidates, caches, endpoints      *)
(* ================================================================== *)

(** ** The validator on the heap (validate.ts) *)

(** The validator once more, this time as the program it is: its
    arguments are references to objects and arrays that anyone holding
    them can change, and it works by allocating arrays and sets of its
    own and writing to them ([violations.push], [.sort]).  What is shared
    and what is fresh is explicit here, so that "the same inputs give the
    same result" and "nothing is changed" are statements about the
    program and not about the notation. *)

Module Js.

Inductive Value : Type :=
| VUndefined
| VNull
| VBool (b : bool)
| VNumber (n : Z)
| VString (s : string)
| VRef (address : nat).

(** What an address holds: an array, a plain object, or a [Set]. *)
Inductive Cell : Type :=
| CArray (items : list Value)
| CObject (fields : list (string * Value))
| CSet (members : list Value).

(** The heap: the cell at each address; a new cell takes the next
    address. *)
Definition Heap : Type := list Cell.

(** How a run ends: with a value, with a [TypeError] (a property read
    through [undefined] or [null]), or outside of what is modelled here
    (a value of a type the source's types exclude, a loop over an array
    that grows under it). *)
Inductive Result (A : Type) : Type :=
| Done (a : A)
| TypeError
| Unmodelled.
Arguments Done {A} _.
Arguments TypeError {A}.
Arguments Unmodelled {A}.

Definition Imp (A : Type) : Type := Heap -> Result A * Heap.

Definition ret {A : Type} (a : A) : Imp A := fun h => (Done a, h).

Definition unmodelled {A : Type} : Imp A := fun h => (Unmodelled, h).

Definition bind {A B : Type} (m : Imp A) (k : A -> Imp B) : Imp B :=
  fun h =>
    match m h with
    | (Done a, h') => k a h'
    | (TypeError, h') => (TypeError, h')
    | (Unmodelled, h') => (Unmodelled, h')
    end.

Declare Scope js_scope.
Delimit Scope js_scope with js.
Notation "x <- m ;; k" := (bind m (fun x => k))
  (at level 61, m at next level, right associativity) : js_scope.
Notation "m ;;; k" := (bind m (fun _ => k))
  (at level 61, right associativity) : js_scope.
Local Open Scope js_scope.

(** ** Cells *)

Definition alloc (c : Cell) : Imp Value :=
  fun h => (Done (VRef (List.length h)), h ++ [c]).

Definition deref (v : Value) : Imp Cell :=
  fun h =>
    match v with
    | VRef a =>
        match nth_error h a with
        | Some c => (Done c, h)
        | None => (Unmodelled, h)
        end
    | VUndefined | VNull => (TypeError, h)
    | _ => (Unmodelled, h)
    end.

Definition replaceAt (a : nat) (c : Cell) (h : Heap) : Heap :=
  firstn a h ++ c :: skipn (S a) h.

Definition store (v : Value) (c : Cell) : Imp unit :=
  fun h =>
    match v with
    | VRef a => if (a <? List.length h)%nat then (Done tt, replaceAt a c h) else (Unmodelled, h)
    | _ => (Unmodelled, h)
    end.

(** ** Values *)

(** [a === b]; also the comparison a [Set] makes of its members, the
    numbers being integers. *)
Definition Value_eqb (a b : Value) : bool :=
  match a, b with
  | VUndefined, VUndefined | VNull, VNull => true
  | VBool x, VBool y => Bool.eqb x y
  | VNumber x, VNumber y => (x =? y)%Z
  | VString x, VString y => String.eqb x y
  | VRef x, VRef y => (x =? y)%nat
  | _, _ => false
  end.

(** [v == null] *)
Definition isNullish (v : Value) : bool :=
  match v with VUndefined | VNull => true | _ => false end.

Definition asString (v : Value) : Imp string :=
  match v with VString s => ret s | _ => unmodelled end.

Definition asNumber (v : Value) : Imp Z :=
  match v with VNumber n => ret n | _ => unmodelled end.

Definition stringOf (v : Value) : option string :=
  match v with VString s => Some s | _ => None end.

Definition numberOf (v : Value) : option Z :=
  match v with VNumber n => Some n | _ => None end.

(** ** Objects *)

Definition lookup (fields : list (string * Value)) (name : string) : Value :=
  match find (fun p => String.eqb (fst p) name) fields with
  | Some p => snd p
  | None => VUndefined
  end.

(** [o.name] *)
Definition getField (o : Value) (name : string) : Imp Value :=
  c <- deref o ;;
  match c with
  | CObject fields => ret (lookup fields name)
  | _ => unmodelled
  end.

(** ** Arrays *)

Definition itemsOf (arr : Value) : Imp (list Value) :=
  c <- deref arr ;;
  match c with
  | CArray items => ret items
  | _ => unmodelled
  end.

(** [arr.length] *)
Definition Array_length (arr : Value) : Imp nat :=
  items <- itemsOf arr ;; ret (List.length items).

(** [arr[i]] *)
Definition Array_get (arr : Value) (i : nat) : Imp Value :=
  items <- itemsOf arr ;; ret (nth i items VUndefined).

(** [arr.push(x)] *)
Definition Array_push (arr : Value) (x : Value) : Imp unit :=
  items <- itemsOf arr ;; store arr (CArray (items ++ [x])).

(** [for (const x of arr) body]: the array is read afresh at every
    turn, its length and the element at the index, so that what the body
    does to it is seen.  The loop has as many turns as the array has
    elements when it starts. *)
Fixpoint forOfFrom (turns : nat) (arr : Value) (i : nat) (body : Value -> Imp unit)
  : Imp unit :=
  len <- Array_length arr ;;
  if (i <? len)%nat then
    match turns with
    | O => unmodelled
    | S turns' =>
        x <- Array_get arr i ;;
        body x ;;;
        forOfFrom turns' arr (S i) body
    end
  else ret tt.

Definition forOf (arr : Value) (body : Value -> Imp unit) : Imp unit :=
  len <- Array_length arr ;;
  forOfFrom len arr 0 body.

(** [arr.map(f)]: the length is read once, the new array is made, and
    then element after element is read, mapped and put into it. *)
Fixpoint mapFrom (count : nat) (arr out : Value) (i : nat) (f : Value -> Imp Value)
  : Imp unit :=
  match count with
  | O => ret tt
  | S count' =>
      x <- Array_get arr i ;;
      y <- f x ;;
      Array_push out y ;;;
      mapFrom count' arr out (S i) f
  end.

Definition Array_map (arr : Value) (f : Value -> Imp Value) : Imp Value :=
  len <- Array_length arr ;;
  out <- alloc (CArray []) ;;
  mapFrom len arr out 0 f ;;;
  ret out.

(** [arr.sort((a, b) => a - b)] on an array of numbers: the array itself
    is put in ascending order. *)
Definition Array_sortAscending (arr : Value) : Imp unit :=
  items <- itemsOf arr ;;
  match traverse numberOf items with
  | Some numbers => store arr (CArray (map VNumber (sortNumbers numbers)))
  | None => unmodelled
  end.

(** The strings of an array of strings, for the methods that only read:
    [some], [includes]. *)
Definition stringsOf (arr : Value) : Imp (list string) :=
  items <- itemsOf arr ;;
  match traverse stringOf items with
  | Some strings => ret strings
  | None => unmodelled
  end.

(** ** Sets *)

Definition Set_add (members : list Value) (x : Value) : list Value :=
  if existsb (Value_eqb x) members then members else members ++ [x].

(** [new Set(iterable)] for an array *)
Definition Set_new (iterable : Value) : Imp Value :=
  items <- itemsOf iterable ;;
  alloc (CSet (fold_left Set_add items [])).

(** [set.has(x)] *)
Definition Set_has (set : Value) (x : Value) : Imp bool :=
  c <- deref set ;;
  match c with
  | CSet members => ret (existsb (Value_eqb x) members)
  | _ => unmodelled
  end.

(** ** validate.ts *)

(** [violations.push(msg)] *)
Definition report (violations : Value) (msg : string) : Imp unit :=
  Array_push violations (VString msg).

(** [for (let i = 1; i <= trip.tripLengthDays; i++)
       if (dayNums[i-1] !== i) violations.push(...)],
    from [i] on. *)
Fixpoint dayNumberLoop (turns : nat) (trip dayNums violations : Value) (i : nat)
  : Imp unit :=
  lengthValue <- getField trip "tripLengthDays" ;;
  tripLengthDays <- asNumber lengthValue ;;
  if (Z.of_nat i <=? tripLengthDays)%Z then
    match turns with
    | O => unmodelled
    | S turns' =>
        x <- Array_get dayNums (i - 1) ;;
        (if negb (Value_eqb x (VNumber (Z.of_nat i)))
         then report violations (msgDayNumber i)
         else ret tt) ;;;
        dayNumberLoop turns' trip dayNums violations (S i)
    end
  else ret tt.

(** The body of the loop of the pace rule. *)
Definition paceTurn (trip violations day : Value) : Imp unit :=
  blocksArray <- getField day "blocks" ;;
  blocks <- Array_length blocksArray ;;
  paceValue <- getField trip "pace" ;;
  pace <- asString paceValue ;;
  let ok :=
    ((pace =? "relaxed")%string && (2 <=? blocks)%nat && (blocks <=? 3)%nat)
    || ((pace =? "balanced")%string && (3 <=? blocks)%nat && (blocks <=? 4)%nat)
    || ((pace =? "packed")%string && (4 <=? blocks)%nat && (blocks <=? 6)%nat) in
  if negb ok then
    dayValue <- getField day "day" ;;
    dayNo <- asNumber dayValue ;;
    report violations
      ("Day " ++ showZ dayNo ++ " blocks=" ++ showNat blocks ++ " violates pace=" ++ pace)%string
  else ret tt.

(** The body of the loop of the notes rule:
    [(day.notes?.length ?? 0) < 2]. *)
Definition notesTurn (violations day : Value) : Imp unit :=
  notes <- getField day "notes" ;;
  count <- (if isNullish notes then ret 0 else Array_length notes) ;;
  if (count <? 2)%nat then
    dayValue <- getField day "day" ;;
    dayNo <- asNumber dayValue ;;
    report violations (msgNotes dayNo)
  else ret tt.

(** The body of the inner loop of the block rules. *)
Definition blockTurn (allowedAttractionSet violations day b : Value) : Imp unit :=
  timeValue <- getField b "time" ;;
  time <- asString timeValue ;;
  (if negb (isTimeRange time) then
     dayValue <- getField day "day" ;;
     dayNo <- asNumber dayValue ;;
     report violations (msgTime dayNo time)
   else ret tt) ;;;
  titleValue <- getField b "title" ;;
  allowed <- Set_has allowedAttractionSet titleValue ;;
  (if negb allowed then
     title <- asString titleValue ;;
     report violations (msgAttraction title)
   else ret tt) ;;;
  title <- asString titleValue ;;
  if includes (toLowerCase title) "lunch" || includes (toLowerCase title) "dinner"
  then report violations (msgDining title)
  else ret tt.

Definition blocksTurn (allowedAttractionSet violations day : Value) : Imp unit :=
  blocksArray <- getField day "blocks" ;;
  forOf blocksArray (blockTurn allowedAttractionSet violations day).

(** The body of the inner loop of the meal rules.  What
    [extractRestaurantNameFromMeal] does with the meal is a matter of
    strings and of arrays of its own that it does not pass on: it is the
    function of section 5.  The array of hints is written out anew at
    every turn and is read by [some] only. *)
Definition mealTurn (trip allowedRestaurantSet violations mealValue : Value) : Imp unit :=
  meal <- asString mealValue ;;
  (match extractRestaurantNameFromMeal meal with
   | None => report violations (msgMealFormat meal)
   | Some rest =>
       allowed <- Set_has allowedRestaurantSet (VString rest) ;;
       if negb allowed then report violations (msgRestaurant rest) else ret tt
   end) ;;;
  constraintsArray <- getField trip "constraints" ;;
  constraints <- stringsOf constraintsArray ;;
  if Array_includes constraints "vegetarian" then
    let lower := toLowerCase meal in
    if negb (existsb (fun h => includes lower h) vegHints)
    then report violations (msgVegetarian meal)
    else ret tt
  else ret tt.

Definition mealsTurn (trip allowedRestaurantSet violations day : Value) : Imp unit :=
  mealsArray <- getField day "meals" ;;
  meals <- stringsOf mealsArray ;;
  let hasLunch := existsb (fun m => startsWith m "Lunch:") meals in
  mealsArray <- getField day "meals" ;;
  meals <- stringsOf mealsArray ;;
  let hasDinner := existsb (fun m => startsWith m "Dinner:") meals in
  (if negb hasLunch then
     dayValue <- getField day "day" ;;
     dayNo <- asNumber dayValue ;;
     report violations (msgLunch dayNo)
   else ret tt) ;;;
  (if negb hasDinner then
     dayValue <- getField day "day" ;;
     dayNo <- asNumber dayValue ;;
     report violations (msgDinner dayNo)
   else ret tt) ;;;
  mealsArray <- getField day "meals" ;;
  forOf mealsArray (mealTurn trip allowedRestaurantSet violations).

Definition rainTurn (allowedIndoorSet violations rbValue : Value) : Imp unit :=
  allowed <- Set_has allowedIndoorSet rbValue ;;
  if negb allowed then
    rb <- asString rbValue ;;
    report violations (msgRainBackup rb)
  else ret tt.

(** validate.ts, [validateItineraryProduction]; what it returns is the
    reference to the object [{ ok, violations }] it has made. *)
Definition validateItineraryProduction
  (trip itinerary allowedAttractions allowedRestaurants allowedIndoorBackups : Value)
  : Imp Value :=
  violations <- alloc (CArray []) ;;
  (* Day count and numbering *)
  days <- getField itinerary "days" ;;
  count <- Array_length days ;;
  lengthValue <- getField trip "tripLengthDays" ;;
  tripLengthDays <- asNumber lengthValue ;;
  (if negb (Z.of_nat count =? tripLengthDays)%Z
   then report violations (msgDayCount count tripLengthDays)
   else ret tt) ;;;
  days <- getField itinerary "days" ;;
  dayNums <- Array_map days (fun d => getField d "day") ;;
  Array_sortAscending dayNums ;;;
  dayNumberLoop (Z.to_nat tripLengthDays) trip dayNums violations 1 ;;;
  (* Pace rules: blocks per day *)
  days <- getField itinerary "days" ;;
  forOf days (paceTurn trip violations) ;;;
  (* Notes: at least 2 per day *)
  days <- getField itinerary "days" ;;
  forOf days (notesTurn violations) ;;;
  (* Blocks: attraction-only + allowed list + time range *)
  allowedAttractionSet <- Set_new allowedAttractions ;;
  days <- getField itinerary "days" ;;
  forOf days (blocksTurn allowedAttractionSet violations) ;;;
  (* Meals: must include Lunch: and Dinner:, restaurants must be allowed *)
  allowedRestaurantSet <- Set_new allowedRestaurants ;;
  days <- getField itinerary "days" ;;
  forOf days (mealsTurn trip allowedRestaurantSet violations) ;;;
  (* Rain backups: allowed list only *)
  allowedIndoorSet <- Set_new allowedIndoorBackups ;;
  rainBackups <- getField itinerary "rainBackups" ;;
  rainBackups <- (if isNullish rainBackups then alloc (CArray []) else ret rainBackups) ;;
  forOf rainBackups (rainTurn allowedIndoorSet violations) ;;;
  count <- Array_length violations ;;
  alloc (CObject [("ok", VBool (count =? 0)%nat); ("violations", violations)]).

End Js.

(** ** Candidate extraction (tools/buildCandidates.ts) *)

Definition junk : list string :=
  ["best"; "top"; "guide"; "updated"; "things to do"; "restaurants in"; "what's the best";
   "tripadvisor"; "yelp"; "opentable"; "viator"; "getyourguide"].

(** tools/buildCandidates.ts, [isJunkName] *)
Definition isJunkName (name : string) : bool :=
  let n := toLowerCase name in
  if (70 <? String.length name)%nat then true
  else existsb (fun w => includes n w) junk.

Section CandidateSchema.

(** [z.string().url()]: what the schema library takes for a URL. *)
Variable isUrl : string -> bool.

Definition z_url (v : option Json) : option string :=
  match v with
  | Some (JStr s) => if isUrl s then Some s else None
  | _ => None
  end.

(** [z.enum(["restaurant", "attraction", "indoor_backup"])] *)
Definition z_category (v : option Json) : option Category :=
  match v with
  | Some (JStr s) =>
      if String.eqb s "restaurant" then Some restaurant
      else if String.eqb s "attraction" then Some attraction
      else if String.eqb s "indoor_backup" then Some indoor_backup
      else None
  | _ => None
  end.

Definition CandidateSchema_parse (j : Json) : option Candidate :=
  match j with
  | JObj props =>
      match z_string_min1 (getProp props "name"),
            z_category (getProp props "category"),
            z_url (getProp props "url"),
            z_string_optional (getProp props "notes") with
      | Some name, Some category, Some url, Some notes =>
          Some (mkCandidate name category url notes)
      | _, _, _, _ => None
      end
  | _ => None
  end.

(** The body of the loop of [extractAndValidate] over the parsed array:
    an item that is no object is passed over, one the schema rejects is
    ignored (the [catch]), a junk name is dropped. *)
Definition keepBody (out : list Candidate) (item : Json) : list Candidate :=
  match item with
  | JObj _ | JArr _ =>
      match CandidateSchema_parse item with
      | Some c => if negb (isJunkName (c_name c)) then out ++ [c] else out
      | None => out
      end
  | _ => out
  end.

Definition keepCandidates (arr : list Json) : list Candidate :=
  fold_left keepBody arr [].

(** [buildCandidatesForCity] from the seven parsed arrays on: the kept
    candidates of each, merged in the order of the source, then
    [assembleCandidates]. *)
Definition poolOfArrays (restaurants attr1 attr2 attr3 attr4 indoor1 indoor2 : list Json)
  : list Candidate :=
  let all :=
    keepCandidates restaurants
    ++ keepCandidates attr1 ++ keepCandidates attr2
    ++ keepCandidates attr3 ++ keepCandidates attr4
    ++ keepCandidates indoor1 ++ keepCandidates indoor2 in
  assembleCandidates all.

End CandidateSchema.

(** ** Distinct strings (images.ts) *)

(** [s ?? ""] for an array entry that may be [null] or [undefined]
    ([None]). *)
Definition orEmpty (s : option string) : string :=
  match s with Some s => s | None => "" end.

(** images.ts, [uniqStrings]: one turn of the loop on the [seen] set and
    the [out] array. *)
Definition uniqStep (st : list string * list string) (s : option string)
  : list string * list string :=
  let (seen, out) := st in
  let key := trim (orEmpty s) in
  if negb (truthy key) then st
  else if Set_has seen key then st
  else (Set_add seen key, out ++ [key]).

Definition uniqStrings (items : list (option string)) : list string :=
  snd (fold_left uniqStep items ([], [])).

Section ArrayParsing.
Context {World : Type} (env : Environment World).
Local Open Scope agent_scope.

(** llm.ts, [extractFirstJsonArray] *)
Definition extractFirstJsonArray (raw : string) : Outcome Json :=
  match extractFirstJsonSlice raw lbracket rbracket with
  | Returned text =>
      match JSON_parse env text with
      | Some arr => Returned arr
      | None => Thrown "SyntaxError"
      end
  | Thrown msg => Thrown msg
  end.

(** llm.ts, [parseJsonArraySafe] *)
Definition parseJsonArraySafe (raw : string) : M World Json :=
  tryCatch (lift (extractFirstJsonArray raw))
    (fixed <- call (CallFixJson raw ModeArray) (fixJsonOnly env raw ModeArray) ;;
     lift (extractFirstJsonArray fixed)).

End ArrayParsing.

(** ** TTL cache (cache.ts) *)

(** A JavaScript [Map] with string keys: its entries in insertion order,
    a key standing once. *)
Fixpoint Map_get {V : Type} (m : list (string * V)) (key : string) : option V :=
  match m with
  | [] => None
  | (k, v) :: m' => if String.eqb k key then Some v else Map_get m' key
  end.

Fixpoint Map_set {V : Type} (m : list (string * V)) (key : string) (v : V)
  : list (string * V) :=
  match m with
  | [] => [(key, v)]
  | (k, v') :: m' =>
      if String.eqb k key then (k, v) :: m' else (k, v') :: Map_set m' key v
  end.

Definition Map_delete {V : Type} (m : list (string * V)) (key : string) : list (string * V) :=
  filter (fun p => negb (String.eqb (fst p) key)) m.

Record CacheEntry (T : Type) := mkCacheEntry {
  ce_value : T;
  ce_expiresAt : Z
}.
Arguments mkCacheEntry {T} _ _.
Arguments ce_value {T} _.
Arguments ce_expiresAt {T} _.

(** The fields of a [TtlCache].  Times are integers of milliseconds, as
    [Date.now()] gives them. *)
Record TtlCache (T : Type) := mkTtlCache {
  tc_map : list (string * CacheEntry T);
  defaultTtlMs : Z
}.
Arguments mkTtlCache {T} _ _.
Arguments tc_map {T} _.
Arguments defaultTtlMs {T} _.

(** [new TtlCache(defaultTtlMs)] *)
Definition TtlCache_new {T : Type} (defaultTtlMs : Z) : TtlCache T :=
  mkTtlCache [] defaultTtlMs.

(** [get(key)] when [Date.now()] reads [now]: what it returns ([None]
    for [undefined]) and the cache after it. *)
Definition TtlCache_get {T : Type} (c : TtlCache T) (key : string) (now : Z)
  : option T * TtlCache T :=
  match Map_get (tc_map c) key with
  | None => (None, c)
  | Some entry =>
      if (ce_expiresAt entry <? now)%Z
      then (None, mkTtlCache (Map_delete (tc_map c) key) (defaultTtlMs c))
      else (Some (ce_value entry), c)
  end.

(** [set(key, value, ttlMs)] when [Date.now()] reads [now]; [ttlMs] is
    [None] when the argument is left out. *)
Definition TtlCache_set {T : Type} (c : TtlCache T) (key : string) (value : T)
  (ttlMs : option Z) (now : Z) : TtlCache T :=
  let expiresAt := (now + match ttlMs with Some t => t | None => defaultTtlMs c end)%Z in
  mkTtlCache (Map_set (tc_map c) key (mkCacheEntry value expiresAt)) (defaultTtlMs c).

(** ** The block range of the generation prompt (llm.ts) *)

(** llm.ts, [generateItineraryOptionB]: the block range put into the
    prompt, and the last line of the instruction that states it. *)
Definition minBlocks (trip : TripRequest) : nat :=
  if Pace_eqb (pace trip) relaxed then 2 else if Pace_eqb (pace trip) balanced then 3 else 4.

Definition maxBlocks (trip : TripRequest) : nat :=
  if Pace_eqb (pace trip) relaxed then 3 else if Pace_eqb (pace trip) balanced then 4 else 6.

Definition blocksPerDayLine (trip : TripRequest) : string :=
  ("Blocks/day: " ++ showNat (minBlocks trip) ++ " to " ++ showNat (maxBlocks trip))%string.

(** ** The plan endpoint (index.ts, the server) *)

(** [\d] of a regular expression without the unicode flag: 0 to 9. *)
Definition isDigit (c : ascii) : bool :=
  let n := nat_of_ascii c in ((48 <=? n) && (n <=? 57))%nat.

Definition isHyphen (c : ascii) : bool := Ascii.eqb c "-".

(** [/^\d{4}-\d{2}-\d{2}$/.test(s)]: without the multiline flag the text
    must be the ten characters and nothing else. *)
Definition isDateText (s : string) : bool :=
  match s with
  | String y1 (String y2 (String y3 (String y4 (String h1
      (String m1 (String m2 (String h2 (String d1 (String d2 ""))))))))) =>
      isDigit y1 && isDigit y2 && isDigit y3 && isDigit y4 && isHyphen h1
      && isDigit m1 && isDigit m2 && isHyphen h2 && isDigit d1 && isDigit d2
  | _ => false
  end.

(** [z.string().regex(/^\d{4}-\d{2}-\d{2}$/)] *)
Definition z_date (v : option Json) : option string :=
  match v with
  | Some (JStr s) => if isDateText s then Some s else None
  | _ => None
  end.

(** [z.number().int().min(1).default(1)] *)
Definition z_travelers (v : option Json) : option Z :=
  match v with
  | None => Some 1%Z
  | Some (JInt n) => if (1 <=? n)%Z then Some n else None
  | _ => None
  end.

(** [z.enum(["relaxed", "balanced", "packed"]).default("balanced")] *)
Definition z_pace (v : option Json) : option Pace :=
  match v with
  | None => Some balanced
  | Some (JStr s) =>
      if s =? "relaxed" then Some relaxed
      else if s =? "balanced" then Some balanced
      else if s =? "packed" then Some packed
      else None
  | _ => None
  end.

(** [z.enum(["low", "mid", "high"]).default("mid")] *)
Definition z_budgetLevel (v : option Json) : option BudgetLevel :=
  match v with
  | None => Some mid
  | Some (JStr s) =>
      if s =? "low" then Some low
      else if s =? "mid" then Some mid
      else if s =? "high" then Some high
      else None
  | _ => None
  end.

(** [IntakeSchema.safeParse(req.body)]: the data on success. *)
Definition IntakeSchema_parse (body : Json) : option Intake :=
  match body with
  | JObj props =>
      match z_string_min1 (getProp props "destination"),
            z_date (getProp props "startDate"),
            z_date (getProp props "endDate"),
            z_travelers (getProp props "travelers"),
            z_pace (getProp props "pace"),
            z_budgetLevel (getProp props "budgetLevel"),
            z_strings_default (getProp props "constraints"),
            z_strings_default (getProp props "interests") with
      | Some destination, Some startDate, Some endDate, Some travelers,
        Some pace, Some budgetLevel, Some constraints, Some interests =>
          Some (mkIntake destination startDate endDate travelers pace budgetLevel
                  constraints interests)
      | _, _, _, _, _, _, _, _ => None
      end
  | _ => None
  end.

(** What the handler of [POST /api/plan] sends.  The text sent with
    status 400 is zod's and is not modelled. *)
Inductive PlanReply : Type :=
| Status400
| Status200 (data : PlanResponse)
| Status500 (message : string).

Section Server.
Context {World : Type} (env : Environment World).

(** The handler of [POST /api/plan], over the intake schema above.  (The
    second server has the same handler over a schema with one more
    optional field, [hotels].) *)
Definition postPlan (body : Json) : M World PlanReply :=
  match IntakeSchema_parse body with
  | None => ret Status400
  | Some data =>
      fun r =>
        match planFromIntake env data r with
        | (Returned response, r') => (Returned (Status200 response), r')
        | (Thrown message, r') => (Returned (Status500 message), r')
        end
  end.

End Server.

(** ** Place media (images.ts) *)

(** The responses of the Places API are taken at their declared types,
    as the source takes them ([(await res.json()) as T]); a field marked
    optional is an [option].  [Num] stands for the numbers the code
    carries through without reading them (ratings and their counts). *)

Definition DEFAULT_TTL_MS : Z := 1000 * 60 * 60 * 24 * 7.

(** [a ?? b], for a left side that may be missing. *)
Definition orElse {A : Type} (a : option A) (b : A) : A :=
  match a with Some x => x | None => b end.

(** [a ?? b], both sides perhaps missing. *)
Definition orElseOpt {A : Type} (a b : option A) : option A :=
  match a with Some _ => a | None => b end.

(** [x?.field] for an [x] that may be [null]. *)
Definition optField {A B : Type} (x : option A) (field : A -> option B) : option B :=
  match x with Some a => field a | None => None end.

(** [Boolean(s)] for a string that may be missing. *)
Definition truthyOpt (s : option string) : bool :=
  match s with Some s => truthy s | None => false end.

Section PlaceTypes.
Variable Num : Type.

(** A photo is its [photo_reference]. *)
Record GoogleTextSearchResult := mkGoogleTextSearchResult {
  sr_place_id : string;
  sr_name : string;
  sr_formatted_address : option string;
  sr_rating : option Num;
  sr_user_ratings_total : option Num;
  sr_photos : option (list string)
}.

Record GoogleTextSearchResponse := mkGoogleTextSearchResponse {
  ts_status : string;
  ts_error_message : option string;
  ts_results : option (list GoogleTextSearchResult)
}.

Record GooglePlaceDetailsResult := mkGooglePlaceDetailsResult {
  pd_place_id : string;
  pd_name : option string;
  pd_formatted_address : option string;
  pd_rating : option Num;
  pd_user_ratings_total : option Num;
  pd_url : option string;
  pd_photos : option (list string)
}.

Record GooglePlaceDetailsResponse := mkGooglePlaceDetailsResponse {
  dr_status : string;
  dr_error_message : option string;
  dr_result : option GooglePlaceDetailsResult
}.

Record PlaceMedia := mkPlaceMedia {
  pm_placeId : string;
  pm_name : string;
  pm_address : option string;
  pm_rating : option Num;
  pm_userRatingsTotal : option Num;
  pm_mapsUrl : string;
  pm_imageUrls : list string
}.

Record HotelOption := mkHotelOption {
  ho_name : string;
  ho_address : option string;
  ho_rating : option Num;
  ho_userRatingsTotal : option Num;
  ho_mapsUrl : string;
  ho_imageUrls : list string
}.

(** What images.ts reads of its surroundings.  [getTextSearch] and
    [getPlaceDetails] are [googleGetJson] at its two types: the request,
    its failure on a response that is not ok, and the body;
    [fetchManual] is [fetch(url, { redirect: "manual" })], giving the
    status and the [location] header. *)
Record ImagesEnv (W : Type) := mkImagesEnv {
  GOOGLE_MAPS_API_KEY : option string;
  encodeURIComponent : string -> string;
  Date_now : W -> Z;
  getTextSearch : string -> W -> Outcome GoogleTextSearchResponse * W;
  getPlaceDetails : string -> W -> Outcome GooglePlaceDetailsResponse * W;
  fetchManual : string -> W -> Outcome (Z * option string) * W
}.

(** The three caches of the module, the world outside, and the URLs
    requested so far. *)
Record ImagesState (W : Type) := mkImagesState {
  detailsCache : TtlCache GooglePlaceDetailsResult;
  textSearchCache : TtlCache (list GoogleTextSearchResult);
  photoRedirectCache : TtlCache string;
  outside : W;
  requested : list string
}.

End PlaceTypes.

Arguments mkGoogleTextSearchResult {Num} _ _ _ _ _ _.
Arguments sr_place_id {Num} _.
Arguments sr_name {Num} _.
Arguments sr_formatted_address {Num} _.
Arguments sr_rating {Num} _.
Arguments sr_user_ratings_total {Num} _.
Arguments sr_photos {Num} _.
Arguments mkGoogleTextSearchResponse {Num} _ _ _.
Arguments ts_status {Num} _.
Arguments ts_error_message {Num} _.
Arguments ts_results {Num} _.
Arguments mkGooglePlaceDetailsResult {Num} _ _ _ _ _ _ _.
Arguments pd_place_id {Num} _.
Arguments pd_name {Num} _.
Arguments pd_formatted_address {Num} _.
Arguments pd_rating {Num} _.
Arguments pd_user_ratings_total {Num} _.
Arguments pd_url {Num} _.
Arguments pd_photos {Num} _.
Arguments mkGooglePlaceDetailsResponse {Num} _ _ _.
Arguments dr_status {Num} _.
Arguments dr_error_message {Num} _.
Arguments dr_result {Num} _.
Arguments mkPlaceMedia {Num} _ _ _ _ _ _ _.
Arguments pm_placeId {Num} _.
Arguments pm_name {Num} _.
Arguments pm_address {Num} _.
Arguments pm_rating {Num} _.
Arguments pm_userRatingsTotal {Num} _.
Arguments pm_mapsUrl {Num} _.
Arguments pm_imageUrls {Num} _.
Arguments mkHotelOption {Num} _ _ _ _ _ _.
Arguments ho_name {Num} _.
Arguments ho_address {Num} _.
Arguments ho_rating {Num} _.
Arguments ho_userRatingsTotal {Num} _.
Arguments ho_mapsUrl {Num} _.
Arguments ho_imageUrls {Num} _.
Arguments mkImagesEnv {Num W} _ _ _ _ _ _.
Arguments GOOGLE_MAPS_API_KEY {Num W} _.
Arguments encodeURIComponent {Num W} _ _.
Arguments Date_now {Num W} _ _.
Arguments getTextSearch {Num W} _ _ _.
Arguments getPlaceDetails {Num W} _ _ _.
Arguments fetchManual {Num W} _ _ _.
Arguments mkImagesState {Num W} _ _ _ _ _.
Arguments detailsCache {Num W} _.
Arguments textSearchCache {Num W} _.
Arguments photoRedirectCache {Num W} _.
Arguments outside {Num W} _.
Arguments requested {Num W} _.

(** The state of the module when it is loaded. *)
Definition freshImages {Num W : Type} (w : W) : ImagesState Num W :=
  mkImagesState (TtlCache_new DEFAULT_TTL_MS) (TtlCache_new DEFAULT_TTL_MS)
    (TtlCache_new DEFAULT_TTL_MS) w [].

Section Images.
Context {Num W : Type} (env : ImagesEnv Num W).

Local Open Scope agent_scope.

Definition missingKeyMessage : string :=
  "Missing GOOGLE_MAPS_API_KEY. Add it to your backend .env (billing must be enabled for Places APIs).".

Definition requireGoogleKey : M (ImagesState Num W) string :=
  match GOOGLE_MAPS_API_KEY env with
  | Some key => if truthy key then ret key else throw missingKeyMessage
  | None => throw missingKeyMessage
  end.

Definition mapsPlaceIdUrl (placeId : string) : string :=
  "https://www.google.com/maps/place/?q=place_id:" ++ encodeURIComponent env placeId.

(** A request that leaves the process. *)
Definition request {A : Type} (send : string -> W -> Outcome A * W) (url : string)
  : M (ImagesState Num W) A :=
  fun r =>
    let s := world r in
    let (o, w) := send url (outside s) in
    (o, mkRun (mkImagesState (detailsCache s) (textSearchCache s) (photoRedirectCache s)
                 w (requested s ++ [url]))
              (trace r)).

(** [textSearchCache.get(key)] and [.set(key, value)], the clock read
    from the world outside; and the same for the other two caches. *)
Definition textSearchCache_get (key : string)
  : M (ImagesState Num W) (option (list (GoogleTextSearchResult Num))) :=
  fun r =>
    let s := world r in
    let (found, c) := TtlCache_get (textSearchCache s) key (Date_now env (outside s)) in
    (Returned found,
     mkRun (mkImagesState (detailsCache s) c (photoRedirectCache s) (outside s) (requested s))
           (trace r)).

Definition textSearchCache_set (key : string) (value : list (GoogleTextSearchResult Num))
  : M (ImagesState Num W) unit :=
  fun r =>
    let s := world r in
    let c := TtlCache_set (textSearchCache s) key value None (Date_now env (outside s)) in
    (Returned tt,
     mkRun (mkImagesState (detailsCache s) c (photoRedirectCache s) (outside s) (requested s))
           (trace r)).

Definition detailsCache_get (key : string)
  : M (ImagesState Num W) (option (GooglePlaceDetailsResult Num)) :=
  fun r =>
    let s := world r in
    let (found, c) := TtlCache_get (detailsCache s) key (Date_now env (outside s)) in
    (Returned found,
     mkRun (mkImagesState c (textSearchCache s) (photoRedirectCache s) (outside s) (requested s))
           (trace r)).

Definition detailsCache_set (key : string) (value : GooglePlaceDetailsResult Num)
  : M (ImagesState Num W) unit :=
  fun r =>
    let s := world r in
    let c := TtlCache_set (detailsCache s) key value None (Date_now env (outside s)) in
    (Returned tt,
     mkRun (mkImagesState c (textSearchCache s) (photoRedirectCache s) (outside s) (requested s))
           (trace r)).

Definition photoRedirectCache_get (key : string) : M (ImagesState Num W) (option string) :=
  fun r =>
    let s := world r in
    let (found, c) := TtlCache_get (photoRedirectCache s) key (Date_now env (outside s)) in
    (Returned found,
     mkRun (mkImagesState (detailsCache s) (textSearchCache s) c (outside s) (requested s))
           (trace r)).

Definition photoRedirectCache_set (key : string) (value : string)
  : M (ImagesState Num W) unit :=
  fun r =>
    let s := world r in
    let c := TtlCache_set (photoRedirectCache s) key value None (Date_now env (outside s)) in
    (Returned tt,
     mkRun (mkImagesState (detailsCache s) (textSearchCache s) c (outside s) (requested s))
           (trace r)).

(** The tail of the two failure messages:
    [${data.error_message ? ` (${data.error_message})` : ""}]. *)
Definition errorTail (error_message : option string) : string :=
  match error_message with
  | Some text => if truthy text then " (" ++ text ++ ")" else ""
  | None => ""
  end.

Definition textSearchKey (query : string) : string :=
  "textsearch::" ++ trim (toLowerCase query).

Definition textSearchUrl (query key : string) : string :=
  "https://maps.googleapis.com/maps/api/place/textsearch/json"
  ++ "?query=" ++ encodeURIComponent env query
  ++ "&key=" ++ encodeURIComponent env key.

(** [(r) => r?.place_id && r?.name] as a condition. *)
Definition namedResult (r : GoogleTextSearchResult Num) : bool :=
  truthy (sr_place_id r) && truthy (sr_name r).

Definition googleTextSearch (query : string)
  : M (ImagesState Num W) (list (GoogleTextSearchResult Num)) :=
  let cacheKey := textSearchKey query in
  cached <- textSearchCache_get cacheKey ;;
  match cached with
  | Some results => ret results
  | None =>
      key <- requireGoogleKey ;;
      let url := textSearchUrl query key in
      data <- request (getTextSearch env) url ;;
      if negb (ts_status data =? "OK") && negb (ts_status data =? "ZERO_RESULTS")
      then throw ("Google Places textsearch failed: " ++ ts_status data
                  ++ errorTail (ts_error_message data))
      else
        let results := filter namedResult (orElse (ts_results data) []) in
        _ <- textSearchCache_set cacheKey results ;;
        ret results
  end.

Definition detailsFields : string :=
  join ["place_id"; "name"; "formatted_address"; "rating"; "user_ratings_total"; "url"; "photos"]
       ",".

Definition detailsUrl (placeId key : string) : string :=
  "https://maps.googleapis.com/maps/api/place/details/json"
  ++ "?place_id=" ++ encodeURIComponent env placeId
  ++ "&fields=" ++ encodeURIComponent env detailsFields
  ++ "&key=" ++ encodeURIComponent env key.

Definition googlePlaceDetails (placeId : string)
  : M (ImagesState Num W) (option (GooglePlaceDetailsResult Num)) :=
  let cacheKey := ("details::" ++ placeId)%string in
  cached <- detailsCache_get cacheKey ;;
  match cached with
  | Some result => ret (Some result)
  | None =>
      key <- requireGoogleKey ;;
      let url := detailsUrl placeId key in
      data <- request (getPlaceDetails env) url ;;
      if negb (dr_status data =? "OK") then
        if (dr_status data =? "ZERO_RESULTS") || (dr_status data =? "NOT_FOUND")
        then ret None
        else throw ("Google Place details failed: " ++ dr_status data
                    ++ errorTail (dr_error_message data))
      else
        match dr_result data with
        | Some result =>
            if negb (truthy (pd_place_id result)) then ret None
            else
              _ <- detailsCache_set cacheKey result ;;
              ret (Some result)
        | None => ret None
        end
  end.

Definition photoUrl (photoRef : string) (maxWidth : Z) (key : string) : string :=
  "https://maps.googleapis.com/maps/api/place/photo"
  ++ "?maxwidth=" ++ encodeURIComponent env (showZ maxWidth)
  ++ "&photoreference=" ++ encodeURIComponent env photoRef
  ++ "&key=" ++ encodeURIComponent env key.

Definition isRedirect (status : Z) : bool :=
  ((status =? 301) || (status =? 302) || (status =? 303) || (status =? 307)
   || (status =? 308))%Z.

(** [resolvePhotoRedirect(photoRef, maxWidth)]; [None] is [null]. *)
Definition resolvePhotoRedirect (photoRef : string) (maxWidth : Z)
  : M (ImagesState Num W) (option string) :=
  let cacheKey := ("photo::" ++ photoRef ++ "::" ++ showZ maxWidth)%string in
  cached <- photoRedirectCache_get cacheKey ;;
  if truthyOpt cached then ret cached
  else
    key <- requireGoogleKey ;;
    let url := photoUrl photoRef maxWidth key in
    res <- request (fetchManual env) url ;;
    let status := fst res in
    let location := snd res in
    if isRedirect status && truthyOpt location then
      _ <- photoRedirectCache_set cacheKey (orEmpty location) ;;
      ret location
    else ret None.

(** The loop of both resolvers over the photo references:
    [for (const ref of photoRefs) { ... if (finalUrl) imageUrls.push(finalUrl); }],
    from the [imageUrls] collected so far. *)
Fixpoint resolvePhotos (photoRefs : list string) (imageUrls : list string)
  : M (ImagesState Num W) (list string) :=
  match photoRefs with
  | [] => ret imageUrls
  | ref :: photoRefs' =>
      finalUrl <- resolvePhotoRedirect ref 1600 ;;
      resolvePhotos photoRefs' (if truthyOpt finalUrl then imageUrls ++ [orEmpty finalUrl]
                                else imageUrls)
  end.

(** [Math.max(1, Math.min(n ?? fallback, top))], for whole numbers. *)
Definition clamp (n : option Z) (fallback top : Z) : Z :=
  Z.max 1 (Z.min (orElse n fallback) top).

(** [array.slice(0, n)] for a whole [n]. *)
Definition sliceTo {A : Type} (n : Z) (items : list A) : list A :=
  firstn (Z.to_nat n) items.

Definition photoRefsOf (photos : list string) (limit : Z) : list string :=
  sliceTo limit (uniqStrings (map Some photos)).

(** images.ts, [resolvePlaceMedia]; [None] is [null]. *)
Definition resolvePlaceMedia (name city : string) (maxImages : option Z)
  : M (ImagesState Num W) (option (PlaceMedia Num)) :=
  let name := trim name in
  let city := trim city in
  if negb (truthy name) || negb (truthy city) then ret None
  else
    let maxImages := clamp maxImages 5 10 in
    let query := (name ++ " " ++ city)%string in
    results <- googleTextSearch query ;;
    match results with
    | [] => ret None
    | best :: _ =>
        if negb (truthy (sr_place_id best)) then ret None
        else
          details <- googlePlaceDetails (sr_place_id best) ;;
          let photos := orElse (orElseOpt (optField details pd_photos) (sr_photos best)) [] in
          let photoRefs := photoRefsOf photos maxImages in
          imageUrls <- resolvePhotos photoRefs [] ;;
          ret (Some (mkPlaceMedia
                       (sr_place_id best)
                       (orElse (optField details pd_name) (sr_name best))
                       (orElseOpt (optField details pd_formatted_address)
                                  (sr_formatted_address best))
                       (orElseOpt (optField details pd_rating) (sr_rating best))
                       (orElseOpt (optField details pd_user_ratings_total)
                                  (sr_user_ratings_total best))
                       (orElse (optField details pd_url) (mapsPlaceIdUrl (sr_place_id best)))
                       imageUrls))
    end.

(** The loop of [getHotelsForCity] over the hotels kept, from the [out]
    collected so far. *)
Fixpoint resolveHotels (hotels : list (GoogleTextSearchResult Num)) (maxImagesPerHotel : Z)
  (out : list (HotelOption Num)) : M (ImagesState Num W) (list (HotelOption Num)) :=
  match hotels with
  | [] => ret out
  | h :: hotels' =>
      details <- googlePlaceDetails (sr_place_id h) ;;
      let photos := orElse (orElseOpt (optField details pd_photos) (sr_photos h)) [] in
      let photoRefs := photoRefsOf photos maxImagesPerHotel in
      imageUrls <- resolvePhotos photoRefs [] ;;
      resolveHotels hotels' maxImagesPerHotel
        (out ++ [mkHotelOption
                   (orElse (optField details pd_name) (sr_name h))
                   (orElseOpt (optField details pd_formatted_address) (sr_formatted_address h))
                   (orElseOpt (optField details pd_rating) (sr_rating h))
                   (orElseOpt (optField details pd_user_ratings_total)
                              (sr_user_ratings_total h))
                   (orElse (optField details pd_url) (mapsPlaceIdUrl (sr_place_id h)))
                   imageUrls])
  end.

(** images.ts, [getHotelsForCity]. *)
Definition getHotelsForCity (city : string) (maxHotels maxImagesPerHotel : option Z)
  : M (ImagesState Num W) (list (HotelOption Num)) :=
  let city := trim city in
  if negb (truthy city) then ret []
  else
    let maxHotels := clamp maxHotels 10 20 in
    let maxImagesPerHotel := clamp maxImagesPerHotel 6 10 in
    results <- googleTextSearch ("best hotels in " ++ city) ;;
    let hotels := sliceTo maxHotels (filter namedResult results) in
    resolveHotels hotels maxImagesPerHotel [].

End Images.

(* ================================================================== *)
(** * 9. Specification-side definitions                                *)
(* ================================================================== *)

(** The vocabulary of the properties proved below: what the
    specification says in its own words, the invariants and measures the
    proofs use, and the inputs of the worked examples. *)

(** ** 9.1 Projection and dedupe *)

(** Each string of a list at its first occurrence only. *)
Fixpoint firstOccurrences (l : list string) : list string :=
  match l with
  | [] => []
  | x :: l' => x :: filter (fun y => negb (String.eqb y x)) (firstOccurrences l')
  end.

(** [a] is met in [l] for the first time before [b] is met at all. *)
Definition seenBefore (l : list string) (a b : string) : Prop :=
  exists p1 p2, l = p1 ++ a :: p2 /\ ~ In a p1 /\ ~ In b p1.

(** What the claims ask of one projected list: [out] for the category
    [cat] under the cap [n]. *)
Definition projectionSpec (cat : Category) (n : nat) (cands : list Candidate)
  (out : list string) : Prop :=
  let names := map trim (namesOf cat cands) in
  NoDup out
  /\ (forall x, In x out ->
        x <> "" /\ exists c, In c cands /\ c_category c = cat /\ trim (c_name c) = x)
  /\ List.length out = Nat.min n (List.length (nodup string_dec (filter truthy names)))
  /\ (forall l1 a l2 b l3, out = l1 ++ a :: l2 ++ b :: l3 -> seenBefore names a b)
  /\ (forall a b, In a out -> In b names -> b <> "" -> ~ In b out -> seenBefore names a b).

(** The loop invariant of [dedupe] after the candidates [pre]. *)
Definition dedupeInv (pre : list Candidate) (st : list string * list Candidate) : Prop :=
  let (seen, out) := st in
  seen = map dedupeKey out
  /\ NoDup seen
  /\ (forall c, In c out ->
        dedupeKey c <> ""
        /\ exists p1 p2, pre = p1 ++ c :: p2
                         /\ forall c', In c' p1 -> dedupeKey c' <> dedupeKey c)
  /\ (forall c, In c pre -> dedupeKey c <> "" -> In (dedupeKey c) seen).

(** A candidate of a given name and category. *)
Definition cand (n : string) (cat : Category) : Candidate :=
  mkCandidate n cat "https://example.org" None.

(** The three candidates of the deduplication example, in one category. *)
Definition cafes (cat : Category) : list Candidate :=
  [cand "Cafe A" cat; cand "cafe a " cat; cand "Cafe B" cat].

(** ** 9.2 String-aware brace depth *)

(** Where a unit of JSON text stands: outside every string literal,
    inside one, or inside one right after a backslash. *)
Inductive LexMode := Outside | Inside | Escaped.

(** The mode after the unit [c]: a double quote opens and closes a
    literal; inside one, a backslash protects the unit after it. *)
Definition lexNext (m : LexMode) (c : ascii) : LexMode :=
  match m with
  | Outside => if Ascii.eqb c dquote then Inside else Outside
  | Inside =>
      if Ascii.eqb c backslash then Escaped
      else if Ascii.eqb c dquote then Outside else Inside
  | Escaped => Inside
  end.

(** What one unit adds to the brace depth: a brace counts outside string
    literals only. *)
Definition braceWeight (m : LexMode) (c : ascii) : Z :=
  match m with
  | Outside => if Ascii.eqb c lbrace then 1 else if Ascii.eqb c rbrace then -1 else 0
  | _ => 0
  end.

(** The change of brace depth over [s], read from mode [m]. *)
Fixpoint braceDelta (m : LexMode) (s : string) : Z :=
  match s with
  | "" => 0
  | String c s' => braceWeight m c + braceDelta (lexNext m c) s'
  end.

(** The string-aware brace depth at the end of [s]. *)
Definition stringAwareDepth (s : string) : Z := braceDelta Outside s.

(** The length of the shortest non-empty prefix of [t] that ends at
    depth zero. *)
Definition firstBalanced (t : string) : option nat :=
  find (fun n => (stringAwareDepth (substring 0 n t) =? 0)%Z) (seq 1 (String.length t)).

(** The claim's reading of [extractFirstJsonSlice] for an object. *)
Definition balancedObjectSlice (raw : string) : Outcome string :=
  match indexOf raw lbrace with
  | None => Thrown "No JSON found"
  | Some start =>
      let t := substring start (String.length raw - start) raw in
      match firstBalanced t with
      | Some n => Returned (substring 0 n t)
      | None => Thrown "Unterminated JSON"
      end
  end.

(** The loop variables of [extractFirstJsonSlice] at depth [d] in mode
    [m]. *)
Definition stateOf (d : Z) (m : LexMode) : ScanState :=
  match m with
  | Outside => mkScanState d false false
  | Inside => mkScanState d true false
  | Escaped => mkScanState d true true
  end.

(** The lexical mode at the end of [s], read from mode [m]. *)
Fixpoint lexAfter (m : LexMode) (s : string) : LexMode :=
  match s with
  | "" => m
  | String c s' => lexAfter (lexNext m c) s'
  end.

(** ** 9.3 What each rule of the validator finds *)

(** The findings of each rule, stated rule by rule and independently of
    every other rule. *)

Definition dayCountFindings (trip : TripRequest) (itinerary : Itinerary) : list string :=
  if (Z.of_nat (List.length (days itinerary)) =? tripLengthDays trip)%Z then []
  else [msgDayCount (List.length (days itinerary)) (tripLengthDays trip)].

Definition dayNumberFindings (trip : TripRequest) (itinerary : Itinerary) : list string :=
  flat_map
    (fun i => match nth_error (sortNumbers (map d_day (days itinerary))) (i - 1) with
              | Some d => if (d =? Z.of_nat i)%Z then [] else [msgDayNumber i]
              | None => [msgDayNumber i]
              end)
    (seq 1 (Z.to_nat (tripLengthDays trip))).

Definition paceFindings (trip : TripRequest) (day : DayPlan) : list string :=
  if paceOk (pace trip) (List.length (d_blocks day)) then []
  else [msgPace (d_day day) (List.length (d_blocks day)) (pace trip)].

Definition notesFindings (day : DayPlan) : list string :=
  if (List.length (d_notes day) <? 2)%nat then [msgNotes (d_day day)] else [].

Definition blockFindings (allowed : list string) (day : DayPlan) (b : DayBlock) : list string :=
  (if isTimeRange (b_time b) then [] else [msgTime (d_day day) (b_time b)])
  ++ (if Array_includes allowed (b_title b) then [] else [msgAttraction (b_title b)])
  ++ (if includes (toLowerCase (b_title b)) "lunch" || includes (toLowerCase (b_title b)) "dinner"
      then [msgDining (b_title b)] else []).

Definition restaurantFindings (allowed : list string) (meal : string) : list string :=
  match extractRestaurantNameFromMeal meal with
  | None => [msgMealFormat meal]
  | Some rest => if Array_includes allowed rest then [] else [msgRestaurant rest]
  end.

Definition vegetarianFindings (trip : TripRequest) (meal : string) : list string :=
  if Array_includes (constraints trip) "vegetarian"
     && negb (existsb (fun h => includes (toLowerCase meal) h) vegHints)
  then [msgVegetarian meal] else [].

Definition mealFindings (trip : TripRequest) (allowed : list string) (meal : string)
  : list string :=
  restaurantFindings allowed meal ++ vegetarianFindings trip meal.

Definition mealsFindings (trip : TripRequest) (allowed : list string) (day : DayPlan)
  : list string :=
  (if existsb (fun m => startsWith m "Lunch:") (d_meals day) then [] else [msgLunch (d_day day)])
  ++ (if existsb (fun m => startsWith m "Dinner:") (d_meals day) then []
      else [msgDinner (d_day day)])
  ++ flat_map (mealFindings trip allowed) (d_meals day).

Definition rainFindings (allowed : list string) (rb : string) : list string :=
  if Array_includes allowed rb then [] else [msgRainBackup rb].

(** All findings, rule after rule in the order of the source. *)
Definition allFindings (trip : TripRequest) (itinerary : Itinerary)
  (allowedAttractions allowedRestaurants allowedIndoorBackups : list string) : list string :=
  dayCountFindings trip itinerary
  ++ dayNumberFindings trip itinerary
  ++ flat_map (paceFindings trip) (days itinerary)
  ++ flat_map notesFindings (days itinerary)
  ++ flat_map (fun day => flat_map (blockFindings allowedAttractions day) (d_blocks day))
       (days itinerary)
  ++ flat_map (mealsFindings trip allowedRestaurants) (days itinerary)
  ++ flat_map (rainFindings allowedIndoorBackups) (rainBackups itinerary).

(** ** 9.4 Messages and ranges *)

(** No unit of [s] is a space. *)
Fixpoint spaceFree (s : string) : Prop :=
  match s with
  | "" => True
  | String c s' => c <> " "%char /\ spaceFree s'
  end.

(** The block-count range of a pace, as the specification gives it. *)
Definition paceRange (p : Pace) : nat * nat :=
  match p with
  | relaxed => (2, 3)
  | balanced => (3, 4)
  | packed => (4, 6)
  end.

(** ** 9.5 The meal grammar, as the specification reads it *)

(** The text after the first colon, when there is a colon. *)
Fixpoint afterFirstColon (s : string) : option string :=
  match s with
  | "" => None
  | String c s' => if Ascii.eqb c ":" then Some s' else afterFirstColon s'
  end.

(** The text before the first occurrence of [sep], all of [s] when there
    is none. *)
Fixpoint beforeFirst (sep s : string) : string :=
  match s with
  | "" => ""
  | String c s' => if prefix sep s then "" else String c (beforeFirst sep s')
  end.

(** The restaurant portion of a meal string: of the text after the first
    colon, trimmed, what stands before the first " - ", trimmed; none
    when there is no colon or nothing is left. *)
Definition restaurantPortion (meal : string) : option string :=
  match afterFirstColon meal with
  | None => None
  | Some remainder =>
      match trim (beforeFirst " - " (trim remainder)) with
      | "" => None
      | rest => Some rest
      end
  end.

(** The dietary signals, in the order the specification lists them. *)
Definition dietarySignals : list string :=
  ["vegetarian"; "vegan"; "veg"; "plant"; "tofu"; "paneer"; "lentil"; "chickpea"; "vegetable"].

(** The lower-cased meal text holds none of the dietary signals. *)
Definition lacksDietarySignal (meal : string) : bool :=
  forallb (fun h => negb (includes (toLowerCase meal) h)) dietarySignals.

(** The meal strings of all days, in order. *)
Definition allMeals (itinerary : Itinerary) : list string :=
  flat_map d_meals (days itinerary).

(** The restaurant portion of [meal] is [rest]. *)
Definition portionIs (rest : string) (meal : string) : bool :=
  match restaurantPortion meal with
  | Some r => String.eqb r rest
  | None => false
  end.

(** [meal] has no restaurant portion. *)
Definition portionMissing (meal : string) : bool :=
  match restaurantPortion meal with
  | Some _ => false
  | None => true
  end.

(** ** 9.6 Traces of runs *)

Definition isRevise (s : Step) : bool :=
  match s with CallRevise _ => true | _ => false end.

Definition isValidator (s : Step) : bool :=
  match s with RanValidator => true | _ => false end.

(** The number of steps of a trace that satisfy [p]. *)
Definition countSteps (p : Step -> bool) (l : list Step) : nat := List.length (filter p l).

(** Every run of [m] adds steps to the trace, of which at most [nr] are
    repair calls, at most [nv] runs of the validator, and at most [n] in
    all. *)
Definition within {World A : Type} (nr nv n : nat) (m : M World A) : Prop :=
  forall r : Run World,
    exists steps,
      trace (snd (m r)) = trace r ++ steps
      /\ countSteps isRevise steps <= nr
      /\ countSteps isValidator steps <= nv
      /\ List.length steps <= n.

(** Every run of [m] adds steps to the trace, and [Q] holds of the steps
    added and the outcome. *)
Definition runs {World A : Type} (m : M World A) (Q : list Step -> Outcome A -> Prop) : Prop :=
  forall r : Run World,
    exists steps, trace (snd (m r)) = trace r ++ steps /\ Q steps (fst (m r)).

(** Steps among which there is no repair call and no run of the
    validator. *)
Definition quiet (steps : list Step) : Prop :=
  countSteps isRevise steps = 0 /\ countSteps isValidator steps = 0.

(** What a returned response holds, the validator having run [done]
    times before the steps looked at. *)
Definition responseAfter (done : nat) (trip : TripRequest) (response : PlanResponse)
  (steps : list Step) : Prop :=
  exists itinerary,
    p_itinerary response = toUiItinerary itinerary
    /\ p_validation response
       = validateItineraryProduction trip itinerary
           (allowedAttractions (p_allowedLists response))
           (allowedRestaurants (p_allowedLists response))
           (allowedIndoorBackups (p_allowedLists response))
    /\ countSteps isValidator steps + done = countSteps isRevise steps + 1
    /\ (ok (p_validation response) = false -> countSteps isRevise steps = 2).

(** What a returned response of [planFromIntake] holds: the itinerary
    the loop ended with, in its UI form; the validation of that very
    itinerary; one run of the validator more than repair calls (one
    after generation, one after each pass); and both repair calls made
    when the validation is not ok. *)
Definition responseOf (trip : TripRequest) (response : PlanResponse) (steps : list Step) : Prop :=
  responseAfter 0 trip response steps.

(** The validator on the three lists of an [AllowedLists]. *)
Definition validateWith (trip : TripRequest) (lists : AllowedLists) (itinerary : Itinerary)
  : ValidationResult :=
  validateItineraryProduction trip itinerary (allowedAttractions lists)
    (allowedRestaurants lists) (allowedIndoorBackups lists).

(** The run [r] with one more run of the validator recorded. *)
Definition validated {World : Type} (r : Run World) : Run World :=
  mkRun (world r) (trace r ++ [RanValidator]).

(** The response [planFromIntake] builds from the itinerary it ends
    with. *)
Definition responseWith (trip : TripRequest) (lists : AllowedLists) (itinerary : Itinerary)
  : PlanResponse :=
  mkPlanResponse (toUiItinerary itinerary) lists (validateWith trip lists itinerary).

(** The run of [planFromIntake] from [r] has come to its loop: the trip
    schema accepted the intake as [trip], the search returned and gave
    [lists], the generation call returned a text that was read (if need
    be after a JSON repair) as an object the itinerary schema accepted as
    [itinerary], and the first validation was made; [r0] is the run at
    that point. *)
Definition generated {World : Type} (env : Environment World) (input : Intake) (r : Run World)
  (trip : TripRequest) (lists : AllowedLists) (itinerary : Itinerary) (r0 : Run World) : Prop :=
  exists all w1 raw w2 itObj r3,
    TripRequestSchema_parse (tripObjOf env input) = Some trip
    /\ gatherCandidates env (destination trip) (world r) = (Returned all, w1)
    /\ lists = allowedListsFromCandidates_batch (assembleCandidates all)
    /\ generateItineraryOptionB env
         (mkGenerateArgs trip (allowedAttractions lists) (allowedRestaurants lists)
            (allowedIndoorBackups lists)) w1 = (Returned raw, w2)
    /\ parseJsonObjectSafe env raw
         (mkRun w2 ((trace r ++ [CallGather (destination trip)])
                    ++ [CallGenerate (mkGenerateArgs trip (allowedAttractions lists)
                                        (allowedRestaurants lists)
                                        (allowedIndoorBackups lists))]))
       = (Returned itObj, r3)
    /\ ItinerarySchema_parse itObj = Some itinerary
    /\ r0 = validated r3.

Definition msPerDay : Z := 86400000.

(** ** 9.7 Inputs of the worked examples *)

Definition sampleTrip (p : Pace) (constraints : list string) : TripRequest :=
  mkTripRequest "Chicago" 1 None None 2 mid p [] constraints [].

Definition sampleDay (blocks : nat) (meals : list string) : DayPlan :=
  mkDayPlan 1 "Loop" (repeat (mkDayBlock "09:00 AM - 11:30 AM" "Art Institute" None) blocks)
    meals ["Book ahead"; "Bring water"].

Definition sampleMeals : list string :=
  ["Lunch: Green Table - Tofu Banh Mi (Vegetarian)"; "Dinner: Green Table - Lentil Soup (Vegan)"].

Definition sampleItinerary (blocks : nat) (meals : list string) : Itinerary :=
  mkItinerary "A day in the Loop" [sampleDay blocks meals] [] [] None.

Definition sampleLists : AllowedLists :=
  mkAllowedLists ["Art Institute"] ["Green Table"] [].

(** A relaxed day with one block: invalid by the pace rule. *)
Definition thinItinerary : Itinerary := sampleItinerary 1 sampleMeals.

Definition sampleIntake (startDate endDate : string) : Intake :=
  mkIntake "Chicago" startDate endDate 2 relaxed mid [] [].

(** An outside world for worked examples: the replies the generative
    collaborators will give, in order; a call with no reply left fails. *)
Definition nextReply (w : list string) : Outcome string * list string :=
  match w with
  | [] => (Thrown "network error", [])
  | reply :: w' => (Returned reply, w')
  end.

(** [JSON.parse] on the one JSON text the examples hand to it, the empty
    object; every other text the examples produce is not JSON. *)
Definition parseEmptyObject (text : string) : option Json :=
  if String.eqb text "{}" then Some (JObj []) else None.

(** The value of a decimal digit, and of a run of digits. *)
Definition digitValue (c : ascii) : option Z :=
  let n := nat_of_ascii c in
  if ((48 <=? n) && (n <=? 57))%nat then Some (Z.of_nat (n - 48)) else None.

Fixpoint digitsValue (s : string) (acc : Z) : option Z :=
  match s with
  | "" => Some acc
  | String c s' =>
      match digitValue c with
      | Some d => digitsValue s' (10 * acc + d)%Z
      | None => None
      end
  end.

(** Days from 1970-01-01 to the civil date y-m-d. *)
Definition daysFromCivil (y m d : Z) : Z :=
  let y' := if (m <=? 2)%Z then (y - 1)%Z else y in
  let era := (y' / 400)%Z in
  let yoe := (y' - era * 400)%Z in
  let mp := ((m + 9) mod 12)%Z in
  let doy := ((153 * mp + 2) / 5 + d - 1)%Z in
  let doe := (yoe * 365 + yoe / 4 - yoe / 100 + doy)%Z in
  (era * 146097 + doe - 719468)%Z.

(** The days of month [m] of year [y] in the Gregorian calendar. *)
Definition daysInMonth (y m : Z) : Z :=
  if (m =? 2)%Z then
    if ((y mod 4 =? 0) && (negb (y mod 100 =? 0) || (y mod 400 =? 0)))%Z then 29%Z else 28%Z
  else if ((m =? 4) || (m =? 6) || (m =? 9) || (m =? 11))%Z then 30%Z
  else 31%Z.

(** [new Date(text).getTime()] for texts YYYY-MM-DDT00:00:00 in a
    runtime whose local time zone is UTC. *)
Definition utcMidnight (text : string) : option Z :=
  if ((String.length text =? 19)%nat
      && String.eqb (substring 4 1 text) "-"
      && String.eqb (substring 7 1 text) "-"
      && String.eqb (substring 10 9 text) "T00:00:00")%bool
  then
    match digitsValue (substring 0 4 text) 0,
          digitsValue (substring 5 2 text) 0,
          digitsValue (substring 8 2 text) 0 with
    | Some y, Some m, Some d =>
        if ((1 <=? m) && (m <=? 12) && (1 <=? d) && (d <=? daysInMonth y m))%Z
        then Some (daysFromCivil y m d * 86400000)%Z
        else None
    | _, _, _ => None
    end
  else None.

(** The scripted environment: every generative call takes the next
    reply; the search finds nothing. *)
Definition scripted : Environment (list string) :=
  {| JSON_parse := parseEmptyObject;
     Date_getTime := utcMidnight;
     gatherCandidates := fun _ w => (Returned [], w);
     generateItineraryOptionB := fun _ w => nextReply w;
     reviseItineraryJson := fun _ w => nextReply w;
     fixJsonOnly := fun _ _ w => nextReply w |}.

(** A block object of the examples. *)
Definition sampleBlockJson : Json :=
  JObj [("time", JStr "09:00 AM - 11:30 AM"); ("title", JStr "Art Institute")].

(** A one-day itinerary object with everything in it, its JSON text, and
    what the schema makes of it. *)
Definition fullDayJson : Json :=
  JObj [("day", JInt 1); ("theme", JStr "Loop");
        ("blocks", JArr [sampleBlockJson; sampleBlockJson]);
        ("meals", JArr [JStr "Lunch: Green Table - Tofu Banh Mi (Vegetarian)";
                        JStr "Dinner: Green Table - Lentil Soup (Vegan)"]);
        ("notes", JArr [JStr "Book ahead"; JStr "Bring water"])].

Definition fullItineraryJson : Json :=
  JObj [("summary", JStr "A day in the Loop"); ("days", JArr [fullDayJson])].

Definition sampleBlockText : string :=
  ("{" ++ quoted "time" ++ ":" ++ quoted "09:00 AM - 11:30 AM" ++ ","
       ++ quoted "title" ++ ":" ++ quoted "Art Institute" ++ "}")%string.

Definition fullItineraryText : string :=
  ("{" ++ quoted "summary" ++ ":" ++ quoted "A day in the Loop" ++ ","
       ++ quoted "days" ++ ":[{"
       ++ quoted "day" ++ ":1," ++ quoted "theme" ++ ":" ++ quoted "Loop" ++ ","
       ++ quoted "blocks" ++ ":[" ++ sampleBlockText ++ "," ++ sampleBlockText ++ "],"
       ++ quoted "meals" ++ ":["
       ++ quoted "Lunch: Green Table - Tofu Banh Mi (Vegetarian)" ++ ","
       ++ quoted "Dinner: Green Table - Lentil Soup (Vegan)" ++ "],"
       ++ quoted "notes" ++ ":[" ++ quoted "Book ahead" ++ "," ++ quoted "Bring water" ++ "]"
       ++ "}]}")%string.

(** [JSON.parse] on the one JSON text of this example. *)
Definition parseFullItinerary (text : string) : option Json :=
  if String.eqb text fullItineraryText then Some fullItineraryJson else None.

(** The scripted environment, reading [fullItineraryText]. *)
Definition scriptedItinerary : Environment (list string) :=
  {| JSON_parse := parseFullItinerary;
     Date_getTime := utcMidnight;
     gatherCandidates := fun _ w => (Returned [], w);
     generateItineraryOptionB := fun _ w => nextReply w;
     reviseItineraryJson := fun _ w => nextReply w;
     fixJsonOnly := fun _ _ w => nextReply w |}.

(** A run with three replies of that text to come, the trip of one day
    the examples ask for, and the lists when the search finds nothing. *)
Definition threeReplies : Run (list string) :=
  mkRun [fullItineraryText; fullItineraryText; fullItineraryText] [].

Definition dayTrip : TripRequest :=
  mkTripRequest "Chicago" 1 (Some "2024-05-08") (Some "2024-05-08") 2 mid relaxed [] [] [].

Definition noLists : AllowedLists := mkAllowedLists [] [] [].

(** ** 9.17 Values on the heap *)

(** The array of strings [l] is what [v] refers to in [h]. *)
Definition stringArray (h : Js.Heap) (v : Js.Value) (l : list string) : Prop :=
  exists a, v = Js.VRef a /\ nth_error h a = Some (Js.CArray (map Js.VString l)).

Definition blockAt (h : Js.Heap) (v : Js.Value) (b : DayBlock) : Prop :=
  exists a fields,
    v = Js.VRef a /\ nth_error h a = Some (Js.CObject fields)
    /\ Js.lookup fields "time" = Js.VString (b_time b)
    /\ Js.lookup fields "title" = Js.VString (b_title b).

Definition dayAt (h : Js.Heap) (v : Js.Value) (d : DayPlan) : Prop :=
  exists a fields ab blockValues,
    v = Js.VRef a /\ nth_error h a = Some (Js.CObject fields)
    /\ Js.lookup fields "day" = Js.VNumber (d_day d)
    /\ Js.lookup fields "blocks" = Js.VRef ab
    /\ nth_error h ab = Some (Js.CArray blockValues)
    /\ Forall2 (blockAt h) blockValues (d_blocks d)
    /\ stringArray h (Js.lookup fields "meals") (d_meals d)
    /\ stringArray h (Js.lookup fields "notes") (d_notes d).

Definition itineraryAt (h : Js.Heap) (v : Js.Value) (itinerary : Itinerary) : Prop :=
  exists a fields ad dayValues,
    v = Js.VRef a /\ nth_error h a = Some (Js.CObject fields)
    /\ Js.lookup fields "days" = Js.VRef ad
    /\ nth_error h ad = Some (Js.CArray dayValues)
    /\ Forall2 (dayAt h) dayValues (days itinerary)
    /\ stringArray h (Js.lookup fields "rainBackups") (rainBackups itinerary).

Definition tripAt (h : Js.Heap) (v : Js.Value) (trip : TripRequest) : Prop :=
  exists a fields,
    v = Js.VRef a /\ nth_error h a = Some (Js.CObject fields)
    /\ Js.lookup fields "tripLengthDays" = Js.VNumber (tripLengthDays trip)
    /\ Js.lookup fields "pace" = Js.VString (Pace_text (pace trip))
    /\ stringArray h (Js.lookup fields "constraints") (constraints trip).

(** The [ValidationResult] an object of the heap holds. *)
Definition resultAt (h : Js.Heap) (v : Js.Value) : option ValidationResult :=
  match v with
  | Js.VRef a =>
      match nth_error h a with
      | Some (Js.CObject fields) =>
          match Js.lookup fields "ok", Js.lookup fields "violations" with
          | Js.VBool flag, Js.VRef av =>
              match nth_error h av with
              | Some (Js.CArray items) =>
                  match traverse Js.stringOf items with
                  | Some strings => Some (mkValidationResult flag strings)
                  | None => None
                  end
              | _ => None
              end
          | _, _ => None
          end
      | _ => None
      end
  | _ => None
  end.

(** The heap of a call under way: the heap [h0] the call found, then the
    [violations] array of the call, then what else the call has made. *)
Definition during (h0 : Js.Heap) (violations : list string) (made : list Js.Cell) : Js.Heap :=
  h0 ++ Js.CArray (map Js.VString violations) :: made.

(** What a call has made when it returns: the sorted day numbers, the
    three sets and the result object. *)
Definition madeBy (h0 : Js.Heap) (itinerary : Itinerary) (aA aR aI : list string)
  (result : ValidationResult) : list Js.Cell :=
  [Js.CArray (map Js.VNumber (sortNumbers (map d_day (days itinerary))));
   Js.CSet (map Js.VString (Set_of aA));
   Js.CSet (map Js.VString (Set_of aR));
   Js.CSet (map Js.VString (Set_of aI));
   Js.CObject [("ok", Js.VBool (ok result)); ("violations", Js.VRef (List.length h0))]].

(** The arguments of a call as [h] holds them. *)
Definition argumentsAt (h : Js.Heap) (vt vi va vr vb : Js.Value) (trip : TripRequest)
  (itinerary : Itinerary) (aA aR aI : list string) : Prop :=
  tripAt h vt trip /\ itineraryAt h vi itinerary
  /\ stringArray h va aA /\ stringArray h vr aR /\ stringArray h vb aI.

(** A heap for a worked example: the trip at 0, the itinerary of one day
    and one block at 2, the three allowed lists at 10, 11 and 12. *)
Definition sampleHeap : Js.Heap :=
  [Js.CObject [("destination", Js.VString "Chicago"); ("tripLengthDays", Js.VNumber 1);
               ("pace", Js.VString "relaxed"); ("constraints", Js.VRef 1)];
   Js.CArray [];
   Js.CObject [("summary", Js.VString "A day in the Loop"); ("days", Js.VRef 3);
               ("mustBook", Js.VRef 9); ("rainBackups", Js.VRef 9)];
   Js.CArray [Js.VRef 4];
   Js.CObject [("day", Js.VNumber 1); ("theme", Js.VString "Loop"); ("blocks", Js.VRef 5);
               ("meals", Js.VRef 7); ("notes", Js.VRef 8)];
   Js.CArray [Js.VRef 6];
   Js.CObject [("time", Js.VString "09:00 AM - 11:30 AM"); ("title", Js.VString "Art Institute")];
   Js.CArray (map Js.VString sampleMeals);
   Js.CArray [Js.VString "Book ahead"; Js.VString "Bring water"];
   Js.CArray [];
   Js.CArray (map Js.VString (allowedAttractions sampleLists));
   Js.CArray (map Js.VString (allowedRestaurants sampleLists));
   Js.CArray (map Js.VString (allowedIndoorBackups sampleLists))].

(** The heap after one call on it. *)
Definition sampleHeapAfter : Js.Heap :=
  snd (Js.validateItineraryProduction (Js.VRef 0) (Js.VRef 2) (Js.VRef 10) (Js.VRef 11)
         (Js.VRef 12) sampleHeap).

(** ** 9.8 Valid itineraries, rule by rule *)

(** The days carry the numbers 1..n, each once, in any order, and there
    are [n] of them. *)
Definition numberedOneToN (n : Z) (ds : list DayPlan) : Prop :=
  Z.of_nat (List.length ds) = n
  /\ Permutation (map d_day ds) (map Z.of_nat (seq 1 (List.length ds))).

Definition validBlock (allowedAttractions : list string) (b : DayBlock) : Prop :=
  isTimeRange (b_time b) = true
  /\ In (b_title b) allowedAttractions
  /\ includes (toLowerCase (b_title b)) "lunch" = false
  /\ includes (toLowerCase (b_title b)) "dinner" = false.

Definition validMeal (trip : TripRequest) (allowedRestaurants : list string) (meal : string)
  : Prop :=
  (exists rest, extractRestaurantNameFromMeal meal = Some rest /\ In rest allowedRestaurants)
  /\ (In "vegetarian" (constraints trip) ->
      exists h, In h vegHints /\ includes (toLowerCase meal) h = true).

Definition validDay (trip : TripRequest) (allowedAttractions allowedRestaurants : list string)
  (day : DayPlan) : Prop :=
  paceOk (pace trip) (List.length (d_blocks day)) = true
  /\ 2 <= List.length (d_notes day)
  /\ (forall b, In b (d_blocks day) -> validBlock allowedAttractions b)
  /\ (exists m, In m (d_meals day) /\ startsWith m "Lunch:" = true)
  /\ (exists m, In m (d_meals day) /\ startsWith m "Dinner:" = true)
  /\ (forall meal, In meal (d_meals day) -> validMeal trip allowedRestaurants meal).

Definition validItinerary (trip : TripRequest) (itinerary : Itinerary)
  (allowedAttractions allowedRestaurants allowedIndoorBackups : list string) : Prop :=
  numberedOneToN (tripLengthDays trip) (days itinerary)
  /\ (forall day, In day (days itinerary) ->
        validDay trip allowedAttractions allowedRestaurants day)
  /\ (forall rb, In rb (rainBackups itinerary) -> In rb allowedIndoorBackups).

(** [l1] is [l2] with some of its members left out. *)
Inductive Subsequence {A : Type} : list A -> list A -> Prop :=
| Subsequence_nil : Subsequence [] []
| Subsequence_keep (x : A) (l1 l2 : list A) : Subsequence l1 l2 -> Subsequence (x :: l1) (x :: l2)
| Subsequence_drop (x : A) (l1 l2 : list A) : Subsequence l1 l2 -> Subsequence l1 (x :: l2).

(** The hints of [vegHints] that no other hint is part of. *)
Definition coreVegHints : list string :=
  ["veg"; "plant"; "tofu"; "paneer"; "lentil"; "chickpea"].

(** ** 9.9 What the schemas guarantee *)

Definition boundedBlock (b : DayBlock) : Prop :=
  b_time b <> "" /\ b_title b <> "".

Definition boundedDay (day : DayPlan) : Prop :=
  (1 <= d_day day)%Z
  /\ d_theme day <> ""
  /\ 2 <= List.length (d_blocks day)
  /\ 2 <= List.length (d_meals day)
  /\ forall b, In b (d_blocks day) -> boundedBlock b.

Definition boundedItinerary (itinerary : Itinerary) : Prop :=
  summary itinerary <> ""
  /\ 1 <= List.length (days itinerary)
  /\ forall day, In day (days itinerary) -> boundedDay day.

(** A JSON text of the examples: a day of two blocks and two meals that
    leaves its notes out. *)
Definition sampleDayJson : Json :=
  JObj [("day", JInt 1); ("theme", JStr "Loop");
        ("blocks", JArr [sampleBlockJson; sampleBlockJson]);
        ("meals", JArr [JStr "Lunch: Green Table - Tofu Banh Mi (Vegetarian)";
                        JStr "Dinner: Green Table - Lentil Soup (Vegan)"])].

Definition sampleItineraryJson : Json :=
  JObj [("summary", JStr "A day in the Loop"); ("days", JArr [sampleDayJson])].

(** What [sampleItineraryJson] parses to. *)
Definition sampleParsedItinerary : Itinerary :=
  mkItinerary "A day in the Loop"
    [mkDayPlan 1 "Loop" (repeat (mkDayBlock "09:00 AM - 11:30 AM" "Art Institute" None) 2)
       sampleMeals []]
    [] [] None.

(** ** 9.10 Reading a timeline *)

Definition isActivity (item : UiTimelineItem) : bool :=
  match item with UiActivity _ _ _ => true | UiMeal _ _ _ _ => false end.

Definition isMealOfType (mealType : string) (item : UiTimelineItem) : bool :=
  match item with
  | UiActivity _ _ _ => false
  | UiMeal _ t _ _ => String.eqb t mealType
  end.

(** The timeline item of a block. *)
Definition activityOf (b : DayBlock) : UiTimelineItem :=
  UiActivity (b_time b) (b_title b) (b_details b).

(** The first meal whose text starts with [label] in any letter case. *)
Definition firstLabelled (label : string) (meals : list string) : option string :=
  find (fun m => startsWith (toLowerCase m) label) meals.

(** The timeline item made of the meal text [meal]. *)
Definition mealItem (time mealType label meal : string) : UiTimelineItem :=
  UiMeal time mealType
    (fst (placeAndDish (dropMealLabel label meal)))
    (snd (placeAndDish (dropMealLabel label meal))).

Definition lunchItem : string -> UiTimelineItem :=
  mealItem "12:15 PM - 01:15 PM" "Lunch" "lunch:".

Definition dinnerItem : string -> UiTimelineItem :=
  mealItem "06:30 PM - 08:00 PM" "Dinner" "dinner:".

(** The place a timeline item shows, for a meal. *)
Definition placeOf (item : UiTimelineItem) : option string :=
  match item with
  | UiActivity _ _ _ => None
  | UiMeal _ _ place _ => place
  end.

Definition count01 (b : bool) : nat := if b then 1 else 0.

(** ** 9.13 Reading the pool *)

(** The candidates of one category. *)
Definition ofCategory (cat : Category) (cs : list Candidate) : list Candidate :=
  filter (fun c => Category_eqb (c_category c) cat) cs.

(** The trimmed names of candidates. *)
Definition trimmedNames (cs : list Candidate) : list string :=
  map (fun c => trim (c_name c)) cs.

(** ** 9.14 Histories of a cache *)

(** A call on a cache, with the clock reading at the call. *)
Inductive CacheOp (T : Type) : Type :=
| CacheGet (key : string) (now : Z)
| CacheSet (key : string) (value : T) (ttlMs : option Z) (now : Z).
Arguments CacheGet {T} _ _.
Arguments CacheSet {T} _ _ _ _.

Definition opTime {T : Type} (op : CacheOp T) : Z :=
  match op with CacheGet _ now => now | CacheSet _ _ _ now => now end.

Definition applyOp {T : Type} (c : TtlCache T) (op : CacheOp T) : TtlCache T :=
  match op with
  | CacheGet key now => snd (TtlCache_get c key now)
  | CacheSet key value ttlMs now => TtlCache_set c key value ttlMs now
  end.

Definition runOps {T : Type} (c : TtlCache T) (ops : list (CacheOp T)) : TtlCache T :=
  fold_left applyOp ops c.

(** The value and expiry time of the last [set] of [key] among [ops]. *)
Fixpoint lastSet {T : Type} (default : Z) (key : string) (ops : list (CacheOp T))
  : option (T * Z) :=
  match ops with
  | [] => None
  | op :: ops' =>
      match lastSet default key ops' with
      | Some found => Some found
      | None =>
          match op with
          | CacheSet k value ttlMs now =>
              if String.eqb k key
              then Some (value, (now + match ttlMs with Some t => t | None => default end)%Z)
              else None
          | CacheGet _ _ => None
          end
      end
  end.

(** ** 9.11 What the calls of a run carry *)

(** Every generation call among [steps] carries [trip] and [lists];
    every repair call carries them too, with the one standing fix, an
    itinerary that is not valid and the violations of that very
    itinerary. *)
Definition callsAgree (trip : TripRequest) (lists : AllowedLists) (steps : list Step) : Prop :=
  (forall gargs, In (CallGenerate gargs) steps ->
     gargs = mkGenerateArgs trip (allowedAttractions lists) (allowedRestaurants lists)
               (allowedIndoorBackups lists))
  /\ (forall args, In (CallRevise args) steps ->
        args = reviseArgs trip (r_itinerary args) fixViolations lists
                 (validateWith trip lists (r_itinerary args))
        /\ ok (validateWith trip lists (r_itinerary args)) = false).

(** No generation and no repair call among [steps]. *)
Definition noModelCall (steps : list Step) : Prop :=
  (forall gargs, ~ In (CallGenerate gargs) steps)
  /\ (forall args, ~ In (CallRevise args) steps).

Section RunLists.
Context {World : Type} (env : Environment World).

(** The allowed lists of a run of [planFromIntake]: the projection of
    the pool assembled from what the search returns in the world the run
    starts in. *)
Definition listsOfRun (trip : TripRequest) (r : Run World) : AllowedLists :=
  match gatherCandidates env (destination trip) (world r) with
  | (Returned all, _) => allowedListsFromCandidates_batch (assembleCandidates all)
  | (Thrown _, _) => mkAllowedLists [] [] []
  end.

End RunLists.

(** ** 9.12 What a returned value is known to satisfy *)

(** Whenever [m] returns a value, [Q] holds of it. *)
Definition ensures {World A : Type} (m : M World A) (Q : A -> Prop) : Prop :=
  forall (r r' : Run World) (a : A), m r = (Returned a, r') -> Q a.

(** [itinerary] is what [ItinerarySchema.parse] made of some object. *)
Definition schemaParsed (itinerary : Itinerary) : Prop :=
  exists obj, ItinerarySchema_parse obj = Some itinerary.

(** ** 9.15 The plan endpoint *)

(** What the trip schema still refuses of an intake the intake schema
    let through. *)
Definition refusedLate {World : Type} (env : Environment World) (input : Intake) : Prop :=
  (20 < in_travelers input)%Z
  \/ match inclusiveDayCount env (in_startDate input) (in_endDate input) with
     | Some n => (30 < n)%Z
     | None => True
     end.

(** ** 9.16 Requests of the media resolvers *)

(** Whether the process has a key for the Places API. *)
Definition hasKey {Num W : Type} (env : ImagesEnv Num W) : bool :=
  truthyOpt (GOOGLE_MAPS_API_KEY env).

(** Every run of [m] adds at most [n] requests, none without a key, and
    [Q] holds of its outcome. *)
Definition requestsAtMost {Num W A : Type} (env : ImagesEnv Num W) (n : nat)
  (m : M (ImagesState Num W) A) (Q : Outcome A -> Prop) : Prop :=
  forall r : Run (ImagesState Num W),
    exists urls,
      requested (world (snd (m r))) = requested (world r) ++ urls
      /\ List.length urls <= n
      /\ (hasKey env = false -> urls = [])
      /\ Q (fst (m r)).

(** Image addresses as the resolvers give them: at most [limit], none
    empty. *)
Definition imagesWithin (limit : Z) (imageUrls : list string) : Prop :=
  (Z.of_nat (List.length imageUrls) <= limit)%Z /\ Forall (fun u => u <> "") imageUrls.

(** A world for worked examples: the search always finds one place
    without photos, nothing else answers, and the clock stands still. *)
Definition onePlace : GoogleTextSearchResult Z :=
  mkGoogleTextSearchResult "p1" "Art Institute" None None None None.

Definition quietPlaces : ImagesEnv Z unit :=
  mkImagesEnv (Some "k") (fun s => s) (fun _ => 0%Z)
    (fun _ w => (Returned (mkGoogleTextSearchResponse "OK" None (Some [onePlace])), w))
    (fun _ w => (Thrown "network error", w))
    (fun _ w => (Thrown "network error", w)).

(** The state after a first search for one place in that world. *)
Definition afterOneSearch : Run (ImagesState Z unit) :=
  snd (googleTextSearch quietPlaces "Art Institute Chicago" (mkRun (freshImages tt) [])).

(* ================================================================== *)
(** * 10. Lemmas on strings, sets and lists                            *)
(* ================================================================== *)

Lemma truthy_true (s : string) : truthy s = true <-> s <> "".
Proof. destruct s; simpl; split; intros; congruence. Qed.

Lemma Set_has_In (s : list string) (x : string) : Set_has s x = true <-> In x s.
Proof.
  unfold Set_has. rewrite existsb_exists. split.
  - intros (y & Hy & E). apply String.eqb_eq in E. now subst.
  - intros H. exists x. split; [assumption | apply String.eqb_refl].
Qed.

Lemma Set_has_false (s : list string) (x : string) : Set_has s x = false <-> ~ In x s.
Proof.
  rewrite <- Set_has_In. destruct (Set_has s x); split; intros; congruence.
Qed.

Lemma Set_has_app (s t : list string) (x : string) :
  Set_has (s ++ t) x = Set_has s x || Set_has t x.
Proof. unfold Set_has. apply existsb_app. Qed.

Lemma filter_filter_weaken {A : Type} (P Q : A -> bool) (l : list A) :
  (forall y, P y = true -> Q y = true) -> filter P (filter Q l) = filter P l.
Proof.
  intros H. induction l as [|y l IH]; simpl; [reflexivity|].
  destruct (Q y) eqn:EQ; simpl.
  - now rewrite IH.
  - destruct (P y) eqn:EP; [apply H in EP; congruence | exact IH].
Qed.

Lemma filter_filter_and {A : Type} (P Q : A -> bool) (l : list A) :
  filter P (filter Q l) = filter (fun y => Q y && P y) l.
Proof.
  induction l as [|y l IH]; simpl; [reflexivity|].
  destruct (Q y); simpl; [destruct (P y); now rewrite IH | exact IH].
Qed.

(** The set built by successive [add]s is the list of first occurrences. *)
Lemma Set_fold_firstOccurrences (l acc : list string) :
  fold_left Set_add l acc
  = acc ++ filter (fun y => negb (Set_has acc y)) (firstOccurrences l).
Proof.
  revert acc. induction l as [|x l IH]; intros acc; simpl.
  - now rewrite app_nil_r.
  - rewrite IH. unfold Set_add. destruct (Set_has acc x) eqn:Hx; simpl.
    + f_equal. symmetry. apply filter_filter_weaken.
      intros y Hy. apply negb_true_iff. apply String.eqb_neq. intros ->.
      rewrite Hx in Hy. discriminate.
    + rewrite <- app_assoc. simpl. f_equal. f_equal.
      rewrite filter_filter_and. apply filter_ext. intros y.
      rewrite Set_has_app. change (Set_has [x] y) with (String.eqb y x || false).
      now rewrite orb_false_r, negb_orb, andb_comm.
Qed.

Lemma Set_of_firstOccurrences (l : list string) : Set_of l = firstOccurrences l.
Proof.
  unfold Set_of. rewrite Set_fold_firstOccurrences. simpl.
  induction (firstOccurrences l) as [|y f IH]; simpl; [reflexivity | now f_equal].
Qed.

Lemma firstOccurrences_In (l : list string) (x : string) :
  In x (firstOccurrences l) <-> In x l.
Proof.
  induction l as [|y l IH]; simpl; [tauto|].
  rewrite filter_In, IH, negb_true_iff, String.eqb_neq.
  destruct (string_dec y x); intuition congruence.
Qed.

Lemma NoDup_filter {A : Type} (P : A -> bool) (l : list A) : NoDup l -> NoDup (filter P l).
Proof.
  induction 1 as [|y l Hy Hl IH]; simpl; [constructor|].
  destruct (P y); [constructor; [rewrite filter_In; tauto | exact IH] | exact IH].
Qed.

Lemma firstOccurrences_NoDup (l : list string) : NoDup (firstOccurrences l).
Proof.
  induction l as [|y l IH]; simpl; constructor.
  - rewrite filter_In, negb_true_iff, String.eqb_neq. tauto.
  - now apply NoDup_filter.
Qed.

(** Splitting a filtered list splits the list it came from. *)
Lemma filter_split {A : Type} (P : A -> bool) (l l1 l2 : list A) (a : A) :
  filter P l = l1 ++ a :: l2 ->
  exists m1 m2, l = m1 ++ a :: m2 /\ filter P m1 = l1 /\ filter P m2 = l2.
Proof.
  revert l1. induction l as [|y l IH]; intros l1 H; simpl in H.
  - destruct l1; discriminate.
  - destruct (P y) eqn:Py.
    + destruct l1 as [|z l1]; simpl in H; injection H as -> H.
      * exists [], l. simpl. auto.
      * destruct (IH _ H) as (m1 & m2 & -> & <- & <-).
        exists (z :: m1), m2. simpl. rewrite Py. auto.
    + destruct (IH _ H) as (m1 & m2 & -> & <- & <-).
      exists (y :: m1), m2. simpl. rewrite Py. auto.
Qed.

Lemma firstOccurrences_order (l l1 l2 l3 : list string) (a b : string) :
  firstOccurrences l = l1 ++ a :: l2 ++ b :: l3 -> seenBefore l a b.
Proof.
  revert l1 l2 l3. induction l as [|x l IH]; intros l1 l2 l3 H; simpl in H.
  - destruct l1; discriminate.
  - destruct l1 as [|z l1]; simpl in H; injection H as -> H.
    + exists [], l. simpl. auto.
    + assert (Ha : In a (filter (fun y => negb (String.eqb y z)) (firstOccurrences l)))
        by (rewrite H; apply in_or_app; right; left; reflexivity).
      assert (Hb : In b (filter (fun y => negb (String.eqb y z)) (firstOccurrences l)))
        by (rewrite H; apply in_or_app; right; right; apply in_or_app; right; left; reflexivity).
      apply filter_In in Ha. apply filter_In in Hb.
      destruct Ha as (_ & Ha). destruct Hb as (_ & Hb).
      apply negb_true_iff, String.eqb_neq in Ha. apply negb_true_iff, String.eqb_neq in Hb.
      apply filter_split in H. destruct H as (m1 & m2 & E & _ & H2).
      apply filter_split in H2. destruct H2 as (n1 & n2 & -> & _ & _).
      destruct (IH m1 n1 n2 E) as (p1 & p2 & -> & Hp1 & Hp2).
      exists (z :: p1), p2. simpl. repeat split; auto; intros [?|?]; congruence.
Qed.

Lemma in_split_first (l : list string) (a : string) :
  In a l -> exists p1 p2, l = p1 ++ a :: p2 /\ ~ In a p1.
Proof.
  induction l as [|x l IH]; simpl; [tauto|]. intros H.
  destruct (string_dec x a) as [->|N].
  - exists [], l. auto.
  - destruct H as [?|H]; [congruence|].
    destruct (IH H) as (p1 & p2 & -> & Hp). exists (x :: p1), p2.
    simpl. split; [reflexivity | intros [?|?]; auto].
Qed.

Lemma NoDup_same_length (l m : list string) :
  NoDup l -> NoDup m -> (forall x, In x l <-> In x m) -> List.length l = List.length m.
Proof.
  intros Hl Hm H. apply Nat.le_antisymm; apply NoDup_incl_length; auto;
    intros x Hx; apply H; exact Hx.
Qed.

Lemma cap_firstn {T : Type} (arr : list T) (n : nat) : cap arr n = firstn n arr.
Proof.
  unfold cap. destruct (n <? List.length arr)%nat eqn:E; [reflexivity|].
  apply Nat.ltb_ge in E. symmetry. now apply firstn_all2.
Qed.

Lemma unique_spec (arr : list string) :
  unique arr = firstOccurrences (filter truthy (map trim arr)).
Proof. apply Set_of_firstOccurrences. Qed.

Lemma namesOf_In (cat : Category) (cands : list Candidate) (x : string) :
  In x (map trim (namesOf cat cands)) ->
  exists c, In c cands /\ c_category c = cat /\ trim (c_name c) = x.
Proof.
  unfold namesOf. rewrite map_map. intros H. apply in_map_iff in H.
  destruct H as (c & <- & Hc). apply filter_In in Hc. destruct Hc as (Hc & E).
  exists c. repeat split; auto.
  destruct (c_category c), cat; simpl in E; congruence.
Qed.

Lemma seenBefore_filter_truthy (l : list string) (a b : string) :
  b <> "" -> seenBefore (filter truthy l) a b -> seenBefore l a b.
Proof.
  intros Nb (p1 & p2 & E & Ha & Hb).
  assert (Ta : truthy a = true).
  { assert (H : In a (filter truthy l)) by (rewrite E; apply in_or_app; right; left; reflexivity).
    apply filter_In in H. tauto. }
  apply filter_split in E. destruct E as (m1 & m2 & -> & <- & _).
  exists m1, m2. split; [reflexivity|]. split; intros H.
  - apply Ha. apply filter_In. auto.
  - apply Hb. apply filter_In. split; [assumption | now apply truthy_true].
Qed.

Lemma NoDup_firstn {A : Type} (n : nat) (l : list A) : NoDup l -> NoDup (firstn n l).
Proof.
  intros H. rewrite <- (firstn_skipn n l) in H. now apply NoDup_app_remove_r in H.
Qed.

Lemma In_firstn {A : Type} (n : nat) (l : list A) (x : A) : In x (firstn n l) -> In x l.
Proof.
  intros H. rewrite <- (firstn_skipn n l). apply in_or_app. now left.
Qed.

(** One projected list meets [projectionSpec]. *)
Lemma projection_correct (cat : Category) (n : nat) (cands : list Candidate) :
  projectionSpec cat n cands (cap (unique (namesOf cat cands)) n).
Proof.
  unfold projectionSpec. rewrite cap_firstn, unique_spec.
  set (names := map trim (namesOf cat cands)).
  set (L := filter truthy names).
  assert (HL : forall x, In x (firstOccurrences L) <-> In x names /\ x <> "").
  { intros x. rewrite firstOccurrences_In. unfold L. now rewrite filter_In, truthy_true. }
  pose proof (firstOccurrences_NoDup L) as ND.
  repeat split.
  - now apply NoDup_firstn.
  - apply In_firstn, HL in H. tauto.
  - apply In_firstn, HL in H. destruct H as (H & _). now apply namesOf_In.
  - rewrite length_firstn. f_equal. apply NoDup_same_length; auto.
    + apply NoDup_nodup.
    + intros x. now rewrite nodup_In, firstOccurrences_In.
  - intros l1 a l2 b l3 E.
    pose proof (firstn_skipn n (firstOccurrences L)) as S.
    rewrite E in S. repeat (rewrite <- app_assoc in S; simpl in S).
    symmetry in S.
    assert (Nb : b <> "").
    { assert (In b (firstOccurrences L)) as Hb
        by (rewrite S; apply in_or_app; right; right; apply in_or_app; right; left; reflexivity).
      apply HL in Hb. tauto. }
    apply seenBefore_filter_truthy; [exact Nb|].
    eapply firstOccurrences_order. exact S.
  - intros a b Ha Hb Nb Hout.
    apply seenBefore_filter_truthy; [exact Nb|].
    assert (Hfull : In b (firstOccurrences L)) by (apply HL; auto).
    rewrite <- (firstn_skipn n (firstOccurrences L)) in Hfull.
    apply in_app_or in Hfull. destruct Hfull as [?|Hs]; [contradiction|].
    apply in_split in Ha. destruct Ha as (l1 & l2 & Ea).
    apply in_split in Hs. destruct Hs as (m1 & m2 & Eb).
    pose proof (firstn_skipn n (firstOccurrences L)) as S.
    rewrite Ea, Eb in S. rewrite <- app_assoc in S. simpl in S.
    eapply (firstOccurrences_order L l1 (l2 ++ m1) m2).
    rewrite <- S. now rewrite <- app_assoc.
Qed.

(* ================================================================== *)
(** * 11. The allowed-list projector                                   *)
(* ================================================================== *)

(** C5.  For every candidate list, both copies of
    [allowedListsFromCandidates] return three lists (the function is
    total), and each list meets [projectionSpec] for its category and
    cap: its names are pairwise distinct; each is non-empty and is the
    trimmed name of a candidate of the matching category; its length is
    the smaller of the cap and the number of distinct non-empty trimmed
    names, so it is cut at the cap and not before; names stand in the
    order in which they are first seen, and a name left out by the cap is
    first seen after every name kept.  On the empty candidate list the
    three lists are empty. *)
Theorem allowedLists_projection (cands : list Candidate) :
  (projectionSpec attraction 25 cands (allowedAttractions (allowedListsFromCandidates cands))
   /\ projectionSpec restaurant 25 cands (allowedRestaurants (allowedListsFromCandidates cands))
   /\ projectionSpec indoor_backup 15 cands
        (allowedIndoorBackups (allowedListsFromCandidates cands)))
  /\ (projectionSpec attraction 60 cands
        (allowedAttractions (allowedListsFromCandidates_batch cands))
      /\ projectionSpec restaurant 40 cands
           (allowedRestaurants (allowedListsFromCandidates_batch cands))
      /\ projectionSpec indoor_backup 30 cands
           (allowedIndoorBackups (allowedListsFromCandidates_batch cands)))
  /\ allowedListsFromCandidates [] = mkAllowedLists [] [] []
  /\ allowedListsFromCandidates_batch [] = mkAllowedLists [] [] [].
Proof.
  split; [|split; [|split]]; try reflexivity;
    (split; [|split]); apply projection_correct.
Qed.

(** ** The candidate pool's dedupe *)

Lemma dedupeInv_step (pre : list Candidate) (st : list string * list Candidate) (c : Candidate) :
  dedupeInv pre st -> dedupeInv (pre ++ [c]) (dedupeStep st c).
Proof.
  destruct st as (seen, out). intros (Hmap & Hnd & Hout & Hall).
  assert (Hkeep : forall c0, In c0 out ->
            dedupeKey c0 <> ""
            /\ exists p1 p2, pre ++ [c] = p1 ++ c0 :: p2
                             /\ forall c', In c' p1 -> dedupeKey c' <> dedupeKey c0).
  { intros c0 H0. destruct (Hout c0 H0) as (N & p1 & p2 & -> & Hp).
    split; [exact N|]. exists p1, (p2 ++ [c]). split; [|exact Hp].
    now rewrite <- app_assoc. }
  assert (Hall' : forall c0, In c0 (pre ++ [c]) -> dedupeKey c0 <> "" ->
            In (dedupeKey c) seen \/ dedupeKey c = "" -> In (dedupeKey c0) seen).
  { intros c0 H0 N0 Hc. apply in_app_or in H0.
    destruct H0 as [H0|[<-|[]]]; [now apply Hall|]. destruct Hc; [assumption | contradiction]. }
  unfold dedupeStep. destruct (truthy (dedupeKey c)) eqn:T; simpl.
  - destruct (Set_has seen (dedupeKey c)) eqn:S.
    + split; [|split; [|split]]; auto.
      intros c0 H0 N0. apply Hall'; auto. left. now apply Set_has_In.
    + apply Set_has_false in S. unfold Set_add.
      replace (Set_has seen (dedupeKey c)) with false by (symmetry; now apply Set_has_false).
      split; [|split; [|split]].
      * rewrite map_app. simpl. now rewrite Hmap.
      * apply NoDup_app; auto.
        -- constructor; [simpl; tauto | constructor].
        -- intros x Hx [<-|[]]. contradiction.
      * intros c0 H0. apply in_app_or in H0.
        destruct H0 as [H0|[<-|[]]]; [now apply Hkeep|].
        split; [now apply truthy_true|].
        exists pre, []. split; [reflexivity|]. intros c' Hc' E. apply S.
        rewrite <- E. apply Hall; [exact Hc'|]. rewrite E. now apply truthy_true.
      * intros c0 H0 N0. apply in_or_app. apply in_app_or in H0.
        destruct H0 as [H0|[<-|[]]]; [left; now apply Hall | right; now left].
  - split; [|split; [|split]]; auto.
    intros c0 H0 N0. apply Hall'; auto. right.
    destruct (dedupeKey c); [reflexivity | discriminate].
Qed.

Lemma dedupeInv_fold (cs pre : list Candidate) (st : list string * list Candidate) :
  dedupeInv pre st -> dedupeInv (pre ++ cs) (fold_left dedupeStep cs st).
Proof.
  revert pre st. induction cs as [|c cs IH]; intros pre st H; simpl.
  - now rewrite app_nil_r.
  - replace (pre ++ c :: cs) with ((pre ++ [c]) ++ cs) by (now rewrite <- app_assoc).
    apply IH. now apply dedupeInv_step.
Qed.

Lemma dedupe_spec (cs : list Candidate) :
  NoDup (map dedupeKey (dedupe cs))
  /\ (forall c, In c (dedupe cs) ->
        dedupeKey c <> ""
        /\ exists p1 p2, cs = p1 ++ c :: p2
                         /\ forall c', In c' p1 -> dedupeKey c' <> dedupeKey c)
  /\ (forall c, In c cs -> dedupeKey c <> "" ->
        exists c', In c' (dedupe cs) /\ dedupeKey c' = dedupeKey c).
Proof.
  assert (H0 : dedupeInv [] ([], [])).
  { simpl. split; [reflexivity|]. split; [constructor|]. split; intros c []. }
  pose proof (dedupeInv_fold cs [] ([], []) H0) as H. simpl in H.
  unfold dedupe. destruct (fold_left dedupeStep cs ([], [])) as (seen, out).
  destruct H as (Hmap & Hnd & Hout & Hall). simpl. split; [|split].
  - now rewrite <- Hmap.
  - exact Hout.
  - intros c Hc N. specialize (Hall c Hc N). rewrite Hmap in Hall.
    apply in_map_iff in Hall. destruct Hall as (c' & E & Hc'). now exists c'.
Qed.

Lemma firstOccurrences_NoDup_id (l : list string) : NoDup l -> firstOccurrences l = l.
Proof.
  induction 1 as [|x l Hx Hl IH]; simpl; [reflexivity|]. rewrite IH. f_equal.
  clear IH Hl. induction l as [|y l IH]; simpl; [reflexivity|].
  destruct (String.eqb_spec y x) as [->|N]; simpl.
  - elim Hx. now left.
  - f_equal. apply IH. intros H. apply Hx. now right.
Qed.

(** Candidates of distinct keys keep distinct keys within a category. *)
Lemma keys_distinct_in_category (cat : Category) (cs : list Candidate) :
  NoDup (map dedupeKey cs) ->
  NoDup (map dedupeKey (filter (fun c => Category_eqb (c_category c) cat) cs)).
Proof.
  intros H. induction cs as [|c cs IH]; simpl; [constructor|].
  simpl in H. inversion H as [|? ? Hc Hcs]; subst.
  destruct (Category_eqb (c_category c) cat); simpl; [|now apply IH].
  constructor; [|now apply IH]. intros Hin. apply Hc.
  apply in_map_iff in Hin. destruct Hin as (y & E & Hy). apply filter_In in Hy.
  apply in_map_iff. exists y. tauto.
Qed.

Lemma toLowerCase_empty (s : string) : toLowerCase s = "" -> s = "".
Proof. destruct s; [reflexivity | discriminate]. Qed.

(** After [dedupe], a projected list is the trimmed names of the
    category's candidates, in order, cut at the cap; they differ pairwise
    even up to letter case. *)
Lemma project_after_dedupe (cat : Category) (n : nat) (cs : list Candidate) :
  let kept := filter (fun c => Category_eqb (c_category c) cat) (dedupe cs) in
  cap (unique (namesOf cat (dedupe cs))) n = firstn n (map (fun c => trim (c_name c)) kept)
  /\ NoDup (map toLowerCase (cap (unique (namesOf cat (dedupe cs))) n)).
Proof.
  intros kept. destruct (dedupe_spec cs) as (ND & Hkept & _).
  assert (NDk : NoDup (map dedupeKey kept)) by (now apply keys_distinct_in_category).
  assert (E : map toLowerCase (map (fun c => trim (c_name c)) kept) = map dedupeKey kept)
    by (now rewrite map_map).
  assert (NDt : NoDup (map (fun c => trim (c_name c)) kept)).
  { apply (NoDup_map_inv toLowerCase). now rewrite E. }
  assert (T : filter truthy (map (fun c => trim (c_name c)) kept)
              = map (fun c => trim (c_name c)) kept).
  { apply forallb_filter_id. apply forallb_forall. intros x Hx.
    apply in_map_iff in Hx. destruct Hx as (c & <- & Hc). apply truthy_true.
    apply filter_In in Hc. destruct Hc as (Hc & _). destruct (Hkept c Hc) as (N & _).
    intros Z. apply N. unfold dedupeKey. now rewrite Z. }
  assert (U : cap (unique (namesOf cat (dedupe cs))) n
              = firstn n (map (fun c => trim (c_name c)) kept)).
  { rewrite cap_firstn, unique_spec. unfold namesOf. rewrite map_map. fold kept.
    rewrite T. now rewrite firstOccurrences_NoDup_id. }
  split; [exact U|]. rewrite U, <- firstn_map, E. now apply NoDup_firstn.
Qed.

(** C2, as stated, fails: projecting the three candidates directly, the
    restaurant list is not [["Cafe A"; "Cafe B"]]; the projector tells
    names apart by their trimmed text, letter case included, and keeps
    ["cafe a"]. *)
Lemma projector_keeps_case_variants :
  allowedRestaurants (allowedListsFromCandidates (cafes restaurant)) <> ["Cafe A"; "Cafe B"]
  /\ allowedRestaurants (allowedListsFromCandidates (cafes restaurant))
     = ["Cafe A"; "cafe a"; "Cafe B"].
Proof. split; [vm_compute; discriminate | vm_compute; reflexivity]. Qed.

(** C2, amended.  The identity of a candidate by its lower-cased trimmed
    name is that of the pool builder's [dedupe], which runs before the
    projection: on the three candidates, [dedupe] keeps the candidates
    named "Cafe A" and "Cafe B", and followed by either copy of the
    projector yields exactly [["Cafe A"; "Cafe B"]] in the list of their
    category, the first-seen candidate standing with its own spelling.  In general [dedupe] keeps candidates of pairwise distinct
    non-empty keys, each one the first of the input with its key and
    unchanged, and every non-empty key of the input is kept; projected
    after [dedupe], a list holds the trimmed names of the kept candidates
    of its category, in order and up to the cap, pairwise distinct even
    up to letter case.  The projector itself removes only names equal
    after trimming. *)
Theorem dedupe_then_project_cafes :
  (map c_name (dedupe (cafes restaurant)) = ["Cafe A"; "Cafe B"]
   /\ allowedRestaurants (allowedListsFromCandidates (dedupe (cafes restaurant)))
     = ["Cafe A"; "Cafe B"]
   /\ allowedAttractions (allowedListsFromCandidates (dedupe (cafes attraction)))
     = ["Cafe A"; "Cafe B"]
   /\ allowedIndoorBackups (allowedListsFromCandidates (dedupe (cafes indoor_backup)))
     = ["Cafe A"; "Cafe B"]
   /\ allowedRestaurants (allowedListsFromCandidates_batch (assembleCandidates (cafes restaurant)))
     = ["Cafe A"; "Cafe B"])
  /\ (forall cs : list Candidate,
        NoDup (map dedupeKey (dedupe cs))
        /\ (forall c, In c (dedupe cs) ->
              dedupeKey c <> ""
              /\ exists p1 p2, cs = p1 ++ c :: p2
                               /\ forall c', In c' p1 -> dedupeKey c' <> dedupeKey c)
        /\ (forall c, In c cs -> dedupeKey c <> "" ->
              exists c', In c' (dedupe cs) /\ dedupeKey c' = dedupeKey c))
  /\ (forall (cs : list Candidate) (cat : Category) (n : nat),
        let kept := filter (fun c => Category_eqb (c_category c) cat) (dedupe cs) in
        cap (unique (namesOf cat (dedupe cs))) n
        = firstn n (map (fun c => trim (c_name c)) kept)
        /\ NoDup (map toLowerCase (cap (unique (namesOf cat (dedupe cs))) n)))
  /\ (forall names : list string,
        unique names = firstOccurrences (filter truthy (map trim names))).
Proof.
  split; [repeat split; vm_compute; reflexivity|].
  split; [exact dedupe_spec|].
  split; [intros cs cat n; apply project_after_dedupe | exact unique_spec].
Qed.

(* ================================================================== *)
(** * 12. The balanced JSON slice                                      *)
(* ================================================================== *)

Lemma scanStep_stateOf (d : Z) (m : LexMode) (c : ascii) :
  scanStep lbrace rbrace (stateOf d m) c
  = (stateOf (d + braceWeight m c) (lexNext m c),
     match m with
     | Outside => if Ascii.eqb c dquote then false else (d + braceWeight m c =? 0)%Z
     | _ => false
     end).
Proof.
  destruct m; unfold scanStep; simpl.
  - destruct (Ascii.eqb_spec c dquote) as [->|Nq]; simpl.
    + now rewrite Z.add_0_r.
    + destruct (Ascii.eqb_spec c lbrace) as [->|Nl]; simpl.
      * reflexivity.
      * destruct (Ascii.eqb c rbrace); simpl; [reflexivity | now rewrite Z.add_0_r].
  - rewrite Z.add_0_r.
    destruct (Ascii.eqb c backslash); [reflexivity|].
    destruct (Ascii.eqb c dquote); reflexivity.
  - now rewrite Z.add_0_r.
Qed.

Lemma braceWeight_bounds (m : LexMode) (c : ascii) :
  (-1 <= braceWeight m c <= 1)%Z
  /\ (braceWeight m c <> 0%Z -> m = Outside /\ Ascii.eqb c dquote = false).
Proof.
  destruct m; simpl; try (split; [lia | congruence]).
  destruct (Ascii.eqb_spec c lbrace) as [->|]; [split; [lia | auto]|].
  destruct (Ascii.eqb_spec c rbrace) as [->|]; [split; [lia | auto]|].
  split; [lia | congruence].
Qed.

Lemma find_pointwise {A : Type} (f g : A -> bool) (l : list A) :
  (forall a, f a = g a) -> find f l = find g l.
Proof.
  intros H. induction l as [|x l IH]; simpl; [reflexivity|].
  rewrite H. destruct (g x); [reflexivity | exact IH].
Qed.

Lemma find_seq_shift (f : nat -> bool) (a len : nat) :
  find f (seq (S a) len) = option_map S (find (fun k => f (S k)) (seq a len)).
Proof.
  revert a. induction len as [|len IH]; intros a; simpl; [reflexivity|].
  destruct (f (S a)); [reflexivity | apply IH].
Qed.

Lemma find_seq_head (f : nat -> bool) (len : nat) :
  find f (seq 1 (S len))
  = if f 1 then Some 1 else option_map S (find (fun k => f (S k)) (seq 1 len)).
Proof.
  cbn [seq find]. destruct (f 1); [reflexivity | apply find_seq_shift].
Qed.

Lemma substring_0_0 (s : string) : substring 0 0 s = "".
Proof. now destruct s. Qed.

(** The loop, entered at positive depth, returns at the first prefix of
    what remains that brings the depth to zero. *)
Lemma scanFrom_find (rest : string) (i : nat) (d : Z) (m : LexMode) :
  (0 < d)%Z ->
  scanFrom lbrace rbrace rest i (stateOf d m)
  = option_map (fun k => i + k - 1)
      (find (fun k => (d + braceDelta m (substring 0 k rest) =? 0)%Z)
            (seq 1 (String.length rest))).
Proof.
  revert i d m. induction rest as [|c rest IH]; intros i d m Hd; [reflexivity|].
  cbn [String.length]. rewrite find_seq_head.
  rewrite (find_pointwise _
             (fun k => (d + braceWeight m c
                        + braceDelta (lexNext m c) (substring 0 k rest) =? 0)%Z))
    by (intros k; cbn [substring braceDelta]; now rewrite Z.add_assoc).
  cbn [substring]. rewrite substring_0_0. cbn [braceDelta]. rewrite Z.add_0_r.
  cbn [scanFrom]. rewrite scanStep_stateOf.
  destruct (braceWeight_bounds m c) as (Hb & Hw).
  destruct (d + braceWeight m c =? 0)%Z eqn:E.
  - assert (braceWeight m c <> 0%Z) as N by (apply Z.eqb_eq in E; lia).
    destruct (Hw N) as (-> & ->). simpl. f_equal. lia.
  - apply Z.eqb_neq in E.
    replace (match m with
             | Outside => if Ascii.eqb c dquote then false else false
             | _ => false
             end) with false by (destruct m; [destruct (Ascii.eqb c dquote)|..]; reflexivity).
    rewrite IH by lia.
    destruct (find _ (seq 1 (String.length rest))) as [k|] eqn:F; simpl; [|reflexivity].
    f_equal. apply find_some in F. destruct F as (F & _). apply in_seq in F. lia.
Qed.

Lemma indexOf_substring (raw : string) (c : ascii) (start : nat) :
  indexOf raw c = Some start ->
  exists t, substring start (String.length raw - start) raw = String c t.
Proof.
  revert start. induction raw as [|d raw IH]; intros start H; simpl in H; [discriminate|].
  destruct (Ascii.eqb_spec d c) as [->|N].
  - injection H as <-. simpl. exists raw. f_equal.
    clear. induction raw as [|e raw IH]; simpl; [reflexivity | now f_equal].
  - destruct (indexOf raw c) as [j|]; [|discriminate]. injection H as <-.
    simpl. now apply IH.
Qed.

Lemma substring_substring (s : string) (a len n : nat) :
  n <= len -> substring 0 n (substring a len s) = substring a n s.
Proof.
  revert a len n. induction s as [|c s IH]; intros a len n H.
  - destruct a, len, n; reflexivity.
  - destruct a as [|a]; simpl.
    + destruct len as [|len]; destruct n as [|n]; simpl; try reflexivity; try lia.
      f_equal. apply IH. lia.
    + now apply IH.
Qed.

Lemma length_substring_tail (s : string) (a : nat) :
  String.length (substring a (String.length s - a) s) = String.length s - a.
Proof.
  revert a. induction s as [|c s IH]; intros a; destruct a; simpl; try reflexivity.
  - f_equal. specialize (IH 0). now rewrite Nat.sub_0_r in IH.
  - apply IH.
Qed.

Lemma indexOf_none (s : string) (c : ascii) :
  indexOf s c = None <-> forall i, get i s <> Some c.
Proof.
  induction s as [|d s IH]; simpl.
  - split; [intros _ i; destruct i; discriminate | reflexivity].
  - destruct (Ascii.eqb_spec d c) as [->|N].
    + split; [discriminate | intros H; now specialize (H 0)].
    + destruct (indexOf s c) as [j|].
      * split; [discriminate|]. intros H. exfalso.
        assert (Some j = None) as X; [|discriminate X].
        apply IH. intros i. exact (H (S i)).
      * split; [|reflexivity]. intros _ [|i]; [congruence|].
        destruct IH as (IH & _). now apply IH.
Qed.

Lemma braceDelta_snoc (m : LexMode) (p : string) (c : ascii) :
  braceDelta m (p ++ String c "")
  = (braceDelta m p + braceWeight (lexAfter m p) c)%Z.
Proof.
  revert m. induction p as [|d p IH]; intros m; simpl.
  - lia.
  - rewrite IH. lia.
Qed.

Lemma substring_snoc (s : string) (k : nat) :
  k < String.length s ->
  exists c, substring 0 (S k) s = (substring 0 k s ++ String c "")%string.
Proof.
  revert k. induction s as [|d s IH]; intros k H; simpl in H; [lia|].
  destruct k as [|k].
  - exists d. simpl. now rewrite substring_0_0.
  - destruct (IH k) as (c & E); [lia|]. exists c.
    change (substring 0 (S (S k)) (String d s)) with (String d (substring 0 (S k) s)).
    rewrite E. reflexivity.
Qed.

Lemma length_substring_prefix (s : string) (n : nat) :
  n <= String.length s -> String.length (substring 0 n s) = n.
Proof.
  revert n. induction s as [|c s IH]; intros n H; simpl in H.
  - now replace n with 0 by lia.
  - destruct n; simpl; [reflexivity|]. f_equal. apply IH. lia.
Qed.

Lemma find_seq_first (f : nat -> bool) (a len n : nat) :
  find f (seq a len) = Some n ->
  a <= n < a + len /\ f n = true /\ forall k, a <= k < n -> f k = false.
Proof.
  revert a. induction len as [|len IH]; intros a H; simpl in H; [discriminate|].
  destruct (f a) eqn:Fa.
  - injection H as <-. repeat split; auto; lia.
  - destruct (IH _ H) as (Hn & Hf & Hk). repeat split; auto; try lia.
    intros k Hk'. destruct (Nat.eq_dec k a) as [->|]; [assumption | apply Hk; lia].
Qed.

(** The shape of a balanced slice: it opens with the left brace, closes
    with a right brace, ends at depth zero and is above depth zero at
    every unit before its end. *)
Lemma firstBalanced_shape (t : string) (n : nat) :
  firstBalanced (String lbrace t) = Some n ->
  let s := substring 0 n (String lbrace t) in
  String.length s = n
  /\ (exists body, s = String lbrace body)
  /\ (exists body, s = (body ++ String rbrace "")%string)
  /\ stringAwareDepth s = 0%Z
  /\ forall k, 1 <= k < n -> (0 < stringAwareDepth (substring 0 k s))%Z.
Proof.
  unfold firstBalanced. intros F. apply find_seq_first in F.
  destruct F as (Hn & Hz & Hfirst). apply Z.eqb_eq in Hz.
  set (u := String lbrace t) in *.
  assert (Pos : forall k, 1 <= k < n -> (0 < stringAwareDepth (substring 0 k u))%Z).
  { intros k. induction k as [|k IH]; [lia|]. intros Hk.
    destruct (Nat.eq_dec k 0) as [->|Nk].
    - unfold u. cbn [substring]. rewrite substring_0_0. vm_compute. reflexivity.
    - assert (0 < stringAwareDepth (substring 0 k u))%Z as Hp by (apply IH; lia).
      destruct (substring_snoc u k) as (c & E); [lia|].
      pose proof (Hfirst (S k) ltac:(lia)) as Nz. apply Z.eqb_neq in Nz.
      unfold stringAwareDepth in *. rewrite E, braceDelta_snoc in *.
      pose proof (braceWeight_bounds (lexAfter Outside (substring 0 k u)) c) as (B & _).
      lia. }
  cbv zeta. split; [apply length_substring_prefix; lia|].
  split; [|split; [|split]].
  - destruct n as [|n]; [lia|]. unfold u. cbn [substring]. eauto.
  - destruct n as [|n]; [lia|].
    destruct (substring_snoc u n) as (c & E); [lia|]. rewrite E.
    exists (substring 0 n u). f_equal.
    unfold stringAwareDepth in Hz. rewrite E, braceDelta_snoc in Hz.
    assert (0 <= braceDelta Outside (substring 0 n u))%Z as Hp.
    { destruct (Nat.eq_dec n 0) as [->|Nn].
      - rewrite substring_0_0. simpl. lia.
      - specialize (Pos n ltac:(lia)). unfold stringAwareDepth in Pos. lia. }
    destruct (Nat.eq_dec n 0) as [->|Nn].
    + rewrite substring_0_0 in Hz. unfold u in E. cbn [substring] in E.
      rewrite substring_0_0 in E. injection E as <-. vm_compute in Hz. discriminate Hz.
    + specialize (Pos n ltac:(lia)). unfold stringAwareDepth in Pos.
      destruct (lexAfter Outside (substring 0 n u)); cbn [braceWeight] in Hz; try lia.
      revert Hz. destruct (Ascii.eqb c lbrace); [lia|].
      destruct (Ascii.eqb c rbrace) eqn:Ec; [|lia].
      apply Ascii.eqb_eq in Ec. now rewrite Ec.
  - exact Hz.
  - intros k Hk. rewrite substring_substring by lia. now apply Pos.
Qed.

(** C3.  For every input string, [extractFirstJsonSlice] with the braces
    is [balancedObjectSlice]: it starts from the first left brace; it
    returns the shortest non-empty stretch from there at whose end the
    string-aware brace depth is back at zero, the depth counting a brace
    only outside double-quoted literals, a backslash inside a literal
    protecting the unit after it; it throws "No JSON found" exactly when
    the string holds no left brace, and "Unterminated JSON" when a left
    brace is there and no stretch from the first one ends at depth
    zero.  A slice it returns opens with the left brace and closes with
    the right brace that brings the depth back to zero: the depth is zero
    at its end and above zero at every unit before. *)
Theorem extractFirstJsonSlice_balanced (raw : string) :
  extractFirstJsonSlice raw lbrace rbrace = balancedObjectSlice raw
  /\ (extractFirstJsonSlice raw lbrace rbrace = Thrown "No JSON found"
      <-> forall i, get i raw <> Some lbrace)
  /\ (extractFirstJsonSlice raw lbrace rbrace = Thrown "Unterminated JSON"
      <-> exists start,
            indexOf raw lbrace = Some start
            /\ forall n, 1 <= n <= String.length raw - start ->
                 stringAwareDepth (substring start n raw) <> 0%Z)
  /\ (forall s, extractFirstJsonSlice raw lbrace rbrace = Returned s ->
        (exists body, s = String lbrace body)
        /\ (exists body, s = (body ++ String rbrace "")%string)
        /\ stringAwareDepth s = 0%Z
        /\ forall k, 1 <= k < String.length s ->
             (0 < stringAwareDepth (substring 0 k s))%Z).
Proof.
  assert (Main : extractFirstJsonSlice raw lbrace rbrace = balancedObjectSlice raw).
  { unfold extractFirstJsonSlice, balancedObjectSlice.
    destruct (indexOf raw lbrace) as [start|] eqn:I; [|reflexivity].
    destruct (indexOf_substring _ _ _ I) as (t & Et).
    cbv zeta. rewrite Et. unfold firstBalanced.
    cbn [String.length]. rewrite find_seq_head.
    rewrite (find_pointwise _ (fun k => (1 + braceDelta Outside (substring 0 k t) =? 0)%Z))
      by (intros k; reflexivity).
    cbn [substring]. rewrite substring_0_0.
    change (stringAwareDepth (String lbrace "") =? 0)%Z with false. cbv iota.
    cbn [scanFrom].
    change (mkScanState 0 false false) with (stateOf 0 Outside).
    rewrite scanStep_stateOf.
    change (Ascii.eqb lbrace dquote) with false.
    change (braceWeight Outside lbrace) with 1%Z.
    change (lexNext Outside lbrace) with Outside.
    cbn [Z.add Z.eqb].
    rewrite scanFrom_find by lia.
    destruct (find _ (seq 1 (String.length t))) as [k|] eqn:F; simpl; [|reflexivity].
    apply find_some in F. destruct F as (F & _). apply in_seq in F.
    f_equal. unfold slice.
    change (String lbrace (substring 0 k t)) with (substring 0 (S k) (String lbrace t)).
    rewrite <- Et.
    rewrite substring_substring.
    - f_equal. lia.
    - pose proof (length_substring_tail raw start) as L. rewrite Et in L.
      cbn [String.length] in L. lia. }
  split; [exact Main|]. split; [|split].
  3:{ intros s. rewrite Main. unfold balancedObjectSlice.
      destruct (indexOf raw lbrace) as [start|] eqn:I; [|discriminate].
      destruct (indexOf_substring _ _ _ I) as (t & Et). cbv zeta. rewrite Et.
      destruct (firstBalanced (String lbrace t)) as [n|] eqn:F; [|discriminate].
      destruct (firstBalanced_shape t n F) as (L & H1 & H2 & H3 & H4).
      set (slice' := substring 0 n (String lbrace t)) in *.
      intros [= <-]. rewrite L. auto. }
  - rewrite <- indexOf_none. rewrite Main. unfold balancedObjectSlice.
    destruct (indexOf raw lbrace) as [start|]; [|tauto].
    cbv zeta. destruct (firstBalanced _); split; discriminate.
  - rewrite Main. unfold balancedObjectSlice.
    destruct (indexOf raw lbrace) as [start|] eqn:I.
    + destruct (indexOf_substring _ _ _ I) as (t & Et).
      pose proof (length_substring_tail raw start) as L. rewrite Et in L.
      cbn [String.length] in L.
      cbv zeta. unfold firstBalanced. rewrite Et.
      destruct (find _ _) as [n|] eqn:F.
      * split; [discriminate|]. intros (s' & [= <-] & H). exfalso.
        apply find_some in F. destruct F as (Fin & F). apply in_seq in Fin.
        cbn [String.length] in Fin.
        apply Z.eqb_eq in F. apply (H n); [lia|].
        rewrite <- F. f_equal. rewrite <- Et. symmetry. apply substring_substring. lia.
      * split; [|reflexivity]. intros _. exists start. split; [reflexivity|].
        intros n Hn D.
        assert (In n (seq 1 (String.length (String lbrace t)))) as Hin
          by (apply in_seq; cbn [String.length]; lia).
        pose proof (find_none _ _ F n Hin) as X. cbv beta in X.
        rewrite <- Et in X. rewrite substring_substring in X by lia.
        rewrite D in X. discriminate.
    + split; [discriminate|]. intros (s' & [=] & _).
Qed.

(* ================================================================== *)
(** * 13. The validator's list, rule by rule                           *)
(* ================================================================== *)

Lemma fold_push {A : Type} (body : list string -> A -> list string) (f : A -> list string) :
  (forall v x, body v x = v ++ f x) ->
  forall l v, fold_left body l v = v ++ flat_map f l.
Proof.
  intros H l. induction l as [|x l IH]; intros v; simpl.
  - now rewrite app_nil_r.
  - now rewrite IH, H, <- app_assoc.
Qed.

Lemma Set_of_has (l : list string) (x : string) : Set_has (Set_of l) x = Array_includes l x.
Proof.
  rewrite Set_of_firstOccurrences. unfold Array_includes.
  fold (Set_has l x). apply eq_true_iff_eq. rewrite !Set_has_In. apply firstOccurrences_In.
Qed.

Lemma paceBody_findings trip v day : paceBody trip v day = v ++ paceFindings trip day.
Proof.
  unfold paceBody, paceFindings, push. destruct (paceOk _ _); simpl;
    [now rewrite app_nil_r | reflexivity].
Qed.

Lemma notesBody_findings v day : notesBody v day = v ++ notesFindings day.
Proof.
  unfold notesBody, notesFindings, push. destruct (_ <? _)%nat;
    [reflexivity | now rewrite app_nil_r].
Qed.

Lemma blockBody_findings allowed day v b :
  blockBody (Set_of allowed) day v b = v ++ blockFindings allowed day b.
Proof.
  unfold blockBody, blockFindings, push. rewrite Set_of_has.
  destruct (isTimeRange _), (Array_includes _ _), (_ || _); simpl;
    repeat rewrite <- app_assoc; simpl; try rewrite app_nil_r; reflexivity.
Qed.

Lemma blocksBody_findings allowed v day :
  blocksBody (Set_of allowed) v day = v ++ flat_map (blockFindings allowed day) (d_blocks day).
Proof. unfold blocksBody. apply fold_push. intros. apply blockBody_findings. Qed.

Lemma mealBody_findings trip allowed v meal :
  mealBody trip (Set_of allowed) v meal = v ++ mealFindings trip allowed meal.
Proof.
  unfold mealBody, mealFindings, restaurantFindings, vegetarianFindings, push.
  cbv zeta. set (hinted := existsb _ vegHints).
  destruct (extractRestaurantNameFromMeal meal) as [rest|];
    [rewrite Set_of_has; destruct (Array_includes allowed rest)|];
    destruct (Array_includes (constraints trip) "vegetarian"), hinted;
    cbn [andb negb app]; rewrite <- ?app_assoc, ?app_nil_r; reflexivity.
Qed.

Lemma mealsBody_findings trip allowed v day :
  mealsBody trip (Set_of allowed) v day = v ++ mealsFindings trip allowed day.
Proof.
  unfold mealsBody, mealsFindings.
  rewrite (fold_push _ _ (mealBody_findings trip allowed)). unfold push.
  destruct (existsb _ (d_meals day)), (existsb _ (d_meals day)); simpl;
    repeat rewrite <- app_assoc; simpl; reflexivity.
Qed.

Lemma rainBody_findings allowed v rb :
  rainBody (Set_of allowed) v rb = v ++ rainFindings allowed rb.
Proof.
  unfold rainBody, rainFindings, push. rewrite Set_of_has.
  destruct (Array_includes _ _); simpl; [now rewrite app_nil_r | reflexivity].
Qed.

Lemma dayNumberBody_findings dayNums v i :
  dayNumberBody dayNums v i
  = v ++ match nth_error dayNums (i - 1) with
         | Some d => if (d =? Z.of_nat i)%Z then [] else [msgDayNumber i]
         | None => [msgDayNumber i]
         end.
Proof.
  unfold dayNumberBody, push. destruct (nth_error _ _) as [d|]; [|reflexivity].
  destruct (d =? _)%Z; simpl; [now rewrite app_nil_r | reflexivity].
Qed.

(** The array the validator returns is the concatenation of what every
    rule finds. *)
Lemma validate_findings trip itinerary aA aR aI :
  violations (validateItineraryProduction trip itinerary aA aR aI)
  = allFindings trip itinerary aA aR aI.
Proof.
  unfold validateItineraryProduction, allFindings. cbv zeta. cbn [violations].
  rewrite (fold_push _ _ (rainBody_findings aI)).
  rewrite (fold_push _ _ (mealsBody_findings trip aR)).
  rewrite (fold_push _ _ (blocksBody_findings aA)).
  rewrite (fold_push _ _ notesBody_findings).
  rewrite (fold_push _ _ (paceBody_findings trip)).
  rewrite (fold_push _ _ (dayNumberBody_findings _)).
  unfold dayCountFindings, dayNumberFindings, push.
  destruct (_ =? _)%Z; simpl; repeat rewrite <- app_assoc; reflexivity.
Qed.

Lemma validate_ok trip itinerary aA aR aI :
  ok (validateItineraryProduction trip itinerary aA aR aI) = true
  <-> violations (validateItineraryProduction trip itinerary aA aR aI) = [].
Proof.
  unfold validateItineraryProduction. cbv zeta. cbn [ok violations].
  rewrite Nat.eqb_eq. apply length_zero_iff_nil.
Qed.

(* ================================================================== *)
(** * 14. Telling the messages apart                                   *)
(* ================================================================== *)

Lemma append_single_inj (s t : string) (c : ascii) :
  (s ++ String c "")%string = (t ++ String c "")%string -> s = t.
Proof.
  revert t. induction s as [|a s IH]; intros [|b t] H; simpl in H.
  - reflexivity.
  - injection H as _ H. destruct t; discriminate.
  - injection H as _ H. destruct s; discriminate.
  - injection H as -> H. f_equal. now apply IH.
Qed.

Lemma quoted_inj (s t : string) : quoted s = quoted t -> s = t.
Proof. unfold quoted. intros [= H]. now apply append_single_inj in H. Qed.

(** Unfold the message templates down to their literal heads. *)
Ltac open_messages :=
  unfold msgDayCount, msgDayNumber, msgPace, msgNotes, msgTime, msgAttraction, msgDining,
    msgLunch, msgDinner, msgMealFormat, msgRestaurant, msgVegetarian, msgRainBackup in *;
  cbn [append] in *.

(** Close a goal that has a hypothesis equating messages of two rules
    whose literal heads differ. *)
Ltac other_rule :=
  open_messages;
  match goal with
  | H : String _ _ = String _ _ |- _ => discriminate H
  end.

Lemma count_occ_flat_map_none {A : Type} (f : A -> list string) (l : list A) (x : string) :
  (forall y, In y l -> ~ In x (f y)) -> count_occ string_dec (flat_map f l) x = 0.
Proof.
  intros H. apply count_occ_not_In. intros Hin. apply in_flat_map in Hin.
  destruct Hin as (y & Hy & Hx). exact (H y Hy Hx).
Qed.

Lemma count_occ_flat_map {A : Type} (f : A -> list string) (l : list A) (x : string) :
  count_occ string_dec (flat_map f l) x
  = list_sum (map (fun y => count_occ string_dec (f y) x) l).
Proof.
  induction l as [|y l IH]; simpl; [reflexivity|]. now rewrite count_occ_app, IH.
Qed.

Lemma list_sum_indicator {A : Type} (p : A -> bool) (l : list A) :
  list_sum (map (fun y => if p y then 1 else 0) l) = List.length (filter p l).
Proof.
  induction l as [|y l IH]; simpl; [reflexivity|]. destruct (p y); simpl; now rewrite IH.
Qed.

Lemma list_sum_flat_map {A B : Type} (g : A -> list B) (h : B -> nat) (l : list A) :
  list_sum (map (fun y => list_sum (map h (g y))) l) = list_sum (map h (flat_map g l)).
Proof.
  induction l as [|y l IH]; simpl; [reflexivity|].
  now rewrite map_app, list_sum_app, IH.
Qed.

Lemma list_sum_zero {A : Type} (h : A -> nat) (l : list A) :
  (forall y, In y l -> h y = 0) -> list_sum (map h l) = 0.
Proof.
  intros H. induction l as [|y l IH]; simpl; [reflexivity|].
  rewrite H by (now left). apply IH. intros z Hz. apply H. now right.
Qed.

Lemma list_sum_ext_in {A : Type} (g h : A -> nat) (l : list A) :
  (forall y, In y l -> g y = h y) -> list_sum (map g l) = list_sum (map h l).
Proof.
  intros H. induction l as [|y l IH]; simpl; [reflexivity|].
  rewrite H by (now left). f_equal. apply IH. intros z Hz. apply H. now right.
Qed.

Lemma count_occ_single (x y : string) :
  count_occ string_dec [y] x = if String.eqb y x then 1 else 0.
Proof.
  simpl. destruct (string_dec y x) as [->|N].
  - now rewrite String.eqb_refl.
  - apply String.eqb_neq in N. now rewrite N.
Qed.

(** ** Attraction messages *)

Lemma blockFindings_attraction (allowed : list string) (day : DayPlan) (b : DayBlock)
  (title : string) :
  count_occ string_dec (blockFindings allowed day b) (msgAttraction title)
  = if negb (Array_includes allowed title) && String.eqb (b_title b) title then 1 else 0.
Proof.
  unfold blockFindings. rewrite !count_occ_app.
  assert (T : count_occ string_dec
                (if isTimeRange (b_time b) then [] else [msgTime (d_day day) (b_time b)])
                (msgAttraction title) = 0).
  { destruct (isTimeRange _); [reflexivity|]. apply count_occ_not_In.
    intros [H|[]]. other_rule. }
  assert (D : count_occ string_dec
                (if includes (toLowerCase (b_title b)) "lunch"
                    || includes (toLowerCase (b_title b)) "dinner"
                 then [msgDining (b_title b)] else [])
                (msgAttraction title) = 0).
  { destruct (_ || _); [|reflexivity]. apply count_occ_not_In.
    intros [H|[]]. other_rule. }
  rewrite T, D, Nat.add_0_r. cbn [Nat.add].
  destruct (String.eqb_spec (b_title b) title) as [<-|N].
  - destruct (Array_includes allowed (b_title b)); [reflexivity|].
    rewrite count_occ_single. now rewrite String.eqb_refl.
  - rewrite andb_false_r.
    destruct (Array_includes allowed (b_title b)); [reflexivity|].
    rewrite count_occ_single.
    destruct (String.eqb_spec (msgAttraction (b_title b)) (msgAttraction title)) as [E|];
      [|reflexivity].
    unfold msgAttraction in E. cbn [append] in E. exfalso. apply N.
    apply quoted_inj. congruence.
Qed.

(** C7.  One call of the validator returns, in one list and in the order
    of the source, everything every rule finds: the list is
    [allFindings], the findings of the day-count rule, then of the
    day-number rule, then per day of the pace rule, the notes rule, the
    block rules and the meal rules, then of the rain-backup rule, none
    cut short by a finding before it.  In it, the message
    'Invalid attraction in blocks: "title"' stands exactly once for every
    block, over all days, whose title is [title], when [title] is not in
    the allowed attractions, and never when it is.  The flag [ok] is true
    exactly when the list is empty. *)
Theorem validator_accumulates (trip : TripRequest) (itinerary : Itinerary)
  (aA aR aI : list string) :
  violations (validateItineraryProduction trip itinerary aA aR aI)
  = allFindings trip itinerary aA aR aI
  /\ (forall title : string,
        count_occ string_dec
          (violations (validateItineraryProduction trip itinerary aA aR aI))
          (msgAttraction title)
        = if Array_includes aA title then 0
          else List.length (filter (fun b => String.eqb (b_title b) title)
                              (flat_map d_blocks (days itinerary))))
  /\ (ok (validateItineraryProduction trip itinerary aA aR aI) = true
      <-> violations (validateItineraryProduction trip itinerary aA aR aI) = []).
Proof.
  split; [apply validate_findings|]. split; [|apply validate_ok].
  intros title. rewrite validate_findings. unfold allFindings.
  rewrite !count_occ_app.
  assert (Z1 : count_occ string_dec (dayCountFindings trip itinerary) (msgAttraction title) = 0).
  { unfold dayCountFindings. destruct (_ =? _)%Z; [reflexivity|].
    apply count_occ_not_In. intros [H|[]]. other_rule. }
  assert (Z2 : count_occ string_dec (dayNumberFindings trip itinerary) (msgAttraction title) = 0).
  { apply count_occ_flat_map_none. intros i _.
    destruct (nth_error _ _) as [d|]; [destruct (d =? _)%Z|]; simpl;
      try tauto; intros [H|[]]; other_rule. }
  assert (Z3 : count_occ string_dec (flat_map (paceFindings trip) (days itinerary))
                 (msgAttraction title) = 0).
  { apply count_occ_flat_map_none. intros day _. unfold paceFindings.
    destruct (paceOk _ _); simpl; try tauto; intros [H|[]]; other_rule. }
  assert (Z4 : count_occ string_dec (flat_map notesFindings (days itinerary))
                 (msgAttraction title) = 0).
  { apply count_occ_flat_map_none. intros day _. unfold notesFindings.
    destruct (_ <? _)%nat; simpl; try tauto; intros [H|[]]; other_rule. }
  assert (Z6 : count_occ string_dec (flat_map (mealsFindings trip aR) (days itinerary))
                 (msgAttraction title) = 0).
  { apply count_occ_flat_map_none. intros day _ H. unfold mealsFindings in H.
    apply in_app_or in H. destruct H as [H|H].
    { destruct (existsb _ _); simpl in H; try tauto. destruct H as [H|[]]. other_rule. }
    apply in_app_or in H. destruct H as [H|H].
    { destruct (existsb _ _); simpl in H; try tauto. destruct H as [H|[]]. other_rule. }
    apply in_flat_map in H. destruct H as (meal & _ & H).
    unfold mealFindings, restaurantFindings, vegetarianFindings in H.
    apply in_app_or in H. destruct H as [H|H].
    - destruct (extractRestaurantNameFromMeal meal) as [r|];
        [destruct (Array_includes aR r)|]; simpl in H; try tauto;
        destruct H as [H|[]]; other_rule.
    - destruct (_ && _); simpl in H; try tauto. destruct H as [H|[]]. other_rule. }
  assert (Z7 : count_occ string_dec (flat_map (rainFindings aI) (rainBackups itinerary))
                 (msgAttraction title) = 0).
  { apply count_occ_flat_map_none. intros rb _. unfold rainFindings.
    destruct (Array_includes _ _); simpl; try tauto; intros [H|[]]; other_rule. }
  rewrite Z1, Z2, Z3, Z4, Z6, Z7. cbn [Nat.add]. rewrite Nat.add_0_r.
  rewrite count_occ_flat_map.
  rewrite (list_sum_ext_in _
             (fun day => list_sum (map (fun b => if negb (Array_includes aA title)
                                                    && String.eqb (b_title b) title
                                                 then 1 else 0) (d_blocks day))))
    by (intros day _; rewrite count_occ_flat_map; apply list_sum_ext_in;
        intros b _; apply blockFindings_attraction).
  rewrite (list_sum_flat_map d_blocks). rewrite list_sum_indicator.
  destruct (Array_includes aA title); simpl.
  - induction (flat_map d_blocks (days itinerary)) as [|b l IH]; simpl; auto.
  - reflexivity.
Qed.

(** ** Numbers inside messages *)

Lemma string_of_uint_spaceFree (d : Decimal.uint) : spaceFree (NilEmpty.string_of_uint d).
Proof. induction d; simpl; auto; split; auto; discriminate. Qed.

Lemma showZ_spaceFree (n : Z) : spaceFree (showZ n).
Proof.
  unfold showZ, NilZero.string_of_int, NilZero.string_of_uint.
  destruct (Z.to_int n) as [d|d]; [|split; [discriminate|]];
    (destruct d; [simpl; split; [discriminate | exact I] | apply string_of_uint_spaceFree ..]).
Qed.

(** Two texts that agree, each a space-free head, a space and a tail,
    agree head by head and tail by tail. *)
Lemma spaceFree_split (a b x y : string) :
  spaceFree a -> spaceFree b ->
  (a ++ String " " x)%string = (b ++ String " " y)%string -> a = b /\ x = y.
Proof.
  revert b. induction a as [|c a IH]; intros [|e b] Ha Hb H; simpl in *.
  - injection H as H. auto.
  - injection H as H _. destruct Hb as (Hb & _). congruence.
  - injection H as H _. destruct Ha as (Ha & _). congruence.
  - injection H as -> H. destruct Ha as (_ & Ha). destruct Hb as (_ & Hb).
    destruct (IH b Ha Hb H) as (-> & ->). auto.
Qed.

Lemma showZ_inj (n m : Z) : showZ n = showZ m -> n = m.
Proof.
  unfold showZ. intros H. apply DecimalZ.to_int_inj.
  assert (G : forall z, NilZero.int_of_string (NilZero.string_of_int (Z.to_int z))
                        = Some (Z.to_int z)).
  { intros z. apply NilZero.isi; destruct z; simpl; try discriminate;
      intros [= E]; now apply (DecimalPos.Unsigned.to_uint_nonnil p). }
  pose proof (G n) as Gn. rewrite H, G in Gn. congruence.
Qed.

Lemma showNat_inj (n m : nat) : showNat n = showNat m -> n = m.
Proof. unfold showNat. intros H. apply showZ_inj in H. lia. Qed.

(** Close a goal that has a hypothesis equating two "Day n ..." messages
    of different rules. *)
Ltac other_day_rule :=
  open_messages;
  match goal with
  | H : String _ _ = String _ _ |- _ =>
      injection H as H;
      apply spaceFree_split in H; [|apply showZ_spaceFree ..];
      destruct H as (_ & H); discriminate H
  end.

Lemma msgPace_inj (d d' : Z) (k k' : nat) (p : Pace) :
  msgPace d k p = msgPace d' k' p -> d = d' /\ k = k'.
Proof.
  intros H. open_messages. injection H as H.
  apply spaceFree_split in H; [|apply showZ_spaceFree ..].
  destruct H as (Hd & H). apply showZ_inj in Hd. injection H as H.
  apply spaceFree_split in H; [|apply showZ_spaceFree ..].
  destruct H as (Hk & _). apply showNat_inj in Hk. auto.
Qed.

Lemma paceOk_range (p : Pace) (blocks : nat) :
  paceOk p blocks = true <-> fst (paceRange p) <= blocks <= snd (paceRange p).
Proof.
  unfold paceOk.
  destruct p; cbn [Pace_eqb andb orb paceRange fst snd];
    rewrite ?orb_false_r, andb_true_iff, !Nat.leb_le; reflexivity.
Qed.

Lemma paceFindings_count (trip : TripRequest) (day : DayPlan) (d : Z) (k : nat) :
  count_occ string_dec (paceFindings trip day) (msgPace d k (pace trip))
  = if negb (paceOk (pace trip) k) && ((d_day day =? d)%Z && (List.length (d_blocks day) =? k)%nat)
    then 1 else 0.
Proof.
  unfold paceFindings.
  destruct ((d_day day =? d)%Z && (List.length (d_blocks day) =? k)%nat) eqn:E.
  - apply andb_true_iff in E. destruct E as (Ed & Ek).
    apply Z.eqb_eq in Ed. apply Nat.eqb_eq in Ek. subst d k.
    destruct (paceOk _ _); [reflexivity|]. rewrite count_occ_single. now rewrite String.eqb_refl.
  - rewrite andb_false_r. destruct (paceOk (pace trip) (List.length (d_blocks day)));
      [reflexivity|].
    rewrite count_occ_single.
    destruct (String.eqb_spec (msgPace (d_day day) (List.length (d_blocks day)) (pace trip))
                (msgPace d k (pace trip))) as [M|]; [|reflexivity].
    apply msgPace_inj in M. destruct M as (<- & <-).
    now rewrite Z.eqb_refl, Nat.eqb_refl in E.
Qed.

(** The pace message for day number [d] and block count [k] stands once
    for every day of that number and count, when [k] is out of range. *)
Lemma pace_count (trip : TripRequest) (itinerary : Itinerary) (aA aR aI : list string)
  (d : Z) (k : nat) :
  count_occ string_dec (violations (validateItineraryProduction trip itinerary aA aR aI))
    (msgPace d k (pace trip))
  = if paceOk (pace trip) k then 0
    else List.length (filter (fun day => (d_day day =? d)%Z
                                         && (List.length (d_blocks day) =? k)%nat)
                        (days itinerary)).
Proof.
  rewrite validate_findings. unfold allFindings. rewrite !count_occ_app.
  assert (Z1 : count_occ string_dec (dayCountFindings trip itinerary)
                 (msgPace d k (pace trip)) = 0).
  { unfold dayCountFindings. destruct (_ =? _)%Z; [reflexivity|].
    apply count_occ_not_In. intros [H|[]]. other_rule. }
  assert (Z2 : count_occ string_dec (dayNumberFindings trip itinerary)
                 (msgPace d k (pace trip)) = 0).
  { apply count_occ_flat_map_none. intros i _.
    destruct (nth_error _ _) as [z|]; [destruct (z =? _)%Z|]; simpl;
      try tauto; intros [H|[]]; other_rule. }
  assert (Z4 : count_occ string_dec (flat_map notesFindings (days itinerary))
                 (msgPace d k (pace trip)) = 0).
  { apply count_occ_flat_map_none. intros day _. unfold notesFindings.
    destruct (_ <? _)%nat; simpl; try tauto; intros [H|[]]; other_day_rule. }
  assert (Z5 : count_occ string_dec
                 (flat_map (fun day => flat_map (blockFindings aA day) (d_blocks day))
                    (days itinerary))
                 (msgPace d k (pace trip)) = 0).
  { apply count_occ_flat_map_none. intros day _ H.
    apply in_flat_map in H. destruct H as (b & _ & H). unfold blockFindings in H.
    apply in_app_or in H. destruct H as [H|H].
    { destruct (isTimeRange _); simpl in H; try tauto. destruct H as [H|[]]. other_day_rule. }
    apply in_app_or in H. destruct H as [H|H].
    { destruct (Array_includes _ _); simpl in H; try tauto. destruct H as [H|[]]. other_rule. }
    destruct (_ || _); simpl in H; try tauto. destruct H as [H|[]]. other_rule. }
  assert (Z6 : count_occ string_dec (flat_map (mealsFindings trip aR) (days itinerary))
                 (msgPace d k (pace trip)) = 0).
  { apply count_occ_flat_map_none. intros day _ H. unfold mealsFindings in H.
    apply in_app_or in H. destruct H as [H|H].
    { destruct (existsb _ _); simpl in H; try tauto. destruct H as [H|[]]. other_day_rule. }
    apply in_app_or in H. destruct H as [H|H].
    { destruct (existsb _ _); simpl in H; try tauto. destruct H as [H|[]]. other_day_rule. }
    apply in_flat_map in H. destruct H as (meal & _ & H).
    unfold mealFindings, restaurantFindings, vegetarianFindings in H.
    apply in_app_or in H. destruct H as [H|H].
    - destruct (extractRestaurantNameFromMeal meal) as [r|];
        [destruct (Array_includes aR r)|]; simpl in H; try tauto;
        destruct H as [H|[]]; other_rule.
    - destruct (_ && _); simpl in H; try tauto. destruct H as [H|[]]. other_rule. }
  assert (Z7 : count_occ string_dec (flat_map (rainFindings aI) (rainBackups itinerary))
                 (msgPace d k (pace trip)) = 0).
  { apply count_occ_flat_map_none. intros rb _. unfold rainFindings.
    destruct (Array_includes _ _); simpl; try tauto; intros [H|[]]; other_rule. }
  rewrite Z1, Z2, Z4, Z5, Z6, Z7. cbn [Nat.add]. rewrite Nat.add_0_r.
  rewrite count_occ_flat_map.
  rewrite (list_sum_ext_in _ _ _ (fun day _ => paceFindings_count trip day d k)).
  destruct (paceOk (pace trip) k); cbn [negb andb].
  - apply list_sum_zero. reflexivity.
  - apply list_sum_indicator.
Qed.

Lemma paceOk_rangeb (p : Pace) (blocks : nat) :
  paceOk p blocks = ((fst (paceRange p) <=? blocks) && (blocks <=? snd (paceRange p)))%nat.
Proof.
  apply eq_true_iff_eq. rewrite paceOk_range, andb_true_iff, !Nat.leb_le. reflexivity.
Qed.

(** C6.  For every trip and itinerary, and every day of the itinerary,
    the validator's list holds the pace message of that day (its day
    number, its block count and the pace) exactly when the block count
    lies outside the range of the trip's pace: relaxed 2..3, balanced
    3..4, packed 4..6.  Counted, the message for a day number and a block
    count stands once for every day with that number and count when the
    count is out of range, and never otherwise.  At the boundaries: a
    relaxed day of 2 blocks has no pace message, one of 1 or of 4 blocks
    has it; a packed day of 6 blocks has none, one of 7 has it. *)
Theorem pace_rule (trip : TripRequest) (itinerary : Itinerary) (aA aR aI : list string) :
  let found := violations (validateItineraryProduction trip itinerary aA aR aI) in
  let blocksOf := fun day => List.length (d_blocks day) in
  (forall day, In day (days itinerary) ->
     (In (msgPace (d_day day) (blocksOf day) (pace trip)) found
      <-> ~ (fst (paceRange (pace trip)) <= blocksOf day <= snd (paceRange (pace trip)))))
  /\ (forall (d : Z) (k : nat),
        count_occ string_dec found (msgPace d k (pace trip))
        = if ((fst (paceRange (pace trip)) <=? k) && (k <=? snd (paceRange (pace trip))))%nat
          then 0
          else List.length (filter (fun day => (d_day day =? d)%Z && (blocksOf day =? k)%nat)
                              (days itinerary)))
  /\ (paceRange relaxed = (2, 3) /\ paceRange balanced = (3, 4) /\ paceRange packed = (4, 6))
  /\ (forall day, In day (days itinerary) -> pace trip = relaxed ->
        (blocksOf day = 2 -> ~ In (msgPace (d_day day) 2 relaxed) found)
        /\ (blocksOf day = 1 -> In (msgPace (d_day day) 1 relaxed) found)
        /\ (blocksOf day = 4 -> In (msgPace (d_day day) 4 relaxed) found))
  /\ (forall day, In day (days itinerary) -> pace trip = packed ->
        (blocksOf day = 6 -> ~ In (msgPace (d_day day) 6 packed) found)
        /\ (blocksOf day = 7 -> In (msgPace (d_day day) 7 packed) found)).
Proof.
  intros found blocksOf.
  assert (Count : forall (d : Z) (k : nat),
             count_occ string_dec found (msgPace d k (pace trip))
             = if ((fst (paceRange (pace trip)) <=? k) && (k <=? snd (paceRange (pace trip))))%nat
               then 0
               else List.length (filter (fun day => (d_day day =? d)%Z && (blocksOf day =? k)%nat)
                                   (days itinerary))).
  { intros d k. unfold found. rewrite pace_count, paceOk_rangeb. reflexivity. }
  assert (Iff : forall day, In day (days itinerary) ->
            (In (msgPace (d_day day) (blocksOf day) (pace trip)) found
             <-> ~ (fst (paceRange (pace trip)) <= blocksOf day <= snd (paceRange (pace trip))))).
  { intros day Hday. rewrite (count_occ_In string_dec), Count.
    rewrite <- paceOk_rangeb. rewrite <- paceOk_range.
    destruct (paceOk (pace trip) (blocksOf day)).
    - split; [lia | intros H; now elim H].
    - split; [discriminate|]. intros _.
      assert (In day (filter (fun day0 => (d_day day0 =? d_day day)%Z
                                          && (blocksOf day0 =? blocksOf day)%nat)
                        (days itinerary))) as Hin.
      { apply filter_In. split; [exact Hday|]. now rewrite Z.eqb_refl, Nat.eqb_refl. }
      destruct (filter _ (days itinerary)); [destruct Hin | simpl; lia]. }
  split; [exact Iff|]. split; [exact Count|]. split; [auto|]. split.
  - intros day Hday Hp. pose proof (Iff day Hday) as H. rewrite Hp in H. simpl in H.
    repeat split; intros E; rewrite <- E; fold (blocksOf day); rewrite H; lia.
  - intros day Hday Hp. pose proof (Iff day Hday) as H. rewrite Hp in H. simpl in H.
    repeat split; intros E; rewrite <- E; fold (blocksOf day); rewrite H; lia.
Qed.

(** [pace_rule] at a relaxed one-day itinerary with a single block. *)
Lemma pace_rule_witness :
  In (msgPace 1 1 relaxed)
     (violations (validateItineraryProduction (sampleTrip relaxed []) (sampleItinerary 1 sampleMeals)
                    ["Art Institute"] ["Green Table"] [])).
Proof.
  apply (proj1 (pace_rule (sampleTrip relaxed []) (sampleItinerary 1 sampleMeals)
                  ["Art Institute"] ["Green Table"] [])
           (sampleDay 1 sampleMeals)).
  - simpl. auto.
  - simpl. lia.
Defined.

(* ================================================================== *)
(** * 15. Meals                                                        *)
(* ================================================================== *)

Lemma splitFrom_colon (s : string) :
  splitFrom ":" s 0
  = match afterFirstColon s with
    | None => (s, [])
    | Some remainder =>
        (beforeFirst ":" s, let (p, ps) := splitFrom ":" remainder 0 in p :: ps)
    end.
Proof.
  induction s as [|c s IH]; [reflexivity|].
  cbn [splitFrom afterFirstColon beforeFirst prefix String.length Nat.sub].
  destruct (Ascii.eqb_spec c ":") as [->|N].
  - cbn. destruct s; reflexivity.
  - destruct (ascii_dec ":" c) as [E|_]; [congruence|].
    rewrite IH. destruct (afterFirstColon s); reflexivity.
Qed.

Lemma join_splitFrom_colon (s : string) :
  join (fst (splitFrom ":" s 0) :: snd (splitFrom ":" s 0)) ":" = s.
Proof.
  induction s as [|c s IH]; [reflexivity|].
  cbn [splitFrom prefix String.length Nat.sub].
  destruct (ascii_dec ":" c) as [<-|N].
  - replace (prefix "" s) with true by (now destruct s).
    destruct (splitFrom ":" s 0) as (p, ps). cbn [fst snd] in *.
    change (join ("" :: p :: ps) ":") with ("" ++ ":" ++ join (p :: ps) ":")%string.
    now rewrite IH.
  - destruct (splitFrom ":" s 0) as (p, ps). cbn [fst snd] in *.
    destruct ps; rewrite <- IH; reflexivity.
Qed.

Lemma split_head (s sep : string) : nth 0 (split s sep) "" = beforeFirst sep s.
Proof.
  unfold split.
  assert (H : fst (splitFrom sep s 0) = beforeFirst sep s).
  { induction s as [|c s IH]; [reflexivity|].
    cbn [splitFrom beforeFirst]. destruct (prefix sep (String c s)); [reflexivity|].
    destruct (splitFrom sep s 0) as (p, ps). cbn [fst] in *. now rewrite IH. }
  destruct (splitFrom sep s 0) as (p, ps). exact H.
Qed.

Lemma extractRestaurantName_portion (meal : string) :
  extractRestaurantNameFromMeal meal = restaurantPortion meal.
Proof.
  unfold extractRestaurantNameFromMeal, restaurantPortion, split. cbv zeta.
  rewrite splitFrom_colon. destruct (afterFirstColon meal) as [remainder|]; [|reflexivity].
  pose proof (join_splitFrom_colon remainder) as J.
  destruct (splitFrom ":" remainder 0) as (p, ps). cbn [fst snd] in J.
  cbn [List.length Nat.ltb Nat.leb skipn]. rewrite J.
  fold (split (trim remainder) " - "). rewrite split_head.
  destruct (trim (beforeFirst " - " (trim remainder))); reflexivity.
Qed.

Lemma lacksDietarySignal_vegHints (meal : string) :
  negb (existsb (fun h => includes (toLowerCase meal) h) vegHints) = lacksDietarySignal meal.
Proof.
  unfold lacksDietarySignal, vegHints, dietarySignals. cbn [existsb forallb].
  repeat match goal with
         | |- context [includes ?a ?b] => destruct (includes a b)
         end; reflexivity.
Qed.

(** Peel a hypothesis [In x findings] down to single messages and close
    the goal when every one belongs to another rule. *)
Ltac no_such_finding :=
  repeat match goal with
         | H : In _ (_ ++ _) |- _ => apply in_app_or in H; destruct H as [H|H]
         | H : In _ (flat_map _ _) |- _ => apply in_flat_map in H; destruct H as (? & _ & H)
         | H : In _ (if ?c then _ else _) |- _ => destruct c
         | H : In _ (match ?c with Some _ => _ | None => _ end) |- _ => destruct c
         | H : In _ [] |- _ => destruct H
         | H : In _ [_] |- _ => destruct H as [H|[]]
         end;
  try solve [other_rule | other_day_rule].

(** A message that no rule but the per-meal rules can produce is counted
    meal by meal. *)
Lemma count_in_meals (trip : TripRequest) (itinerary : Itinerary) (aA aR aI : list string)
  (x : string) (mine : string -> bool) :
  (forall n m, x <> msgDayCount n m) -> (forall i, x <> msgDayNumber i) ->
  (forall d k p, x <> msgPace d k p) -> (forall d, x <> msgNotes d) ->
  (forall d t, x <> msgTime d t) -> (forall t, x <> msgAttraction t) ->
  (forall t, x <> msgDining t) -> (forall d, x <> msgLunch d) ->
  (forall d, x <> msgDinner d) -> (forall rb, x <> msgRainBackup rb) ->
  (forall meal, count_occ string_dec (mealFindings trip aR meal) x
                = if mine meal then 1 else 0) ->
  count_occ string_dec (violations (validateItineraryProduction trip itinerary aA aR aI)) x
  = List.length (filter mine (allMeals itinerary)).
Proof.
  intros N1 N2 N3 N4 N5 N6 N7 N8 N9 N10 Mine.
  rewrite validate_findings. unfold allFindings. rewrite !count_occ_app.
  assert (Z1 : count_occ string_dec (dayCountFindings trip itinerary) x = 0).
  { apply count_occ_not_In. unfold dayCountFindings. intros H.
    destruct (_ =? _)%Z; simpl in H; try tauto.
    destruct H as [H|[]]. symmetry in H. now apply N1 in H. }
  assert (Z2 : count_occ string_dec (dayNumberFindings trip itinerary) x = 0).
  { apply count_occ_flat_map_none. intros i _ H.
    destruct (nth_error _ _) as [z|]; [destruct (z =? _)%Z|]; simpl in H; try tauto;
      destruct H as [H|[]]; symmetry in H; now apply N2 in H. }
  assert (Z3 : count_occ string_dec (flat_map (paceFindings trip) (days itinerary)) x = 0).
  { apply count_occ_flat_map_none. intros day _ H. unfold paceFindings in H.
    destruct (paceOk _ _); simpl in H; try tauto.
    destruct H as [H|[]]. symmetry in H. now apply N3 in H. }
  assert (Z4 : count_occ string_dec (flat_map notesFindings (days itinerary)) x = 0).
  { apply count_occ_flat_map_none. intros day _ H. unfold notesFindings in H.
    destruct (_ <? _)%nat; simpl in H; try tauto.
    destruct H as [H|[]]. symmetry in H. now apply N4 in H. }
  assert (Z5 : count_occ string_dec
                 (flat_map (fun day => flat_map (blockFindings aA day) (d_blocks day))
                    (days itinerary)) x = 0).
  { apply count_occ_flat_map_none. intros day _ H.
    apply in_flat_map in H. destruct H as (b & _ & H). unfold blockFindings in H.
    apply in_app_or in H. destruct H as [H|H].
    { destruct (isTimeRange _); simpl in H; try tauto.
      destruct H as [H|[]]. symmetry in H. now apply N5 in H. }
    apply in_app_or in H. destruct H as [H|H].
    { destruct (Array_includes _ _); simpl in H; try tauto.
      destruct H as [H|[]]. symmetry in H. now apply N6 in H. }
    destruct (_ || _); simpl in H; try tauto.
    destruct H as [H|[]]. symmetry in H. now apply N7 in H. }
  assert (Z7 : count_occ string_dec (flat_map (rainFindings aI) (rainBackups itinerary)) x = 0).
  { apply count_occ_flat_map_none. intros rb _ H. unfold rainFindings in H.
    destruct (Array_includes _ _); simpl in H; try tauto.
    destruct H as [H|[]]. symmetry in H. now apply N10 in H. }
  rewrite Z1, Z2, Z3, Z4, Z5, Z7. cbn [Nat.add]. rewrite Nat.add_0_r.
  rewrite count_occ_flat_map.
  rewrite (list_sum_ext_in _
             (fun day => list_sum (map (fun meal => if mine meal then 1 else 0) (d_meals day)))).
  - unfold allMeals. rewrite (list_sum_flat_map d_meals). apply list_sum_indicator.
  - intros day _. unfold mealsFindings. rewrite !count_occ_app.
    assert (L : count_occ string_dec
                  (if existsb (fun m => startsWith m "Lunch:") (d_meals day) then []
                   else [msgLunch (d_day day)]) x = 0).
    { apply count_occ_not_In. intros H. destruct (existsb _ _); simpl in H; try tauto.
      destruct H as [H|[]]. symmetry in H. now apply N8 in H. }
    assert (D : count_occ string_dec
                  (if existsb (fun m => startsWith m "Dinner:") (d_meals day) then []
                   else [msgDinner (d_day day)]) x = 0).
    { apply count_occ_not_In. intros H.
      destruct (existsb (fun m => startsWith m "Dinner:") (d_meals day)); simpl in H; try tauto.
      destruct H as [H|[]]. symmetry in H. now apply N9 in H. }
    rewrite L, D. cbn [Nat.add]. rewrite count_occ_flat_map.
    apply list_sum_ext_in. intros meal _. apply Mine.
Qed.

Lemma msgRestaurant_inj (r r' : string) : msgRestaurant r = msgRestaurant r' -> r = r'.
Proof. intros H. open_messages. apply quoted_inj. congruence. Qed.

Lemma msgMealFormat_inj (m m' : string) : msgMealFormat m = msgMealFormat m' -> m = m'.
Proof. intros H. open_messages. apply quoted_inj. congruence. Qed.

Lemma msgVegetarian_inj (m m' : string) : msgVegetarian m = msgVegetarian m' -> m = m'.
Proof. intros H. open_messages. apply quoted_inj. congruence. Qed.

Lemma count_occ_single_inj (f : string -> string) (y x : string) :
  (forall a b, f a = f b -> a = b) ->
  count_occ string_dec [f y] (f x) = if String.eqb y x then 1 else 0.
Proof.
  intros Inj. rewrite count_occ_single.
  destruct (String.eqb_spec y x) as [->|N]; [now rewrite String.eqb_refl|].
  destruct (String.eqb_spec (f y) (f x)) as [E|]; [|reflexivity].
  apply Inj in E. contradiction.
Qed.

Lemma mealFindings_restaurant (trip : TripRequest) (aR : list string) (meal rest : string) :
  count_occ string_dec (mealFindings trip aR meal) (msgRestaurant rest)
  = if negb (Array_includes aR rest) && portionIs rest meal then 1 else 0.
Proof.
  unfold mealFindings, restaurantFindings, vegetarianFindings, portionIs.
  rewrite count_occ_app, extractRestaurantName_portion.
  assert (V : count_occ string_dec
                (if Array_includes (constraints trip) "vegetarian"
                    && negb (existsb (fun h => includes (toLowerCase meal) h) vegHints)
                 then [msgVegetarian meal] else []) (msgRestaurant rest) = 0).
  { apply count_occ_not_In. intros H. no_such_finding. }
  rewrite V, Nat.add_0_r.
  destruct (restaurantPortion meal) as [r|].
  - destruct (String.eqb_spec r rest) as [->|N].
    + rewrite andb_true_r. destruct (Array_includes aR rest); [reflexivity|].
      rewrite (count_occ_single_inj msgRestaurant _ _ msgRestaurant_inj).
      now rewrite String.eqb_refl.
    + rewrite andb_false_r. destruct (Array_includes aR r); [reflexivity|].
      rewrite (count_occ_single_inj msgRestaurant _ _ msgRestaurant_inj).
      apply String.eqb_neq in N. now rewrite N.
  - rewrite andb_false_r. apply count_occ_not_In. intros H. no_such_finding.
Qed.

Lemma mealFindings_format (trip : TripRequest) (aR : list string) (meal m : string) :
  count_occ string_dec (mealFindings trip aR meal) (msgMealFormat m)
  = if portionMissing meal && String.eqb meal m then 1 else 0.
Proof.
  unfold mealFindings, restaurantFindings, vegetarianFindings, portionMissing.
  rewrite count_occ_app, extractRestaurantName_portion.
  assert (V : count_occ string_dec
                (if Array_includes (constraints trip) "vegetarian"
                    && negb (existsb (fun h => includes (toLowerCase meal) h) vegHints)
                 then [msgVegetarian meal] else []) (msgMealFormat m) = 0).
  { apply count_occ_not_In. intros H. no_such_finding. }
  rewrite V, Nat.add_0_r.
  destruct (restaurantPortion meal) as [r|].
  - cbn [andb]. apply count_occ_not_In. intros H. no_such_finding.
  - cbn [andb]. apply (count_occ_single_inj msgMealFormat _ _ msgMealFormat_inj).
Qed.

Lemma mealFindings_vegetarian (trip : TripRequest) (aR : list string) (meal m : string) :
  count_occ string_dec (mealFindings trip aR meal) (msgVegetarian m)
  = if (Array_includes (constraints trip) "vegetarian" && lacksDietarySignal meal)
       && String.eqb meal m
    then 1 else 0.
Proof.
  unfold mealFindings, restaurantFindings, vegetarianFindings.
  rewrite count_occ_app, lacksDietarySignal_vegHints.
  assert (R : count_occ string_dec
                match extractRestaurantNameFromMeal meal with
                | Some rest => if Array_includes aR rest then [] else [msgRestaurant rest]
                | None => [msgMealFormat meal]
                end (msgVegetarian m) = 0).
  { apply count_occ_not_In. intros H. no_such_finding. }
  rewrite R. cbn [Nat.add].
  destruct (Array_includes (constraints trip) "vegetarian" && lacksDietarySignal meal).
  - cbn [andb]. apply (count_occ_single_inj msgVegetarian _ _ msgVegetarian_inj).
  - reflexivity.
Qed.

Lemma filter_eq_count (q : string -> bool) (m : string) (l : list string) :
  List.length (filter (fun y => q y && String.eqb y m) l)
  = if q m then count_occ string_dec l m else 0.
Proof.
  induction l as [|y l IH]; simpl; [now destruct (q m)|].
  destruct (string_dec y m) as [->|N].
  - rewrite String.eqb_refl, andb_true_r. destruct (q m); simpl; now rewrite IH.
  - apply String.eqb_neq in N. rewrite N, andb_false_r. exact IH.
Qed.

Ltac not_a_meal_message := intros; intro; solve [other_rule | other_day_rule].

(** C4.  The validator's reading of a meal string is
    [restaurantPortion]: the text after the first colon, and of it
    (trimmed) what stands before the first " - " (trimmed); so
    "Lunch: Green Table - Tofu Banh Mi (Vegetarian)" gives "Green Table".
    For every trip, itinerary and allowed lists: the message
    'Invalid restaurant in meals: "rest"' stands once for every meal,
    over all days, whose portion is [rest], when [rest] is not an allowed
    restaurant, and never when it is; the message 'Meal format invalid'
    for a meal text stands once for every occurrence of that text when it
    has no portion (no colon, or nothing before the " - "); and when the
    trip's constraints hold "vegetarian", the message 'Meal may not
    clearly indicate vegetarian dish' for a meal text stands, besides,
    once for every occurrence of that text when its lower-cased text
    holds none of vegetarian, vegan, veg, plant, tofu, paneer, lentil,
    chickpea, vegetable, and never otherwise.  The example meal alone
    yields exactly the one invalid-restaurant message when "Green Table"
    is not allowed, whatever the trip's constraints. *)
Theorem meal_rules (trip : TripRequest) (itinerary : Itinerary) (aA aR aI : list string) :
  let found := violations (validateItineraryProduction trip itinerary aA aR aI) in
  let example := "Lunch: Green Table - Tofu Banh Mi (Vegetarian)" in
  (forall meal, extractRestaurantNameFromMeal meal = restaurantPortion meal)
  /\ restaurantPortion example = Some "Green Table"
  /\ (forall rest,
        count_occ string_dec found (msgRestaurant rest)
        = if Array_includes aR rest then 0
          else List.length (filter (portionIs rest) (allMeals itinerary)))
  /\ (forall meal,
        count_occ string_dec found (msgMealFormat meal)
        = if portionMissing meal then count_occ string_dec (allMeals itinerary) meal else 0)
  /\ (forall meal,
        count_occ string_dec found (msgVegetarian meal)
        = if Array_includes (constraints trip) "vegetarian" && lacksDietarySignal meal
          then count_occ string_dec (allMeals itinerary) meal else 0)
  /\ mealFindings trip aR example
     = if Array_includes aR "Green Table" then [] else [msgRestaurant "Green Table"].
Proof.
  intros found example.
  split; [exact extractRestaurantName_portion|].
  split; [reflexivity|]. split; [|split; [|split]].
  - intros rest. unfold found.
    rewrite (count_in_meals trip itinerary aA aR aI (msgRestaurant rest)
               (fun meal => negb (Array_includes aR rest) && portionIs rest meal));
      try not_a_meal_message.
    + destruct (Array_includes aR rest); cbn [negb andb]; [|reflexivity].
      induction (allMeals itinerary) as [|y l IH]; simpl; auto.
    + intros meal. apply mealFindings_restaurant.
  - intros meal. unfold found.
    rewrite (count_in_meals trip itinerary aA aR aI (msgMealFormat meal)
               (fun y => portionMissing y && String.eqb y meal));
      try not_a_meal_message.
    + apply filter_eq_count.
    + intros y. apply mealFindings_format.
  - intros meal. unfold found.
    rewrite (count_in_meals trip itinerary aA aR aI (msgVegetarian meal)
               (fun y => (Array_includes (constraints trip) "vegetarian" && lacksDietarySignal y)
                         && String.eqb y meal));
      try not_a_meal_message.
    + apply (filter_eq_count
               (fun y => Array_includes (constraints trip) "vegetarian" && lacksDietarySignal y)).
    + intros y. apply mealFindings_vegetarian.
  - unfold mealFindings, vegetarianFindings, restaurantFindings.
    replace (extractRestaurantNameFromMeal example) with (Some "Green Table") by reflexivity.
    replace (existsb (fun h => includes (toLowerCase example) h) vegHints) with true
      by reflexivity.
    rewrite andb_false_r, app_nil_r. reflexivity.
Qed.

(* ================================================================== *)
(** * 16. Runs of the loop                                             *)
(* ================================================================== *)

Lemma countSteps_app (p : Step -> bool) (l1 l2 : list Step) :
  countSteps p (l1 ++ l2) = countSteps p l1 + countSteps p l2.
Proof. unfold countSteps. now rewrite filter_app, length_app. Qed.

Section Within.
Context {World : Type}.

Lemma within_weaken {A : Type} (nr nv n nr' nv' n' : nat) (m : M World A) :
  within nr nv n m -> nr <= nr' -> nv <= nv' -> n <= n' -> within nr' nv' n' m.
Proof.
  intros H ? ? ? r. destruct (H r) as (steps & E & ? & ? & ?).
  exists steps. repeat split; auto; lia.
Qed.

Lemma within_ret {A : Type} (a : A) : within 0 0 0 (ret a : M World A).
Proof. intros r. exists []. simpl. rewrite app_nil_r. auto. Qed.

Lemma within_throw {A : Type} (msg : string) : within 0 0 0 (throw msg : M World A).
Proof. intros r. exists []. simpl. rewrite app_nil_r. auto. Qed.

Lemma within_lift {A : Type} (o : Outcome A) : within 0 0 0 (lift o : M World A).
Proof. intros r. exists []. simpl. rewrite app_nil_r. auto. Qed.

Lemma within_zodParse {A : Type} (v : option A) : within 0 0 0 (zodParse v : M World A).
Proof. destruct v; [apply within_ret | apply within_throw]. Qed.

Lemma within_call {A : Type} (step : Step) (f : World -> Outcome A * World) :
  within (if isRevise step then 1 else 0) (if isValidator step then 1 else 0) 1 (call step f).
Proof.
  intros r. exists [step]. unfold call. destruct (f (world r)) as (o, w). simpl.
  unfold countSteps. simpl. destruct (isRevise step), (isValidator step); simpl; auto.
Qed.

Lemma within_bind {A B : Type} (nr nv n nr' nv' n' : nat) (m : M World A) (k : A -> M World B) :
  within nr nv n m -> (forall a, within nr' nv' n' (k a)) ->
  within (nr + nr') (nv + nv') (n + n') (bind m k).
Proof.
  intros Hm Hk r. unfold bind. destruct (Hm r) as (s1 & E1 & ? & ? & ?).
  destruct (m r) as ([a|msg], r1); simpl in E1.
  - destruct (Hk a r1) as (s2 & E2 & ? & ? & ?). exists (s1 ++ s2).
    rewrite E2, E1, <- app_assoc, !countSteps_app, length_app. repeat split; auto; lia.
  - exists s1. simpl. repeat split; auto; lia.
Qed.

Lemma within_tryCatch {A : Type} (nr nv n nr' nv' n' : nat) (m handler : M World A) :
  within nr nv n m -> within nr' nv' n' handler ->
  within (nr + nr') (nv + nv') (n + n') (tryCatch m handler).
Proof.
  intros Hm Hh r. unfold tryCatch. destruct (Hm r) as (s1 & E1 & ? & ? & ?).
  destruct (m r) as ([a|msg], r1); simpl in E1.
  - exists s1. simpl. repeat split; auto; lia.
  - destruct (Hh r1) as (s2 & E2 & ? & ? & ?). exists (s1 ++ s2).
    rewrite E2, E1, <- app_assoc, !countSteps_app, length_app. repeat split; auto; lia.
Qed.

Context (env : Environment World).

Lemma within_parseJsonObjectSafe (raw : string) : within 0 0 1 (parseJsonObjectSafe env raw).
Proof.
  unfold parseJsonObjectSafe.
  apply (within_tryCatch 0 0 0 0 0 1); [apply within_lift|].
  apply (within_bind 0 0 1 0 0 0); [apply (within_call (CallFixJson raw ModeObject))|].
  intros fixed. apply within_lift.
Qed.

Lemma within_runValidator trip itinerary lists :
  within 0 1 1 (runValidator (World := World) trip itinerary lists).
Proof. intros r. exists [RanValidator]. simpl. auto. Qed.

Lemma within_repairPass trip lists itinerary validation :
  within 1 0 2 (repairPass env trip lists itinerary validation).
Proof.
  unfold repairPass. cbv zeta.
  apply (within_bind 1 0 1 0 0 1); [apply (within_call (CallRevise _))|].
  intros revisedRaw.
  apply (within_bind 0 0 1 0 0 0); [apply within_parseJsonObjectSafe|].
  intros revisedObj. destruct (looksLikeItinerary revisedObj);
    [apply within_zodParse | apply within_ret].
Qed.

Lemma within_reviseLoop (budget : nat) trip lists itinerary validation :
  within budget budget (3 * budget) (reviseLoop env budget trip lists itinerary validation).
Proof.
  revert itinerary validation. induction budget as [|budget IH]; intros itinerary validation.
  - apply within_ret.
  - cbn [reviseLoop]. destruct (negb (ok validation)).
    + apply (within_weaken (1 + (0 + budget)) (0 + (1 + budget)) (2 + (1 + 3 * budget)));
        try lia.
      apply within_bind; [apply within_repairPass|]. intros itinerary'.
      apply within_bind; [apply within_runValidator|]. intros validation'. apply IH.
    + apply (within_weaken 0 0 0); try lia. apply within_ret.
Qed.

Lemma within_planFromIntake (input : Intake) : within 2 3 10 (planFromIntake env input).
Proof.
  unfold planFromIntake. cbv zeta.
  apply (within_bind 0 0 0 2 3 10); [apply within_zodParse|]. intros trip.
  apply (within_bind 0 0 1 2 3 9).
  { unfold buildCandidatesForCity.
    apply (within_bind 0 0 1 0 0 0); [apply (within_call (CallGather _))|].
    intros all. apply within_ret. }
  intros candidates.
  apply (within_bind 0 0 1 2 3 8); [apply (within_call (CallGenerate _))|]. intros raw.
  apply (within_bind 0 0 1 2 3 7); [apply within_parseJsonObjectSafe|]. intros itObj.
  destruct (negb (looksLikeItinerary itObj)).
  { apply (within_weaken 0 0 0); try lia. apply within_throw. }
  apply (within_bind 0 0 0 2 3 7); [apply within_zodParse|]. intros itinerary.
  apply (within_bind 0 1 1 2 2 6); [apply within_runValidator|]. intros validation.
  apply (within_bind 2 2 6 0 0 0); [apply (within_reviseLoop 2)|]. intros final.
  apply within_ret.
Qed.

End Within.

Section Runs.
Context {World : Type}.

Lemma runs_bind {A B : Type} (m : M World A) (k : A -> M World B)
  (Q1 : list Step -> Outcome A -> Prop) (Q2 : A -> list Step -> Outcome B -> Prop)
  (Q : list Step -> Outcome B -> Prop) :
  runs m Q1 -> (forall a, runs (k a) (Q2 a)) ->
  (forall s1 msg, Q1 s1 (Thrown msg) -> Q s1 (Thrown msg)) ->
  (forall s1 a s2 o, Q1 s1 (Returned a) -> Q2 a s2 o -> Q (s1 ++ s2) o) ->
  runs (bind m k) Q.
Proof.
  intros Hm Hk Ht Hr r. unfold bind. destruct (Hm r) as (s1 & E1 & H1).
  destruct (m r) as ([a|msg], r1); simpl in E1, H1.
  - destruct (Hk a r1) as (s2 & E2 & H2). exists (s1 ++ s2).
    rewrite E2, E1, <- app_assoc. split; [reflexivity|]. now apply (Hr s1 a).
  - exists s1. simpl. split; [assumption | now apply Ht].
Qed.

Lemma runs_weaken {A : Type} (m : M World A) (Q Q' : list Step -> Outcome A -> Prop) :
  runs m Q -> (forall s o, Q s o -> Q' s o) -> runs m Q'.
Proof.
  intros H HQ r. destruct (H r) as (s & E & Hs). exists s. split; [assumption | now apply HQ].
Qed.

Lemma within_runs {A : Type} (nr nv n : nat) (m : M World A) :
  within nr nv n m ->
  runs m (fun steps _ => countSteps isRevise steps <= nr
                         /\ countSteps isValidator steps <= nv
                         /\ List.length steps <= n).
Proof. intros H r. destruct (H r) as (s & E & Hs). exists s. auto. Qed.

Lemma runs_ret {A : Type} (a : A) :
  runs (ret a : M World A) (fun steps o => steps = [] /\ o = Returned a).
Proof. intros r. exists []. simpl. rewrite app_nil_r. auto. Qed.

Lemma runs_zodParse {A : Type} (v : option A) :
  runs (zodParse v : M World A)
       (fun steps o => steps = [] /\ forall a, o = Returned a -> v = Some a).
Proof.
  intros r. exists []. rewrite app_nil_r.
  destruct v; simpl; repeat split; try reflexivity; intros a' [=]; congruence.
Qed.

Lemma runs_runValidator trip itinerary lists :
  runs (runValidator (World := World) trip itinerary lists)
       (fun steps o =>
          steps = [RanValidator]
          /\ o = Returned (validateItineraryProduction trip itinerary
                             (allowedAttractions lists) (allowedRestaurants lists)
                             (allowedIndoorBackups lists))).
Proof. intros r. exists [RanValidator]. simpl. auto. Qed.

Context (env : Environment World).

Lemma runs_repairPass trip lists itinerary validation :
  runs (repairPass env trip lists itinerary validation)
       (fun steps _ => countSteps isRevise steps = 1 /\ countSteps isValidator steps = 0).
Proof.
  unfold repairPass. cbv zeta.
  set (args := reviseArgs trip itinerary fixViolations lists validation).
  eapply (runs_bind _ _ (fun steps _ => steps = [CallRevise args])
            (fun _ steps _ => countSteps isRevise steps = 0
                              /\ countSteps isValidator steps = 0)).
  - intros r. exists [CallRevise args]. unfold call.
    destruct (reviseItineraryJson env args (world r)). simpl. auto.
  - intros revisedRaw.
    eapply (runs_bind _ _ (fun steps _ => countSteps isRevise steps = 0
                                          /\ countSteps isValidator steps = 0)
              (fun _ steps _ => steps = [])).
    + eapply runs_weaken; [apply within_runs, within_parseJsonObjectSafe|].
      cbv beta. intros; lia.
    + intros revisedObj. destruct (looksLikeItinerary revisedObj).
      * eapply runs_weaken; [apply runs_zodParse|]. cbv beta. tauto.
      * eapply runs_weaken; [apply runs_ret|]. cbv beta. tauto.
    + auto.
    + intros s1 a s2 o H1 ->. now rewrite app_nil_r.
  - intros s1 msg ->. split; reflexivity.
  - intros s1 a s2 o -> (H2 & H3). rewrite !countSteps_app, H2, H3. split; reflexivity.
Qed.

(** One turn of the loop, unfolded. *)
Lemma reviseLoop_step (budget : nat) trip lists itinerary validation (r : Run World) :
  reviseLoop env (S budget) trip lists itinerary validation r
  = if ok validation then (Returned (itinerary, validation), r)
    else match repairPass env trip lists itinerary validation r with
         | (Returned itinerary', r1) =>
             reviseLoop env budget trip lists itinerary'
               (validateItineraryProduction trip itinerary'
                  (allowedAttractions lists) (allowedRestaurants lists)
                  (allowedIndoorBackups lists))
               (mkRun (world r1) (trace r1 ++ [RanValidator]))
         | (Thrown msg, r1) => (Thrown msg, r1)
         end.
Proof.
  cbn [reviseLoop]. destruct (ok validation); cbn [negb]; [reflexivity|].
  unfold bind. destruct (repairPass env trip lists itinerary validation r) as ([it'|msg], r1);
    reflexivity.
Qed.

(** What the loop returns: the validation it returns is that of the
    itinerary it returns, and a validation that is not ok is returned
    only with the whole budget spent. *)
Lemma runs_reviseLoop (budget : nat) trip lists itinerary :
  let validate := fun it => validateItineraryProduction trip it
                              (allowedAttractions lists) (allowedRestaurants lists)
                              (allowedIndoorBackups lists) in
  runs (reviseLoop env budget trip lists itinerary (validate itinerary))
       (fun steps o =>
          forall final, o = Returned final ->
            snd final = validate (fst final)
            /\ countSteps isValidator steps = countSteps isRevise steps
            /\ (ok (snd final) = false -> countSteps isRevise steps = budget)).
Proof.
  cbv zeta beta. revert itinerary.
  induction budget as [|budget IH]; intros itinerary r.
  - exists []. rewrite app_nil_r. split; [reflexivity|].
    intros final [= <-]. simpl. auto.
  - rewrite reviseLoop_step. destruct (ok _) eqn:Ok.
    + exists []. rewrite app_nil_r. split; [reflexivity|].
      intros final [= <-]. cbn [fst snd].
      split; [reflexivity|]. split; [reflexivity | congruence].
    + match goal with
      | |- context [repairPass env trip lists itinerary ?v r] =>
          destruct (runs_repairPass trip lists itinerary v r) as (s1 & E1 & C1 & V1);
          destruct (repairPass env trip lists itinerary v r) as ([itinerary'|msg], r1)
      end; simpl in E1.
      * destruct (IH itinerary' (mkRun (world r1) (trace r1 ++ [RanValidator])))
          as (s2 & E2 & H2).
        exists (s1 ++ [RanValidator] ++ s2). split.
        -- rewrite E2. simpl. rewrite E1, <- !app_assoc. reflexivity.
        -- intros final Hf. destruct (H2 final Hf) as (Hv & Hn & Hc). split; [exact Hv|].
           rewrite !countSteps_app, C1, V1, Hn. split; [reflexivity|].
           intros Hok. rewrite (Hc Hok). reflexivity.
      * exists s1. split; [exact E1|]. intros final [=].
Qed.

End Runs.

Section PlanRuns.
Context {World : Type} (env : Environment World).

Lemma runs_quiet {A : Type} (n : nat) (m : M World A) :
  within 0 0 n m -> runs m (fun steps _ => quiet steps).
Proof.
  intros H. eapply runs_weaken; [apply (within_runs _ _ _ _ H)|]. cbv beta.
  unfold quiet. intros; lia.
Qed.

Lemma runs_planFromIntake (input : Intake) :
  runs (planFromIntake env input)
       (fun steps o =>
          forall response, o = Returned response ->
            exists trip,
              TripRequestSchema_parse (tripObjOf env input) = Some trip
              /\ responseOf trip response steps).
Proof.
  unfold planFromIntake. cbv zeta.
  eapply runs_bind with
    (Q2 := fun trip steps o => forall response, o = Returned response ->
                                 responseOf trip response steps);
    [apply runs_zodParse | | intros s1 msg _ response [=] |].
  2:{ intros s1 trip s2 o (-> & Htrip) H response Hr. exists trip.
      split; [now apply Htrip | now apply H]. }
  intros trip.
  eapply runs_bind with
    (Q1 := fun steps _ => quiet steps)
    (Q2 := fun _ steps o => forall response, o = Returned response ->
                              responseOf trip response steps);
    [ | | intros s1 msg _ response [=] |].
  { apply (runs_quiet 1). unfold buildCandidatesForCity.
    apply (within_bind 0 0 1 0 0 0); [apply (within_call (CallGather _))|].
    intros all. apply within_ret. }
  2:{ intros s1 a s2 o (H1 & H1') H2 response Hr.
      destruct (H2 response Hr) as (it & ? & ? & Hn & Hc).
      exists it. rewrite !countSteps_app, H1, H1'. repeat split; auto. }
  intros candidates. set (lists := allowedListsFromCandidates_batch candidates).
  clearbody lists.
  eapply runs_bind with
    (Q1 := fun steps _ => quiet steps)
    (Q2 := fun _ steps o => forall response, o = Returned response ->
                              responseOf trip response steps);
    [ | | intros s1 msg _ response [=] |].
  { apply (runs_quiet 1). apply (within_call (CallGenerate _)). }
  2:{ intros s1 a s2 o (H1 & H1') H2 response Hr.
      destruct (H2 response Hr) as (it & ? & ? & Hn & Hc).
      exists it. rewrite !countSteps_app, H1, H1'. repeat split; auto. }
  intros raw.
  eapply runs_bind with
    (Q1 := fun steps _ => quiet steps)
    (Q2 := fun _ steps o => forall response, o = Returned response ->
                              responseOf trip response steps);
    [ | | intros s1 msg _ response [=] |].
  { apply (runs_quiet 1). apply within_parseJsonObjectSafe. }
  2:{ intros s1 a s2 o (H1 & H1') H2 response Hr.
      destruct (H2 response Hr) as (it & ? & ? & Hn & Hc).
      exists it. rewrite !countSteps_app, H1, H1'. repeat split; auto. }
  intros itObj. destruct (negb (looksLikeItinerary itObj)).
  { intros r. exists []. rewrite app_nil_r. split; [reflexivity|]. intros response [=]. }
  eapply runs_bind with
    (Q2 := fun _ steps o => forall response, o = Returned response ->
                              responseOf trip response steps);
    [apply runs_zodParse | | intros s1 msg _ response [=] |].
  2:{ intros s1 a s2 o (-> & _) H2. exact H2. }
  intros itinerary.
  eapply runs_bind with
    (Q2 := fun validation steps o =>
             validation = validateItineraryProduction trip itinerary
                            (allowedAttractions lists) (allowedRestaurants lists)
                            (allowedIndoorBackups lists) ->
             forall response, o = Returned response -> responseAfter 1 trip response steps);
    [apply runs_runValidator | | intros s1 msg _ response [=] |].
  2:{ intros s1 a s2 o (-> & [= ->]) H2 response Hr.
      destruct (H2 eq_refl response Hr) as (it & ? & ? & Hn & Hc).
      exists it. rewrite !countSteps_app.
      change (countSteps isValidator [RanValidator]) with 1.
      change (countSteps isRevise [RanValidator]) with 0.
      repeat split; auto. cbn [Nat.add]. lia. }
  intros validation r. unfold bind.
  destruct (within_reviseLoop env 2 trip lists itinerary validation r) as (s & E & _).
  exists s.
  destruct (reviseLoop env 2 trip lists itinerary validation r) as ([final|msg], r') eqn:L;
    simpl in E |- *.
  - split; [exact E|]. intros -> response [= <-].
    destruct (runs_reviseLoop env 2 trip lists itinerary r) as (s' & E' & H').
    cbv zeta beta in E', H'. rewrite L in E', H'. simpl in E', H'.
    assert (s' = s) as -> by (eapply app_inv_head; rewrite <- E, <- E'; reflexivity).
    destruct (H' final eq_refl) as (Hv & Hn & Hc). exists (fst final). simpl.
    repeat split; auto; lia.
  - split; [exact E|]. intros _ response [=].
Qed.

End PlanRuns.

(* ================================================================== *)
(** * 17. Values of the worked examples                                *)
(* ================================================================== *)

Example utcMidnight_epoch :
  utcMidnight "1970-01-01T00:00:00" = Some 0%Z
  /\ utcMidnight "2024-05-10T00:00:00" = Some (19853 * 86400000)%Z
  /\ utcMidnight "2024-02-30T00:00:00" = None.
Proof. repeat split; vm_compute; reflexivity. Qed.

Example thinItinerary_invalid :
  violations (validateWith (sampleTrip relaxed []) sampleLists thinItinerary)
  = [msgPace 1 1 relaxed].
Proof. vm_compute. reflexivity. Qed.

(* ================================================================== *)
(** * 18. The bounded loop                                             *)
(* ================================================================== *)

(** An object that passes the Itinerary schema passes the shape check. *)
Lemma schema_implies_shape (obj : Json) (itinerary : Itinerary) :
  ItinerarySchema_parse obj = Some itinerary -> looksLikeItinerary obj = true.
Proof.
  destruct obj as [| | | | |items|props]; try discriminate.
  unfold ItinerarySchema_parse, looksLikeItinerary. intros H.
  destruct (getProp props "summary") as [[]|]; try discriminate H;
    destruct (getProp props "days") as [[]|]; try reflexivity;
    cbn in H; try discriminate H;
    destruct (String.length _); discriminate H.
Qed.

Section LoopReturns.
Context {World : Type} (env : Environment World).

(** From its loop on, [planFromIntake] is the loop and the building of
    the response. *)
Lemma planFromIntake_loop input r trip lists itinerary r0 :
  generated env input r trip lists itinerary r0 ->
  planFromIntake env input r
  = match reviseLoop env 2 trip lists itinerary (validateWith trip lists itinerary) r0 with
    | (Returned final, r') =>
        (Returned (mkPlanResponse (toUiItinerary (fst final)) lists (snd final)), r')
    | (Thrown msg, r') => (Thrown msg, r')
    end.
Proof.
  intros (all & w1 & raw & w2 & itObj & r3 & Ht & Hg & -> & Hgen & Hp & Hs & ->).
  unfold planFromIntake. cbv zeta. rewrite Ht.
  unfold zodParse at 1. unfold bind at 1. cbn [ret].
  unfold buildCandidatesForCity. unfold bind at 1 2. unfold call at 1. rewrite Hg. cbn [ret].
  unfold bind at 1. unfold call at 1. cbn [world trace]. rewrite Hgen.
  unfold bind at 1. rewrite Hp.
  rewrite (schema_implies_shape itObj itinerary Hs). cbn [negb].
  rewrite Hs. unfold zodParse at 1. unfold bind at 1. cbn [ret].
  unfold bind at 1. unfold runValidator at 1. fold (validateWith trip
    (allowedListsFromCandidates_batch (assembleCandidates all)) itinerary).
  unfold bind at 1. unfold validated.
  destruct (reviseLoop env 2 trip _ itinerary _ _) as ([final|msg], r'); reflexivity.
Qed.

End LoopReturns.

(** C1.  Whatever the collaborators do (every environment and every
    outside world; a call returns text or throws), [planFromIntake] ends
    after a number of steps that does not depend on the input: at most
    two repair calls, at most three runs of the validator (one after
    generation, one after each repair pass), at most ten steps in all;
    and a response it returns holds the itinerary the loop ended with
    and the validation of that very itinerary.
    Once the run has come to its loop with an itinerary, it returns in
    each of these cases: at once when the itinerary is valid; after one
    repair pass when that pass gives a valid itinerary; and after the
    second pass with whatever that pass gives, valid or not, together
    with the validation of it.  With the budget used up the request does
    not fail.  It fails from the loop on only when a repair pass itself
    throws (its call, the reading of its reply, or the schema), and then
    with the error of that pass. *)
Theorem planFromIntake_bounded (World : Type) (env : Environment World) :
  (forall (input : Intake) (r : Run World),
     exists steps,
       trace (snd (planFromIntake env input r)) = trace r ++ steps
       /\ countSteps isRevise steps <= 2
       /\ countSteps isValidator steps <= 3
       /\ List.length steps <= 10
       /\ forall response, fst (planFromIntake env input r) = Returned response ->
            exists trip,
              TripRequestSchema_parse (tripObjOf env input) = Some trip
              /\ responseOf trip response steps)
  /\ (forall (input : Intake) (r r0 : Run World) (trip : TripRequest) (lists : AllowedLists)
             (it0 : Itinerary),
        generated env input r trip lists it0 r0 ->
        (ok (validateWith trip lists it0) = true ->
         planFromIntake env input r = (Returned (responseWith trip lists it0), r0))
        /\ (ok (validateWith trip lists it0) = false ->
            forall (it1 : Itinerary) (r1 : Run World),
              repairPass env trip lists it0 (validateWith trip lists it0) r0
              = (Returned it1, r1) ->
              (ok (validateWith trip lists it1) = true ->
               planFromIntake env input r
               = (Returned (responseWith trip lists it1), validated r1))
              /\ (ok (validateWith trip lists it1) = false ->
                  forall (it2 : Itinerary) (r2 : Run World),
                    repairPass env trip lists it1 (validateWith trip lists it1) (validated r1)
                    = (Returned it2, r2) ->
                    planFromIntake env input r
                    = (Returned (responseWith trip lists it2), validated r2)))
        /\ (ok (validateWith trip lists it0) = false ->
            forall (msg : string) (r1 : Run World),
              repairPass env trip lists it0 (validateWith trip lists it0) r0
              = (Thrown msg, r1) ->
              planFromIntake env input r = (Thrown msg, r1))
        /\ (ok (validateWith trip lists it0) = false ->
            forall (it1 : Itinerary) (r1 : Run World) (msg : string) (r2 : Run World),
              repairPass env trip lists it0 (validateWith trip lists it0) r0
              = (Returned it1, r1) ->
              ok (validateWith trip lists it1) = false ->
              repairPass env trip lists it1 (validateWith trip lists it1) (validated r1)
              = (Thrown msg, r2) ->
              planFromIntake env input r = (Thrown msg, r2))).
Proof.
  split.
  - intros input r.
    destruct (within_planFromIntake env input r) as (steps & E & Hr & Hv & Hn).
    exists steps. repeat split; auto.
    intros response Hresp.
    destruct (runs_planFromIntake env input r) as (steps' & E' & H').
    assert (steps' = steps) as -> by (eapply app_inv_head; rewrite <- E, <- E'; reflexivity).
    now apply H'.
  - intros input r r0 trip lists it0 G.
    rewrite (planFromIntake_loop env input r trip lists it0 r0 G).
    split; [|split; [|split]].
    + intros Ok0. rewrite reviseLoop_step, Ok0. reflexivity.
    + intros Ok0 it1 r1 P1. rewrite reviseLoop_step, Ok0, P1.
      fold (validateWith trip lists it1). fold (validated r1). split.
      * intros Ok1. rewrite reviseLoop_step, Ok1. reflexivity.
      * intros Ok1 it2 r2 P2. rewrite reviseLoop_step, Ok1, P2. reflexivity.
    + intros Ok0 msg r1 P1. rewrite reviseLoop_step, Ok0, P1. reflexivity.
    + intros Ok0 it1 r1 msg r2 P1 Ok1 P2. rewrite reviseLoop_step, Ok0, P1.
      fold (validateWith trip lists it1). fold (validated r1).
      rewrite reviseLoop_step, Ok1, P2. reflexivity.
Qed.

(** [planFromIntake_bounded] at the scripted environment: the search
    finds nothing, so nothing is allowed; the generation and both repair
    replies are the same itinerary, which the schema accepts and the
    validator does not; after the second pass the request returns it
    with its validation, which is not ok. *)
Lemma planFromIntake_bounded_witness :
  fst (planFromIntake scriptedItinerary (sampleIntake "2024-05-08" "2024-05-08") threeReplies)
  = Returned (responseWith dayTrip noLists (sampleItinerary 2 sampleMeals))
  /\ ok (validateWith dayTrip noLists (sampleItinerary 2 sampleMeals)) = false
  /\ countSteps isRevise
       (trace (snd (planFromIntake scriptedItinerary (sampleIntake "2024-05-08" "2024-05-08")
                      threeReplies))) = 2.
Proof.
  edestruct (proj2 (planFromIntake_bounded (list string) scriptedItinerary)
               (sampleIntake "2024-05-08" "2024-05-08") threeReplies)
    as (_ & Pass & _).
  - unfold generated. do 6 eexists. repeat split; reflexivity.
  - edestruct Pass as (_ & Both); [reflexivity | reflexivity |].
    erewrite Both; [|reflexivity|reflexivity].
    repeat split; reflexivity.
Defined.

(* ================================================================== *)
(** * 19. A repair reply of the wrong shape                            *)
(* ================================================================== *)

(** C8, as stated, fails on both paths.  In the batch path a reply of
    the wrong shape ("{}") is followed by no further repair call: the
    pass makes one call, leaves the next scripted reply unread, and keeps
    the itinerary.  In the interactive path the additional call is made,
    and when its reply has the wrong shape too the step throws; it does
    not keep the itinerary. *)
Lemma shape_failure_paths_differ :
  (let out := repairPass scripted (sampleTrip relaxed []) sampleLists thinItinerary
                (validateWith (sampleTrip relaxed []) sampleLists thinItinerary)
                (mkRun ["{}"; "{}"] []) in
   fst out = Returned thinItinerary
   /\ countSteps isRevise (trace (snd out)) = 1
   /\ world (snd out) = ["{}"])
  /\ (let out := mainReviseOnce scripted (sampleTrip relaxed []) sampleLists thinItinerary
                   (validateWith (sampleTrip relaxed []) sampleLists thinItinerary)
                   (mkRun ["{}"; "{}"] []) in
      fst out = Thrown "ZodError"
      /\ countSteps isRevise (trace (snd out)) = 2).
Proof. vm_compute. repeat split; reflexivity. Qed.

(** C8, amended.  Let a repair call return text whose parsed object
    fails the shape check.  In the batch path ([repairPass]) the pass
    ends there: no further call is made and the itinerary from before the
    pass is kept.  In the interactive path ([mainReviseOnce], when the
    validation is not ok) exactly one more repair call follows, for the
    same itinerary and violations, whose fixes open with the instruction
    to return a full, not partial, object; when the object parsed from
    its reply passes the Itinerary schema, that itinerary replaces the
    old one and is validated; when that object fails the shape check
    too, the schema parse throws and the step ends in the error. *)
Theorem shape_failure_by_path (World : Type) (env : Environment World)
  (trip : TripRequest) (lists : AllowedLists) (itinerary : Itinerary)
  (validation : ValidationResult) (r r1 r2 : Run World) (raw : string) (obj : Json) :
  let args := reviseArgs trip itinerary fixViolations lists validation in
  let args' := reviseArgs trip itinerary fixSchema lists validation in
  call (CallRevise args) (reviseItineraryJson env args) r = (Returned raw, r1) ->
  parseJsonObjectSafe env raw r1 = (Returned obj, r2) ->
  looksLikeItinerary obj = false ->
  repairPass env trip lists itinerary validation r = (Returned itinerary, r2)
  /\ (r_itinerary args' = itinerary
      /\ r_violations args' = Some (violations validation)
      /\ nth_error (r_fixes args') 0 = Some "Return a FULL Itinerary JSON object (not partial).")
  /\ (ok validation = false ->
      forall (raw' : string) (r3 r4 : Run World) (obj' : Json) (itinerary' : Itinerary),
        call (CallRevise args') (reviseItineraryJson env args') r2 = (Returned raw', r3) ->
        parseJsonObjectSafe env raw' r3 = (Returned obj', r4) ->
        ItinerarySchema_parse obj' = Some itinerary' ->
        mainReviseOnce env trip lists itinerary validation r
        = (Returned (itinerary', validateWith trip lists itinerary'),
           mkRun (world r4) (trace r4 ++ [RanValidator])))
  /\ (ok validation = false ->
      forall (raw' : string) (r3 r4 : Run World) (obj' : Json),
        call (CallRevise args') (reviseItineraryJson env args') r2 = (Returned raw', r3) ->
        parseJsonObjectSafe env raw' r3 = (Returned obj', r4) ->
        looksLikeItinerary obj' = false ->
        mainReviseOnce env trip lists itinerary validation r = (Thrown "ZodError", r4)).
Proof.
  intros args args' Hcall Hparse Hshape. split; [|split; [|split]].
  - unfold repairPass. cbv zeta. fold args. unfold bind at 1. rewrite Hcall.
    unfold bind. rewrite Hparse, Hshape. reflexivity.
  - repeat split.
  - intros Hok raw' r3 r4 obj' itinerary' Hcall' Hparse' Hzod.
    unfold mainReviseOnce. rewrite Hok. cbn [negb]. cbv zeta. fold args args'.
    unfold bind at 1. rewrite Hcall. unfold bind at 1. rewrite Hparse, Hshape. cbn [negb].
    unfold bind at 1. unfold bind at 1. rewrite Hcall'.
    unfold bind at 1. rewrite Hparse', Hzod. reflexivity.
  - intros Hok raw' r3 r4 obj' Hcall' Hparse' Hshape'.
    assert (Hzod : ItinerarySchema_parse obj' = None).
    { destruct (ItinerarySchema_parse obj') as [it'|] eqn:Z; [|reflexivity].
      apply schema_implies_shape in Z. congruence. }
    unfold mainReviseOnce. rewrite Hok. cbn [negb]. cbv zeta. fold args args'.
    unfold bind at 1. rewrite Hcall. unfold bind at 1. rewrite Hparse, Hshape. cbn [negb].
    unfold bind at 1. unfold bind at 1. rewrite Hcall'.
    unfold bind at 1. rewrite Hparse', Hzod. reflexivity.
Qed.

(** [shape_failure_by_path] at the scripted environment: the first reply
    is the empty object; the batch pass keeps the itinerary. *)
Lemma shape_failure_by_path_witness :
  repairPass scripted (sampleTrip relaxed []) sampleLists thinItinerary
    (validateWith (sampleTrip relaxed []) sampleLists thinItinerary) (mkRun ["{}"; "{}"] [])
  = (Returned thinItinerary,
     mkRun ["{}"]
       [CallRevise (reviseArgs (sampleTrip relaxed []) thinItinerary fixViolations sampleLists
                      (validateWith (sampleTrip relaxed []) sampleLists thinItinerary))]).
Proof.
  apply (shape_failure_by_path (list string) scripted (sampleTrip relaxed []) sampleLists
           thinItinerary (validateWith (sampleTrip relaxed []) sampleLists thinItinerary)
           (mkRun ["{}"; "{}"] [])
           (mkRun ["{}"]
              [CallRevise (reviseArgs (sampleTrip relaxed []) thinItinerary fixViolations
                             sampleLists
                             (validateWith (sampleTrip relaxed []) sampleLists thinItinerary))])
           (mkRun ["{}"]
              [CallRevise (reviseArgs (sampleTrip relaxed []) thinItinerary fixViolations
                             sampleLists
                             (validateWith (sampleTrip relaxed []) sampleLists thinItinerary))])
           "{}" (JObj [])).
  - vm_compute. reflexivity.
  - vm_compute. reflexivity.
  - reflexivity.
Defined.

(* ================================================================== *)
(** * 20. The validator as a program on the heap                       *)
(* ================================================================== *)

Section OnHeap.
Variable h0 : Js.Heap.

Lemma bind_Done (A B : Type) (m : Js.Imp A) (k : A -> Js.Imp B) (h h' : Js.Heap) (a : A) :
  m h = (Js.Done a, h') -> Js.bind m k h = k a h'.
Proof. intros E. unfold Js.bind. now rewrite E. Qed.

Lemma during_input acc made a c :
  nth_error h0 a = Some c -> nth_error (during h0 acc made) a = Some c.
Proof.
  intros E. unfold during. rewrite nth_error_app1; [exact E|].
  apply nth_error_Some. congruence.
Qed.

Lemma during_violations acc made :
  nth_error (during h0 acc made) (List.length h0) = Some (Js.CArray (map Js.VString acc)).
Proof. unfold during. rewrite nth_error_app2, Nat.sub_diag by lia. reflexivity. Qed.

Lemma during_made acc made k c :
  nth_error made k = Some c ->
  nth_error (during h0 acc made) (List.length h0 + 1 + k) = Some c.
Proof.
  intros E. unfold during. rewrite nth_error_app2 by lia.
  replace (List.length h0 + 1 + k - List.length h0) with (S k) by lia. exact E.
Qed.

Lemma during_length acc made :
  List.length (during h0 acc made) = List.length h0 + 1 + List.length made.
Proof. unfold during. rewrite length_app. simpl. lia. Qed.

Lemma alloc_during acc made c :
  Js.alloc c (during h0 acc made)
  = (Js.Done (Js.VRef (List.length h0 + 1 + List.length made)), during h0 acc (made ++ [c])).
Proof.
  unfold Js.alloc. rewrite during_length. unfold during.
  now rewrite <- app_assoc, <- app_comm_cons.
Qed.

Lemma getField_input acc made a fields name :
  nth_error h0 a = Some (Js.CObject fields) ->
  Js.getField (Js.VRef a) name (during h0 acc made)
  = (Js.Done (Js.lookup fields name), during h0 acc made).
Proof.
  intros E. unfold Js.getField, Js.bind, Js.deref.
  now rewrite (during_input acc made a _ E).
Qed.

Lemma itemsOf_input acc made a items :
  nth_error h0 a = Some (Js.CArray items) ->
  Js.itemsOf (Js.VRef a) (during h0 acc made) = (Js.Done items, during h0 acc made).
Proof.
  intros E. unfold Js.itemsOf, Js.bind, Js.deref.
  now rewrite (during_input acc made a _ E).
Qed.

Lemma Array_length_input acc made a items :
  nth_error h0 a = Some (Js.CArray items) ->
  Js.Array_length (Js.VRef a) (during h0 acc made)
  = (Js.Done (List.length items), during h0 acc made).
Proof.
  intros E. unfold Js.Array_length. now rewrite (bind_Done _ _ _ _ _ _ _ (itemsOf_input acc made a items E)).
Qed.

Lemma Array_get_input acc made a items i :
  nth_error h0 a = Some (Js.CArray items) ->
  Js.Array_get (Js.VRef a) i (during h0 acc made)
  = (Js.Done (nth i items Js.VUndefined), during h0 acc made).
Proof.
  intros E. unfold Js.Array_get. now rewrite (bind_Done _ _ _ _ _ _ _ (itemsOf_input acc made a items E)).
Qed.

Lemma traverse_strings (l : list string) : traverse Js.stringOf (map Js.VString l) = Some l.
Proof. induction l as [|s l IH]; simpl; [reflexivity | now rewrite IH]. Qed.

Lemma traverse_numbers (l : list Z) : traverse Js.numberOf (map Js.VNumber l) = Some l.
Proof. induction l as [|s l IH]; simpl; [reflexivity | now rewrite IH]. Qed.

Lemma stringsOf_input acc made v l :
  stringArray h0 v l ->
  Js.stringsOf v (during h0 acc made) = (Js.Done l, during h0 acc made).
Proof.
  intros (a & -> & E). unfold Js.stringsOf.
  rewrite (bind_Done _ _ _ _ _ _ _ (itemsOf_input acc made a _ E)).
  now rewrite traverse_strings.
Qed.

Lemma replaceAt_here (h : Js.Heap) (c c' : Js.Cell) (rest : list Js.Cell) :
  Js.replaceAt (List.length h) c' (h ++ c :: rest) = h ++ c' :: rest.
Proof.
  unfold Js.replaceAt. induction h as [|x h IH]; [reflexivity|].
  cbn [List.length app firstn skipn]. f_equal. exact IH.
Qed.

Lemma itemsOf_violations acc made :
  Js.itemsOf (Js.VRef (List.length h0)) (during h0 acc made)
  = (Js.Done (map Js.VString acc), during h0 acc made).
Proof. unfold Js.itemsOf, Js.bind, Js.deref. now rewrite during_violations. Qed.

Lemma store_violations acc made c :
  Js.store (Js.VRef (List.length h0)) c (during h0 acc made) = (Js.Done tt, h0 ++ c :: made).
Proof.
  unfold Js.store. rewrite during_length.
  destruct (Nat.ltb_spec (List.length h0) (List.length h0 + 1 + List.length made)); [|lia].
  unfold during. now rewrite replaceAt_here.
Qed.

Lemma report_during acc made msg :
  Js.report (Js.VRef (List.length h0)) msg (during h0 acc made)
  = (Js.Done tt, during h0 (acc ++ [msg]) made).
Proof.
  unfold Js.report, Js.Array_push.
  rewrite (bind_Done _ _ _ _ _ _ _ (itemsOf_violations acc made)), store_violations.
  unfold during. now rewrite map_app.
Qed.

Ltac js_prim :=
  first [ apply getField_input; eassumption
        | apply Array_length_input; eassumption
        | apply Array_get_input; eassumption
        | apply stringsOf_input; eassumption
        | apply report_during
        | apply alloc_during
        | reflexivity ].

Ltac js_step := erewrite bind_Done; [|js_prim].

Lemma skipn_cell (items : list Js.Value) (i : nat) :
  i < List.length items ->
  skipn i items = nth i items Js.VUndefined :: skipn (S i) items.
Proof.
  revert i. induction items as [|x items IH]; intros i L; [simpl in L; lia|].
  destruct i as [|i]; [reflexivity|]. cbn [skipn nth]. apply IH. simpl in L. lia.
Qed.

(** A loop over an array that was there before the call, with a body
    that reports and does nothing else. *)
Lemma forOfFrom_input (X : Type) (R : Js.Value -> X -> Prop)
  (g : list string -> X -> list string) (body : Js.Value -> Js.Imp unit)
  (made : list Js.Cell) (a : nat) (items : list Js.Value) :
  nth_error h0 a = Some (Js.CArray items) ->
  (forall acc v x, R v x ->
     body v (during h0 acc made) = (Js.Done tt, during h0 (g acc x) made)) ->
  forall turns i xs acc,
    turns + i = List.length items ->
    Forall2 R (skipn i items) xs ->
    Js.forOfFrom turns (Js.VRef a) i body (during h0 acc made)
    = (Js.Done tt, during h0 (fold_left g xs acc) made).
Proof.
  intros Ha Hbody. induction turns as [|turns IH]; intros i xs acc L F.
  - cbn [Js.forOfFrom]. js_step.
    rewrite skipn_all2 in F by lia. inversion F; subst.
    destruct (Nat.ltb_spec i (List.length items)); [lia | reflexivity].
  - cbn [Js.forOfFrom]. js_step.
    destruct (Nat.ltb_spec i (List.length items)); [|lia].
    rewrite skipn_cell in F by lia. inversion F as [|v x vs xs' Rx F']; subst.
    js_step. erewrite bind_Done; [|apply Hbody; exact Rx].
    cbn [fold_left]. apply IH; [lia | exact F'].
Qed.

Lemma forOf_input (X : Type) (R : Js.Value -> X -> Prop)
  (g : list string -> X -> list string) (body : Js.Value -> Js.Imp unit)
  (made : list Js.Cell) (a : nat) (items : list Js.Value) (xs : list X) (acc : list string) :
  nth_error h0 a = Some (Js.CArray items) ->
  Forall2 R items xs ->
  (forall acc v x, R v x ->
     body v (during h0 acc made) = (Js.Done tt, during h0 (g acc x) made)) ->
  Js.forOf (Js.VRef a) body (during h0 acc made)
  = (Js.Done tt, during h0 (fold_left g xs acc) made).
Proof.
  intros Ha F Hbody. unfold Js.forOf. js_step.
  apply (forOfFrom_input X R g body made a items Ha Hbody); [lia | exact F].
Qed.

Lemma strings_related (l : list string) :
  Forall2 (fun v s => v = Js.VString s) (map Js.VString l) l.
Proof. induction l; simpl; constructor; auto. Qed.

(** *** The day numbers: [map], [sort] and the counting loop *)

Lemma store_made acc (c c' : Js.Cell) (rest : list Js.Cell) :
  Js.store (Js.VRef (List.length h0 + 1 + 0)) c' (during h0 acc (c :: rest))
  = (Js.Done tt, during h0 acc (c' :: rest)).
Proof.
  unfold Js.store. rewrite during_length. cbn [List.length].
  destruct (Nat.ltb_spec (List.length h0 + 1 + 0) (List.length h0 + 1 + S (List.length rest)));
    [|lia].
  unfold during. f_equal.
  replace (List.length h0 + 1 + 0)
    with (List.length (h0 ++ [Js.CArray (map Js.VString acc)]))
    by (rewrite length_app; simpl; lia).
  change (h0 ++ Js.CArray (map Js.VString acc) :: c :: rest)
    with (h0 ++ [Js.CArray (map Js.VString acc)] ++ c :: rest).
  rewrite app_assoc, replaceAt_here, <- app_assoc. reflexivity.
Qed.

Lemma itemsOf_made acc (made : list Js.Cell) (k : nat) (items : list Js.Value) :
  nth_error made k = Some (Js.CArray items) ->
  Js.itemsOf (Js.VRef (List.length h0 + 1 + k)) (during h0 acc made)
  = (Js.Done items, during h0 acc made).
Proof.
  intros E. unfold Js.itemsOf, Js.bind, Js.deref. now rewrite (during_made acc made k _ E).
Qed.

Lemma push_made acc ys y :
  Js.Array_push (Js.VRef (List.length h0 + 1 + 0)) y (during h0 acc [Js.CArray ys])
  = (Js.Done tt, during h0 acc [Js.CArray (ys ++ [y])]).
Proof.
  unfold Js.Array_push.
  erewrite bind_Done; [|apply (itemsOf_made acc [Js.CArray ys] 0 ys eq_refl)]. apply store_made.
Qed.

Lemma mapFrom_days acc (a : nat) (items : list Js.Value) :
  nth_error h0 a = Some (Js.CArray items) ->
  forall count i xs ys,
    count + i = List.length items ->
    Forall2 (dayAt h0) (skipn i items) xs ->
    Js.mapFrom count (Js.VRef a) (Js.VRef (List.length h0 + 1 + 0)) i
      (fun d => Js.getField d "day") (during h0 acc [Js.CArray ys])
    = (Js.Done tt, during h0 acc [Js.CArray (ys ++ map Js.VNumber (map d_day xs))]).
Proof.
  intros Ha. induction count as [|count IH]; intros i xs ys L F.
  - rewrite skipn_all2 in F by lia. inversion F; subst. cbn [Js.mapFrom map].
    now rewrite app_nil_r.
  - rewrite skipn_cell in F by lia. inversion F as [|v x vs xs' Rx F']; subst.
    cbn [Js.mapFrom]. js_step.
    destruct Rx as (ad & fields & ab & bs & -> & Hd & Hday & _).
    js_step. rewrite Hday.
    erewrite bind_Done; [|apply push_made].
    rewrite (IH (S i) xs' (ys ++ [Js.VNumber (d_day x)])); [|lia|exact F'].
    cbn [map]. now rewrite <- app_assoc.
Qed.

Lemma Array_map_days acc (a : nat) (items : list Js.Value) (xs : list DayPlan) :
  nth_error h0 a = Some (Js.CArray items) ->
  Forall2 (dayAt h0) items xs ->
  Js.Array_map (Js.VRef a) (fun d => Js.getField d "day") (during h0 acc [])
  = (Js.Done (Js.VRef (List.length h0 + 1 + 0)),
     during h0 acc [Js.CArray (map Js.VNumber (map d_day xs))]).
Proof.
  intros Ha F. unfold Js.Array_map. js_step. js_step. cbn [List.length app].
  erewrite bind_Done; [|apply (mapFrom_days acc a items Ha); [lia | exact F]].
  reflexivity.
Qed.

Lemma sort_made acc (numbers : list Z) :
  Js.Array_sortAscending (Js.VRef (List.length h0 + 1 + 0))
    (during h0 acc [Js.CArray (map Js.VNumber numbers)])
  = (Js.Done tt, during h0 acc [Js.CArray (map Js.VNumber (sortNumbers numbers))]).
Proof.
  unfold Js.Array_sortAscending.
  erewrite bind_Done;
    [|apply (itemsOf_made acc [Js.CArray (map Js.VNumber numbers)] 0 _ eq_refl)].
  rewrite traverse_numbers. apply store_made.
Qed.

Lemma Array_get_made acc (made : list Js.Cell) (k i : nat) (items : list Js.Value) :
  nth_error made k = Some (Js.CArray items) ->
  Js.Array_get (Js.VRef (List.length h0 + 1 + k)) i (during h0 acc made)
  = (Js.Done (nth i items Js.VUndefined), during h0 acc made).
Proof.
  intros E. unfold Js.Array_get.
  erewrite bind_Done; [|apply (itemsOf_made acc made k items E)]. reflexivity.
Qed.

Lemma dayNumberLoop_spec (vt : Js.Value) (trip : TripRequest) (dayNums : list Z)
  (made : list Js.Cell) :
  tripAt h0 vt trip ->
  nth_error made 0 = Some (Js.CArray (map Js.VNumber dayNums)) ->
  forall turns i acc,
    1 <= i ->
    turns + i = Z.to_nat (tripLengthDays trip) + 1 ->
    Js.dayNumberLoop turns vt (Js.VRef (List.length h0 + 1 + 0)) (Js.VRef (List.length h0)) i
      (during h0 acc made)
    = (Js.Done tt, during h0 (fold_left (dayNumberBody dayNums) (seq i turns) acc) made).
Proof.
  intros (a & fields & -> & Ht & HT & _) Hd.
  induction turns as [|turns IH]; intros i acc Li L.
  - cbn [Js.dayNumberLoop]. js_step. rewrite HT. js_step.
    destruct (Z.leb_spec (Z.of_nat i) (tripLengthDays trip)); [lia | reflexivity].
  - cbn [Js.dayNumberLoop]. js_step. rewrite HT. js_step.
    destruct (Z.leb_spec (Z.of_nat i) (tripLengthDays trip)); [|lia].
    erewrite bind_Done; [|apply (Array_get_made acc made 0 (i - 1) _ Hd)].
    cbn [seq fold_left].
    assert (Turn : (if negb (Js.Value_eqb (nth (i - 1) (map Js.VNumber dayNums) Js.VUndefined)
                                (Js.VNumber (Z.of_nat i)))
                    then Js.report (Js.VRef (List.length h0)) (msgDayNumber i)
                    else Js.ret tt) (during h0 acc made)
                   = (Js.Done tt, during h0 (dayNumberBody dayNums acc i) made)).
    { unfold dayNumberBody, push.
      destruct (nth_error dayNums (i - 1)) as [d|] eqn:E.
      - rewrite (nth_error_nth (map Js.VNumber dayNums) (i - 1) Js.VUndefined
                   (x := Js.VNumber d)) by (rewrite nth_error_map, E; reflexivity).
        cbn [Js.Value_eqb]. destruct (negb (d =? Z.of_nat i)%Z);
          [apply report_during | reflexivity].
      - rewrite nth_overflow
          by (rewrite length_map; now apply nth_error_None).
        cbn [Js.Value_eqb negb]. apply report_during. }
    erewrite bind_Done; [|exact Turn]. apply IH; lia.
Qed.

(** *** Sets *)

Lemma has_strings (s : list string) (x : string) :
  existsb (Js.Value_eqb (Js.VString x)) (map Js.VString s) = Set_has s x.
Proof.
  unfold Set_has. induction s as [|y s IH]; [reflexivity|]. cbn [map existsb Js.Value_eqb].
  now rewrite IH.
Qed.

Lemma Set_add_strings (l s : list string) :
  fold_left Js.Set_add (map Js.VString l) (map Js.VString s)
  = map Js.VString (fold_left Set_add l s).
Proof.
  revert s. induction l as [|x l IH]; intros s; [reflexivity|]. cbn [map fold_left].
  unfold Js.Set_add at 2, Set_add at 2. rewrite has_strings.
  destruct (Set_has s x); [apply IH|].
  replace (map Js.VString s ++ [Js.VString x]) with (map Js.VString (s ++ [x]))
    by (now rewrite map_app).
  apply IH.
Qed.

Lemma Set_new_input acc made v (l : list string) :
  stringArray h0 v l ->
  Js.Set_new v (during h0 acc made)
  = (Js.Done (Js.VRef (List.length h0 + 1 + List.length made)),
     during h0 acc (made ++ [Js.CSet (map Js.VString (Set_of l))])).
Proof.
  intros (a & -> & E). unfold Js.Set_new.
  erewrite bind_Done; [|apply itemsOf_input; exact E].
  rewrite alloc_during. unfold Set_of.
  now rewrite <- (Set_add_strings l []).
Qed.

Lemma Set_has_made acc made k (members : list string) (x : string) :
  nth_error made k = Some (Js.CSet (map Js.VString members)) ->
  Js.Set_has (Js.VRef (List.length h0 + 1 + k)) (Js.VString x) (during h0 acc made)
  = (Js.Done (Set_has members x), during h0 acc made).
Proof.
  intros E. unfold Js.Set_has, Js.bind, Js.deref.
  rewrite (during_made acc made k _ E). unfold Js.ret. now rewrite has_strings.
Qed.

(** *** The turns of the loops *)

Lemma report_if acc made (c : bool) (msg : string) :
  (if c then Js.report (Js.VRef (List.length h0)) msg else Js.ret tt) (during h0 acc made)
  = (Js.Done tt, during h0 (if c then push acc msg else acc) made).
Proof. destruct c; [apply report_during | reflexivity]. Qed.

Lemma report_day_if acc made (c : bool) (a : nat) (fields : list (string * Js.Value))
  (dayNo : Z) (msg : Z -> string) :
  nth_error h0 a = Some (Js.CObject fields) ->
  Js.lookup fields "day" = Js.VNumber dayNo ->
  (if c then
     Js.bind (Js.getField (Js.VRef a) "day")
       (fun dayValue => Js.bind (Js.asNumber dayValue)
          (fun dayNo => Js.report (Js.VRef (List.length h0)) (msg dayNo)))
   else Js.ret tt) (during h0 acc made)
  = (Js.Done tt, during h0 (if c then push acc (msg dayNo) else acc) made).
Proof.
  intros Ha Hd. destruct c; [|reflexivity]. js_step. rewrite Hd. js_step. apply report_during.
Qed.

Lemma paceOk_text (p : Pace) (blocks : nat) :
  ((Pace_text p =? "relaxed")%string && (2 <=? blocks)%nat && (blocks <=? 3)%nat
   || (Pace_text p =? "balanced")%string && (3 <=? blocks)%nat && (blocks <=? 4)%nat
   || (Pace_text p =? "packed")%string && (4 <=? blocks)%nat && (blocks <=? 6)%nat)%bool
  = paceOk p blocks.
Proof. destruct p; reflexivity. Qed.

Lemma paceTurn_spec vt trip acc made v d :
  tripAt h0 vt trip -> dayAt h0 v d ->
  Js.paceTurn vt (Js.VRef (List.length h0)) v (during h0 acc made)
  = (Js.Done tt, during h0 (paceBody trip acc d) made).
Proof.
  intros (at_ & tfields & -> & Ht & _ & Hp & _)
         (a & fields & ab & bs & -> & Ha & Hday & Hb & Hbs & Fb & _).
  unfold Js.paceTurn. js_step. rewrite Hb. js_step. js_step. rewrite Hp. js_step.
  rewrite paceOk_text, (Forall2_length Fb). unfold paceBody. cbv zeta.
  apply (report_day_if acc made (negb (paceOk (pace trip) (List.length (d_blocks d)))) a fields
           (d_day d)
           (fun dayNo => ("Day " ++ showZ dayNo ++ " blocks="
                          ++ showNat (List.length (d_blocks d))
                          ++ " violates pace=" ++ Pace_text (pace trip))%string) Ha Hday).
Qed.

Lemma notesTurn_spec acc made v d :
  dayAt h0 v d ->
  Js.notesTurn (Js.VRef (List.length h0)) v (during h0 acc made)
  = (Js.Done tt, during h0 (notesBody acc d) made).
Proof.
  intros (a & fields & ab & bs & -> & Ha & Hday & _ & _ & _ & _ & (an & Hn & Hna)).
  unfold Js.notesTurn. js_step. rewrite Hn. cbn [Js.isNullish]. js_step.
  rewrite length_map. unfold notesBody.
  apply (report_day_if acc made (List.length (d_notes d) <? 2)%nat a fields (d_day d) msgNotes
           Ha Hday).
Qed.

Lemma blockTurn_spec acc made k (allowed : list string) v d vb b :
  dayAt h0 v d -> blockAt h0 vb b ->
  nth_error made k = Some (Js.CSet (map Js.VString allowed)) ->
  Js.blockTurn (Js.VRef (List.length h0 + 1 + k)) (Js.VRef (List.length h0)) v vb
    (during h0 acc made)
  = (Js.Done tt, during h0 (blockBody allowed d acc b) made).
Proof.
  intros (a & fields & ab & bs & -> & Ha & Hday & _)
         (abk & bfields & -> & Hb & Htime & Htitle) Hset.
  unfold Js.blockTurn, blockBody. cbv zeta.
  js_step. rewrite Htime. js_step.
  erewrite bind_Done;
    [|apply (report_day_if acc made (negb (isTimeRange (b_time b))) a fields (d_day d)
               (fun dayNo => msgTime dayNo (b_time b)) Ha Hday)].
  js_step. rewrite Htitle.
  erewrite bind_Done; [|apply (Set_has_made _ made k allowed (b_title b) Hset)].
  erewrite bind_Done.
  2:{ instantiate (1 := during h0
                          (if negb (Set_has allowed (b_title b))
                           then push (if negb (isTimeRange (b_time b))
                                      then push acc (msgTime (d_day d) (b_time b)) else acc)
                                     (msgAttraction (b_title b))
                           else if negb (isTimeRange (b_time b))
                                then push acc (msgTime (d_day d) (b_time b)) else acc)
                          made).
      instantiate (1 := tt).
      destruct (negb (Set_has allowed (b_title b))); [|reflexivity].
      js_step. apply report_during. }
  js_step. apply report_if.
Qed.

Lemma blocksTurn_spec acc made k (allowed : list string) v d :
  dayAt h0 v d ->
  nth_error made k = Some (Js.CSet (map Js.VString allowed)) ->
  Js.blocksTurn (Js.VRef (List.length h0 + 1 + k)) (Js.VRef (List.length h0)) v
    (during h0 acc made)
  = (Js.Done tt, during h0 (blocksBody allowed acc d) made).
Proof.
  intros D Hset. pose proof D as (a & fields & ab & bs & -> & Ha & Hday & Hb & Hbs & Fb & _).
  unfold Js.blocksTurn, blocksBody. js_step. rewrite Hb.
  apply (forOf_input DayBlock (blockAt h0) (blockBody allowed d) _ made ab bs (d_blocks d) acc
           Hbs Fb).
  intros acc' vb b B. now apply blockTurn_spec.
Qed.

Lemma mealTurn_spec vt trip acc made k (allowed : list string) (meal : string) :
  tripAt h0 vt trip ->
  nth_error made k = Some (Js.CSet (map Js.VString allowed)) ->
  Js.mealTurn vt (Js.VRef (List.length h0 + 1 + k)) (Js.VRef (List.length h0))
    (Js.VString meal) (during h0 acc made)
  = (Js.Done tt, during h0 (mealBody trip allowed acc meal) made).
Proof.
  intros (at_ & tfields & -> & Ht & _ & _ & Hc) Hset.
  unfold Js.mealTurn, mealBody. cbv zeta. js_step.
  erewrite bind_Done.
  2:{ instantiate (1 := during h0
                          match extractRestaurantNameFromMeal meal with
                          | Some rest => if negb (Set_has allowed rest)
                                         then push acc (msgRestaurant rest) else acc
                          | None => push acc (msgMealFormat meal)
                          end made).
      instantiate (1 := tt).
      destruct (extractRestaurantNameFromMeal meal) as [rest|]; [|apply report_during].
      erewrite bind_Done; [|apply (Set_has_made _ made k allowed rest Hset)].
      apply report_if. }
  js_step. js_step.
  destruct (Array_includes (constraints trip) "vegetarian"); [|reflexivity].
  apply report_if.
Qed.

Lemma mealsTurn_spec vt trip acc made k (allowed : list string) v d :
  tripAt h0 vt trip -> dayAt h0 v d ->
  nth_error made k = Some (Js.CSet (map Js.VString allowed)) ->
  Js.mealsTurn vt (Js.VRef (List.length h0 + 1 + k)) (Js.VRef (List.length h0)) v
    (during h0 acc made)
  = (Js.Done tt, during h0 (mealsBody trip allowed acc d) made).
Proof.
  intros T (a & fields & ab & bs & -> & Ha & Hday & _ & _ & _ & Hm & _) Hset.
  unfold Js.mealsTurn, mealsBody. cbv zeta.
  js_step. js_step. js_step. js_step.
  erewrite bind_Done;
    [|apply (report_day_if acc made _ a fields (d_day d) msgLunch Ha Hday)].
  erewrite bind_Done;
    [|apply (report_day_if _ made _ a fields (d_day d) msgDinner Ha Hday)].
  js_step. destruct Hm as (am & -> & Hm).
  apply (forOf_input string (fun v s => v = Js.VString s) (mealBody trip allowed) _ made am
           _ (d_meals d) _ Hm (strings_related _)).
  intros acc' v s ->. now apply mealTurn_spec.
Qed.

Lemma rainTurn_spec acc made k (allowed : list string) (rb : string) :
  nth_error made k = Some (Js.CSet (map Js.VString allowed)) ->
  Js.rainTurn (Js.VRef (List.length h0 + 1 + k)) (Js.VRef (List.length h0)) (Js.VString rb)
    (during h0 acc made)
  = (Js.Done tt, during h0 (rainBody allowed acc rb) made).
Proof.
  intros Hset. unfold Js.rainTurn, rainBody.
  erewrite bind_Done; [|apply (Set_has_made _ made k allowed rb Hset)].
  destruct (negb (Set_has allowed rb)); [|reflexivity]. js_step. apply report_during.
Qed.

Lemma Array_length_violations acc made :
  Js.Array_length (Js.VRef (List.length h0)) (during h0 acc made)
  = (Js.Done (List.length acc), during h0 acc made).
Proof.
  unfold Js.Array_length. erewrite bind_Done; [|apply itemsOf_violations].
  unfold Js.ret. now rewrite length_map.
Qed.

(** The program computes what the function of section 5 computes, and
    writes nowhere but into what it has made itself. *)
Lemma validate_on_heap vt vi va vr vb trip itinerary aA aR aI :
  tripAt h0 vt trip -> itineraryAt h0 vi itinerary ->
  stringArray h0 va aA -> stringArray h0 vr aR -> stringArray h0 vb aI ->
  Js.validateItineraryProduction vt vi va vr vb h0
  = (Js.Done (Js.VRef (List.length h0 + 1 + 4)),
     during h0 (violations (validateItineraryProduction trip itinerary aA aR aI))
       (madeBy h0 itinerary aA aR aI (validateItineraryProduction trip itinerary aA aR aI))).
Proof.
  intros T I A R B.
  pose proof T as (at_ & tfields & Et & Ht & HT & Hp & Hc).
  destruct I as (ai & ifields & ad & dayValues & -> & Hi & Hdays & Hd & Fd & (ar & Hrb & Hr)).
  subst vt.
  unfold Js.validateItineraryProduction.
  change (Js.alloc (Js.CArray [])) with (Js.alloc (Js.CArray (map Js.VString []))).
  erewrite bind_Done; [|reflexivity].
  change (h0 ++ [Js.CArray (map Js.VString [])]) with (during h0 [] []).
  js_step. rewrite Hdays. js_step. js_step. rewrite HT. js_step.
  erewrite bind_Done; [|apply report_if].
  js_step. rewrite Hdays.
  erewrite bind_Done; [|apply (Array_map_days _ ad dayValues (days itinerary) Hd Fd)].
  erewrite bind_Done; [|apply sort_made].
  erewrite bind_Done;
    [|apply (dayNumberLoop_spec (Js.VRef at_) trip
               (sortNumbers (map d_day (days itinerary)))
               [Js.CArray (map Js.VNumber (sortNumbers (map d_day (days itinerary))))]
               T eq_refl); lia].
  js_step. rewrite Hdays.
  erewrite bind_Done;
    [|apply (forOf_input DayPlan (dayAt h0) (paceBody trip) _ _ ad dayValues _ _ Hd Fd);
      intros; now apply paceTurn_spec].
  js_step. rewrite Hdays.
  erewrite bind_Done;
    [|apply (forOf_input DayPlan (dayAt h0) notesBody _ _ ad dayValues _ _ Hd Fd);
      intros; now apply notesTurn_spec].
  erewrite bind_Done; [|apply Set_new_input; exact A]. cbn [List.length app].
  js_step. rewrite Hdays.
  erewrite bind_Done;
    [|apply (forOf_input DayPlan (dayAt h0) (blocksBody (Set_of aA)) _ _ ad dayValues _ _ Hd Fd);
      intros; now apply blocksTurn_spec].
  erewrite bind_Done; [|apply Set_new_input; exact R]. cbn [List.length app].
  js_step. rewrite Hdays.
  erewrite bind_Done;
    [|apply (forOf_input DayPlan (dayAt h0) (mealsBody trip (Set_of aR)) _ _ ad dayValues _ _
               Hd Fd);
      intros; now apply mealsTurn_spec].
  erewrite bind_Done; [|apply Set_new_input; exact B]. cbn [List.length app].
  js_step. rewrite Hrb. cbn [Js.isNullish]. js_step.
  erewrite bind_Done;
    [|apply (forOf_input string (fun v s => v = Js.VString s) (rainBody (Set_of aI)) _ _ ar
               _ (rainBackups itinerary) _ Hr (strings_related _));
      intros acc' v s ->; now apply (rainTurn_spec acc' _ 3)].
  erewrite bind_Done; [|apply Array_length_violations].
  rewrite alloc_during. cbn [List.length app].
  unfold validateItineraryProduction, madeBy. cbv zeta. cbn [ok violations].
  rewrite (Forall2_length Fd). reflexivity.
Qed.

End OnHeap.

Lemma stringArray_grows (h ext : Js.Heap) v l : stringArray h v l -> stringArray (h ++ ext) v l.
Proof.
  intros (a & -> & E). exists a. split; [reflexivity|].
  rewrite nth_error_app1; [exact E | apply nth_error_Some; congruence].
Qed.

Lemma cell_grows (h ext : Js.Heap) (a : nat) (c : Js.Cell) :
  nth_error h a = Some c -> nth_error (h ++ ext) a = Some c.
Proof. intros E. rewrite nth_error_app1; [exact E | apply nth_error_Some; congruence]. Qed.

Lemma blockAt_grows (h ext : Js.Heap) v b : blockAt h v b -> blockAt (h ++ ext) v b.
Proof.
  intros (a & fields & -> & E & rest). exists a, fields.
  split; [reflexivity|]. split; [now apply cell_grows | exact rest].
Qed.

Lemma dayAt_grows (h ext : Js.Heap) v d : dayAt h v d -> dayAt (h ++ ext) v d.
Proof.
  intros (a & fields & ab & bs & -> & E & Hday & Hb & Eb & Fb & Hm & Hn).
  exists a, fields, ab, bs. repeat split; auto using cell_grows, stringArray_grows.
  eapply Forall2_impl; [|exact Fb]. intros ? ?. apply blockAt_grows.
Qed.

Lemma argumentsAt_grows (h ext : Js.Heap) vt vi va vr vb trip itinerary aA aR aI :
  argumentsAt h vt vi va vr vb trip itinerary aA aR aI ->
  argumentsAt (h ++ ext) vt vi va vr vb trip itinerary aA aR aI.
Proof.
  intros ((at_ & tfields & -> & Et & HT & Hp & Hc)
          & (ai & ifields & ad & dvs & -> & Ei & Hd & Ed & Fd & Hr) & A & R & B).
  repeat split; auto using stringArray_grows.
  - exists at_, tfields. repeat split; auto using cell_grows, stringArray_grows.
  - exists ai, ifields, ad, dvs. repeat split; auto using cell_grows, stringArray_grows.
    eapply Forall2_impl; [|exact Fd]. intros ? ?. apply dayAt_grows.
Qed.

Lemma resultAt_made (h0 : Js.Heap) (result : ValidationResult) (c1 c2 c3 c4 : Js.Cell) :
  resultAt (during h0 (violations result)
              [c1; c2; c3; c4;
               Js.CObject [("ok", Js.VBool (ok result));
                           ("violations", Js.VRef (List.length h0))]])
           (Js.VRef (List.length h0 + 1 + 4))
  = Some result.
Proof.
  unfold resultAt. erewrite during_made by reflexivity.
  cbn [Js.lookup find fst snd String.eqb Ascii.eqb Bool.eqb]. rewrite during_violations.
  rewrite traverse_strings. now destruct result.
Qed.

(** C9.  The validator as the program it is, on a heap in which its
    arguments are shared objects.  On every heap that holds the trip, the
    itinerary and the three lists, a call returns (it does not throw and
    does not leave the model) a new object whose [ok] flag and violation
    strings, in their order, are those of the function of section 5,
    which depend on the trip, the itinerary and the lists alone: two
    calls on the same inputs give the same result, whatever heaps they
    run on.  A call changes nothing that was there before it (all it
    writes to is what it has made itself: the [violations] array, the
    sorted copy of the day numbers, the three sets and the result), so
    the heap it leaves holds the same inputs, a second call right after
    the first gives the same result again, and the first result is still
    what it was. *)
Theorem validator_deterministic (h h' : Js.Heap) (vt vi va vr vb vt' vi' va' vr' vb' : Js.Value)
  (trip : TripRequest) (itinerary : Itinerary) (aA aR aI : list string) :
  argumentsAt h vt vi va vr vb trip itinerary aA aR aI ->
  argumentsAt h' vt' vi' va' vr' vb' trip itinerary aA aR aI ->
  exists first second again h1 h2 h3,
    Js.validateItineraryProduction vt vi va vr vb h = (Js.Done first, h1)
    /\ Js.validateItineraryProduction vt' vi' va' vr' vb' h' = (Js.Done second, h2)
    /\ Js.validateItineraryProduction vt vi va vr vb h1 = (Js.Done again, h3)
    /\ resultAt h1 first = Some (validateItineraryProduction trip itinerary aA aR aI)
    /\ resultAt h2 second = Some (validateItineraryProduction trip itinerary aA aR aI)
    /\ resultAt h3 again = Some (validateItineraryProduction trip itinerary aA aR aI)
    /\ resultAt h3 first = Some (validateItineraryProduction trip itinerary aA aR aI)
    /\ first <> again
    /\ firstn (List.length h) h1 = h
    /\ firstn (List.length h') h2 = h'
    /\ firstn (List.length h1) h3 = h1
    /\ argumentsAt h1 vt vi va vr vb trip itinerary aA aR aI.
Proof.
  intros Args Args'.
  set (result := validateItineraryProduction trip itinerary aA aR aI).
  set (h1 := during h (violations result) (madeBy h itinerary aA aR aI result)).
  assert (Args1 : argumentsAt h1 vt vi va vr vb trip itinerary aA aR aI).
  { unfold h1, during. now apply argumentsAt_grows. }
  pose proof Args as (T & I & A & R & B).
  pose proof Args' as (T' & I' & A' & R' & B').
  pose proof Args1 as (T1 & I1 & A1 & R1 & B1).
  pose proof (validate_on_heap h vt vi va vr vb trip itinerary aA aR aI T I A R B) as Run1.
  pose proof (validate_on_heap h' vt' vi' va' vr' vb' trip itinerary aA aR aI T' I' A' R' B')
    as Run2.
  pose proof (validate_on_heap h1 vt vi va vr vb trip itinerary aA aR aI T1 I1 A1 R1 B1) as Run3.
  fold result in Run1, Run2, Run3. fold h1 in Run1.
  do 6 eexists.
  split; [exact Run1|]. split; [exact Run2|]. split; [exact Run3|].
  split; [apply resultAt_made|]. split; [apply resultAt_made|]. split; [apply resultAt_made|].
  split.
  { unfold resultAt.
    rewrite (during_input h1 (violations result) (madeBy h1 itinerary aA aR aI result)
               (List.length h + 1 + 4)
               (Js.CObject [("ok", Js.VBool (ok result));
                            ("violations", Js.VRef (List.length h))]))
      by (apply during_made; reflexivity).
    cbn [Js.lookup find fst snd String.eqb Ascii.eqb Bool.eqb].
    rewrite (during_input h1 (violations result) (madeBy h1 itinerary aA aR aI result)
               (List.length h) (Js.CArray (map Js.VString (violations result))))
      by apply during_violations.
    rewrite traverse_strings. now destruct result. }
  split.
  { intros [= E]. unfold h1 in E. rewrite during_length in E. simpl in E. lia. }
  split; [unfold h1, during; now rewrite firstn_app, firstn_all, Nat.sub_diag, app_nil_r|].
  split; [unfold during; now rewrite firstn_app, firstn_all, Nat.sub_diag, app_nil_r|].
  split; [|exact Args1].
  unfold during. now rewrite firstn_app, firstn_all, Nat.sub_diag, app_nil_r.
Qed.

Lemma sampleHeap_arguments (ext : Js.Heap) :
  argumentsAt (sampleHeap ++ ext) (Js.VRef 0) (Js.VRef 2) (Js.VRef 10) (Js.VRef 11) (Js.VRef 12)
    (sampleTrip relaxed []) thinItinerary (allowedAttractions sampleLists)
    (allowedRestaurants sampleLists) (allowedIndoorBackups sampleLists).
Proof.
  apply argumentsAt_grows. repeat split.
  - exists 0, [("destination", Js.VString "Chicago"); ("tripLengthDays", Js.VNumber 1);
               ("pace", Js.VString "relaxed"); ("constraints", Js.VRef 1)].
    repeat split. now exists 1.
  - exists 2, [("summary", Js.VString "A day in the Loop"); ("days", Js.VRef 3);
               ("mustBook", Js.VRef 9); ("rainBackups", Js.VRef 9)], 3, [Js.VRef 4].
    repeat split; [|now exists 9].
    constructor; [|constructor].
    exists 4, [("day", Js.VNumber 1); ("theme", Js.VString "Loop"); ("blocks", Js.VRef 5);
               ("meals", Js.VRef 7); ("notes", Js.VRef 8)], 5, [Js.VRef 6].
    repeat split; [|now exists 7|now exists 8].
    constructor; [|constructor].
    exists 6, [("time", Js.VString "09:00 AM - 11:30 AM"); ("title", Js.VString "Art Institute")].
    repeat split.
  - now exists 10.
  - now exists 11.
  - now exists 12.
Qed.

(** [validator_deterministic] on the sample heap, the second call made
    on the heap the first one left: both give the one violation of the
    thin itinerary. *)
Lemma validator_deterministic_witness :
  exists first second h1 h2,
    Js.validateItineraryProduction (Js.VRef 0) (Js.VRef 2) (Js.VRef 10) (Js.VRef 11) (Js.VRef 12)
      sampleHeap = (Js.Done first, h1)
    /\ Js.validateItineraryProduction (Js.VRef 0) (Js.VRef 2) (Js.VRef 10) (Js.VRef 11)
         (Js.VRef 12) sampleHeapAfter = (Js.Done second, h2)
    /\ resultAt h1 first = Some (mkValidationResult false [msgPace 1 1 relaxed])
    /\ resultAt h2 second = Some (mkValidationResult false [msgPace 1 1 relaxed]).
Proof.
  destruct (validator_deterministic sampleHeap sampleHeapAfter
              (Js.VRef 0) (Js.VRef 2) (Js.VRef 10) (Js.VRef 11) (Js.VRef 12)
              (Js.VRef 0) (Js.VRef 2) (Js.VRef 10) (Js.VRef 11) (Js.VRef 12)
              (sampleTrip relaxed []) thinItinerary (allowedAttractions sampleLists)
              (allowedRestaurants sampleLists) (allowedIndoorBackups sampleLists))
    as (first & second & again & h1 & h2 & h3 & R1 & R2 & _ & V1 & V2 & _).
  - rewrite <- (app_nil_r sampleHeap). apply sampleHeap_arguments.
  - apply (sampleHeap_arguments
             (skipn (List.length sampleHeap) sampleHeapAfter)).
  - exists first, second, h1, h2. repeat split; assumption.
Defined.

(* ================================================================== *)
(** * 21. The inclusive day count                                      *)
(* ================================================================== *)

(** C10.  With [start] and [end_] the times the runtime reads from the
    two dates, [planFromIntake] takes as trip length
    max(1, floor((end_ - start) / 86,400,000) + 1), and that is the
    [tripLengthDays] of the trip request it goes on with: equal times
    give 1,
    an end before the start gives 1 as well, and then the trip request
    is accepted with a length of one day when destination and travelers
    are in order; a count above 30 makes the TripRequest schema refuse
    the object, and the whole request throws before any collaborator is
    called. *)
Theorem inclusive_day_count (World : Type) (env : Environment World) (input : Intake)
  (start end_ : Z) :
  Date_getTime env (in_startDate input ++ "T00:00:00")%string = Some start ->
  Date_getTime env (in_endDate input ++ "T00:00:00")%string = Some end_ ->
  let count := inclusiveDayCount env (in_startDate input) (in_endDate input) in
  count = Some (Z.max 1 ((end_ - start) / msPerDay + 1))%Z
  /\ (end_ = start -> count = Some 1%Z)
  /\ (in_startDate input = in_endDate input -> count = Some 1%Z)
  /\ ((end_ < start)%Z -> count = Some 1%Z)
  /\ (forall trip,
        TripRequestSchema_parse (tripObjOf env input) = Some trip ->
        tripLengthDays trip = Z.max 1 ((end_ - start) / msPerDay + 1))
  /\ ((end_ <= start)%Z -> in_destination input <> "" ->
      (1 <= in_travelers input <= 20)%Z ->
      exists trip,
        TripRequestSchema_parse (tripObjOf env input) = Some trip /\ tripLengthDays trip = 1%Z)
  /\ ((30 < (end_ - start) / msPerDay + 1)%Z ->
      TripRequestSchema_parse (tripObjOf env input) = None
      /\ forall r : Run World, planFromIntake env input r = (Thrown "ZodError", r)).
Proof.
  intros Hs He count.
  assert (C : count = Some (Z.max 1 ((end_ - start) / msPerDay + 1))%Z).
  { unfold count, inclusiveDayCount. now rewrite Hs, He. }
  assert (Neg : (end_ <= start)%Z -> count = Some 1%Z).
  { intros H. rewrite C. f_equal.
    assert ((end_ - start) / msPerDay <= 0)%Z.
    { apply Z.div_le_upper_bound; unfold msPerDay; lia. }
    lia. }
  split; [exact C|]. split; [intros; apply Neg; lia|].
  split; [intros E; apply Neg; rewrite E in Hs; rewrite Hs in He; injection He; lia|].
  split; [intros; apply Neg; lia|]. split; [|split].
  - intros trip. unfold TripRequestSchema_parse, tripObjOf. cbn [o_tripLengthDays].
    fold count. rewrite C. destruct (_ && _)%bool; [|discriminate].
    intros [= <-]. reflexivity.
  - intros Hle Hd (Ht1 & Ht2). unfold TripRequestSchema_parse, tripObjOf. cbn [o_tripLengthDays].
    fold count. rewrite (Neg Hle). cbn [o_destination o_travelers].
    assert ((1 <=? String.length (in_destination input))%nat = true) as ->.
    { apply Nat.leb_le. destruct (in_destination input); [congruence | simpl; lia]. }
    assert ((1 <=? in_travelers input)%Z = true) as -> by (now apply Z.leb_le).
    assert ((in_travelers input <=? 20)%Z = true) as -> by (now apply Z.leb_le).
    eexists. split; reflexivity.
  - intros Hbig.
    assert (P : TripRequestSchema_parse (tripObjOf env input) = None).
    { unfold TripRequestSchema_parse, tripObjOf. cbn [o_tripLengthDays].
      fold count. rewrite C.
      assert ((Z.max 1 ((end_ - start) / msPerDay + 1) <=? 30)%Z = false) as ->
        by (apply Z.leb_gt; lia).
      now rewrite andb_false_r, !andb_false_l. }
    split; [exact P|]. intros r. unfold planFromIntake. cbv zeta. rewrite P. reflexivity.
Qed.

(** [inclusive_day_count] at the scripted environment, for an end date
    two days before the start date: a one-day trip. *)
Lemma inclusive_day_count_witness :
  inclusiveDayCount scripted "2024-05-10" "2024-05-08" = Some 1%Z.
Proof.
  apply (inclusive_day_count (list string) scripted (sampleIntake "2024-05-10" "2024-05-08")
           (19853 * 86400000)%Z (19851 * 86400000)%Z).
  - vm_compute. reflexivity.
  - vm_compute. reflexivity.
  - lia.
Defined.

(** A range of 31 inclusive days is refused. *)
Example planFromIntake_31_days :
  planFromIntake scripted (sampleIntake "2024-05-01" "2024-05-31") (mkRun ["{}"] [])
  = (Thrown "ZodError", mkRun ["{}"] [])
  /\ inclusiveDayCount scripted "2024-05-01" "2024-05-30" = Some 30%Z.
Proof. split; vm_compute; reflexivity. Qed.

(* ================================================================== *)
(** * 22. Schemas, timelines, candidates, caches and endpoints          *)
(* ================================================================== *)

Lemma flat_map_nil {A B : Type} (f : A -> list B) (l : list A) :
  flat_map f l = [] <-> forall x, In x l -> f x = [].
Proof.
  induction l as [|y l IH]; simpl; [tauto|]. split.
  - intros H. apply app_eq_nil in H. destruct H as (Hy & Hl).
    intros x [<-|Hx]; [exact Hy | now apply IH].
  - intros H. rewrite (H y) by (now left). apply IH. intros x Hx. apply H. now right.
Qed.

(** *** Sorting the day numbers *)

Lemma insertNumber_perm (x : Z) (l : list Z) : Permutation (x :: l) (insertNumber x l).
Proof.
  induction l as [|y l IH]; simpl; [reflexivity|].
  destruct (x <=? y)%Z; [reflexivity|].
  rewrite perm_swap. now constructor.
Qed.

Lemma sortNumbers_perm (l : list Z) : Permutation l (sortNumbers l).
Proof.
  induction l as [|x l IH]; simpl; [constructor|].
  rewrite <- insertNumber_perm. now constructor.
Qed.

Lemma insertNumber_comm (x y : Z) (l : list Z) :
  insertNumber x (insertNumber y l) = insertNumber y (insertNumber x l).
Proof.
  induction l as [|z l IH]; simpl.
  - destruct (x <=? y)%Z eqn:A, (y <=? x)%Z eqn:B; try reflexivity.
    + apply Z.leb_le in A, B. now replace y with x by lia.
    + apply Z.leb_gt in A, B. lia.
  - destruct (y <=? z)%Z eqn:Yz, (x <=? z)%Z eqn:Xz; simpl;
      rewrite ?Yz, ?Xz;
      destruct (x <=? y)%Z eqn:A, (y <=? x)%Z eqn:B; simpl; rewrite ?Yz, ?Xz;
      try reflexivity;
      repeat match goal with
             | H : (_ <=? _)%Z = true |- _ => apply Z.leb_le in H
             | H : (_ <=? _)%Z = false |- _ => apply Z.leb_gt in H
             end; try lia; try (now replace y with x by lia); now rewrite IH.
Qed.

Lemma sortNumbers_Permutation (l l' : list Z) :
  Permutation l l' -> sortNumbers l = sortNumbers l'.
Proof.
  induction 1 as [|x l l' _ IH|x y l|l l' l'' _ IH1 _ IH2]; simpl.
  - reflexivity.
  - now rewrite IH.
  - apply insertNumber_comm.
  - now rewrite IH1.
Qed.

Lemma sortNumbers_ascending (a n : nat) :
  sortNumbers (map Z.of_nat (seq a n)) = map Z.of_nat (seq a n).
Proof.
  revert a. induction n as [|n IH]; intros a; [reflexivity|].
  cbn [seq map sortNumbers fold_right]. fold (sortNumbers (map Z.of_nat (seq (S a) n))).
  rewrite IH. destruct n; [reflexivity|]. cbn [seq map insertNumber].
  replace (Z.of_nat a <=? Z.of_nat (S a))%Z with true; [reflexivity|].
  symmetry. apply Z.leb_le. lia.
Qed.

Lemma ascending_by_index (sorted : list Z) (a n : nat) :
  List.length sorted = n ->
  (forall k, k < n -> nth_error sorted k = Some (Z.of_nat (a + k))) ->
  sorted = map Z.of_nat (seq a n).
Proof.
  revert sorted a. induction n as [|n IH]; intros sorted a L H.
  - destruct sorted; [reflexivity | discriminate].
  - destruct sorted as [|z sorted]; [discriminate|]. cbn [seq map].
    pose proof (H 0 ltac:(lia)) as H0. simpl in H0. injection H0 as ->.
    rewrite Nat.add_0_r. f_equal. apply IH.
    + simpl in L. lia.
    + intros k Hk. specialize (H (S k) ltac:(lia)). simpl in H.
      rewrite H. f_equal. lia.
Qed.

Lemma nth_error_ascending (a n k : nat) :
  k < n -> nth_error (map Z.of_nat (seq a n)) k = Some (Z.of_nat (a + k)).
Proof.
  intros H. rewrite nth_error_map, nth_error_seq.
  destruct (Nat.ltb_spec k n); [reflexivity | lia].
Qed.

(** The day-number rule finds nothing exactly when the sorted day
    numbers begin with 1, 2, ..., tripLengthDays. *)
Lemma dayNumberFindings_nil (trip : TripRequest) (itinerary : Itinerary) :
  dayNumberFindings trip itinerary = []
  <-> forall k, k < Z.to_nat (tripLengthDays trip) ->
        nth_error (sortNumbers (map d_day (days itinerary))) k = Some (Z.of_nat (1 + k)).
Proof.
  unfold dayNumberFindings. rewrite flat_map_nil. split.
  - intros H k Hk. specialize (H (S k)). rewrite in_seq in H. specialize (H ltac:(lia)).
    replace (S k - 1) with k in H by lia.
    destruct (nth_error _ k) as [d|]; [|discriminate].
    destruct (Z.eqb_spec d (Z.of_nat (S k))); [|discriminate]. now subst.
  - intros H i Hi. apply in_seq in Hi. specialize (H (i - 1) ltac:(lia)).
    rewrite H. replace (1 + (i - 1)) with i by lia. now rewrite Z.eqb_refl.
Qed.

Lemma dayFindings_numbered (trip : TripRequest) (itinerary : Itinerary) :
  dayCountFindings trip itinerary = [] /\ dayNumberFindings trip itinerary = []
  <-> numberedOneToN (tripLengthDays trip) (days itinerary).
Proof.
  unfold numberedOneToN, dayCountFindings. rewrite dayNumberFindings_nil.
  set (n := tripLengthDays trip). set (ds := days itinerary). split.
  - intros (Hc & Hn). destruct (Z.eqb_spec (Z.of_nat (List.length ds)) n) as [E|]; [|discriminate].
    split; [exact E|].
    assert (En : Z.to_nat n = List.length ds) by lia. rewrite En in Hn.
    rewrite <- (ascending_by_index (sortNumbers (map d_day ds)) 1 (List.length ds)).
    + apply sortNumbers_perm.
    + rewrite <- (Permutation_length (sortNumbers_perm _)). apply length_map.
    + exact Hn.
  - intros (E & P). rewrite E, Z.eqb_refl. split; [reflexivity|].
    intros k Hk. rewrite (sortNumbers_Permutation _ _ P), sortNumbers_ascending.
    apply nth_error_ascending. lia.
Qed.

(** *** Each rule's findings are empty exactly on what the rule accepts *)

Lemma Array_includes_In (arr : list string) (x : string) :
  Array_includes arr x = true <-> In x arr.
Proof. exact (Set_has_In arr x). Qed.

Lemma paceFindings_nil (trip : TripRequest) (day : DayPlan) :
  paceFindings trip day = [] <-> paceOk (pace trip) (List.length (d_blocks day)) = true.
Proof. unfold paceFindings. destruct (paceOk _ _); split; congruence. Qed.

Lemma notesFindings_nil (day : DayPlan) :
  notesFindings day = [] <-> 2 <= List.length (d_notes day).
Proof.
  unfold notesFindings. destruct (Nat.ltb_spec (List.length (d_notes day)) 2);
    split; try congruence; lia.
Qed.

Lemma blockFindings_nil (allowed : list string) (day : DayPlan) (b : DayBlock) :
  blockFindings allowed day b = [] <-> validBlock allowed b.
Proof.
  unfold blockFindings, validBlock. rewrite <- Array_includes_In.
  destruct (isTimeRange (b_time b)), (Array_includes allowed (b_title b)),
    (includes (toLowerCase (b_title b)) "lunch"), (includes (toLowerCase (b_title b)) "dinner");
    simpl; split; try discriminate; try tauto; intros (? & ? & ? & ?); discriminate.
Qed.

Lemma mealFindings_nil (trip : TripRequest) (allowed : list string) (meal : string) :
  mealFindings trip allowed meal = [] <-> validMeal trip allowed meal.
Proof.
  unfold mealFindings, restaurantFindings, vegetarianFindings, validMeal.
  rewrite <- Array_includes_In. set (hinted := existsb _ vegHints).
  assert (Hh : hinted = true
               <-> exists h, In h vegHints /\ includes (toLowerCase meal) h = true)
    by apply existsb_exists.
  split.
  - intros H. apply app_eq_nil in H. destruct H as (Hr & Hv). split.
    + destruct (extractRestaurantNameFromMeal meal) as [rest|]; [|discriminate].
      exists rest. split; [reflexivity|]. apply Array_includes_In.
      destruct (Array_includes allowed rest); [reflexivity | discriminate].
    + intros Hc. apply Hh. rewrite Hc in Hv. destruct hinted; [reflexivity | discriminate].
  - intros ((rest & -> & Hin) & Hv). apply Array_includes_In in Hin. rewrite Hin. simpl.
    destruct (Array_includes (constraints trip) "vegetarian"); [|reflexivity].
    rewrite (proj2 Hh (Hv eq_refl)). reflexivity.
Qed.

Lemma mealsFindings_nil (trip : TripRequest) (allowed : list string) (day : DayPlan) :
  mealsFindings trip allowed day = []
  <-> (exists m, In m (d_meals day) /\ startsWith m "Lunch:" = true)
      /\ (exists m, In m (d_meals day) /\ startsWith m "Dinner:" = true)
      /\ (forall meal, In meal (d_meals day) -> validMeal trip allowed meal).
Proof.
  unfold mealsFindings. rewrite <- !existsb_exists. split.
  - intros H. apply app_eq_nil in H. destruct H as (Hl & H).
    apply app_eq_nil in H. destruct H as (Hd & Hm).
    split; [destruct (existsb _ _); [reflexivity | discriminate]|].
    split; [destruct (existsb (fun m => startsWith m "Dinner:") _); [reflexivity | discriminate]|].
    intros meal Hmeal. apply mealFindings_nil. revert meal Hmeal. now apply flat_map_nil.
  - intros (-> & -> & H). simpl. apply flat_map_nil. intros meal Hmeal.
    apply mealFindings_nil. now apply H.
Qed.

Lemma rainFindings_nil (allowed : list string) (rb : string) :
  rainFindings allowed rb = [] <-> In rb allowed.
Proof.
  unfold rainFindings. rewrite <- Array_includes_In.
  destruct (Array_includes allowed rb); split; congruence.
Qed.

Lemma allFindings_nil (trip : TripRequest) (itinerary : Itinerary) (aA aR aI : list string) :
  allFindings trip itinerary aA aR aI = [] <-> validItinerary trip itinerary aA aR aI.
Proof.
  unfold allFindings, validItinerary, validDay. rewrite <- dayFindings_numbered. split.
  - intros H.
    apply app_eq_nil in H. destruct H as (H1 & H).
    apply app_eq_nil in H. destruct H as (H2 & H).
    apply app_eq_nil in H. destruct H as (H3 & H).
    apply app_eq_nil in H. destruct H as (H4 & H).
    apply app_eq_nil in H. destruct H as (H5 & H).
    apply app_eq_nil in H. destruct H as (H6 & H7).
    split; [auto|]. split.
    + intros day Hday.
      rewrite flat_map_nil in H3, H4, H5, H6.
      specialize (H3 day Hday). specialize (H4 day Hday).
      specialize (H5 day Hday). specialize (H6 day Hday).
      apply paceFindings_nil in H3. apply notesFindings_nil in H4.
      apply mealsFindings_nil in H6. rewrite flat_map_nil in H5.
      split; [exact H3|]. split; [exact H4|]. split; [|exact H6].
      intros b Hb. apply (blockFindings_nil aA day). now apply H5.
    + intros rb Hrb. apply rainFindings_nil. revert rb Hrb. now apply flat_map_nil.
  - intros ((H1 & H2) & Hd & Hr). rewrite H1, H2. simpl.
    replace (flat_map (paceFindings trip) (days itinerary)) with (@nil string).
    2:{ symmetry. apply flat_map_nil. intros day Hday. apply paceFindings_nil.
        apply (Hd day Hday). }
    replace (flat_map notesFindings (days itinerary)) with (@nil string).
    2:{ symmetry. apply flat_map_nil. intros day Hday. apply notesFindings_nil.
        apply (Hd day Hday). }
    replace (flat_map (fun day => flat_map (blockFindings aA day) (d_blocks day))
               (days itinerary)) with (@nil string).
    2:{ symmetry. apply flat_map_nil. intros day Hday. apply flat_map_nil. intros b Hb.
        apply blockFindings_nil. now apply (Hd day Hday). }
    replace (flat_map (mealsFindings trip aR) (days itinerary)) with (@nil string).
    2:{ symmetry. apply flat_map_nil. intros day Hday. apply mealsFindings_nil.
        apply (Hd day Hday). }
    simpl. apply flat_map_nil. intros rb Hrb. apply rainFindings_nil. now apply Hr.
Qed.

Lemma ok_iff_valid (trip : TripRequest) (itinerary : Itinerary) (aA aR aI : list string) :
  ok (validateItineraryProduction trip itinerary aA aR aI) = true
  <-> validItinerary trip itinerary aA aR aI.
Proof. rewrite validate_ok, validate_findings. apply allFindings_nil. Qed.

(** X1.  The validator answers [ok] exactly on the itineraries that meet
    every rule: there are [tripLengthDays] days and their numbers are
    1, 2, ..., [tripLengthDays] in some order; every day has a block
    count in the range of the trip's pace and at least two notes; every
    block has a time that holds " - ", a title that is one of the allowed
    attractions and holds neither "lunch" nor "dinner" in any letter
    case; every day has a meal that starts with "Lunch:" and one that
    starts with "Dinner:"; every meal has a restaurant portion that is one
    of the allowed restaurants and, when the trip's constraints hold
    "vegetarian", one of the hints in its lower-cased text; and every
    rain backup is one of the allowed indoor backups. *)
Theorem validator_ok_iff (trip : TripRequest) (itinerary : Itinerary)
  (aA aR aI : list string) :
  ok (validateItineraryProduction trip itinerary aA aR aI) = true
  <-> validItinerary trip itinerary aA aR aI.
Proof. apply ok_iff_valid. Qed.

(** *** Day messages *)

Lemma msgDayNumber_inj (i j : nat) : msgDayNumber i = msgDayNumber j -> i = j.
Proof. intros H. open_messages. injection H as H. now apply showNat_inj. Qed.

(** Peel a hypothesis [In x findings] over the per-day and rain-backup
    rules down to single messages, and close the goal when each of them
    belongs to another rule than [x]. *)
Ltac foreign_message :=
  repeat match goal with
         | H : In _ (_ ++ _) |- _ => apply in_app_or in H; destruct H as [H|H]
         | H : In _ (flat_map _ _) |- _ => apply in_flat_map in H; destruct H as (? & _ & H)
         | H : In _ (paceFindings _ _) |- _ => unfold paceFindings in H
         | H : In _ (notesFindings _) |- _ => unfold notesFindings in H
         | H : In _ (blockFindings _ _ _) |- _ => unfold blockFindings in H
         | H : In _ (mealsFindings _ _ _) |- _ => unfold mealsFindings in H
         | H : In _ (mealFindings _ _ _) |- _ =>
             unfold mealFindings, restaurantFindings, vegetarianFindings in H
         | H : In _ (rainFindings _ _) |- _ => unfold rainFindings in H
         | H : In _ (if ?c then _ else _) |- _ => destruct c
         | H : In _ (match ?c with Some _ => _ | None => _ end) |- _ => destruct c
         | H : In _ [] |- _ => destruct H
         | H : In _ [_] |- _ => destruct H as [H|[]]
         end;
  try solve [other_rule | other_day_rule].

Lemma dayNumber_message_origin (trip : TripRequest) (itinerary : Itinerary)
  (aA aR aI : list string) (i : nat) :
  In (msgDayNumber i) (allFindings trip itinerary aA aR aI)
  <-> In (msgDayNumber i) (dayNumberFindings trip itinerary).
Proof.
  unfold allFindings. split.
  - intros H. apply in_app_or in H. destruct H as [H|H].
    { unfold dayCountFindings in H. destruct (_ =? _)%Z; simpl in H; [tauto|].
      destruct H as [H|[]]. other_rule. }
    apply in_app_or in H. destruct H as [H|H]; [exact H|].
    exfalso. foreign_message.
  - intros H. apply in_or_app. right. apply in_or_app. now left.
Qed.

Lemma dayCount_message_origin (trip : TripRequest) (itinerary : Itinerary)
  (aA aR aI : list string) (k : nat) (m : Z) :
  In (msgDayCount k m) (allFindings trip itinerary aA aR aI)
  <-> In (msgDayCount k m) (dayCountFindings trip itinerary).
Proof.
  unfold allFindings. split.
  - intros H. apply in_app_or in H. destruct H as [H|H]; [exact H|].
    exfalso. apply in_app_or in H. destruct H as [H|H].
    { unfold dayNumberFindings in H. apply in_flat_map in H. destruct H as (i & _ & H).
      destruct (nth_error _ _) as [d|]; [destruct (d =? _)%Z|]; simpl in H; try tauto;
        destruct H as [H|[]]; other_rule. }
    foreign_message.
  - intros H. apply in_or_app. now left.
Qed.

Lemma dayNumberFindings_In (trip : TripRequest) (itinerary : Itinerary) (i : nat) :
  In (msgDayNumber i) (dayNumberFindings trip itinerary)
  <-> 1 <= i <= Z.to_nat (tripLengthDays trip)
      /\ nth_error (sortNumbers (map d_day (days itinerary))) (i - 1) <> Some (Z.of_nat i).
Proof.
  unfold dayNumberFindings. rewrite in_flat_map. split.
  - intros (j & Hj & H). apply in_seq in Hj.
    assert (E : j = i).
    { destruct (nth_error _ (j - 1)) as [d|]; [destruct (d =? Z.of_nat j)%Z|];
        simpl in H; try tauto; destruct H as [H|[]]; now apply msgDayNumber_inj in H. }
    subst j. split; [lia|]. intros N. rewrite N, Z.eqb_refl in H. destruct H.
  - intros (Hi & N). exists i. split; [apply in_seq; lia|].
    destruct (nth_error _ (i - 1)) as [d|]; [|now left].
    destruct (Z.eqb_spec d (Z.of_nat i)) as [->|]; [now elim N | now left].
Qed.

(** X2.  The day rules.  The day-count message stands in the
    validator's list exactly when the number of days differs from
    [tripLengthDays]; the message "Missing or wrong day number: expected
    day i" stands exactly for the [i] from 1 to [tripLengthDays] at which
    the day numbers, sorted upwards, do not hold [i] at place [i].  The
    list holds none of these messages exactly when the days are
    [tripLengthDays] in number and carry the numbers 1, 2, ...,
    [tripLengthDays] in some order; then no two days share a number and
    every number lies between 1 and [tripLengthDays]. *)
Theorem day_numbering_rule (trip : TripRequest) (itinerary : Itinerary)
  (aA aR aI : list string) :
  let found := violations (validateItineraryProduction trip itinerary aA aR aI) in
  let n := tripLengthDays trip in
  let count := List.length (days itinerary) in
  let sorted := sortNumbers (map d_day (days itinerary)) in
  (In (msgDayCount count n) found <-> Z.of_nat count <> n)
  /\ (forall i, In (msgDayNumber i) found
                <-> 1 <= i <= Z.to_nat n /\ nth_error sorted (i - 1) <> Some (Z.of_nat i))
  /\ (~ In (msgDayCount count n) found /\ (forall i, ~ In (msgDayNumber i) found)
      <-> numberedOneToN n (days itinerary))
  /\ (numberedOneToN n (days itinerary) ->
      NoDup (map d_day (days itinerary))
      /\ forall day, In day (days itinerary) -> (1 <= d_day day <= n)%Z).
Proof.
  intros found n count sorted. unfold found. rewrite validate_findings.
  assert (C : In (msgDayCount count n) (allFindings trip itinerary aA aR aI)
              <-> Z.of_nat count <> n).
  { rewrite dayCount_message_origin. unfold dayCountFindings. fold count n.
    destruct (Z.eqb_spec (Z.of_nat count) n); simpl; intuition congruence. }
  assert (N : forall i, In (msgDayNumber i) (allFindings trip itinerary aA aR aI)
                        <-> 1 <= i <= Z.to_nat n
                            /\ nth_error sorted (i - 1) <> Some (Z.of_nat i)).
  { intros i. rewrite dayNumber_message_origin. apply dayNumberFindings_In. }
  split; [exact C|]. split; [exact N|]. split.
  - apply (iff_trans (B := dayCountFindings trip itinerary = []
                             /\ dayNumberFindings trip itinerary = []));
      [|apply dayFindings_numbered].
    split.
    + intros (Hc & Hn). split.
      * unfold dayCountFindings. fold count n.
        destruct (Z.eqb_spec (Z.of_nat count) n) as [|Ne]; [reflexivity|].
        elim Hc. now apply C.
      * apply dayNumberFindings_nil. intros k Hk.
        destruct (nth_error (sortNumbers (map d_day (days itinerary))) k) as [d|] eqn:E.
        -- destruct (Z.eq_dec d (Z.of_nat (1 + k))) as [->|Ne]; [reflexivity|].
           elim (Hn (S k)). apply N. split; [fold n in Hk; lia|].
           replace (S k - 1) with k by lia. unfold sorted. rewrite E.
           intros [= ->]. now apply Ne.
        -- elim (Hn (S k)). apply N. split; [fold n in Hk; lia|].
           replace (S k - 1) with k by lia. unfold sorted. rewrite E. discriminate.
    + intros (Hc & Hn). split.
      * rewrite dayCount_message_origin, Hc. auto.
      * intros i. rewrite dayNumber_message_origin, Hn. auto.
  - intros (E & P). split.
    + apply (Permutation_NoDup (Permutation_sym P)).
      apply Finite.Injective_map_NoDup; [intros a b; apply Nat2Z.inj | apply seq_NoDup].
    + intros day Hday.
      assert (H : In (d_day day) (map Z.of_nat (seq 1 (List.length (days itinerary))))).
      { apply (Permutation_in _ P). now apply in_map. }
      apply in_map_iff in H. destruct H as (k & <- & Hk). apply in_seq in Hk.
      fold count in Hk, E. lia.
Qed.

(** *** The allowed lists as sets *)

Lemma validate_record (trip : TripRequest) (itinerary : Itinerary) (aA aR aI : list string) :
  validateItineraryProduction trip itinerary aA aR aI
  = {| ok := (List.length (allFindings trip itinerary aA aR aI) =? 0)%nat;
       violations := allFindings trip itinerary aA aR aI |}.
Proof.
  rewrite <- validate_findings. unfold validateItineraryProduction. reflexivity.
Qed.

Lemma Subsequence_refl {A : Type} (l : list A) : Subsequence l l.
Proof. induction l; constructor; assumption. Qed.

Lemma Subsequence_nil_l {A : Type} (l : list A) : Subsequence [] l.
Proof. induction l; constructor; assumption. Qed.

Lemma Subsequence_app {A : Type} (l1 l2 m1 m2 : list A) :
  Subsequence l1 l2 -> Subsequence m1 m2 -> Subsequence (l1 ++ m1) (l2 ++ m2).
Proof. induction 1; simpl; intros; try constructor; auto. Qed.

Lemma Subsequence_flat_map {A B : Type} (f g : A -> list B) (l : list A) :
  (forall x, In x l -> Subsequence (f x) (g x)) -> Subsequence (flat_map f l) (flat_map g l).
Proof.
  induction l as [|y l IH]; intros H; simpl; [constructor|].
  apply Subsequence_app; [apply H; now left | apply IH; intros x Hx; apply H; now right].
Qed.

Lemma Subsequence_length {A : Type} (l1 l2 : list A) :
  Subsequence l1 l2 -> List.length l1 <= List.length l2.
Proof. induction 1; simpl; lia. Qed.

Lemma Subsequence_In {A : Type} (l1 l2 : list A) (x : A) :
  Subsequence l1 l2 -> In x l1 -> In x l2.
Proof. induction 1; simpl; intuition. Qed.

Lemma Array_includes_same (a a' : list string) (x : string) :
  (forall y, In y a <-> In y a') -> Array_includes a x = Array_includes a' x.
Proof. intros H. apply eq_true_iff_eq. rewrite !Array_includes_In. apply H. Qed.

Lemma Array_includes_incl (a a' : list string) (x : string) :
  incl a a' -> Array_includes a x = true -> Array_includes a' x = true.
Proof. rewrite !Array_includes_In. intros H. apply H. Qed.

Lemma allFindings_same (trip : TripRequest) (itinerary : Itinerary)
  (aA aR aI aA' aR' aI' : list string) :
  (forall x, In x aA <-> In x aA') -> (forall x, In x aR <-> In x aR') ->
  (forall x, In x aI <-> In x aI') ->
  allFindings trip itinerary aA aR aI = allFindings trip itinerary aA' aR' aI'.
Proof.
  intros HA HR HI. unfold allFindings.
  replace (flat_map (fun day => flat_map (blockFindings aA' day) (d_blocks day))
             (days itinerary))
    with (flat_map (fun day => flat_map (blockFindings aA day) (d_blocks day))
            (days itinerary)).
  2:{ apply flat_map_ext. intros day. apply flat_map_ext. intros b. unfold blockFindings.
      now rewrite (Array_includes_same aA aA'). }
  replace (flat_map (mealsFindings trip aR') (days itinerary))
    with (flat_map (mealsFindings trip aR) (days itinerary)).
  2:{ apply flat_map_ext. intros day. unfold mealsFindings. do 2 f_equal.
      apply flat_map_ext. intros meal. unfold mealFindings, restaurantFindings.
      destruct (extractRestaurantNameFromMeal meal) as [rest|]; [|reflexivity].
      now rewrite (Array_includes_same aR aR'). }
  replace (flat_map (rainFindings aI') (rainBackups itinerary))
    with (flat_map (rainFindings aI) (rainBackups itinerary)); [reflexivity|].
  apply flat_map_ext. intros rb. unfold rainFindings.
  now rewrite (Array_includes_same aI aI').
Qed.

Lemma allFindings_incl (trip : TripRequest) (itinerary : Itinerary)
  (aA aR aI aA' aR' aI' : list string) :
  incl aA aA' -> incl aR aR' -> incl aI aI' ->
  Subsequence (allFindings trip itinerary aA' aR' aI') (allFindings trip itinerary aA aR aI).
Proof.
  intros HA HR HI. unfold allFindings.
  repeat (apply Subsequence_app; [try apply Subsequence_refl|]).
  - apply Subsequence_flat_map. intros day _. apply Subsequence_flat_map. intros b _.
    unfold blockFindings.
    apply Subsequence_app; [apply Subsequence_refl|].
    apply Subsequence_app; [|apply Subsequence_refl].
    destruct (Array_includes aA (b_title b)) eqn:E.
    + rewrite (Array_includes_incl aA aA' _ HA E). constructor.
    + destruct (Array_includes aA' (b_title b));
        [apply Subsequence_nil_l | apply Subsequence_refl].
  - apply Subsequence_flat_map. intros day _. unfold mealsFindings.
    apply Subsequence_app; [apply Subsequence_refl|].
    apply Subsequence_app; [apply Subsequence_refl|].
    apply Subsequence_flat_map. intros meal _. unfold mealFindings, restaurantFindings.
    apply Subsequence_app; [|apply Subsequence_refl].
    destruct (extractRestaurantNameFromMeal meal) as [rest|]; [|apply Subsequence_refl].
    destruct (Array_includes aR rest) eqn:E.
    + rewrite (Array_includes_incl aR aR' _ HR E). constructor.
    + destruct (Array_includes aR' rest);
        [apply Subsequence_nil_l | apply Subsequence_refl].
  - apply Subsequence_flat_map. intros rb _. unfold rainFindings.
    destruct (Array_includes aI rb) eqn:E.
    + rewrite (Array_includes_incl aI aI' _ HI E). constructor.
    + destruct (Array_includes aI' rb);
        [apply Subsequence_nil_l | apply Subsequence_refl].
Qed.

(** X3.  The validator reads the three allowed lists as sets.  Lists
    with the same members give the same result, whatever their order and
    repetitions.  Lists that grow never add a violation: the violations
    under the larger lists are those under the smaller with some left
    out, in the same order, so they are no more in number, and an
    itinerary that was ok stays ok. *)
Theorem allowed_lists_as_sets (trip : TripRequest) (itinerary : Itinerary)
  (aA aR aI aA' aR' aI' : list string) :
  let before := validateItineraryProduction trip itinerary aA aR aI in
  let after := validateItineraryProduction trip itinerary aA' aR' aI' in
  ((forall x, In x aA <-> In x aA') -> (forall x, In x aR <-> In x aR') ->
   (forall x, In x aI <-> In x aI') -> after = before)
  /\ (incl aA aA' -> incl aR aR' -> incl aI aI' ->
      Subsequence (violations after) (violations before)
      /\ List.length (violations after) <= List.length (violations before)
      /\ (ok before = true -> ok after = true)).
Proof.
  intros before after. unfold before, after. rewrite !validate_record. split.
  - intros HA HR HI. now rewrite (allFindings_same trip itinerary aA aR aI aA' aR' aI').
  - intros HA HR HI. cbn [violations ok].
    pose proof (allFindings_incl trip itinerary aA aR aI aA' aR' aI' HA HR HI) as S.
    split; [exact S|]. pose proof (Subsequence_length _ _ S) as L. split; [exact L|].
    rewrite !Nat.eqb_eq. lia.
Qed.

(** *** The vegetarian hints *)

Lemma prefix_trans (p q s : string) :
  prefix p q = true -> prefix q s = true -> prefix p s = true.
Proof.
  revert q s. induction p as [|a p IH]; intros q s Hpq Hqs; [now destruct s|].
  destruct q as [|b q]; [discriminate|]. destruct s as [|c s]; [discriminate|].
  simpl in *. destruct (ascii_dec a b) as [->|]; [|discriminate].
  destruct (ascii_dec b c) as [->|]; [|discriminate]. now apply (IH q).
Qed.

Lemma includes_shorter (p q s : string) :
  prefix p q = true -> includes s q = true -> includes s p = true.
Proof.
  intros Hpq. induction s as [|c s IH]; cbn [includes]; rewrite !orb_true_iff.
  - intros [H|H]; [|discriminate]. left. now apply (prefix_trans p q).
  - intros [H|H]; [left; now apply (prefix_trans p q) | right; now apply IH].
Qed.

Lemma vegHints_core (lower : string) :
  existsb (fun h => includes lower h) vegHints
  = existsb (fun h => includes lower h) coreVegHints.
Proof.
  unfold vegHints, coreVegHints. cbn [existsb].
  pose proof (includes_shorter "veg" "vegetarian" lower eq_refl) as H1.
  pose proof (includes_shorter "veg" "vegan" lower eq_refl) as H2.
  pose proof (includes_shorter "veg" "vegetable" lower eq_refl) as H3.
  destruct (includes lower "veg").
  - reflexivity.
  - destruct (includes lower "vegetarian"); [discriminate (H1 eq_refl)|].
    destruct (includes lower "vegan"); [discriminate (H2 eq_refl)|].
    destruct (includes lower "vegetable"); [discriminate (H3 eq_refl)|].
    cbn [orb]. now rewrite !orb_false_r.
Qed.

(** X4.  Of the nine vegetarian hints, six decide: "vegetarian", "vegan"
    and "vegetable" hold "veg", so a text holds one of the nine exactly
    when it holds one of "veg", "plant", "tofu", "paneer", "lentil",
    "chickpea".  The message 'Meal may not clearly indicate vegetarian
    dish' stands for a meal text exactly when the trip's constraints hold
    the string "vegetarian" itself, the text is a meal of some day, and
    its lower-cased form holds none of the six. *)
Theorem vegetarian_hints_core (trip : TripRequest) (itinerary : Itinerary)
  (aA aR aI : list string) :
  (forall lower : string,
     existsb (fun h => includes lower h) vegHints
     = existsb (fun h => includes lower h) coreVegHints)
  /\ (forall meal : string,
        In (msgVegetarian meal) (violations (validateItineraryProduction trip itinerary aA aR aI))
        <-> In "vegetarian" (constraints trip)
            /\ In meal (allMeals itinerary)
            /\ forall h, In h coreVegHints -> includes (toLowerCase meal) h = false).
Proof.
  split; [exact vegHints_core|]. intros meal.
  rewrite (count_occ_In string_dec).
  rewrite (count_in_meals trip itinerary aA aR aI (msgVegetarian meal)
             (fun y => (Array_includes (constraints trip) "vegetarian" && lacksDietarySignal y)
                       && String.eqb y meal));
    try not_a_meal_message.
  2:{ intros y. apply mealFindings_vegetarian. }
  rewrite (filter_eq_count
             (fun y => Array_includes (constraints trip) "vegetarian" && lacksDietarySignal y)).
  rewrite <- lacksDietarySignal_vegHints, vegHints_core.
  rewrite <- Array_includes_In, (count_occ_In string_dec).
  assert (Hc : existsb (fun h => includes (toLowerCase meal) h) coreVegHints = false
               <-> forall h, In h coreVegHints -> includes (toLowerCase meal) h = false).
  { split.
    - intros H h Hh. destruct (includes (toLowerCase meal) h) eqn:E; [|reflexivity].
      rewrite <- H. symmetry. apply existsb_exists. now exists h.
    - intros H. destruct (existsb _ coreVegHints) eqn:E; [|reflexivity].
      apply existsb_exists in E. destruct E as (h & Hh & E). now rewrite (H h Hh) in E. }
  rewrite <- Hc.
  destruct (Array_includes (constraints trip) "vegetarian"),
    (existsb (fun h => includes (toLowerCase meal) h) coreVegHints); cbn [andb negb];
    intuition (try discriminate; try lia).
Qed.

Lemma traverse_spec {A B : Type} (f : A -> option B) (l : list A) (ys : list B) :
  traverse f l = Some ys ->
  List.length ys = List.length l /\ forall y, In y ys -> exists x, In x l /\ f x = Some y.
Proof.
  revert ys. induction l as [|x l IH]; intros ys H; simpl in H.
  - injection H as <-. split; [reflexivity | intros y []].
  - destruct (f x) as [y|] eqn:Fx; [|discriminate].
    destruct (traverse f l) as [ys'|]; [|discriminate]. injection H as <-.
    destruct (IH ys' eq_refl) as (L & Hin). split; [simpl; now rewrite L|].
    intros y' [<-|Hy'].
    + exists x. split; [now left | exact Fx].
    + destruct (Hin y' Hy') as (x' & Hx' & E). exists x'. split; [now right | exact E].
Qed.

Lemma z_string_min1_spec (v : option Json) (s : string) :
  z_string_min1 v = Some s -> v = Some (JStr s) /\ s <> "".
Proof.
  unfold z_string_min1. destruct v as [[]|]; try discriminate.
  destruct s0; simpl; [discriminate|]. intros [= <-]. split; [reflexivity | discriminate].
Qed.

Lemma z_array_min_spec {A : Type} (item : Json -> option A) (n : nat) (v : option Json)
  (l : list A) :
  z_array_min item n v = Some l ->
  n <= List.length l
  /\ exists items, v = Some (JArr items) /\ traverse item items = Some l.
Proof.
  unfold z_array_min. destruct v as [[]|]; try discriminate.
  destruct (traverse item items) as [l'|] eqn:T; [|discriminate].
  destruct (Nat.leb_spec n (List.length l')); [|discriminate].
  intros [= <-]. split; [assumption|]. now exists items.
Qed.

Lemma DayBlockSchema_bounds (j : Json) (b : DayBlock) :
  DayBlockSchema_parse j = Some b -> boundedBlock b.
Proof.
  unfold DayBlockSchema_parse. destruct j; try discriminate.
  destruct (z_string_min1 (getProp props "time")) as [time|] eqn:T; [|discriminate].
  destruct (z_string_min1 (getProp props "title")) as [title|] eqn:Ti; [|discriminate].
  destruct (z_string_optional _); [|discriminate]. intros [= <-].
  apply z_string_min1_spec in T, Ti. split; simpl; tauto.
Qed.

Lemma DayPlanSchema_bounds (j : Json) (day : DayPlan) :
  DayPlanSchema_parse j = Some day -> boundedDay day.
Proof.
  unfold DayPlanSchema_parse. destruct j; try discriminate.
  destruct (z_int_min1 (getProp props "day")) as [n|] eqn:D; [|discriminate].
  destruct (z_string_min1 (getProp props "theme")) as [theme|] eqn:T; [|discriminate].
  destruct (z_array_min DayBlockSchema_parse 2 _) as [blocks|] eqn:B; [|discriminate].
  destruct (z_array_min z_string 2 _) as [meals|] eqn:M; [|discriminate].
  destruct (z_strings_default _) as [notes|]; [|discriminate]. intros [= <-].
  apply z_string_min1_spec in T. apply z_array_min_spec in B, M.
  destruct B as (LB & items & _ & TB). destruct M as (LM & _).
  unfold boundedDay. cbn [d_day d_theme d_blocks d_meals].
  split; [|split; [tauto|split; [exact LB|split; [exact LM|]]]].
  - unfold z_int_min1 in D. destruct (getProp props "day") as [[]|]; try discriminate.
    destruct (Z.leb_spec 1 n0); [|discriminate]. injection D as <-. assumption.
  - intros b Hb. destruct (traverse_spec _ _ _ TB) as (_ & H).
    destruct (H b Hb) as (x & _ & E). now apply (DayBlockSchema_bounds x).
Qed.

Lemma ItinerarySchema_bounds (j : Json) (itinerary : Itinerary) :
  ItinerarySchema_parse j = Some itinerary -> boundedItinerary itinerary.
Proof.
  unfold ItinerarySchema_parse. destruct j; try discriminate.
  destruct (z_string_min1 (getProp props "summary")) as [s|] eqn:S; [|discriminate].
  destruct (z_array_min DayPlanSchema_parse 1 _) as [ds|] eqn:D; [|discriminate].
  destruct (z_strings_default (getProp props "mustBook")); [|discriminate].
  destruct (z_strings_default (getProp props "rainBackups")); [|discriminate].
  destruct (z_string_optional _); [|discriminate]. intros [= <-].
  apply z_string_min1_spec in S. apply z_array_min_spec in D.
  destruct D as (LD & items & _ & TD).
  unfold boundedItinerary. cbn [summary days]. split; [tauto|]. split; [exact LD|].
  intros day Hday. destruct (traverse_spec _ _ _ TD) as (_ & H).
  destruct (H day Hday) as (x & _ & E). now apply (DayPlanSchema_bounds x).
Qed.

(** X5.  An object that [ItinerarySchema] accepts gives an itinerary
    with a non-empty summary and at least one day, each day with a number
    of at least 1, a non-empty theme, at least two blocks, each with a
    non-empty time and title, and at least two meals; the object also
    passes the shape check [looksLikeItinerary].  So a parsed day breaks
    the relaxed pace only by having more than three blocks, while a
    parsed day of two blocks breaks the balanced pace; and an itinerary
    the validator accepts belongs to a trip of at least one day. *)
Theorem ItinerarySchema_guarantees (obj : Json) (itinerary : Itinerary) :
  ItinerarySchema_parse obj = Some itinerary ->
  boundedItinerary itinerary
  /\ looksLikeItinerary obj = true
  /\ (forall day, In day (days itinerary) ->
        paceOk relaxed (List.length (d_blocks day)) = (List.length (d_blocks day) <=? 3)%nat
        /\ paceOk balanced (List.length (d_blocks day))
           = ((3 <=? List.length (d_blocks day)) && (List.length (d_blocks day) <=? 4))%nat)
  /\ (forall (trip : TripRequest) (aA aR aI : list string),
        ok (validateItineraryProduction trip itinerary aA aR aI) = true ->
        (1 <= tripLengthDays trip)%Z).
Proof.
  intros H. pose proof (ItinerarySchema_bounds obj itinerary H) as B.
  split; [exact B|]. split; [now apply (schema_implies_shape obj itinerary)|].
  destruct B as (_ & L & D). split.
  - intros day Hday. destruct (D day Hday) as (_ & _ & LB & _).
    unfold paceOk. cbn [Pace_eqb andb orb]. rewrite !orb_false_r.
    split; [|reflexivity].
    destruct (Nat.leb_spec 2 (List.length (d_blocks day))); [reflexivity | lia].
  - intros trip aA aR aI Hok. apply ok_iff_valid in Hok.
    destruct Hok as ((E & _) & _). lia.
Qed.

Lemma ItinerarySchema_guarantees_witness :
  boundedItinerary sampleParsedItinerary /\ looksLikeItinerary sampleItineraryJson = true.
Proof.
  destruct (ItinerarySchema_guarantees sampleItineraryJson sampleParsedItinerary) as (B & S & _).
  - vm_compute. reflexivity.
  - split; [exact B | exact S].
Defined.

(** *** Notes left out *)

Lemma z_strings_default_absent : z_strings_default None = Some [].
Proof. reflexivity. Qed.

Lemma notes_message_present (trip : TripRequest) (itinerary : Itinerary)
  (aA aR aI : list string) (day : DayPlan) :
  In day (days itinerary) -> List.length (d_notes day) < 2 ->
  In (msgNotes (d_day day)) (violations (validateItineraryProduction trip itinerary aA aR aI)).
Proof.
  intros Hday Hn. rewrite validate_findings. unfold allFindings.
  apply in_or_app. right. apply in_or_app. right. apply in_or_app. right.
  apply in_or_app. left. apply in_flat_map. exists day. split; [exact Hday|].
  unfold notesFindings. destruct (Nat.ltb_spec (List.length (d_notes day)) 2); [now left | lia].
Qed.

(** X6.  A day object that leaves out "notes" passes [DayPlanSchema],
    which puts the empty list in its place; the validator then reports
    'Day n notes must have at least 2 items' for every itinerary that
    holds the day, whatever the trip and the allowed lists, and never
    answers ok. *)
Theorem omitted_notes_never_valid (props : list (string * Json)) (day : DayPlan) :
  DayPlanSchema_parse (JObj props) = Some day ->
  getProp props "notes" = None ->
  d_notes day = []
  /\ forall (trip : TripRequest) (itinerary : Itinerary) (aA aR aI : list string),
       In day (days itinerary) ->
       In (msgNotes (d_day day)) (violations (validateItineraryProduction trip itinerary aA aR aI))
       /\ ok (validateItineraryProduction trip itinerary aA aR aI) = false.
Proof.
  intros P N.
  assert (E : d_notes day = []).
  { unfold DayPlanSchema_parse in P. rewrite N in P.
    destruct (z_int_min1 _); [|discriminate]. destruct (z_string_min1 _); [|discriminate].
    destruct (z_array_min DayBlockSchema_parse 2 _); [|discriminate].
    destruct (z_array_min z_string 2 _); [|discriminate].
    cbn in P. now injection P as <-. }
  split; [exact E|]. intros trip itinerary aA aR aI Hday.
  assert (M : In (msgNotes (d_day day))
                (violations (validateItineraryProduction trip itinerary aA aR aI))).
  { apply notes_message_present; [exact Hday|]. rewrite E. simpl. lia. }
  split; [exact M|].
  destruct (ok _) eqn:Ok; [|reflexivity]. apply validate_ok in Ok. rewrite Ok in M. destruct M.
Qed.

Lemma omitted_notes_never_valid_witness :
  ok (validateItineraryProduction (sampleTrip relaxed []) sampleParsedItinerary
        ["Art Institute"] ["Green Table"] []) = false.
Proof.
  refine (proj2 (proj2 (omitted_notes_never_valid
            [("day", JInt 1); ("theme", JStr "Loop");
             ("blocks", JArr [sampleBlockJson; sampleBlockJson]);
             ("meals", JArr [JStr "Lunch: Green Table - Tofu Banh Mi (Vegetarian)";
                             JStr "Dinner: Green Table - Lentil Soup (Vegan)"])]
            (mkDayPlan 1 "Loop"
               (repeat (mkDayBlock "09:00 AM - 11:30 AM" "Art Institute" None) 2)
               sampleMeals [])
            _ _)
          (sampleTrip relaxed []) sampleParsedItinerary ["Art Institute"] ["Green Table"] [] _)).
  - vm_compute. reflexivity.
  - vm_compute. reflexivity.
  - simpl. auto.
Defined.

Lemma toTimelineDay_timeline (day : DayPlan) :
  ui_timeline (toTimelineDay day)
  = let acts := map activityOf (d_blocks day) in
    let at1 := Nat.min 1 (List.length acts) in
    let withLunch :=
      match firstLabelled "lunch:" (d_meals day) with
      | Some lunch => firstn at1 acts ++ [lunchItem lunch] ++ skipn at1 acts
      | None => acts
      end in
    match firstLabelled "dinner:" (d_meals day) with
    | Some dinner => withLunch ++ [dinnerItem dinner]
    | None => withLunch
    end.
Proof.
  unfold toTimelineDay, firstLabelled, lunchItem, dinnerItem, mealItem. cbv zeta.
  cbn [ui_timeline]. fold activityOf.
  set (acts := map activityOf (d_blocks day)).
  assert (E : (if (2 <=? List.length acts)%nat then 1 else List.length acts)
              = Nat.min 1 (List.length acts)).
  { destruct (List.length acts) as [|[|n]]; reflexivity. }
  rewrite E.
  destruct (find _ (d_meals day)) as [lunch|];
    destruct (find (fun m => startsWith (toLowerCase m) "dinner:") (d_meals day)) as [dinner|];
    repeat match goal with
           | |- context [placeAndDish ?x] => destruct (placeAndDish x)
           end; reflexivity.
Qed.

Lemma filter_isActivity_acts (bs : list DayBlock) :
  filter isActivity (map activityOf bs) = map activityOf bs.
Proof. induction bs as [|b bs IH]; simpl; [reflexivity | now rewrite IH]. Qed.

Lemma filter_isMeal_acts (t : string) (bs : list DayBlock) :
  filter (isMealOfType t) (map activityOf bs) = [].
Proof. induction bs as [|b bs IH]; simpl; [reflexivity | exact IH]. Qed.

Lemma filter_firstn_skipn {A : Type} (p : A -> bool) (n : nat) (l : list A) :
  filter p (firstn n l) ++ filter p (skipn n l) = filter p l.
Proof. now rewrite <- filter_app, firstn_skipn. Qed.

Lemma find_existsb {A : Type} (p : A -> bool) (l : list A) :
  existsb p l = match find p l with Some _ => true | None => false end.
Proof.
  induction l as [|x l IH]; simpl; [reflexivity|]. destruct (p x); [reflexivity | exact IH].
Qed.

Lemma timeline_parts (day : DayPlan) :
  let timeline := ui_timeline (toTimelineDay day) in
  let blocks := List.length (d_blocks day) in
  let lunch := firstLabelled "lunch:" (d_meals day) in
  let dinner := firstLabelled "dinner:" (d_meals day) in
  filter isActivity timeline = map activityOf (d_blocks day)
  /\ filter (isMealOfType "Lunch") timeline
     = match lunch with Some m => [lunchItem m] | None => [] end
  /\ filter (isMealOfType "Dinner") timeline
     = match dinner with Some m => [dinnerItem m] | None => [] end
  /\ List.length timeline
     = blocks + count01 (existsb (fun m => startsWith (toLowerCase m) "lunch:") (d_meals day))
       + count01 (existsb (fun m => startsWith (toLowerCase m) "dinner:") (d_meals day))
  /\ (forall m, lunch = Some m -> nth_error timeline (Nat.min 1 blocks) = Some (lunchItem m))
  /\ (forall m, dinner = Some m ->
        nth_error timeline (List.length timeline - 1) = Some (dinnerItem m)).
Proof.
  intros timeline blocks lunch dinner. unfold timeline. rewrite toTimelineDay_timeline. cbv zeta.
  rewrite !find_existsb. fold (firstLabelled "lunch:" (d_meals day)).
  fold (firstLabelled "dinner:" (d_meals day)). fold lunch dinner.
  set (acts := map activityOf (d_blocks day)).
  assert (La : List.length acts = blocks) by apply length_map.
  rewrite La. set (k := Nat.min 1 blocks).
  assert (Lk : List.length (firstn k acts) = k).
  { rewrite length_firstn, La. unfold k. lia. }
  set (withLunch := match lunch with
                    | Some m => firstn k acts ++ [lunchItem m] ++ skipn k acts
                    | None => acts
                    end).
  assert (A1 : filter isActivity withLunch = acts).
  { unfold withLunch. destruct lunch as [m|]; [|apply filter_isActivity_acts].
    rewrite !filter_app. cbn [filter lunchItem mealItem isActivity app].
    rewrite filter_firstn_skipn. apply filter_isActivity_acts. }
  assert (A2 : filter (isMealOfType "Lunch") withLunch
               = match lunch with Some m => [lunchItem m] | None => [] end).
  { unfold withLunch. destruct lunch as [m|]; [|apply filter_isMeal_acts].
    rewrite !filter_app. cbn [filter lunchItem mealItem isMealOfType app String.eqb Ascii.eqb].
    replace (filter (isMealOfType "Lunch") (firstn k acts)) with (@nil UiTimelineItem).
    - replace (filter (isMealOfType "Lunch") (skipn k acts)) with (@nil UiTimelineItem);
        [reflexivity|].
      pose proof (filter_firstn_skipn (isMealOfType "Lunch") k acts) as F.
      unfold acts in F at 3. rewrite filter_isMeal_acts in F.
      apply app_eq_nil in F. symmetry. tauto.
    - pose proof (filter_firstn_skipn (isMealOfType "Lunch") k acts) as F.
      unfold acts in F at 3. rewrite filter_isMeal_acts in F.
      apply app_eq_nil in F. symmetry. tauto. }
  assert (A3 : filter (isMealOfType "Dinner") withLunch = []).
  { unfold withLunch. destruct lunch as [m|]; [|apply filter_isMeal_acts].
    rewrite !filter_app. cbn [filter lunchItem mealItem isMealOfType app].
    pose proof (filter_firstn_skipn (isMealOfType "Dinner") k acts) as F.
    unfold acts in F at 3. rewrite filter_isMeal_acts in F.
    apply app_eq_nil in F. destruct F as (-> & ->). reflexivity. }
  assert (A4 : List.length withLunch
               = blocks + count01 (match lunch with Some _ => true | None => false end)).
  { unfold withLunch. destruct lunch as [m|]; simpl; [|lia].
    rewrite !length_app. simpl. rewrite Lk, length_skipn, La. unfold k. lia. }
  assert (A5 : forall m, lunch = Some m -> nth_error withLunch k = Some (lunchItem m)).
  { intros m E. unfold withLunch. rewrite E.
    rewrite nth_error_app2 by lia. rewrite Lk, Nat.sub_diag. reflexivity. }
  destruct dinner as [d|].
  - rewrite !filter_app, A1, A2, A3, length_app, A4.
    cbn [filter dinnerItem mealItem isActivity isMealOfType app List.length count01].
    rewrite app_nil_r.
    split; [reflexivity|]. split; [now rewrite app_nil_r|]. split; [reflexivity|].
    split; [lia|]. split.
    + intros m E. rewrite nth_error_app1; [now apply A5|].
      rewrite A4, E. unfold k. cbn [count01]. lia.
    + intros m [= <-]. rewrite nth_error_app2 by lia.
      replace (_ - _) with 0 by lia. reflexivity.
  - split; [exact A1|]. split; [exact A2|]. split; [exact A3|].
    split; [rewrite A4; simpl; lia|]. split; [exact A5 | discriminate].
Qed.

(** X7.  The timeline of a day, as [toTimelineDay] builds it.  Its
    activity items are the day's blocks, one each and in order.  It has
    one Lunch item when some meal starts with "lunch:" in any letter
    case, made of the first such meal, and none otherwise; likewise one
    Dinner item for "dinner:".  Its length is the number of blocks plus
    the meal items.  The Lunch item stands right after the first block
    (at index 1; at index 0 when there is no block), the Dinner item
    last. *)
Theorem timeline_structure (day : DayPlan) :
  let timeline := ui_timeline (toTimelineDay day) in
  let blocks := List.length (d_blocks day) in
  let lunch := firstLabelled "lunch:" (d_meals day) in
  let dinner := firstLabelled "dinner:" (d_meals day) in
  filter isActivity timeline = map activityOf (d_blocks day)
  /\ filter (isMealOfType "Lunch") timeline
     = match lunch with Some m => [lunchItem m] | None => [] end
  /\ filter (isMealOfType "Dinner") timeline
     = match dinner with Some m => [dinnerItem m] | None => [] end
  /\ List.length timeline
     = blocks + count01 (existsb (fun m => startsWith (toLowerCase m) "lunch:") (d_meals day))
       + count01 (existsb (fun m => startsWith (toLowerCase m) "dinner:") (d_meals day))
  /\ (forall m, lunch = Some m -> nth_error timeline (Nat.min 1 blocks) = Some (lunchItem m))
  /\ (forall m, dinner = Some m ->
        nth_error timeline (List.length timeline - 1) = Some (dinnerItem m)).
Proof. apply timeline_parts. Qed.

(** *** The place of a meal item and the validator's restaurant *)

Lemma lowerChar_colon (c : ascii) : lowerChar c = ":"%char -> c = ":"%char.
Proof.
  destruct c as [[] [] [] [] [] [] [] []]; vm_compute; intros H; try reflexivity; discriminate H.
Qed.

Lemma substring_all (s : string) : substring 0 (String.length s) s = s.
Proof. induction s as [|c s IH]; simpl; [reflexivity | now rewrite IH]. Qed.

(** A text that starts, in any letter case, with a label ending in its
    only colon: what follows the label is what follows the first colon. *)
Lemma labelled_remainder (body m : string) :
  indexOf body ":" = None ->
  startsWith (toLowerCase m) (body ++ ":") = true ->
  exists lab rem,
    m = (lab ++ rem)%string
    /\ afterFirstColon m = Some rem
    /\ substring (String.length (body ++ ":")) (String.length m - String.length (body ++ ":")) m
       = rem.
Proof.
  unfold startsWith. revert m. induction body as [|b body IH]; intros m Hb H.
  - destruct m as [|c m]; [discriminate|]. cbn [append toLowerCase prefix] in H.
    destruct (ascii_dec ":" (lowerChar c)) as [E|]; [|discriminate].
    symmetry in E. apply lowerChar_colon in E. subst c.
    exists ":", m. cbn. rewrite Nat.sub_0_r, substring_all. auto.
  - destruct m as [|c m]; [discriminate|]. cbn [append toLowerCase prefix] in H.
    destruct (ascii_dec b (lowerChar c)) as [E|]; [|discriminate].
    cbn [indexOf] in Hb. destruct (Ascii.eqb_spec b ":") as [|Nb]; [discriminate|].
    assert (Hb' : indexOf body ":" = None) by (destruct (indexOf body ":"); [discriminate | reflexivity]).
    destruct (IH m Hb' H) as (lab & rem & -> & A & S).
    exists (String c lab), rem. cbn [append afterFirstColon String.length Nat.sub substring].
    split; [reflexivity|]. split.
    + destruct (Ascii.eqb_spec c ":") as [->|]; [|exact A].
      elim Nb. rewrite E. reflexivity.
    + exact S.
Qed.

Lemma string_app_assoc (a b c : string) : ((a ++ b) ++ c)%string = (a ++ (b ++ c))%string.
Proof. induction a as [|x a IH]; simpl; [reflexivity | now rewrite IH]. Qed.

Lemma trimEnd_tail (c : ascii) (s : string) :
  trimEnd (String c s) = String c s -> trimEnd s = s.
Proof.
  cbn [trimEnd]. destruct (trimEnd s) as [|d t] eqn:E.
  - destruct (isWhiteSpace c); [discriminate|]. intros [= <-]. reflexivity.
  - intros [= <-]. reflexivity.
Qed.

Lemma trimEnd_suffix (a b : string) : trimEnd (a ++ b) = (a ++ b)%string -> trimEnd b = b.
Proof.
  induction a as [|c a IH]; cbn [append]; [auto|]. intros H. apply IH.
  now apply (trimEnd_tail c).
Qed.

Lemma trimStart_suffix (s : string) : exists w, s = (w ++ trimStart s)%string.
Proof.
  induction s as [|c s (w & IH)]; [now exists ""|]. cbn [trimStart].
  destruct (isWhiteSpace c); [|now exists ""].
  exists (String c w). cbn [append]. now rewrite <- IH.
Qed.

Lemma split_first (s sep : string) :
  nth_error (map trim (split s sep)) 0 = Some (trim (beforeFirst sep s)).
Proof.
  rewrite <- split_head. unfold split. destruct (splitFrom sep s 0) as (p, ps). reflexivity.
Qed.

(** On a meal text without white space at its end, the place of the
    meal item is the validator's restaurant portion. *)
Lemma place_is_portion (body meal : string) :
  indexOf body ":" = None ->
  startsWith (toLowerCase meal) (body ++ ":") = true ->
  trimEnd meal = meal ->
  fst (placeAndDish (dropMealLabel (body ++ ":") meal))
  = Some match extractRestaurantNameFromMeal meal with
         | Some rest => rest
         | None => ""
         end.
Proof.
  intros Hb Hs Ht. unfold dropMealLabel. rewrite Hs.
  destruct (labelled_remainder body meal Hb Hs) as (lab & rem & E & A & S). rewrite S.
  unfold placeAndDish. cbn [fst]. rewrite split_first.
  rewrite extractRestaurantName_portion. unfold restaurantPortion. rewrite A.
  assert (T : trim rem = trimStart rem).
  { unfold trim. destruct (trimStart_suffix rem) as (w & Ew).
    apply (trimEnd_suffix (lab ++ w)). rewrite string_app_assoc, <- Ew, <- E. exact Ht. }
  rewrite T. destruct (trim (beforeFirst " - " (trimStart rem))); reflexivity.
Qed.

Lemma prefix_toLowerCase (p s : string) :
  prefix p s = true -> prefix (toLowerCase p) (toLowerCase s) = true.
Proof.
  revert s. induction p as [|a p IH]; intros s H; [now destruct s|].
  destruct s as [|c s]; [discriminate|]. cbn [prefix toLowerCase] in *.
  destruct (ascii_dec a c) as [->|]; [|discriminate].
  destruct (ascii_dec (lowerChar c) (lowerChar c)); [now apply IH | congruence].
Qed.

Lemma firstLabelled_found (label : string) (meals : list string) (m : string) :
  In m meals -> startsWith (toLowerCase m) label = true ->
  exists m', firstLabelled label meals = Some m'.
Proof.
  intros Hin Hs. unfold firstLabelled.
  destruct (find _ meals) as [m'|] eqn:F; [now exists m'|].
  now rewrite (find_none _ _ F m Hin) in Hs.
Qed.

Lemma timeline_items (day : DayPlan) (item : UiTimelineItem) :
  In item (ui_timeline (toTimelineDay day)) ->
  (exists b, In b (d_blocks day) /\ item = activityOf b)
  \/ (exists m, firstLabelled "lunch:" (d_meals day) = Some m /\ item = lunchItem m)
  \/ (exists m, firstLabelled "dinner:" (d_meals day) = Some m /\ item = dinnerItem m).
Proof.
  rewrite toTimelineDay_timeline. cbv zeta.
  set (acts := map activityOf (d_blocks day)). set (k := Nat.min 1 (List.length acts)).
  assert (Ha : forall x, In x acts -> exists b, In b (d_blocks day) /\ x = activityOf b).
  { intros x Hx. apply in_map_iff in Hx. destruct Hx as (b & <- & Hb). now exists b. }
  assert (Hl : In item match firstLabelled "lunch:" (d_meals day) with
                       | Some lunch => firstn k acts ++ [lunchItem lunch] ++ skipn k acts
                       | None => acts
                       end ->
               (exists b, In b (d_blocks day) /\ item = activityOf b)
               \/ (exists m, firstLabelled "lunch:" (d_meals day) = Some m /\ item = lunchItem m)).
  { destruct (firstLabelled "lunch:" (d_meals day)) as [m|]; [|intros H; left; now apply Ha].
    intros H. apply in_app_or in H. destruct H as [H|H].
    - left. apply Ha. now apply (In_firstn k).
    - destruct H as [<-|H]; [right; now exists m|].
      left. apply Ha. rewrite <- (firstn_skipn k acts). apply in_or_app. now right. }
  destruct (firstLabelled "dinner:" (d_meals day)) as [d|].
  - intros H. apply in_app_or in H. destruct H as [H|[<-|[]]].
    + destruct (Hl H) as [?|?]; auto.
    + right. right. now exists d.
  - intros H. destruct (Hl H) as [?|?]; auto.
Qed.

(** X8.  What the UI shows of an itinerary the validator accepts, when
    no meal text ends in white space.  Every day's timeline has its
    blocks and two meal items: the Lunch item at index 1 and the Dinner
    item last, each showing as its place an allowed restaurant (the
    restaurant portion the validator checked); every place shown in the
    timeline is an allowed restaurant, and every activity title an
    allowed attraction. *)
Theorem timeline_shows_validated_places (trip : TripRequest) (itinerary : Itinerary)
  (aA aR aI : list string) :
  ok (validateItineraryProduction trip itinerary aA aR aI) = true ->
  (forall meal, In meal (allMeals itinerary) -> trimEnd meal = meal) ->
  ui_days (toUiItinerary itinerary) = map toTimelineDay (days itinerary)
  /\ forall day, In day (days itinerary) ->
       let timeline := ui_timeline (toTimelineDay day) in
       let blocks := List.length (d_blocks day) in
       List.length timeline = blocks + 2
       /\ (exists place dish,
             nth_error timeline 1 = Some (UiMeal "12:15 PM - 01:15 PM" "Lunch" (Some place) dish)
             /\ In place aR)
       /\ (exists place dish,
             nth_error timeline (blocks + 1)
             = Some (UiMeal "06:30 PM - 08:00 PM" "Dinner" (Some place) dish)
             /\ In place aR)
       /\ (forall item place, In item timeline -> placeOf item = Some place -> In place aR)
       /\ (forall time title details, In (UiActivity time title details) timeline ->
             In title aA).
Proof.
  intros Hok Htrim. split; [reflexivity|]. intros day Hday timeline blocks.
  apply ok_iff_valid in Hok. destruct Hok as (_ & Hdays & _).
  destruct (Hdays day Hday) as (Hpace & _ & Hblocks & (l & Hl & Sl) & (d & Hd & Sd) & Hmeals).
  assert (B2 : 2 <= blocks).
  { apply paceOk_range in Hpace. fold blocks in Hpace.
    destruct (pace trip); simpl in Hpace; lia. }
  assert (Place : forall body m, indexOf body ":" = None -> In m (d_meals day) ->
            startsWith (toLowerCase m) (body ++ ":") = true ->
            exists place, fst (placeAndDish (dropMealLabel (body ++ ":") m)) = Some place
                          /\ In place aR).
  { intros body m Hb Hm Hs. rewrite (place_is_portion body m Hb Hs).
    - destruct (Hmeals m Hm) as ((rest & -> & Hin) & _). now exists rest.
    - apply Htrim. unfold allMeals. apply in_flat_map. now exists day. }
  destruct (firstLabelled_found "lunch:" (d_meals day) l Hl (prefix_toLowerCase "Lunch:" l Sl))
    as (lunch & Fl).
  destruct (firstLabelled_found "dinner:" (d_meals day) d Hd (prefix_toLowerCase "Dinner:" d Sd))
    as (dinner & Fd).
  pose proof Fl as Fl'. pose proof Fd as Fd'.
  apply find_some in Fl'. apply find_some in Fd'.
  destruct (Place "lunch" lunch eq_refl (proj1 Fl') (proj2 Fl')) as (pl & Epl & Hpl).
  destruct (Place "dinner" dinner eq_refl (proj1 Fd') (proj2 Fd')) as (pd & Epd & Hpd).
  destruct (timeline_parts day) as (_ & _ & _ & L & NL & ND).
  cbv zeta in L, NL, ND. fold timeline blocks in L, NL, ND.
  rewrite !find_existsb in L. fold (firstLabelled "lunch:" (d_meals day)) in L.
  fold (firstLabelled "dinner:" (d_meals day)) in L. rewrite Fl, Fd in L. cbn [count01] in L.
  split; [lia|]. split; [|split; [|split]].
  - exists pl, (snd (placeAndDish (dropMealLabel "lunch:" lunch))).
    split; [|exact Hpl]. specialize (NL lunch Fl).
    replace (Nat.min 1 blocks) with 1 in NL by lia.
    rewrite NL. unfold lunchItem, mealItem. cbn [append] in Epl. now rewrite Epl.
  - exists pd, (snd (placeAndDish (dropMealLabel "dinner:" dinner))).
    split; [|exact Hpd]. specialize (ND dinner Fd).
    replace (List.length timeline - 1) with (blocks + 1) in ND by lia.
    rewrite ND. unfold dinnerItem, mealItem. cbn [append] in Epd. now rewrite Epd.
  - intros item place Hitem Hplace. apply timeline_items in Hitem.
    destruct Hitem as [(b & _ & ->)|[(m & Fm & ->)|(m & Fm & ->)]].
    + discriminate Hplace.
    + rewrite Fl in Fm. injection Fm as <-. cbn [placeOf lunchItem mealItem] in Hplace.
      cbn [append] in Epl. rewrite Epl in Hplace. now injection Hplace as <-.
    + rewrite Fd in Fm. injection Fm as <-. cbn [placeOf dinnerItem mealItem] in Hplace.
      cbn [append] in Epd. rewrite Epd in Hplace. now injection Hplace as <-.
  - intros time title details Hitem. apply timeline_items in Hitem.
    destruct Hitem as [(b & Hb & E)|[(m & _ & E)|(m & _ & E)]]; try discriminate E.
    injection E as -> -> ->. apply (Hblocks b Hb).
Qed.

Lemma timeline_shows_validated_places_witness :
  List.length (ui_timeline (toTimelineDay (sampleDay 2 sampleMeals))) = 4.
Proof.
  refine (proj1 (proj2 (timeline_shows_validated_places (sampleTrip relaxed [])
                          (sampleItinerary 2 sampleMeals) ["Art Institute"] ["Green Table"] []
                          _ _) (sampleDay 2 sampleMeals) _)).
  - vm_compute. reflexivity.
  - intros meal [<-|[<-|[]]]; vm_compute; reflexivity.
  - simpl. auto.
Defined.

(** *** Junk names *)

Lemma toLowerCase_app (a b : string) :
  toLowerCase (a ++ b) = (toLowerCase a ++ toLowerCase b)%string.
Proof. induction a as [|c a IH]; simpl; [reflexivity | now rewrite IH]. Qed.

Lemma string_length_app (a b : string) :
  String.length (a ++ b) = String.length a + String.length b.
Proof. induction a as [|c a IH]; simpl; [reflexivity | now rewrite IH]. Qed.

Lemma prefix_app (w s t : string) : prefix w s = true -> prefix w (s ++ t) = true.
Proof.
  revert s. induction w as [|a w IH]; intros s H; [now destruct (s ++ t)%string|].
  destruct s as [|c s]; [discriminate|]. cbn [prefix append] in *.
  destruct (ascii_dec a c); [now apply IH | discriminate].
Qed.

Lemma includes_app_r (s t w : string) : includes s w = true -> includes (s ++ t) w = true.
Proof.
  induction s as [|c s IH]; cbn [includes append]; rewrite !orb_true_iff.
  - intros [H|H]; [|discriminate]. destruct w; [|discriminate].
    destruct t; cbn [includes]; apply orb_true_iff; left; reflexivity.
  - intros [H|H].
    + left. now apply (prefix_app w (String c s)).
    + right. now apply IH.
Qed.

Lemma includes_app_l (p s w : string) : includes s w = true -> includes (p ++ s) w = true.
Proof.
  intros H. induction p as [|c p IH]; [exact H|].
  cbn [append includes]. rewrite IH. apply orb_true_r.
Qed.

(** X9.  Junk names.  A name that holds a junk name is junk: text put
    before or after a junk name never makes it pass.  A name is junk as
    soon as its lower-cased form holds one of the twelve junk words
    anywhere, inside a word too, or it is longer than 70 units; and a
    name that is not junk has at most 70 units and holds none of the
    words in its lower-cased form. *)
Theorem isJunkName_closed (name : string) :
  (forall before after : string,
     isJunkName name = true -> isJunkName (before ++ name ++ after) = true)
  /\ (forall w, In w junk -> includes (toLowerCase name) w = true -> isJunkName name = true)
  /\ (70 < String.length name -> isJunkName name = true)
  /\ (isJunkName name = false ->
      String.length name <= 70
      /\ forall w, In w junk -> includes (toLowerCase name) w = false).
Proof.
  split; [|split; [|split]].
  - intros before after. unfold isJunkName. cbv zeta.
    rewrite !string_length_app, !toLowerCase_app.
    destruct (Nat.ltb_spec 70 (String.length name)) as [L|L].
    + intros _. destruct (Nat.ltb_spec 70 (String.length before
                                            + (String.length name + String.length after)));
        [reflexivity | lia].
    + intros H. destruct (_ <? _)%nat; [reflexivity|].
      apply existsb_exists in H. destruct H as (w & Hw & H). apply existsb_exists.
      exists w. split; [exact Hw|]. now apply includes_app_l, includes_app_r.
  - intros w Hw H. unfold isJunkName. cbv zeta. destruct (_ <? _)%nat; [reflexivity|].
    apply existsb_exists. now exists w.
  - intros L. unfold isJunkName. cbv zeta.
    destruct (Nat.ltb_spec 70 (String.length name)); [reflexivity | lia].
  - unfold isJunkName. cbv zeta.
    destruct (Nat.ltb_spec 70 (String.length name)) as [L|L]; [discriminate|].
    intros H. split; [exact L|]. intros w Hw.
    destruct (includes (toLowerCase name) w) eqn:E; [|reflexivity].
    assert (X : existsb (fun w => includes (toLowerCase name) w) junk = true)
      by (apply existsb_exists; now exists w).
    rewrite X in H. discriminate H.
Qed.

(** *** The pool *)

Lemma Subsequence_firstn {A : Type} (n : nat) (l : list A) : Subsequence (firstn n l) l.
Proof.
  revert n. induction l as [|x l IH]; intros [|n]; simpl; try constructor; auto.
  apply Subsequence_nil_l.
Qed.

Lemma Subsequence_map {A B : Type} (f : A -> B) (l1 l2 : list A) :
  Subsequence l1 l2 -> Subsequence (map f l1) (map f l2).
Proof. induction 1; simpl; constructor; assumption. Qed.

Lemma Subsequence_NoDup {A : Type} (l1 l2 : list A) :
  Subsequence l1 l2 -> NoDup l2 -> NoDup l1.
Proof.
  induction 1 as [|x l1 l2 S IH|x l1 l2 S IH]; intros ND.
  - constructor.
  - inversion ND as [|? ? Hx Hl]; subst. constructor; [|now apply IH].
    intros Hin. apply Hx. now apply (Subsequence_In l1 l2).
  - inversion ND; subst. now apply IH.
Qed.

Lemma category_partition (cs : list Candidate) :
  Permutation (ofCategory restaurant cs ++ ofCategory attraction cs ++ ofCategory indoor_backup cs)
    cs.
Proof.
  unfold ofCategory. induction cs as [|c cs IH]; simpl; [constructor|].
  destruct (c_category c); simpl.
  - now constructor.
  - rewrite <- Permutation_middle. now constructor.
  - rewrite app_assoc, <- Permutation_middle, <- app_assoc. now constructor.
Qed.

Lemma ofCategory_category (cat : Category) (cs : list Candidate) (c : Candidate) :
  In c (ofCategory cat cs) <-> In c cs /\ c_category c = cat.
Proof.
  unfold ofCategory. rewrite filter_In.
  destruct (c_category c), cat; simpl; intuition congruence.
Qed.

Lemma ofCategory_all (cat : Category) (cs : list Candidate) :
  (forall c, In c cs -> c_category c = cat) -> ofCategory cat cs = cs.
Proof.
  intros H. unfold ofCategory. apply forallb_filter_id. apply forallb_forall.
  intros c Hc. rewrite (H c Hc). now destruct cat.
Qed.

Lemma ofCategory_none (cat : Category) (cs : list Candidate) :
  (forall c, In c cs -> c_category c <> cat) -> ofCategory cat cs = [].
Proof.
  intros H. unfold ofCategory. induction cs as [|c cs IH]; simpl; [reflexivity|].
  assert (N : c_category c <> cat) by (apply H; now left).
  destruct (c_category c), cat; simpl; try congruence; apply IH; intros; apply H; now right.
Qed.

Lemma ofCategory_app (cat : Category) (l1 l2 : list Candidate) :
  ofCategory cat (l1 ++ l2) = ofCategory cat l1 ++ ofCategory cat l2.
Proof. apply filter_app. Qed.

(** [dedupe] leaves alone a list of pairwise distinct non-empty keys. *)
Lemma dedupe_fold_distinct (cs : list Candidate) (seen : list string) (out : list Candidate) :
  NoDup (seen ++ map dedupeKey cs) ->
  (forall c, In c cs -> dedupeKey c <> "") ->
  fold_left dedupeStep cs (seen, out) = (seen ++ map dedupeKey cs, out ++ cs).
Proof.
  revert seen out. induction cs as [|c cs IH]; intros seen out ND NE;
    cbn [fold_left map] in *.
  - now rewrite !app_nil_r.
  - assert (T : truthy (dedupeKey c) = true) by (apply truthy_true, NE; now left).
    assert (S : Set_has seen (dedupeKey c) = false).
    { apply Set_has_false. intros Hin.
      apply NoDup_remove_2 in ND. apply ND. apply in_or_app. now left. }
    assert (E : dedupeStep (seen, out) c = (seen ++ [dedupeKey c], out ++ [c])).
    { unfold dedupeStep. rewrite T, S. cbn [negb]. unfold Set_add. now rewrite S. }
    rewrite E, IH.
    + now rewrite <- !app_assoc.
    + rewrite <- app_assoc. exact ND.
    + intros c' Hc'. apply NE. now right.
Qed.

Lemma dedupe_distinct (cs : list Candidate) :
  NoDup (map dedupeKey cs) -> (forall c, In c cs -> dedupeKey c <> "") -> dedupe cs = cs.
Proof.
  intros ND NE. unfold dedupe. now rewrite (dedupe_fold_distinct cs [] [] ND NE).
Qed.

(** Projecting candidates of pairwise distinct non-empty keys loses
    nothing but what the cap cuts. *)
Lemma project_distinct (cat : Category) (n : nat) (cs : list Candidate) :
  NoDup (map dedupeKey cs) -> (forall c, In c cs -> dedupeKey c <> "") ->
  cap (unique (namesOf cat cs)) n = firstn n (trimmedNames (ofCategory cat cs)).
Proof.
  intros ND NE. rewrite <- (dedupe_distinct cs ND NE).
  apply (project_after_dedupe cat n cs).
Qed.

Lemma assembleCandidates_parts (all : list Candidate) :
  assembleCandidates all
  = firstn 40 (ofCategory restaurant (dedupe all))
    ++ firstn 60 (ofCategory attraction (dedupe all))
    ++ firstn 30 (ofCategory indoor_backup (dedupe all)).
Proof. reflexivity. Qed.

Lemma pool_invariants (all : list Candidate) :
  let pool := assembleCandidates all in
  NoDup (map dedupeKey pool)
  /\ (forall c, In c pool -> dedupeKey c <> "" /\ In c all)
  /\ ofCategory restaurant pool = firstn 40 (ofCategory restaurant (dedupe all))
  /\ ofCategory attraction pool = firstn 60 (ofCategory attraction (dedupe all))
  /\ ofCategory indoor_backup pool = firstn 30 (ofCategory indoor_backup (dedupe all)).
Proof.
  intros pool. unfold pool. rewrite assembleCandidates_parts.
  set (D := dedupe all).
  destruct (dedupe_spec all) as (ND & Hkept & _). fold D in ND, Hkept.
  assert (Cat : forall cat n c, In c (firstn n (ofCategory cat D)) ->
                                In c D /\ c_category c = cat).
  { intros cat n c Hc. apply In_firstn in Hc. now apply ofCategory_category. }
  split; [|split; [|split; [|split]]].
  - apply (Subsequence_NoDup _ (map dedupeKey
             (ofCategory restaurant D ++ ofCategory attraction D ++ ofCategory indoor_backup D))).
    + apply Subsequence_map. repeat apply Subsequence_app; apply Subsequence_firstn.
    + apply (Permutation_NoDup (l := map dedupeKey D)); [|exact ND].
      apply Permutation_map, Permutation_sym, category_partition.
  - intros c Hc.
    assert (HD : In c D).
    { apply in_app_or in Hc. destruct Hc as [Hc|Hc]; [now apply Cat in Hc|].
      apply in_app_or in Hc. destruct Hc as [Hc|Hc]; now apply Cat in Hc. }
    destruct (Hkept c HD) as (N & p1 & p2 & -> & _). split; [exact N|].
    apply in_or_app. right. now left.
  - rewrite !ofCategory_app.
    rewrite (ofCategory_all restaurant (firstn 40 _)) by (intros c Hc; now apply Cat in Hc).
    rewrite (ofCategory_none restaurant (firstn 60 _))
      by (intros c Hc; apply Cat in Hc; destruct Hc as (_ & ->); discriminate).
    rewrite (ofCategory_none restaurant (firstn 30 _))
      by (intros c Hc; apply Cat in Hc; destruct Hc as (_ & ->); discriminate).
    now rewrite !app_nil_r.
  - rewrite !ofCategory_app.
    rewrite (ofCategory_all attraction (firstn 60 _)) by (intros c Hc; now apply Cat in Hc).
    rewrite (ofCategory_none attraction (firstn 40 _))
      by (intros c Hc; apply Cat in Hc; destruct Hc as (_ & ->); discriminate).
    rewrite (ofCategory_none attraction (firstn 30 _))
      by (intros c Hc; apply Cat in Hc; destruct Hc as (_ & ->); discriminate).
    now rewrite app_nil_r.
  - rewrite !ofCategory_app.
    rewrite (ofCategory_all indoor_backup (firstn 30 _)) by (intros c Hc; now apply Cat in Hc).
    rewrite (ofCategory_none indoor_backup (firstn 40 _))
      by (intros c Hc; apply Cat in Hc; destruct Hc as (_ & ->); discriminate).
    rewrite (ofCategory_none indoor_backup (firstn 60 _))
      by (intros c Hc; apply Cat in Hc; destruct Hc as (_ & ->); discriminate).
    reflexivity.
Qed.

Lemma firstn_short {A : Type} (n : nat) (l : list A) : List.length l <= n -> firstn n l = l.
Proof. apply firstn_all2. Qed.

Lemma dedupeKey_trim (c : Candidate) : dedupeKey c <> "" -> trim (c_name c) <> "".
Proof. unfold dedupeKey. intros N E. apply N. now rewrite E. Qed.

Lemma pool_parts (all : list Candidate) :
  let pool := assembleCandidates all in
  pool = ofCategory restaurant pool ++ ofCategory attraction pool ++ ofCategory indoor_backup pool
  /\ (List.length (ofCategory restaurant pool) <= 40
      /\ List.length (ofCategory attraction pool) <= 60
      /\ List.length (ofCategory indoor_backup pool) <= 30
      /\ List.length pool <= 130)
  /\ NoDup (map dedupeKey pool)
  /\ (forall c, In c pool -> In c all /\ trim (c_name c) <> "")
  /\ assembleCandidates pool = pool.
Proof.
  intros pool. destruct (pool_invariants all) as (ND & Hin & R & A & I). fold pool in ND, Hin, R, A, I.
  assert (P : pool = ofCategory restaurant pool ++ ofCategory attraction pool
                     ++ ofCategory indoor_backup pool).
  { rewrite R, A, I. reflexivity. }
  assert (LR : List.length (ofCategory restaurant pool) <= 40)
    by (rewrite R, length_firstn; lia).
  assert (LA : List.length (ofCategory attraction pool) <= 60)
    by (rewrite A, length_firstn; lia).
  assert (LI : List.length (ofCategory indoor_backup pool) <= 30)
    by (rewrite I, length_firstn; lia).
  split; [exact P|]. split.
  { repeat split; try assumption. rewrite P, !length_app. lia. }
  split; [exact ND|]. split.
  { intros c Hc. destruct (Hin c Hc) as (N & H). split; [exact H | now apply dedupeKey_trim]. }
  rewrite assembleCandidates_parts.
  rewrite (dedupe_distinct pool ND) by (intros c Hc; apply (Hin c Hc)).
  rewrite !firstn_short by assumption. now rewrite <- P.
Qed.

(** X11.  The pool [buildCandidatesForCity] assembles from the merged
    extraction results.  It holds its restaurants first, then its
    attractions, then its indoor backups, at most 40, 60 and 30 of them,
    130 in all.  No two of its candidates have the same lower-cased
    trimmed name, none has a blank name, each comes from the merged
    array and is the first candidate there with its key (so a name
    extracted under two categories is kept under the one merged first).
    Assembling an assembled pool changes nothing. *)
Theorem pool_shape (all : list Candidate) :
  let pool := assembleCandidates all in
  pool = ofCategory restaurant pool ++ ofCategory attraction pool ++ ofCategory indoor_backup pool
  /\ (List.length (ofCategory restaurant pool) <= 40
      /\ List.length (ofCategory attraction pool) <= 60
      /\ List.length (ofCategory indoor_backup pool) <= 30
      /\ List.length pool <= 130)
  /\ NoDup (map dedupeKey pool)
  /\ (forall c, In c pool ->
        trim (c_name c) <> ""
        /\ exists p1 p2, all = p1 ++ c :: p2
                         /\ forall c', In c' p1 -> dedupeKey c' <> dedupeKey c)
  /\ assembleCandidates pool = pool.
Proof.
  intros pool. destruct (pool_parts all) as (P & L & ND & Hin & Idem). fold pool in P, L, ND, Hin, Idem.
  split; [exact P|]. split; [exact L|]. split; [exact ND|]. split; [|exact Idem].
  intros c Hc. split; [apply (Hin c Hc)|].
  destruct (dedupe_spec all) as (_ & Hkept & _). apply Hkept.
  unfold pool in Hc. rewrite assembleCandidates_parts in Hc.
  repeat (apply in_app_or in Hc; destruct Hc as [Hc|Hc];
          [apply In_firstn in Hc; now apply ofCategory_category in Hc|]).
  apply In_firstn in Hc. now apply ofCategory_category in Hc.
Qed.

(** X12.  The batch projector loses no candidate of the pool: its caps
    of 60, 40 and 30 are the pool's, and the pool's names differ after
    trimming, so each allowed list is the trimmed names of the pool's
    candidates of its category, all of them and in order, and every
    candidate of the pool is in the list of its category.  The
    interactive projector cuts the same lists at 25, 25 and 15. *)
Theorem pool_projection_lossless (all : list Candidate) :
  let pool := assembleCandidates all in
  allowedListsFromCandidates_batch pool
  = {| allowedAttractions := trimmedNames (ofCategory attraction pool);
       allowedRestaurants := trimmedNames (ofCategory restaurant pool);
       allowedIndoorBackups := trimmedNames (ofCategory indoor_backup pool) |}
  /\ allowedListsFromCandidates pool
     = {| allowedAttractions := firstn 25 (trimmedNames (ofCategory attraction pool));
          allowedRestaurants := firstn 25 (trimmedNames (ofCategory restaurant pool));
          allowedIndoorBackups := firstn 15 (trimmedNames (ofCategory indoor_backup pool)) |}
  /\ (forall c, In c pool ->
        let lists := allowedListsFromCandidates_batch pool in
        In (trim (c_name c))
           match c_category c with
           | restaurant => allowedRestaurants lists
           | attraction => allowedAttractions lists
           | indoor_backup => allowedIndoorBackups lists
           end).
Proof.
  intros pool. destruct (pool_parts all) as (_ & (LR & LA & LI & _) & ND & Hin & _).
  fold pool in LR, LA, LI, ND, Hin.
  assert (NE : forall c, In c pool -> dedupeKey c <> "").
  { intros c Hc E. destruct (Hin c Hc) as (_ & N). apply N.
    unfold dedupeKey in E. now apply toLowerCase_empty in E. }
  assert (B : allowedListsFromCandidates_batch pool
              = {| allowedAttractions := trimmedNames (ofCategory attraction pool);
                   allowedRestaurants := trimmedNames (ofCategory restaurant pool);
                   allowedIndoorBackups := trimmedNames (ofCategory indoor_backup pool) |}).
  { unfold allowedListsFromCandidates_batch, allowedListsWithCaps. cbv zeta.
    rewrite !(project_distinct _ _ pool ND NE).
    rewrite !firstn_short; [reflexivity | | |]; unfold trimmedNames; rewrite length_map;
      assumption. }
  split; [exact B|]. split.
  - unfold allowedListsFromCandidates, allowedListsWithCaps. cbv zeta.
    now rewrite !(project_distinct _ _ pool ND NE).
  - intros c Hc. cbv zeta. rewrite B. cbn [allowedRestaurants allowedAttractions allowedIndoorBackups].
    assert (H : In c (ofCategory (c_category c) pool)) by (now apply ofCategory_category).
    destruct (c_category c); unfold trimmedNames;
      apply (in_map (fun c0 => trim (c_name c0))); exact H.
Qed.

(** *** Extraction *)

Section Extraction.
Variable isUrl : string -> bool.

Lemma keepBody_spec (out : list Candidate) (item : Json) :
  keepBody isUrl out item
  = out ++ match CandidateSchema_parse isUrl item with
           | Some c => if isJunkName (c_name c) then [] else [c]
           | None => []
           end.
Proof.
  unfold keepBody. destruct item; try (now rewrite app_nil_r);
    destruct (CandidateSchema_parse isUrl _) as [c|]; try (now rewrite app_nil_r);
    destruct (isJunkName (c_name c)); simpl; now rewrite ?app_nil_r.
Qed.

Lemma keepCandidates_flat (arr : list Json) :
  keepCandidates isUrl arr
  = flat_map (fun item => match CandidateSchema_parse isUrl item with
                          | Some c => if isJunkName (c_name c) then [] else [c]
                          | None => []
                          end) arr.
Proof.
  unfold keepCandidates.
  assert (G : forall out, fold_left (keepBody isUrl) arr out
                          = out ++ flat_map (fun item =>
                                      match CandidateSchema_parse isUrl item with
                                      | Some c => if isJunkName (c_name c) then [] else [c]
                                      | None => []
                                      end) arr).
  { induction arr as [|item arr IH]; intros out; simpl; [now rewrite app_nil_r|].
    now rewrite IH, keepBody_spec, <- app_assoc. }
  apply G.
Qed.

Lemma CandidateSchema_spec (item : Json) (c : Candidate) :
  CandidateSchema_parse isUrl item = Some c -> c_name c <> "" /\ isUrl (c_url c) = true.
Proof.
  unfold CandidateSchema_parse. destruct item; try discriminate.
  destruct (z_string_min1 (getProp props "name")) as [name|] eqn:N; [|discriminate].
  destruct (z_category _); [|discriminate].
  destruct (z_url isUrl (getProp props "url")) as [url|] eqn:U; [|discriminate].
  destruct (z_string_optional _); [|discriminate]. intros [= <-]. cbn [c_name c_url].
  apply z_string_min1_spec in N. split; [tauto|].
  unfold z_url in U. destruct (getProp props "url") as [[]|]; try discriminate.
  destruct (isUrl s) eqn:E; [|discriminate]. now injection U as <-.
Qed.

End Extraction.

(** X10.  What [extractAndValidate] keeps of a parsed array, and what
    reaches the pool.  A candidate is kept exactly when some item of the
    array passes [CandidateSchema] as that candidate and its name is not
    junk; an item the schema rejects changes nothing, wherever it stands.
    Every candidate of the pool built from the seven arrays has a name
    that is not blank, not junk and at most 70 units long, and a URL the
    schema accepted. *)
Theorem extraction_keeps_clean_candidates (isUrl : string -> bool) :
  (forall (arr : list Json) (c : Candidate),
     In c (keepCandidates isUrl arr)
     <-> exists item, In item arr /\ CandidateSchema_parse isUrl item = Some c
                      /\ isJunkName (c_name c) = false)
  /\ (forall (before after : list Json) (bad : Json),
        CandidateSchema_parse isUrl bad = None ->
        keepCandidates isUrl (before ++ bad :: after) = keepCandidates isUrl (before ++ after))
  /\ (forall (restaurants attr1 attr2 attr3 attr4 indoor1 indoor2 : list Json) (c : Candidate),
        In c (poolOfArrays isUrl restaurants attr1 attr2 attr3 attr4 indoor1 indoor2) ->
        trim (c_name c) <> "" /\ isJunkName (c_name c) = false /\ isUrl (c_url c) = true
        /\ String.length (c_name c) <= 70).
Proof.
  split; [|split].
  - intros arr c. rewrite keepCandidates_flat, in_flat_map. split.
    + intros (item & Hitem & H). exists item. split; [exact Hitem|].
      destruct (CandidateSchema_parse isUrl item) as [c'|]; [|destruct H].
      destruct (isJunkName (c_name c')) eqn:J; [destruct H|].
      destruct H as [<-|[]]. auto.
    + intros (item & Hitem & P & J). exists item. split; [exact Hitem|].
      rewrite P, J. now left.
  - intros before after bad P. rewrite !keepCandidates_flat, !flat_map_app. simpl.
    now rewrite P.
  - intros r a1 a2 a3 a4 i1 i2 c Hc. unfold poolOfArrays in Hc. cbv zeta in Hc.
    match type of Hc with
    | In _ (assembleCandidates ?all) => destruct (pool_parts all) as (_ & _ & _ & Hin & _)
    end.
    destruct (Hin c Hc) as (Hall & T). split; [exact T|].
    assert (Hk : exists arr, In c (keepCandidates isUrl arr)).
    { repeat (apply in_app_or in Hall; destruct Hall as [Hall|Hall]; [eauto|]). eauto. }
    destruct Hk as (arr & Hk).
    rewrite keepCandidates_flat in Hk. apply in_flat_map in Hk.
    destruct Hk as (item & _ & H).
    destruct (CandidateSchema_parse isUrl item) as [c'|] eqn:P; [|destruct H].
    destruct (isJunkName (c_name c')) eqn:J; [destruct H|]. destruct H as [<-|[]].
    split; [exact J|]. split; [apply (CandidateSchema_spec isUrl item c' P)|].
    unfold isJunkName in J. cbv zeta in J.
    destruct (Nat.ltb_spec 70 (String.length (c_name c'))); [discriminate | lia].
Qed.

Lemma trimEnd_cons (c : ascii) (s : string) :
  trimEnd (String c s)
  = match trimEnd s with
    | "" => if isWhiteSpace c then "" else String c ""
    | t => String c t
    end.
Proof. reflexivity. Qed.

Lemma trimEnd_idem (s : string) : trimEnd (trimEnd s) = trimEnd s.
Proof.
  induction s as [|c s IH]; [reflexivity|]. rewrite trimEnd_cons.
  destruct (trimEnd s) as [|d t] eqn:E.
  - destruct (isWhiteSpace c) eqn:W; [reflexivity|]. rewrite trimEnd_cons. cbn [trimEnd].
    now rewrite W.
  - rewrite trimEnd_cons, IH. reflexivity.
Qed.

Lemma trimEnd_head (c : ascii) (s : string) :
  isWhiteSpace c = false -> exists t, trimEnd (String c s) = String c t.
Proof.
  intros W. rewrite trimEnd_cons. destruct (trimEnd s) as [|d t].
  - rewrite W. now exists "".
  - now exists (String d t).
Qed.

Lemma trimStart_head (s : string) :
  trimStart s = "" \/ exists c t, trimStart s = String c t /\ isWhiteSpace c = false.
Proof.
  induction s as [|c s IH]; [now left|]. cbn [trimStart].
  destruct (isWhiteSpace c) eqn:W; [exact IH|]. right. now exists c, s.
Qed.

Lemma trim_idem (s : string) : trim (trim s) = trim s.
Proof.
  unfold trim. destruct (trimStart_head s) as [->|(c & t & -> & W)]; [reflexivity|].
  destruct (trimEnd_head c t W) as (t' & E). rewrite E. cbn [trimStart]. rewrite W.
  rewrite <- E. apply trimEnd_idem.
Qed.

Lemma uniq_fold (l : list (option string)) (acc : list string) :
  fold_left uniqStep l (acc, acc)
  = (fold_left Set_add (filter truthy (map trim (map orEmpty l))) acc,
     fold_left Set_add (filter truthy (map trim (map orEmpty l))) acc).
Proof.
  revert acc. induction l as [|s l IH]; intros acc; [reflexivity|].
  cbn [fold_left map filter].
  assert (E : uniqStep (acc, acc) s
              = if truthy (trim (orEmpty s))
                then (Set_add acc (trim (orEmpty s)), Set_add acc (trim (orEmpty s)))
                else (acc, acc)).
  { unfold uniqStep, Set_add. destruct (truthy _); cbn [negb]; [|reflexivity].
    destruct (Set_has acc _); reflexivity. }
  rewrite E. destruct (truthy (trim (orEmpty s))); apply IH.
Qed.

Lemma uniqStrings_unique (l : list (option string)) :
  uniqStrings l = unique (map orEmpty l).
Proof. unfold uniqStrings, unique, Set_of. now rewrite uniq_fold. Qed.

Lemma unique_members (arr : list string) (x : string) :
  In x (unique arr) <-> exists s, In s arr /\ trim s = x /\ x <> "".
Proof.
  rewrite unique_spec, firstOccurrences_In, filter_In, in_map_iff, truthy_true. split.
  - intros ((s & E & Hs) & N). now exists s.
  - intros (s & Hs & E & N). split; [now exists s | exact N].
Qed.

Lemma unique_idem (arr : list string) : unique (unique arr) = unique arr.
Proof.
  rewrite (unique_spec (unique arr)).
  assert (M : map trim (unique arr) = unique arr).
  { rewrite <- (map_id (unique arr)) at 2. apply map_ext_in. intros x Hx.
    apply unique_members in Hx. destruct Hx as (s & _ & <- & _). apply trim_idem. }
  rewrite M.
  assert (F : filter truthy (unique arr) = unique arr).
  { apply forallb_filter_id. apply forallb_forall. intros x Hx.
    apply unique_members in Hx. destruct Hx as (_ & _ & _ & N). now apply truthy_true. }
  rewrite F. apply firstOccurrences_NoDup_id. rewrite unique_spec. apply firstOccurrences_NoDup.
Qed.

(** X13.  [uniqStrings] of images.ts and [unique] of index.ts are the
    same function, a missing entry counting as the empty string.  The
    result holds no string twice; it holds exactly the non-empty trimmed
    forms of the entries; and both functions leave their own results
    unchanged. *)
Theorem uniqStrings_is_unique (items : list (option string)) :
  uniqStrings items = unique (map orEmpty items)
  /\ (forall names : list string, uniqStrings (map Some names) = unique names)
  /\ NoDup (uniqStrings items)
  /\ (forall x, In x (uniqStrings items)
                <-> exists s, In s items /\ trim (orEmpty s) = x /\ x <> "")
  /\ uniqStrings (map Some (uniqStrings items)) = uniqStrings items
  /\ (forall names : list string, unique (unique names) = unique names).
Proof.
  split; [apply uniqStrings_unique|]. split.
  { intros names. rewrite uniqStrings_unique, map_map. cbn [orEmpty]. now rewrite map_id. }
  split.
  { rewrite uniqStrings_unique, unique_spec. apply firstOccurrences_NoDup. }
  split.
  { intros x. rewrite uniqStrings_unique, unique_members. split.
    - intros (s & Hs & E & N). apply in_map_iff in Hs. destruct Hs as (o & <- & Ho).
      now exists o.
    - intros (o & Ho & E & N). exists (orEmpty o). split; [now apply in_map | auto]. }
  split; [|exact unique_idem].
  rewrite (uniqStrings_unique (map Some _)), map_map. cbn [orEmpty]. rewrite map_id.
  rewrite uniqStrings_unique. apply unique_idem.
Qed.

(** *** The slice, whatever the delimiters *)

Section Slices.
Variables open close : ascii.

Lemma scanFrom_shift (rest : string) (i : nat) (st : ScanState) :
  scanFrom open close rest i st
  = option_map (fun j => j + i) (scanFrom open close rest 0 st).
Proof.
  revert i st. induction rest as [|ch rest IH]; intros i st; [reflexivity|].
  cbn [scanFrom]. destruct (scanStep open close st ch) as (st', ret).
  destruct ret; [reflexivity|].
  rewrite (IH (S i)), (IH 1). destruct (scanFrom open close rest 0 st') as [j|]; simpl;
    [f_equal; lia | reflexivity].
Qed.

(** The loop reads no further than the unit it returns at. *)
Lemma scanFrom_prefix (rest : string) (st : ScanState) (k : nat) :
  scanFrom open close rest 0 st = Some k ->
  k < String.length rest
  /\ forall tail, scanFrom open close (substring 0 (S k) rest ++ tail) 0 st = Some k.
Proof.
  revert st k. induction rest as [|ch rest IH]; intros st k H; [discriminate|].
  cbn [scanFrom] in H. destruct (scanStep open close st ch) as (st', ret) eqn:E.
  destruct ret.
  - injection H as <-. split; [simpl; lia|]. intros tail.
    cbn [substring append scanFrom]. now rewrite E.
  - rewrite scanFrom_shift in H.
    destruct (scanFrom open close rest 0 st') as [j|] eqn:Sc; [|discriminate].
    injection H as <-. destruct (IH st' j Sc) as (L & P).
    split; [simpl; lia|]. intros tail.
    replace (j + 1) with (S j) by lia.
    change (substring 0 (S (S j)) (String ch rest)) with (String ch (substring 0 (S j) rest)).
    cbn [append scanFrom]. rewrite E, scanFrom_shift, P. simpl. f_equal. lia.
Qed.

Lemma indexOf_app_none (before s : string) :
  indexOf before open = None ->
  indexOf (before ++ s) open
  = option_map (fun k => String.length before + k) (indexOf s open).
Proof.
  induction before as [|d before IH]; intros H.
  - simpl. now destruct (indexOf s open).
  - cbn [indexOf] in H. cbn [append indexOf String.length].
    destruct (Ascii.eqb d open); [discriminate|].
    destruct (indexOf before open); [discriminate|]. rewrite (IH eq_refl).
    now destruct (indexOf s open).
Qed.

Lemma substring_app_skip (a b : string) (n : nat) :
  substring (String.length a) n (a ++ b) = substring 0 n b.
Proof. induction a as [|c a IH]; simpl; [reflexivity | exact IH]. Qed.

Lemma substring_app_prefix (s t : string) (n : nat) :
  n <= String.length s -> substring 0 n (s ++ t) = substring 0 n s.
Proof.
  revert n. induction s as [|c s IH]; intros n H; simpl in H.
  - replace n with 0 by lia. simpl. now rewrite substring_0_0.
  - destruct n; simpl; [reflexivity|]. f_equal. apply IH. lia.
Qed.

Lemma substring_tail_app (a b : string) :
  substring (String.length a) (String.length (a ++ b) - String.length a) (a ++ b) = b.
Proof.
  rewrite substring_app_skip, string_length_app.
  replace (_ + _ - _) with (String.length b) by lia. apply substring_all.
Qed.

(** A returned slice is found again wherever it stands after text
    without the opening delimiter, whatever follows it. *)
Lemma slice_found_again (raw s before after : string) :
  extractFirstJsonSlice raw open close = Returned s ->
  indexOf before open = None ->
  extractFirstJsonSlice (before ++ s ++ after) open close = Returned s.
Proof.
  unfold extractFirstJsonSlice, slice. intros H Hb.
  destruct (indexOf raw open) as [start|] eqn:I; [|discriminate].
  destruct (indexOf_substring raw open start I) as (t0 & Et).
  set (t := substring start (String.length raw - start) raw) in *.
  rewrite scanFrom_shift in H.
  destruct (scanFrom open close t 0 (mkScanState 0 false false)) as [k|] eqn:Sc; [|discriminate].
  simpl in H. injection H as H.
  destruct (scanFrom_prefix t _ k Sc) as (L & P).
  replace (k + start + 1 - start) with (S k) in H by lia.
  assert (Es : s = substring 0 (S k) t).
  { rewrite <- H. unfold t. symmetry. apply substring_substring.
    pose proof (length_substring_tail raw start) as LT. fold t in LT. lia. }
  assert (Ls : String.length s = S k).
  { rewrite Es. apply length_substring_prefix. lia. }
  assert (Hs : exists s', s = String open s').
  { rewrite Es, Et. simpl. eauto. }
  destruct Hs as (s' & Hs).
  assert (Is : indexOf (before ++ s ++ after) open = Some (String.length before)).
  { rewrite (indexOf_app_none _ _ Hb), Hs. cbn [append indexOf].
    rewrite Ascii.eqb_refl. simpl. f_equal. lia. }
  rewrite Is, substring_tail_app, scanFrom_shift, Es, P. simpl.
  f_equal. replace (k + String.length before + 1 - String.length before) with (S k) by lia.
  rewrite substring_app_skip, <- Es, substring_app_prefix by lia.
  rewrite <- Ls. apply substring_all.
Qed.

Lemma indexOf_split (raw : string) (start : nat) :
  indexOf raw open = Some start ->
  raw = (substring 0 start raw ++ substring start (String.length raw - start) raw)%string
  /\ indexOf (substring 0 start raw) open = None.
Proof.
  revert start. induction raw as [|d raw IH]; intros start H; [discriminate|].
  cbn [indexOf] in H. destruct (Ascii.eqb d open) eqn:E.
  - injection H as <-. cbn [substring append String.length Nat.sub].
    rewrite substring_all. auto.
  - destruct (indexOf raw open) as [j|]; [|discriminate]. injection H as <-.
    destruct (IH j eq_refl) as (R & N).
    cbn [substring append String.length Nat.sub indexOf]. rewrite E, N, <- R. auto.
Qed.

Lemma substring_split (t : string) (n : nat) :
  n <= String.length t ->
  t = (substring 0 n t ++ substring n (String.length t - n) t)%string.
Proof.
  revert n. induction t as [|c t IH]; intros n H; simpl in H.
  - replace n with 0 by lia. reflexivity.
  - destruct n as [|n]; cbn [substring append String.length Nat.sub].
    + now rewrite substring_all.
    + f_equal. apply IH. lia.
Qed.

Lemma slice_in_raw (raw s : string) :
  extractFirstJsonSlice raw open close = Returned s ->
  exists before after,
    raw = (before ++ s ++ after)%string /\ indexOf before open = None
    /\ exists s', s = String open s'.
Proof.
  unfold extractFirstJsonSlice, slice. intros H.
  destruct (indexOf raw open) as [start|] eqn:I; [|discriminate].
  destruct (indexOf_substring raw open start I) as (t0 & Et).
  destruct (indexOf_split raw start I) as (R & N).
  set (t := substring start (String.length raw - start) raw) in *.
  rewrite scanFrom_shift in H.
  destruct (scanFrom open close t 0 (mkScanState 0 false false)) as [k|] eqn:Sc; [|discriminate].
  simpl in H. injection H as H.
  destruct (scanFrom_prefix t _ k Sc) as (L & _).
  replace (k + start + 1 - start) with (S k) in H by lia.
  assert (Es : s = substring 0 (S k) t).
  { rewrite <- H. unfold t. symmetry. apply substring_substring.
    pose proof (length_substring_tail raw start) as LT. fold t in LT. lia. }
  exists (substring 0 start raw), (substring (S k) (String.length t - S k) t).
  split; [|split; [exact N|]].
  - rewrite Es, <- (substring_split t (S k)) by lia. exact R.
  - rewrite Es, Et. simpl. eauto.
Qed.

End Slices.

(** X14.  For either pair of delimiters: a slice that
    [extractFirstJsonSlice] returns stands in the text after a stretch
    without the opening delimiter, and begins with that delimiter; the
    function returns the slice again from the slice itself, and from
    every text that puts it after a stretch without the opening delimiter
    and before anything at all.  What follows the slice is never read. *)
Theorem slice_stability (open close : ascii) (raw s : string) :
  extractFirstJsonSlice raw open close = Returned s ->
  (exists before after,
     raw = (before ++ s ++ after)%string /\ indexOf before open = None)
  /\ (exists s', s = String open s')
  /\ extractFirstJsonSlice s open close = Returned s
  /\ (forall before after : string,
        indexOf before open = None ->
        extractFirstJsonSlice (before ++ s ++ after) open close = Returned s).
Proof.
  intros H. destruct (slice_in_raw open close raw s H) as (before & after & R & N & Hs).
  split; [now exists before, after|]. split; [exact Hs|].
  assert (G : forall b a, indexOf b open = None ->
                          extractFirstJsonSlice (b ++ s ++ a) open close = Returned s)
    by (intros b a; now apply (slice_found_again open close raw)).
  split; [|exact G].
  specialize (G "" "" eq_refl). cbn [append] in G.
  replace (s ++ "")%string with s in G; [exact G|].
  clear. induction s as [|c s IH]; simpl; [reflexivity | now rewrite <- IH].
Qed.

Lemma slice_stability_witness :
  extractFirstJsonSlice "[1, [2]]" lbracket rbracket = Returned "[1, [2]]".
Proof.
  refine (proj1 (proj2 (proj2 (slice_stability lbracket rbracket
                                 "Sure: [1, [2]] and [3]" "[1, [2]]" _)))).
  vm_compute. reflexivity.
Defined.

(** X15.  [parseJsonObjectSafe] and [parseJsonArraySafe].  A reply that
    holds a balanced text which [JSON.parse] reads, after a stretch
    without the opening delimiter and before anything at all (a sentence
    around it, a code fence), is parsed to that value with no call to the
    JSON-repair collaborator and no change of the run.  When the first
    extraction throws, exactly one repair call is made, with the reply
    unchanged and the mode of the function, and the result is the
    extraction from the repaired text, or the error of the call. *)
Theorem fenced_reply_needs_no_repair (World : Type) (env : Environment World) :
  (forall (before text after : string) (value : Json) (r : Run World),
     indexOf before lbrace = None ->
     extractFirstJsonSlice text lbrace rbrace = Returned text ->
     JSON_parse env text = Some value ->
     parseJsonObjectSafe env (before ++ text ++ after) r = (Returned value, r))
  /\ (forall (before text after : string) (value : Json) (r : Run World),
        indexOf before lbracket = None ->
        extractFirstJsonSlice text lbracket rbracket = Returned text ->
        JSON_parse env text = Some value ->
        parseJsonArraySafe env (before ++ text ++ after) r = (Returned value, r))
  /\ (forall (raw msg : string) (r : Run World),
        extractFirstJsonObject env raw = Thrown msg ->
        trace (snd (parseJsonObjectSafe env raw r)) = trace r ++ [CallFixJson raw ModeObject]
        /\ fst (parseJsonObjectSafe env raw r)
           = match fixJsonOnly env raw ModeObject (world r) with
             | (Returned fixed, _) => extractFirstJsonObject env fixed
             | (Thrown m, _) => Thrown m
             end)
  /\ (forall (raw msg : string) (r : Run World),
        extractFirstJsonArray env raw = Thrown msg ->
        trace (snd (parseJsonArraySafe env raw r)) = trace r ++ [CallFixJson raw ModeArray]
        /\ fst (parseJsonArraySafe env raw r)
           = match fixJsonOnly env raw ModeArray (world r) with
             | (Returned fixed, _) => extractFirstJsonArray env fixed
             | (Thrown m, _) => Thrown m
             end).
Proof.
  split; [|split; [|split]].
  - intros before text after value r Hb Ht Hp.
    unfold parseJsonObjectSafe, tryCatch, lift, extractFirstJsonObject.
    now rewrite (slice_found_again lbrace rbrace text text before after Ht Hb), Hp.
  - intros before text after value r Hb Ht Hp.
    unfold parseJsonArraySafe, tryCatch, lift, extractFirstJsonArray.
    now rewrite (slice_found_again lbracket rbracket text text before after Ht Hb), Hp.
  - intros raw msg r H. unfold parseJsonObjectSafe, tryCatch, lift, bind, call. rewrite H.
    destruct (fixJsonOnly env raw ModeObject (world r)) as ([fixed|m], w); simpl; auto.
  - intros raw msg r H. unfold parseJsonArraySafe, tryCatch, lift, bind, call. rewrite H.
    destruct (fixJsonOnly env raw ModeArray (world r)) as ([fixed|m], w); simpl; auto.
Qed.

Lemma fenced_reply_needs_no_repair_witness :
  parseJsonObjectSafe scripted "Here you go: {} Enjoy!" (mkRun ["unused reply"] [])
  = (Returned (JObj []), mkRun ["unused reply"] []).
Proof.
  apply (proj1 (fenced_reply_needs_no_repair (list string) scripted)
           "Here you go: " "{}" " Enjoy!" (JObj []) (mkRun ["unused reply"] []));
    vm_compute; reflexivity.
Defined.

Lemma Map_get_set (V : Type) (m : list (string * V)) (key key' : string) (v : V) :
  Map_get (Map_set m key v) key' = if String.eqb key key' then Some v else Map_get m key'.
Proof.
  induction m as [|(k, v') m IH]; simpl.
  - destruct (String.eqb key key'); reflexivity.
  - destruct (String.eqb_spec k key) as [->|N]; simpl.
    + destruct (String.eqb key key'); reflexivity.
    + rewrite IH. destruct (String.eqb_spec k key') as [->|N'].
      * apply String.eqb_neq in N. rewrite String.eqb_sym in N. now rewrite N.
      * reflexivity.
Qed.

Lemma Map_get_delete (V : Type) (m : list (string * V)) (key key' : string) :
  Map_get (Map_delete m key) key' = if String.eqb key key' then None else Map_get m key'.
Proof.
  unfold Map_delete. induction m as [|(k, v) m IH]; simpl.
  - destruct (String.eqb key key'); reflexivity.
  - destruct (String.eqb_spec k key) as [->|N]; simpl.
    + rewrite IH. destruct (String.eqb key key'); reflexivity.
    + rewrite IH. destruct (String.eqb_spec k key') as [->|N'].
      * apply String.eqb_neq in N. rewrite String.eqb_sym in N. now rewrite N.
      * reflexivity.
Qed.

Lemma defaultTtlMs_applyOp (T : Type) (c : TtlCache T) (op : CacheOp T) :
  defaultTtlMs (applyOp c op) = defaultTtlMs c.
Proof.
  destruct op as [key now|key value ttl now]; simpl; [|reflexivity].
  unfold TtlCache_get. destruct (Map_get _ _) as [e|]; [|reflexivity].
  destruct (_ <? _)%Z; reflexivity.
Qed.

Lemma runOps_snoc (T : Type) (c : TtlCache T) (ops : list (CacheOp T)) (op : CacheOp T) :
  runOps c (ops ++ [op]) = applyOp (runOps c ops) op.
Proof. unfold runOps. now rewrite fold_left_app. Qed.

Lemma defaultTtlMs_runOps (T : Type) (c : TtlCache T) (ops : list (CacheOp T)) :
  defaultTtlMs (runOps c ops) = defaultTtlMs c.
Proof.
  induction ops as [|op ops IH] using rev_ind; [reflexivity|].
  now rewrite runOps_snoc, defaultTtlMs_applyOp.
Qed.

Lemma lastSet_snoc (T : Type) (default : Z) (key : string) (ops : list (CacheOp T))
  (op : CacheOp T) :
  lastSet default key (ops ++ [op])
  = match op with
    | CacheSet k value ttlMs now =>
        if String.eqb k key
        then Some (value, (now + match ttlMs with Some t => t | None => default end)%Z)
        else lastSet default key ops
    | CacheGet _ _ => lastSet default key ops
    end.
Proof.
  induction ops as [|o ops IH]; simpl.
  - destruct op as [k now|k value ttl now]; [reflexivity|].
    destruct (String.eqb k key); reflexivity.
  - rewrite IH. destruct op as [k now|k value ttl now].
    + reflexivity.
    + destruct (String.eqb k key); reflexivity.
Qed.

(** What the map holds after [ops] on a new cache: under a key, the
    last [set] of that key; no entry only where there was no [set], or
    the last one had run out by the time of one of the calls. *)
Lemma cache_invariant (T : Type) (default : Z) (ops : list (CacheOp T)) (key : string) :
  match Map_get (tc_map (runOps (TtlCache_new default) ops)) key with
  | Some entry => lastSet default key ops = Some (ce_value entry, ce_expiresAt entry)
  | None =>
      match lastSet default key ops with
      | None => True
      | Some (_, expiresAt) => exists op, In op ops /\ (expiresAt < opTime op)%Z
      end
  end.
Proof.
  induction ops as [|op ops IH] using rev_ind; [exact I|].
  rewrite runOps_snoc, lastSet_snoc.
  pose proof (defaultTtlMs_runOps T (TtlCache_new default) ops) as D. simpl in D.
  set (c := runOps (TtlCache_new default) ops) in *.
  assert (Keep : match lastSet default key ops with
                 | None => True
                 | Some (_, e) => exists o, In o ops /\ (e < opTime o)%Z
                 end ->
                 match lastSet default key ops with
                 | None => True
                 | Some (_, e) => exists o, In o (ops ++ [op]) /\ (e < opTime o)%Z
                 end).
  { destruct (lastSet default key ops) as [(v, e)|]; [|auto].
    intros (o & Ho & Lt). exists o. split; [apply in_or_app; now left | exact Lt]. }
  destruct op as [k now|k value ttl now]; simpl.
  - unfold TtlCache_get. destruct (Map_get (tc_map c) k) as [e|] eqn:G.
    + destruct (Z.ltb_spec (ce_expiresAt e) now) as [Lt|Ge]; simpl.
      * rewrite Map_get_delete. destruct (String.eqb_spec k key) as [->|N].
        -- rewrite G in IH. rewrite IH. exists (CacheGet key now).
           split; [apply in_or_app; right; now left | exact Lt].
        -- destruct (Map_get (tc_map c) key); [exact IH | now apply Keep].
      * destruct (Map_get (tc_map c) key); [exact IH | now apply Keep].
    + simpl. destruct (Map_get (tc_map c) key); [exact IH | now apply Keep].
  - rewrite Map_get_set, D. destruct (String.eqb k key); [reflexivity|].
    destruct (Map_get (tc_map c) key); [exact IH | now apply Keep].
Qed.

(** X16.  [get] after [set] on any cache.  The value set under a key is
    returned up to and including the clock reading [setAt + ttlMs] (the
    cache's default when [ttlMs] is left out, a given 0 being kept), and
    the cache is left as it was; after that reading [get] returns
    [undefined] and removes the entry, so that no later [get] of the key
    returns it, whatever the clock.  Neither the [set] nor the [get]
    changes what [get] returns under another key. *)
Theorem TtlCache_get_after_set (T : Type) (c : TtlCache T) (key : string) (value : T)
  (ttlMs : option Z) (setAt now : Z) :
  let cached := TtlCache_set c key value ttlMs setAt in
  let expiresAt := (setAt + match ttlMs with Some t => t | None => defaultTtlMs c end)%Z in
  fst (TtlCache_get cached key now) = (if (now <=? expiresAt)%Z then Some value else None)
  /\ ((now <= expiresAt)%Z -> snd (TtlCache_get cached key now) = cached)
  /\ ((expiresAt < now)%Z ->
      forall later, fst (TtlCache_get (snd (TtlCache_get cached key now)) key later) = None)
  /\ (forall (other : string) (later : Z), other <> key ->
        fst (TtlCache_get cached other later) = fst (TtlCache_get c other later)
        /\ fst (TtlCache_get (snd (TtlCache_get cached key now)) other later)
           = fst (TtlCache_get c other later)).
Proof.
  intros cached expiresAt.
  assert (G : Map_get (tc_map cached) key = Some (mkCacheEntry value expiresAt)).
  { unfold cached, TtlCache_set. cbn [tc_map]. now rewrite Map_get_set, String.eqb_refl. }
  assert (O : forall other, other <> key ->
                Map_get (tc_map cached) other = Map_get (tc_map c) other).
  { intros other N. unfold cached, TtlCache_set. cbn [tc_map]. rewrite Map_get_set.
    apply not_eq_sym, String.eqb_neq in N. now rewrite N. }
  assert (R : TtlCache_get cached key now
              = if (expiresAt <? now)%Z
                then (None, mkTtlCache (Map_delete (tc_map cached) key) (defaultTtlMs cached))
                else (Some value, cached)).
  { unfold TtlCache_get. rewrite G. reflexivity. }
  assert (F : forall (c' : TtlCache T) (other : string) (later : Z),
                Map_get (tc_map c') other = Map_get (tc_map c) other ->
                fst (TtlCache_get c' other later) = fst (TtlCache_get c other later)).
  { intros c' other later E. unfold TtlCache_get. rewrite E.
    destruct (Map_get (tc_map c) other) as [e|]; [|reflexivity].
    destruct (ce_expiresAt e <? later)%Z; reflexivity. }
  rewrite R. destruct (Z.ltb_spec expiresAt now) as [Lt|Ge]; cbn [fst snd].
  - split; [destruct (Z.leb_spec now expiresAt); [lia | reflexivity]|].
    split; [lia|]. split.
    + intros _ later. unfold TtlCache_get. cbn [tc_map].
      now rewrite Map_get_delete, String.eqb_refl.
    + intros other later N. split.
      * apply F. now apply O.
      * apply F. cbn [tc_map]. rewrite Map_get_delete, (O other N).
        apply not_eq_sym, String.eqb_neq in N. now rewrite N.
  - split; [destruct (Z.leb_spec now expiresAt); [reflexivity | lia]|].
    split; [reflexivity|]. split; [lia|].
    intros other later N.
    assert (E : fst (TtlCache_get cached other later) = fst (TtlCache_get c other later)).
    { apply F. now apply O. }
    split; exact E.
Qed.

(** X17.  Starting from a new cache, after any calls of [get] and [set]
    made at clock readings not later than [now], [get] of a key at [now]
    returns the value of the last [set] of that key when [now] is not
    past its expiry time, and [undefined] otherwise: removing entries
    that ran out cannot be told from keeping them. *)
Theorem TtlCache_reads_last_set (T : Type) (default : Z) (ops : list (CacheOp T))
  (key : string) (now : Z) :
  (forall op, In op ops -> (opTime op <= now)%Z) ->
  fst (TtlCache_get (runOps (TtlCache_new default) ops) key now)
  = match lastSet default key ops with
    | Some (value, expiresAt) => if (now <=? expiresAt)%Z then Some value else None
    | None => None
    end.
Proof.
  intros Hnow. pose proof (cache_invariant T default ops key) as Inv.
  unfold TtlCache_get.
  destruct (Map_get (tc_map (runOps (TtlCache_new default) ops)) key) as [e|].
  - rewrite Inv. destruct (Z.ltb_spec (ce_expiresAt e) now), (Z.leb_spec now (ce_expiresAt e));
      try reflexivity; lia.
  - cbn [fst]. destruct (lastSet default key ops) as [(v, e)|]; [|reflexivity].
    destruct Inv as (op & Hop & Lt). specialize (Hnow op Hop).
    destruct (Z.leb_spec now e); [lia | reflexivity].
Qed.

Lemma TtlCache_reads_last_set_witness :
  fst (TtlCache_get
         (runOps (TtlCache_new 100)
            [CacheSet "candidates:chicago" 1 None 0; CacheGet "candidates:chicago" 5;
             CacheSet "candidates:chicago" 2 (Some 10%Z) 6])
         "candidates:chicago" 16)
  = Some 2.
Proof.
  apply (TtlCache_reads_last_set nat 100
           [CacheSet "candidates:chicago" 1 None 0; CacheGet "candidates:chicago" 5;
            CacheSet "candidates:chicago" 2 (Some 10%Z) 6]
           "candidates:chicago" 16).
  intros op [<-|[<-|[<-|[]]]]; simpl; lia.
Defined.

Lemma callsAgree_app trip lists s1 s2 :
  callsAgree trip lists s1 -> callsAgree trip lists s2 -> callsAgree trip lists (s1 ++ s2).
Proof.
  intros (G1 & R1) (G2 & R2). split.
  - intros g H. apply in_app_or in H. destruct H; auto.
  - intros a H. apply in_app_or in H. destruct H; auto.
Qed.

Lemma noModelCall_agree trip lists steps : noModelCall steps -> callsAgree trip lists steps.
Proof.
  intros (G & R). split; [intros g H; now elim (G g) | intros a H; now elim (R a)].
Qed.

Lemma noModelCall_nil : noModelCall [].
Proof. split; intros ? []. Qed.

Section CallRuns.
Context {World : Type} (env : Environment World).

Lemma runs_parse_quietly (raw : string) :
  runs (parseJsonObjectSafe env raw) (fun steps _ => noModelCall steps).
Proof.
  intros r. unfold parseJsonObjectSafe, tryCatch, lift.
  destruct (extractFirstJsonObject env raw) as [obj|msg].
  - exists []. rewrite app_nil_r. split; [reflexivity | apply noModelCall_nil].
  - exists [CallFixJson raw ModeObject]. unfold bind, call.
    destruct (fixJsonOnly env raw ModeObject (world r)) as ([fixed|m], w); simpl;
      (split; [reflexivity|]); split; intros ? [H|[]]; discriminate H.
Qed.

Lemma runs_repairPass_calls trip lists itinerary :
  ok (validateWith trip lists itinerary) = false ->
  runs (repairPass env trip lists itinerary (validateWith trip lists itinerary))
       (fun steps _ => callsAgree trip lists steps).
Proof.
  intros Hok. unfold repairPass. cbv zeta.
  set (args := reviseArgs trip itinerary fixViolations lists (validateWith trip lists itinerary)).
  eapply (runs_bind _ _ (fun steps _ => steps = [CallRevise args])
            (fun _ steps _ => noModelCall steps)).
  - intros r. exists [CallRevise args]. unfold call.
    destruct (reviseItineraryJson env args (world r)). simpl. auto.
  - intros revisedRaw.
    eapply (runs_bind _ _ (fun steps _ => noModelCall steps) (fun _ steps _ => steps = [])).
    + apply runs_parse_quietly.
    + intros revisedObj. destruct (looksLikeItinerary revisedObj).
      * eapply runs_weaken; [apply runs_zodParse|]. cbv beta. tauto.
      * eapply runs_weaken; [apply runs_ret|]. cbv beta. tauto.
    + auto.
    + intros s1 a s2 o H1 ->. now rewrite app_nil_r.
  - intros s1 msg ->. split; [intros g [H|[]]; discriminate H|].
    intros a [H|[]]. injection H as <-. unfold args. cbn [r_itinerary reviseArgs]. auto.
  - intros s1 a s2 o -> H2. apply callsAgree_app; [|now apply noModelCall_agree].
    split; [intros g [H|[]]; discriminate H|].
    intros a' [H|[]]. injection H as <-. unfold args. cbn [r_itinerary reviseArgs]. auto.
Qed.

Lemma runs_reviseLoop_calls (budget : nat) trip lists itinerary :
  runs (reviseLoop env budget trip lists itinerary (validateWith trip lists itinerary))
       (fun steps _ => callsAgree trip lists steps).
Proof.
  revert itinerary. induction budget as [|budget IH]; intros itinerary r.
  - exists []. rewrite app_nil_r. split; [reflexivity|].
    apply noModelCall_agree, noModelCall_nil.
  - rewrite reviseLoop_step. destruct (ok (validateWith trip lists itinerary)) eqn:Ok.
    + exists []. rewrite app_nil_r. split; [reflexivity|].
      apply noModelCall_agree, noModelCall_nil.
    + destruct (runs_repairPass_calls trip lists itinerary Ok r) as (s1 & E1 & C1).
      destruct (repairPass env trip lists itinerary (validateWith trip lists itinerary) r)
        as ([itinerary'|msg], r1); simpl in E1, C1.
      * destruct (IH itinerary' (mkRun (world r1) (trace r1 ++ [RanValidator])))
          as (s2 & E2 & C2).
        exists (s1 ++ [RanValidator] ++ s2). split.
        -- unfold validateWith in E2. rewrite E2. simpl. rewrite E1, <- !app_assoc. reflexivity.
        -- apply callsAgree_app; [exact C1|]. apply callsAgree_app; [|exact C2].
           apply noModelCall_agree. split; intros ? [H|[]]; discriminate H.
      * exists s1. split; [exact E1 | exact C1].
Qed.

End CallRuns.


(** X18.  What the calls of a run of [planFromIntake] carry, once the
    trip schema has accepted the intake.  The first step is the search
    for the trip's destination; when it fails the run ends there with its
    error.  Every generation call carries the trip and the allowed lists
    projected from the assembled pool; every repair call carries the same
    trip and lists, the one standing fix, an itinerary that is not valid
    and the violations of that very itinerary; and a returned response
    carries the same lists. *)
Theorem calls_carry_current_state (World : Type) (env : Environment World)
  (input : Intake) (trip : TripRequest) (r : Run World) :
  TripRequestSchema_parse (tripObjOf env input) = Some trip ->
  exists rest,
    trace (snd (planFromIntake env input r)) = trace r ++ CallGather (destination trip) :: rest
    /\ callsAgree trip (listsOfRun env trip r) rest
    /\ (forall response, fst (planFromIntake env input r) = Returned response ->
          p_allowedLists response = listsOfRun env trip r)
    /\ (forall msg w, gatherCandidates env (destination trip) (world r) = (Thrown msg, w) ->
          rest = [] /\ fst (planFromIntake env input r) = Thrown msg).
Proof.
  intros Htrip. unfold listsOfRun. remember (planFromIntake env input r) as result eqn:Er.
  unfold planFromIntake in Er. cbv zeta in Er. rewrite Htrip in Er.
  unfold zodParse at 1 in Er. unfold bind at 1 in Er. cbn [ret] in Er.
  unfold buildCandidatesForCity in Er. unfold bind at 1 2 in Er. unfold call at 1 in Er.
  destruct (gatherCandidates env (destination trip) (world r)) as ([all|msg], w1);
    cbn [ret] in Er; subst result.
  2:{ exists []. simpl. split; [reflexivity|].
      split; [apply noModelCall_agree, noModelCall_nil|].
      split; [intros response [=] | intros msg0 w [= <- _]; auto]. }
  set (lists := allowedListsFromCandidates_batch (assembleCandidates all)).
  set (gargs := mkGenerateArgs trip (allowedAttractions lists) (allowedRestaurants lists)
                  (allowedIndoorBackups lists)).
  set (r1 := mkRun w1 (trace r ++ [CallGather (destination trip)])).
  assert (Tail : forall (m : M World PlanResponse),
            runs m (fun steps o => callsAgree trip lists steps
                                   /\ forall response, o = Returned response ->
                                        p_allowedLists response = lists) ->
            exists rest,
              trace (snd (m r1)) = trace r ++ CallGather (destination trip) :: rest
              /\ callsAgree trip lists rest
              /\ (forall response, fst (m r1) = Returned response ->
                    p_allowedLists response = lists)
              /\ (forall msg w, (Returned all, w1) = (@Thrown (list Candidate) msg, w) ->
                    rest = [] /\ fst (m r1) = Thrown msg)).
  { intros m Hm. destruct (Hm r1) as (s & E & C & P). exists s. split.
    - rewrite E. unfold r1. cbn [trace]. now rewrite <- app_assoc.
    - split; [exact C|]. split; [exact P | intros msg w [=]]. }
  apply Tail.
  eapply runs_bind with
    (Q1 := fun steps _ => steps = [CallGenerate gargs])
    (Q2 := fun _ steps o => callsAgree trip lists steps
                            /\ forall response, o = Returned response ->
                                 p_allowedLists response = lists).
  - intros r0. exists [CallGenerate gargs]. unfold call.
    destruct (generateItineraryOptionB env gargs (world r0)). simpl. auto.
  - intros raw.
    eapply runs_bind with
      (Q1 := fun steps _ => noModelCall steps)
      (Q2 := fun _ steps o => callsAgree trip lists steps
                              /\ forall response, o = Returned response ->
                                   p_allowedLists response = lists).
    + apply runs_parse_quietly.
    + intros itObj. destruct (negb (looksLikeItinerary itObj)).
      { intros r0. exists []. rewrite app_nil_r. split; [reflexivity|].
        split; [apply noModelCall_agree, noModelCall_nil | intros response [=]]. }
      eapply runs_bind with
        (Q1 := fun steps _ => steps = [])
        (Q2 := fun _ steps o => callsAgree trip lists steps
                                /\ forall response, o = Returned response ->
                                     p_allowedLists response = lists).
      * eapply runs_weaken; [apply runs_zodParse|]. cbv beta. tauto.
      * intros itinerary.
        eapply runs_bind with
          (Q1 := fun steps o => steps = [RanValidator]
                                /\ o = Returned (validateWith trip lists itinerary))
          (Q2 := fun validation steps o =>
                   validation = validateWith trip lists itinerary ->
                   callsAgree trip lists steps
                   /\ forall response, o = Returned response ->
                        p_allowedLists response = lists).
        -- apply runs_runValidator.
        -- intros validation r0. unfold bind.
           destruct (runs_reviseLoop_calls env 2 trip lists itinerary r0) as (s & E & C).
           destruct (within_reviseLoop env 2 trip lists itinerary validation r0) as (s' & E' & _).
           exists s'. split.
           { destruct (reviseLoop env 2 trip lists itinerary validation r0) as ([final|m], r2);
               exact E'. }
           intros ->. rewrite E in E'. apply app_inv_head in E'. subst s'.
           split; [exact C|].
           destruct (reviseLoop env 2 trip lists itinerary (validateWith trip lists itinerary) r0)
             as ([final|m], r2); cbn [ret fst]; intros response [= <-]; reflexivity.
        -- intros s1 msg (_ & [=]).
        -- intros s1 a s2 o (-> & [= ->]) H2. destruct (H2 eq_refl) as (C & P).
           split; [|exact P]. apply callsAgree_app; [|exact C].
           apply noModelCall_agree. split; intros ? [H|[]]; discriminate H.
      * intros s1 msg ->. split; [apply noModelCall_agree, noModelCall_nil | intros ? [=]].
      * intros s1 a s2 o -> H2. exact H2.
    + intros s1 msg H. split; [now apply noModelCall_agree | intros ? [=]].
    + intros s1 a s2 o H1 (C & P). split; [|exact P].
      apply callsAgree_app; [now apply noModelCall_agree | exact C].
  - intros s1 msg ->. split; [|intros ? [=]].
    split; [|intros ? [H|[]]; discriminate H].
    intros g [H|[]]. now injection H as <-.
  - intros s1 a s2 o -> (C & P). split; [|exact P].
    apply callsAgree_app; [|exact C].
    split; [|intros ? [H|[]]; discriminate H].
    intros g [H|[]]. now injection H as <-.
Qed.


Lemma accepted_calls_search (World : Type) (env : Environment World)
  (input : Intake) (trip : TripRequest) (r : Run World) :
  TripRequestSchema_parse (tripObjOf env input) = Some trip ->
  exists rest,
    trace (snd (planFromIntake env input r)) = trace r ++ CallGather (destination trip) :: rest.
Proof.
  intros T. unfold planFromIntake. cbv zeta. rewrite T.
  unfold zodParse at 1. unfold bind at 1. cbn [ret].
  unfold buildCandidatesForCity. unfold bind at 1 2. unfold call at 1.
  destruct (gatherCandidates env (destination trip) (world r)) as ([all|msg], w1); cbn [ret].
  2:{ exists []. reflexivity. }
  match goal with
  | |- context [bind ?m ?k ?r1] =>
      destruct (within_bind 0 0 1 2 3 8 m k) with (r := r1) as (s & Es & _)
  end.
  { apply (within_call (CallGenerate _)). }
  { intros raw.
    apply (within_bind 0 0 1 2 3 7); [apply within_parseJsonObjectSafe|]. intros itObj.
    destruct (negb (looksLikeItinerary itObj)).
    { apply (within_weaken 0 0 0); try lia. apply within_throw. }
    apply (within_bind 0 0 0 2 3 7); [apply within_zodParse|]. intros itinerary.
    apply (within_bind 0 1 1 2 2 6); [apply within_runValidator|]. intros validation.
    apply (within_bind 2 2 6 0 0 0); [apply within_reviseLoop|]. intros final.
    apply within_ret. }
  exists s. rewrite Es. cbn [trace]. now rewrite <- app_assoc.
Qed.

(** X19.  [planFromIntake] hands the intake to [TripRequestSchema]
    before anything else.  The schema rejects it exactly when the
    destination is empty, a date is not read by the runtime, the
    inclusive day count is above 30, or the travelers are not between 1
    and 20.  Exactly then the function throws with the run untouched, and
    exactly then it makes no call: for every other intake the first
    thing it does is the search for the destination.  An accepted trip
    has the intake's destination, pace and constraints, 1 to 30 days and
    1 to 20 travelers. *)
Theorem intake_rejected_before_any_call (World : Type) (env : Environment World)
  (input : Intake) (r : Run World) :
  let rejected :=
    in_destination input = ""
    \/ match inclusiveDayCount env (in_startDate input) (in_endDate input) with
       | Some n => (30 < n)%Z
       | None => True
       end
    \/ (in_travelers input < 1)%Z \/ (20 < in_travelers input)%Z in
  (TripRequestSchema_parse (tripObjOf env input) = None <-> rejected)
  /\ ((exists msg, planFromIntake env input r = (Thrown msg, r)) <-> rejected)
  /\ (trace (snd (planFromIntake env input r)) = trace r <-> rejected)
  /\ (forall trip, TripRequestSchema_parse (tripObjOf env input) = Some trip ->
        (exists rest,
           trace (snd (planFromIntake env input r))
           = trace r ++ CallGather (destination trip) :: rest)
        /\ destination trip = in_destination input
        /\ (1 <= tripLengthDays trip <= 30)%Z
        /\ (1 <= travelers trip <= 20)%Z
        /\ pace trip = in_pace input
        /\ constraints trip = in_constraints input).
Proof.
  intros rejected.
  assert (D : forall n, inclusiveDayCount env (in_startDate input) (in_endDate input) = Some n ->
                        (1 <= n)%Z).
  { unfold inclusiveDayCount. intros n.
    repeat match goal with
           | |- context [Date_getTime env ?x] => destruct (Date_getTime env x)
           end; try discriminate.
    intros [= <-]. lia. }
  assert (Schema : TripRequestSchema_parse (tripObjOf env input) = None <-> rejected).
  { unfold rejected, TripRequestSchema_parse, tripObjOf.
    cbn [o_tripLengthDays o_destination o_travelers].
    destruct (inclusiveDayCount env (in_startDate input) (in_endDate input)) as [n|] eqn:C;
      [|split; auto].
    specialize (D n eq_refl).
    assert (L : (1 <=? String.length (in_destination input))%nat = true
                <-> in_destination input <> "").
    { destruct (in_destination input); simpl; split; congruence. }
    destruct (_ && _)%bool eqn:B.
    + split; [discriminate|]. intros H. exfalso.
      rewrite !andb_true_iff, !Z.leb_le, L in B. destruct H as [E|[?|[?|?]]]; try lia.
      now apply (proj1 (proj1 (proj1 (proj1 B)))).
    + split; [intros _|reflexivity].
      rewrite !andb_false_iff, !Z.leb_gt in B.
      destruct B as [[[[B|B]|B]|B]|B]; try lia; auto.
      left. destruct (in_destination input); [reflexivity | discriminate B]. }
  assert (Throws : TripRequestSchema_parse (tripObjOf env input) = None ->
                   planFromIntake env input r = (Thrown "ZodError", r)).
  { intros H. unfold planFromIntake. cbv zeta. rewrite H. reflexivity. }
  assert (Calls : forall trip, TripRequestSchema_parse (tripObjOf env input) = Some trip ->
                    trace (snd (planFromIntake env input r)) <> trace r).
  { intros trip T E.
    destruct (accepted_calls_search World env input trip r T) as (rest & E').
    rewrite E in E'. rewrite <- (app_nil_r (trace r)) in E' at 1.
    apply app_inv_head in E'. discriminate E'. }
  split; [exact Schema|]. split; [|split].
  - rewrite <- Schema. split.
    + intros (msg & E).
      destruct (TripRequestSchema_parse (tripObjOf env input)) as [trip|] eqn:T; [|reflexivity].
      exfalso. apply (Calls trip eq_refl). now rewrite E.
    + intros H. exists "ZodError". now apply Throws.
  - rewrite <- Schema. split.
    + intros E.
      destruct (TripRequestSchema_parse (tripObjOf env input)) as [trip|] eqn:T; [|reflexivity].
      exfalso. now apply (Calls trip eq_refl).
    + intros H. now rewrite (Throws H).
  - intros trip T. split; [exact (accepted_calls_search World env input trip r T)|].
    revert T. unfold TripRequestSchema_parse, tripObjOf.
    cbn [o_tripLengthDays o_destination o_travelers
         o_start o_end o_budgetLevel o_pace o_interests o_constraints o_missingInfoQuestions].
    destruct (inclusiveDayCount env (in_startDate input) (in_endDate input)) as [n|];
      [|discriminate].
    destruct (_ && _)%bool eqn:B; [|discriminate]. intros [= <-].
    rewrite !andb_true_iff, !Z.leb_le in B.
    cbn [destination tripLengthDays travelers pace constraints]. repeat split; lia.
Qed.

Lemma calls_carry_current_state_witness :
  exists rest,
    trace (snd (planFromIntake scripted (sampleIntake "2024-05-08" "2024-05-10")
                  (mkRun ["{}"; "{}"] [])))
    = CallGather "Chicago" :: rest.
Proof.
  destruct (calls_carry_current_state (list string) scripted
              (sampleIntake "2024-05-08" "2024-05-10")
              (mkTripRequest "Chicago" 3 (Some "2024-05-08") (Some "2024-05-10") 2 mid relaxed
                 [] [] [])
              (mkRun ["{}"; "{}"] []))
    as (rest & E & _).
  - vm_compute. reflexivity.
  - exists rest. exact E.
Defined.

Section Ensures.
Context {World : Type}.

Lemma ensures_bind {A B : Type} (m : M World A) (k : A -> M World B)
  (Q1 : A -> Prop) (Q : B -> Prop) :
  ensures m Q1 -> (forall a, Q1 a -> ensures (k a) Q) -> ensures (bind m k) Q.
Proof.
  intros Hm Hk r r' b H. unfold bind in H.
  destruct (m r) as ([a|msg], r1) eqn:E; [|discriminate].
  exact (Hk a (Hm r r1 a E) r1 r' b H).
Qed.

Lemma ensures_ret {A : Type} (a : A) (Q : A -> Prop) : Q a -> ensures (ret a : M World A) Q.
Proof. intros H r r' a' [= <- _]. exact H. Qed.

Lemma ensures_throw {A : Type} (msg : string) (Q : A -> Prop) :
  ensures (throw msg : M World A) Q.
Proof. intros r r' a [=]. Qed.

Lemma ensures_any {A : Type} (m : M World A) : ensures m (fun _ => True).
Proof. intros r r' a _. exact I. Qed.

Lemma ensures_zodParse {A : Type} (v : option A) :
  ensures (zodParse v : M World A) (fun a => v = Some a).
Proof. destruct v as [a|]; intros r r' a' [=]. now subst. Qed.

Lemma ensures_runValidator trip itinerary lists :
  ensures (runValidator (World := World) trip itinerary lists)
          (fun v => v = validateWith trip lists itinerary).
Proof. intros r r' v [= <- _]. reflexivity. Qed.

Context (env : Environment World).

Lemma ensures_repairPass trip lists itinerary validation :
  ensures (repairPass env trip lists itinerary validation)
          (fun itinerary' => itinerary' = itinerary \/ schemaParsed itinerary').
Proof.
  unfold repairPass. cbv zeta.
  eapply ensures_bind; [apply ensures_any|]. intros revisedRaw _.
  eapply ensures_bind; [apply ensures_any|]. intros revisedObj _.
  destruct (looksLikeItinerary revisedObj).
  - intros r r' it' H. right. exists revisedObj. exact (ensures_zodParse _ r r' it' H).
  - apply ensures_ret. now left.
Qed.

Lemma ensures_reviseLoop (budget : nat) trip lists itinerary :
  schemaParsed itinerary ->
  ensures (reviseLoop env budget trip lists itinerary (validateWith trip lists itinerary))
          (fun final => schemaParsed (fst final)
                        /\ snd final = validateWith trip lists (fst final)).
Proof.
  revert itinerary. induction budget as [|budget IH]; intros itinerary P.
  - apply ensures_ret. auto.
  - cbn [reviseLoop]. destruct (negb (ok (validateWith trip lists itinerary)));
      [|apply ensures_ret; auto].
    eapply ensures_bind; [apply ensures_repairPass|]. intros itinerary' H.
    assert (P' : schemaParsed itinerary') by (destruct H as [->|H]; assumption).
    eapply ensures_bind; [apply ensures_runValidator|]. intros v ->. now apply IH.
Qed.

Lemma ensures_planFromIntake (input : Intake) :
  ensures (planFromIntake env input)
          (fun response =>
             exists trip itinerary,
               TripRequestSchema_parse (tripObjOf env input) = Some trip
               /\ schemaParsed itinerary
               /\ p_itinerary response = toUiItinerary itinerary
               /\ p_validation response
                  = validateWith trip (p_allowedLists response) itinerary).
Proof.
  unfold planFromIntake. cbv zeta.
  eapply ensures_bind; [apply ensures_zodParse|]. intros trip Htrip.
  eapply ensures_bind; [apply ensures_any|]. intros candidates _.
  set (lists := allowedListsFromCandidates_batch candidates).
  eapply ensures_bind; [apply ensures_any|]. intros raw _.
  eapply ensures_bind; [apply ensures_any|]. intros itObj _.
  destruct (negb (looksLikeItinerary itObj)); [apply ensures_throw|].
  eapply ensures_bind; [apply ensures_zodParse|]. intros itinerary Hit.
  eapply ensures_bind; [apply ensures_runValidator|]. intros validation ->.
  eapply ensures_bind; [apply (ensures_reviseLoop 2); now exists itObj|].
  intros final (P & V). apply ensures_ret. exists trip, (fst final).
  cbn [p_itinerary p_validation p_allowedLists]. auto.
Qed.

Lemma ensures_mainReviseOnce trip lists itinerary validation :
  ensures (mainReviseOnce env trip lists itinerary validation)
          (fun final =>
             if ok validation then final = (itinerary, validation)
             else schemaParsed (fst final) /\ snd final = validateWith trip lists (fst final)).
Proof.
  unfold mainReviseOnce. destruct (ok validation); cbn [negb]; [now apply ensures_ret|].
  cbv zeta.
  eapply ensures_bind; [apply ensures_any|]. intros rawRevise1 _.
  eapply ensures_bind; [apply ensures_any|]. intros revisedObj _.
  eapply ensures_bind with (Q1 := schemaParsed).
  - destruct (negb (looksLikeItinerary revisedObj)).
    + eapply ensures_bind; [apply ensures_any|]. intros raw' _.
      eapply ensures_bind; [apply ensures_any|]. intros fixedObj _.
      intros r r' it' H. exists fixedObj. exact (ensures_zodParse _ r r' it' H).
    + intros r r' it' H. exists revisedObj. exact (ensures_zodParse _ r r' it' H).
  - intros itinerary' P.
    eapply ensures_bind; [apply ensures_runValidator|]. intros v ->.
    apply ensures_ret. auto.
Qed.

Lemma within_mainReviseOnce trip lists itinerary validation :
  within 2 1 5 (mainReviseOnce env trip lists itinerary validation).
Proof.
  unfold mainReviseOnce. destruct (negb (ok validation)).
  2:{ apply (within_weaken 0 0 0); try lia. apply within_ret. }
  cbv zeta.
  apply (within_bind 1 0 1 1 1 4); [apply (within_call (CallRevise _))|]. intros raw1.
  apply (within_bind 0 0 1 1 1 3); [apply within_parseJsonObjectSafe|]. intros revisedObj.
  apply (within_bind 1 0 2 0 1 1).
  - destruct (negb (looksLikeItinerary revisedObj)).
    + apply (within_bind 1 0 1 0 0 1); [apply (within_call (CallRevise _))|]. intros raw2.
      apply (within_bind 0 0 1 0 0 0); [apply within_parseJsonObjectSafe|]. intros fixedObj.
      apply within_zodParse.
    + apply (within_weaken 0 0 0); try lia. apply within_zodParse.
  - intros itinerary'.
    apply (within_bind 0 1 1 0 0 0); [apply within_runValidator|]. intros v. apply within_ret.
Qed.

End Ensures.

(** X20.  Step 7 of the interactive [main].  Whatever the collaborators
    do, it makes at most two repair calls (the second only after a reply
    of the wrong shape), runs the validator at most once and takes at
    most five steps.  On a validation that is ok it does nothing.
    Otherwise, when it returns, the itinerary is one [ItinerarySchema]
    accepted and the validation returned is that of this itinerary. *)
Theorem interactive_revision_bounded (World : Type) (env : Environment World)
  (trip : TripRequest) (lists : AllowedLists) (itinerary : Itinerary)
  (validation : ValidationResult) (r : Run World) :
  let out := mainReviseOnce env trip lists itinerary validation r in
  (exists steps,
     trace (snd out) = trace r ++ steps
     /\ countSteps isRevise steps <= 2
     /\ countSteps isValidator steps <= 1
     /\ List.length steps <= 5)
  /\ (ok validation = true -> out = (Returned (itinerary, validation), r))
  /\ (ok validation = false ->
      forall final, fst out = Returned final ->
        schemaParsed (fst final) /\ snd final = validateWith trip lists (fst final)).
Proof.
  intros out. split; [apply (within_mainReviseOnce env)|]. split.
  - intros Hok. unfold out, mainReviseOnce. rewrite Hok. reflexivity.
  - intros Hok final Hf. unfold out in Hf.
    destruct (mainReviseOnce env trip lists itinerary validation r) as (o, r') eqn:E.
    simpl in Hf. subst o.
    pose proof (ensures_mainReviseOnce env trip lists itinerary validation r r' final E) as H.
    now rewrite Hok in H.
Qed.

Lemma toTimelineDay_activities (day : DayPlan) :
  filter isActivity (ui_timeline (toTimelineDay day)) = map activityOf (d_blocks day).
Proof. apply (timeline_parts day). Qed.

(** X21.  Every response [planFromIntake] returns shows an itinerary
    that [ItinerarySchema] accepted, in its UI form, with the validation
    of that itinerary under the lists of the response: when a repair
    reply is of the wrong shape the itinerary kept is the earlier parsed
    one.  So the response has at least one day, every day shows at least
    two activities, and when the validation is ok the number of days is
    the trip's length. *)
Theorem response_itinerary_passed_schema (World : Type) (env : Environment World)
  (input : Intake) (r : Run World) (response : PlanResponse) :
  fst (planFromIntake env input r) = Returned response ->
  exists trip itinerary,
    TripRequestSchema_parse (tripObjOf env input) = Some trip
    /\ schemaParsed itinerary
    /\ boundedItinerary itinerary
    /\ p_itinerary response = toUiItinerary itinerary
    /\ p_validation response = validateWith trip (p_allowedLists response) itinerary
    /\ 1 <= List.length (ui_days (p_itinerary response))
    /\ (forall uiDay, In uiDay (ui_days (p_itinerary response)) ->
          2 <= List.length (filter isActivity (ui_timeline uiDay)))
    /\ (ok (p_validation response) = true ->
        Z.of_nat (List.length (ui_days (p_itinerary response))) = tripLengthDays trip).
Proof.
  intros H. destruct (planFromIntake env input r) as (o, r') eqn:E. simpl in H. subst o.
  destruct (ensures_planFromIntake env input r r' response E)
    as (trip & itinerary & Ht & P & Ui & V).
  exists trip, itinerary.
  assert (B : boundedItinerary itinerary).
  { destruct P as (obj & Hobj). now apply (ItinerarySchema_bounds obj). }
  split; [exact Ht|]. split; [exact P|]. split; [exact B|]. split; [exact Ui|].
  split; [exact V|]. rewrite Ui. unfold toUiItinerary. cbn [ui_days].
  destruct B as (_ & L & D). rewrite length_map. split; [exact L|]. split.
  - intros uiDay Hin. apply in_map_iff in Hin. destruct Hin as (day & <- & Hday).
    rewrite toTimelineDay_activities, length_map. apply (D day Hday).
  - intros Hok. rewrite V in Hok. apply ok_iff_valid in Hok.
    destruct Hok as ((Hn & _) & _). exact Hn.
Qed.

Lemma response_itinerary_passed_schema_witness :
  exists trip itinerary,
    TripRequestSchema_parse (tripObjOf scriptedItinerary (sampleIntake "2024-05-08" "2024-05-08"))
    = Some trip
    /\ schemaParsed itinerary.
Proof.
  destruct (planFromIntake scriptedItinerary (sampleIntake "2024-05-08" "2024-05-08")
              (mkRun [fullItineraryText; fullItineraryText; fullItineraryText] []))
    as ([response|msg], r') eqn:E; [|vm_compute in E; discriminate E].
  destruct (response_itinerary_passed_schema (list string) scriptedItinerary
              (sampleIntake "2024-05-08" "2024-05-08")
              (mkRun [fullItineraryText; fullItineraryText; fullItineraryText] [])
              response)
    as (trip & itinerary & Ht & P & _).
  - rewrite E. reflexivity.
  - exists trip, itinerary. split; [exact Ht | exact P].
Defined.

(** X22.  The generation prompt states the range the validator
    enforces: for every pace, a block count passes the pace rule exactly
    when it lies between the [minBlocks] and [maxBlocks] that
    [generateItineraryOptionB] writes into its instruction ("Blocks/day:
    2 to 3", "3 to 4", "4 to 6"); the least of them, 2, is the schema's
    minimum of blocks. *)
Theorem prompt_states_validator_range (trip : TripRequest) :
  (forall blocks : nat,
     paceOk (pace trip) blocks = true <-> minBlocks trip <= blocks <= maxBlocks trip)
  /\ 2 <= minBlocks trip
  /\ blocksPerDayLine trip
     = match pace trip with
       | relaxed => "Blocks/day: 2 to 3"
       | balanced => "Blocks/day: 3 to 4"
       | packed => "Blocks/day: 4 to 6"
       end.
Proof.
  unfold minBlocks, maxBlocks, blocksPerDayLine, minBlocks, maxBlocks.
  split; [|split].
  - intros blocks. rewrite paceOk_range. destruct (pace trip); simpl; lia.
  - destruct (pace trip); simpl; lia.
  - destruct (pace trip); reflexivity.
Qed.

Lemma z_date_spec (v : option Json) (s : string) :
  z_date v = Some s -> isDateText s = true.
Proof.
  destruct v as [[| | | |s'| |]|]; simpl; try discriminate.
  destruct (isDateText s') eqn:E; [|discriminate]. now intros [= <-].
Qed.

Lemma z_travelers_spec (v : option Json) (n : Z) : z_travelers v = Some n -> (1 <= n)%Z.
Proof.
  destruct v as [[| |k| | | |]|]; simpl; try discriminate.
  - destruct (1 <=? k)%Z eqn:E; [|discriminate]. intros [= <-]. now apply Z.leb_le.
  - intros [= <-]. lia.
Qed.

Lemma IntakeSchema_accepts (body : Json) (input : Intake) :
  IntakeSchema_parse body = Some input ->
  in_destination input <> ""
  /\ isDateText (in_startDate input) = true
  /\ isDateText (in_endDate input) = true
  /\ (1 <= in_travelers input)%Z.
Proof.
  destruct body as [| | | | | |props]; try discriminate. unfold IntakeSchema_parse.
  destruct (z_string_min1 _) as [d|] eqn:Ed; [|discriminate].
  destruct (z_date (getProp props "startDate")) as [s|] eqn:Es; [|discriminate].
  destruct (z_date (getProp props "endDate")) as [e|] eqn:Ee; [|discriminate].
  destruct (z_travelers _) as [t|] eqn:Et; [|discriminate].
  destruct (z_pace _); [|discriminate]. destruct (z_budgetLevel _); [|discriminate].
  destruct (z_strings_default (getProp props "constraints")); [|discriminate].
  destruct (z_strings_default (getProp props "interests")); [|discriminate].
  intros [= <-]. cbn [in_destination in_startDate in_endDate in_travelers].
  split; [|split; [exact (z_date_spec _ _ Es)|split;
    [exact (z_date_spec _ _ Ee) | exact (z_travelers_spec _ _ Et)]]].
  revert Ed. destruct (getProp props "destination") as [[| | | |s'| |]|]; simpl; try discriminate.
  destruct s'; simpl; [discriminate|]. intros [= <-]. discriminate.
Qed.

Lemma accepted_refused (World : Type) (env : Environment World) (body : Json) (input : Intake) :
  IntakeSchema_parse body = Some input ->
  TripRequestSchema_parse (tripObjOf env input) = None <-> refusedLate env input.
Proof.
  intros A. destruct (IntakeSchema_accepts body input A) as (D & _ & _ & T).
  unfold refusedLate, TripRequestSchema_parse, tripObjOf.
  cbn [o_tripLengthDays o_destination o_travelers].
  destruct (inclusiveDayCount env (in_startDate input) (in_endDate input)) as [n|] eqn:C;
    [|split; auto].
  assert (N : (1 <= n)%Z).
  { revert C. unfold inclusiveDayCount.
    repeat match goal with
           | |- context [Date_getTime env ?x] => destruct (Date_getTime env x)
           end; try discriminate.
    intros [= <-]. lia. }
  assert (L : (1 <=? String.length (in_destination input))%nat = true).
  { destruct (in_destination input); [contradiction | reflexivity]. }
  rewrite L. cbn [andb].
  destruct (_ && _)%bool eqn:B.
  - rewrite !andb_true_iff, !Z.leb_le in B. split; [discriminate | lia].
  - rewrite !andb_false_iff, !Z.leb_gt in B. split; [lia | reflexivity].
Qed.

(** X23.  The replies of [POST /api/plan].  The handler never throws.  It
    answers 400 exactly when the intake schema rejects the body, and then
    nothing is called.  A body the schema accepts has a destination that
    is not empty, dates of the form dddd-dd-dd and at least one traveler;
    it is answered 200 with what [planFromIntake] returns or 500 with
    the message it throws.  Such a body is still refused by the trip
    schema, with a 500 and no call made, exactly when the travelers are
    above 20, the inclusive day count is above 30 or the runtime does not
    read one of the dates; otherwise the search is called.  A request
    makes at most 10 steps, 2 of them repair calls. *)
Theorem plan_endpoint_replies (World : Type) (env : Environment World)
  (body : Json) (r : Run World) :
  (exists reply, fst (postPlan env body r) = Returned reply)
  /\ (IntakeSchema_parse body = None <-> fst (postPlan env body r) = Returned Status400)
  /\ (IntakeSchema_parse body = None -> snd (postPlan env body r) = r)
  /\ (exists steps,
        trace (snd (postPlan env body r)) = trace r ++ steps
        /\ countSteps isRevise steps <= 2
        /\ List.length steps <= 10)
  /\ (forall input, IntakeSchema_parse body = Some input ->
        (in_destination input <> ""
         /\ isDateText (in_startDate input) = true
         /\ isDateText (in_endDate input) = true
         /\ (1 <= in_travelers input)%Z)
        /\ (forall response,
              fst (postPlan env body r) = Returned (Status200 response)
              <-> fst (planFromIntake env input r) = Returned response)
        /\ (forall message,
              fst (postPlan env body r) = Returned (Status500 message)
              <-> fst (planFromIntake env input r) = Thrown message)
        /\ (refusedLate env input ->
              exists message, postPlan env body r = (Returned (Status500 message), r))
        /\ (~ refusedLate env input ->
              exists rest,
                trace (snd (postPlan env body r))
                = trace r ++ CallGather (in_destination input) :: rest)).
Proof.
  unfold postPlan.
  destruct (IntakeSchema_parse body) as [input|] eqn:A.
  - destruct (within_planFromIntake env input r) as (steps & E & R & _ & L).
    assert (Late : refusedLate env input -> planFromIntake env input r = (Thrown "ZodError", r)).
    { intros H. apply (accepted_refused World env body input A) in H.
      unfold planFromIntake. cbv zeta. rewrite H. reflexivity. }
    assert (Early : ~ refusedLate env input ->
                    exists rest, trace (snd (planFromIntake env input r))
                                 = trace r ++ CallGather (in_destination input) :: rest).
    { intros H.
      destruct (TripRequestSchema_parse (tripObjOf env input)) as [trip|] eqn:T;
        [|now apply (accepted_refused World env body input A) in T].
      assert (Dn : destination trip = in_destination input).
      { revert T. unfold TripRequestSchema_parse, tripObjOf. cbn [o_tripLengthDays].
        destruct (inclusiveDayCount env _ _); [|discriminate].
        destruct (_ && _)%bool; [|discriminate]. now intros [= <-]. }
      rewrite <- Dn. clear E.
      unfold planFromIntake. cbv zeta. rewrite T.
      unfold zodParse at 1. unfold bind at 1. cbn [ret].
      unfold buildCandidatesForCity. unfold bind at 1 2. unfold call at 1.
      destruct (gatherCandidates env (destination trip) (world r)) as ([all|msg], w1);
        cbn [ret].
      2:{ exists []. reflexivity. }
      match goal with
      | |- context [bind ?m ?k ?r1] =>
          destruct (within_bind 0 0 1 2 3 8 m k) with (r := r1) as (s & Es & _)
      end.
      { apply (within_call (CallGenerate _)). }
      { intros raw.
        apply (within_bind 0 0 1 2 3 7); [apply within_parseJsonObjectSafe|]. intros itObj.
        destruct (negb (looksLikeItinerary itObj)).
        { apply (within_weaken 0 0 0); try lia. apply within_throw. }
        apply (within_bind 0 0 0 2 3 7); [apply within_zodParse|]. intros itinerary.
        apply (within_bind 0 1 1 2 2 6); [apply within_runValidator|]. intros validation.
        apply (within_bind 2 2 6 0 0 0); [apply within_reviseLoop|]. intros final.
        apply within_ret. }
      exists s. rewrite Es. cbn [trace]. now rewrite <- app_assoc. }
    destruct (planFromIntake env input r) as ([response|message], r') eqn:P; cbn [fst snd] in *.
    + split; [eauto|]. split; [split; discriminate|]. split; [discriminate|].
      split; [exists steps; auto|].
      intros input' [= <-]. rewrite P. cbn [fst].
      split; [exact (IntakeSchema_accepts body input A)|].
      split; [intros ?; split; intros Q; congruence|].
      split; [intros ?; split; intros Q; congruence|].
      split; [intros H; specialize (Late H); discriminate Late | exact Early].
    + split; [eauto|]. split; [split; discriminate|]. split; [discriminate|].
      split; [exists steps; auto|].
      intros input' [= <-]. rewrite P. cbn [fst].
      split; [exact (IntakeSchema_accepts body input A)|].
      split; [intros ?; split; intros Q; congruence|].
      split; [intros ?; split; intros Q; congruence|].
      split; [|exact Early].
      intros H. specialize (Late H). injection Late as -> ->. eauto.
  - cbn [ret fst snd]. split; [eauto|]. split; [tauto|]. split; [reflexivity|].
    split; [exists []; rewrite app_nil_r; simpl; auto with arith|].
    intros input [=].
Qed.

Section ImagesFacts.
Context {Num W : Type} (env : ImagesEnv Num W).

Lemma requestsAtMost_ret (A : Type) (a : A) (Q : Outcome A -> Prop) :
  Q (Returned a) -> requestsAtMost env 0 (ret a) Q.
Proof. intros H r. exists []. rewrite app_nil_r. simpl. auto. Qed.

Lemma requestsAtMost_throw (A : Type) (msg : string) (Q : Outcome A -> Prop) :
  Q (Thrown msg) -> requestsAtMost env 0 (throw msg) Q.
Proof. intros H r. exists []. rewrite app_nil_r. simpl. auto. Qed.

Lemma requestsAtMost_weaken (A : Type) (n n' : nat) (m : M (ImagesState Num W) A)
  (Q Q' : Outcome A -> Prop) :
  requestsAtMost env n m Q -> n <= n' -> (forall o, Q o -> Q' o) ->
  requestsAtMost env n' m Q'.
Proof.
  intros H Le I r. destruct (H r) as (urls & E & L & K & q).
  exists urls. repeat split; auto. lia.
Qed.

Lemma requestsAtMost_bind (A B : Type) (n1 n2 : nat) (m : M (ImagesState Num W) A)
  (k : A -> M (ImagesState Num W) B) (Q1 : Outcome A -> Prop) (Q : Outcome B -> Prop) :
  requestsAtMost env n1 m Q1 ->
  (forall a, Q1 (Returned a) -> requestsAtMost env n2 (k a) Q) ->
  (forall msg, Q1 (Thrown msg) -> Q (Thrown msg)) ->
  requestsAtMost env (n1 + n2) (bind m k) Q.
Proof.
  intros Hm Hk Ht r. unfold bind. destruct (Hm r) as (u1 & E1 & L1 & K1 & q1).
  destruct (m r) as ([a|msg], r1); cbn [fst snd] in *.
  - destruct (Hk a q1 r1) as (u2 & E2 & L2 & K2 & q2).
    exists (u1 ++ u2). rewrite E2, E1, app_assoc, length_app.
    repeat split; auto; [lia|]. intros H. now rewrite (K1 H), (K2 H).
  - exists u1. repeat split; auto. lia.
Qed.

Lemma requireGoogleKey_spec :
  requestsAtMost env 0 (requireGoogleKey env)
    (fun o => forall key, o = Returned key -> hasKey env = true).
Proof.
  unfold requireGoogleKey, hasKey. destruct (GOOGLE_MAPS_API_KEY env) as [key|]; simpl.
  - destruct (truthy key) eqn:T.
    + apply requestsAtMost_ret. auto.
    + apply requestsAtMost_throw. discriminate.
  - apply requestsAtMost_throw. discriminate.
Qed.

(** A request made with the key in hand. *)
Lemma keyed_request (A B : Type) (n : nat) (send : string -> W -> Outcome A * W)
  (url : string -> string) (k : A -> M (ImagesState Num W) B) (Q : Outcome B -> Prop) :
  (forall a, requestsAtMost env n (k a) Q) ->
  (forall msg, Q (Thrown msg)) ->
  requestsAtMost env (1 + n)
    (bind (requireGoogleKey env) (fun key => bind (request send (url key)) k)) Q.
Proof.
  intros Hk Ht.
  apply (requestsAtMost_bind _ _ 0 (1 + n) _ _
           (fun o => forall key, o = Returned key -> hasKey env = true));
    [apply requireGoogleKey_spec | | intros; apply Ht].
  intros key Hkey. specialize (Hkey key eq_refl). intros r.
  unfold bind, request.
  destruct (send (url key) (outside (world r))) as ([a|msg], w); cbn [fst snd world].
  - match goal with
    | |- context [k a ?r1] => destruct (Hk a r1) as (u & E & L & K & q)
    end.
    exists (url key :: u). rewrite E. cbn [world requested]. rewrite <- app_assoc.
    repeat split; auto; [simpl; lia | congruence].
  - exists [url key]. cbn [requested]. repeat split; auto; [simpl; lia | congruence].
Qed.

Lemma cache_get_quiet (A B : Type) (n : nat)
  (get : M (ImagesState Num W) A) (k : A -> M (ImagesState Num W) B)
  (Q : Outcome B -> Prop) :
  (forall r, exists a r', get r = (Returned a, r')
                          /\ requested (world r') = requested (world r)) ->
  (forall a, requestsAtMost env n (k a) Q) ->
  requestsAtMost env n (bind get k) Q.
Proof.
  intros Hg Hk r. unfold bind. destruct (Hg r) as (a & r' & -> & E).
  destruct (Hk a r') as (u & E' & rest). exists u. rewrite E', E. auto.
Qed.

Lemma textSearchCache_get_quiet (key : string) (r : Run (ImagesState Num W)) :
  exists a r', textSearchCache_get env key r = (Returned a, r')
               /\ requested (world r') = requested (world r).
Proof.
  unfold textSearchCache_get. destruct (TtlCache_get _ _ _) as (found, c). eauto.
Qed.

Lemma detailsCache_get_quiet (key : string) (r : Run (ImagesState Num W)) :
  exists a r', detailsCache_get env key r = (Returned a, r')
               /\ requested (world r') = requested (world r).
Proof.
  unfold detailsCache_get. destruct (TtlCache_get _ _ _) as (found, c). eauto.
Qed.

Lemma photoRedirectCache_get_quiet (key : string) (r : Run (ImagesState Num W)) :
  exists a r', photoRedirectCache_get env key r = (Returned a, r')
               /\ requested (world r') = requested (world r).
Proof.
  unfold photoRedirectCache_get. destruct (TtlCache_get _ _ _) as (found, c). eauto.
Qed.

Lemma cache_set_quiet (B : Type) (set : M (ImagesState Num W) unit) (b : B)
  (Q : Outcome B -> Prop) :
  (forall r, exists r', set r = (Returned tt, r')
                        /\ requested (world r') = requested (world r)) ->
  Q (Returned b) ->
  requestsAtMost env 0 (bind set (fun _ => ret b)) Q.
Proof.
  intros Hs q r. unfold bind. destruct (Hs r) as (r' & -> & E).
  exists []. rewrite app_nil_r. simpl. auto.
Qed.

Lemma googleTextSearch_requests (query : string) :
  requestsAtMost env 1 (googleTextSearch env query) (fun _ => True).
Proof.
  unfold googleTextSearch. cbv zeta.
  apply cache_get_quiet; [apply textSearchCache_get_quiet|]. intros [results|].
  - apply (requestsAtMost_weaken _ 0 1 _ (fun _ => True)); auto.
    now apply requestsAtMost_ret.
  - apply (keyed_request _ _ 0 (getTextSearch env) (textSearchUrl env query)); [|auto].
    intros data. destruct (_ && _)%bool.
    + now apply requestsAtMost_throw.
    + apply cache_set_quiet; [|exact I]. intros r. unfold textSearchCache_set. eauto.
Qed.

Lemma googlePlaceDetails_requests (placeId : string) :
  requestsAtMost env 1 (googlePlaceDetails env placeId) (fun _ => True).
Proof.
  unfold googlePlaceDetails. cbv zeta.
  apply cache_get_quiet; [apply detailsCache_get_quiet|]. intros [result|].
  - apply (requestsAtMost_weaken _ 0 1 _ (fun _ => True)); auto.
    now apply requestsAtMost_ret.
  - apply (keyed_request _ _ 0 (getPlaceDetails env) (detailsUrl env placeId)); [|auto].
    intros data. destruct (negb _).
    + destruct (_ || _)%bool; [now apply requestsAtMost_ret | now apply requestsAtMost_throw].
    + destruct (dr_result data) as [result|]; [|now apply requestsAtMost_ret].
      destruct (negb _); [now apply requestsAtMost_ret|].
      apply cache_set_quiet; [|exact I]. intros r. unfold detailsCache_set. eauto.
Qed.

Lemma resolvePhotoRedirect_requests (photoRef : string) (maxWidth : Z) :
  requestsAtMost env 1 (resolvePhotoRedirect env photoRef maxWidth)
    (fun o => forall found, o = Returned found -> found = None \/ truthyOpt found = true).
Proof.
  unfold resolvePhotoRedirect. cbv zeta.
  apply cache_get_quiet; [apply photoRedirectCache_get_quiet|]. intros cached.
  destruct (truthyOpt cached) eqn:T.
  - apply (requestsAtMost_weaken _ 0 1 _
             (fun o => forall found, o = Returned found -> found = None \/ truthyOpt found = true));
      auto.
    apply requestsAtMost_ret. intros found [= <-]. now right.
  - apply (keyed_request _ _ 0 (fetchManual env) (photoUrl env photoRef maxWidth));
      [|discriminate].
    intros res. destruct (_ && _)%bool eqn:B.
    + apply cache_set_quiet; [intros r; unfold photoRedirectCache_set; eauto|].
      intros found [= <-]. right. now apply andb_true_iff in B.
    + apply requestsAtMost_ret. intros found [= <-]. now left.
Qed.

Lemma resolvePhotos_requests (photoRefs imageUrls : list string) :
  requestsAtMost env (List.length photoRefs) (resolvePhotos env photoRefs imageUrls)
    (fun o => forall urls, o = Returned urls ->
                exists more, urls = imageUrls ++ more
                             /\ List.length more <= List.length photoRefs
                             /\ Forall (fun u => u <> "") more).
Proof.
  revert imageUrls. induction photoRefs as [|ref refs IH]; intros imageUrls.
  - apply requestsAtMost_ret. intros urls [= <-]. exists []. rewrite app_nil_r. auto.
  - cbn [resolvePhotos List.length].
    apply (requestsAtMost_bind _ _ 1 (List.length refs) _ _
             (fun o => forall found, o = Returned found ->
                         found = None \/ truthyOpt found = true));
      [apply resolvePhotoRedirect_requests | | discriminate].
    intros finalUrl Hf. specialize (Hf finalUrl eq_refl).
    eapply requestsAtMost_weaken; [apply IH | lia |]. cbv beta.
    intros o Ho urls ->. destruct (Ho urls eq_refl) as (more & -> & L & F).
    destruct Hf as [->|T].
    + cbn [truthyOpt]. exists more. repeat split; auto.
    + rewrite T. exists (orEmpty finalUrl :: more). rewrite <- app_assoc.
      repeat split; [simpl; lia|]. constructor; [|exact F].
      destruct finalUrl as [[|c u]|]; simpl in *; discriminate.
Qed.

Lemma clamp_range (n : option Z) (fallback top : Z) :
  (1 <= top)%Z -> (1 <= clamp n fallback top <= top)%Z.
Proof. unfold clamp. lia. Qed.

Lemma sliceTo_length (A : Type) (n : Z) (items : list A) :
  (0 <= n)%Z -> (Z.of_nat (List.length (sliceTo n items)) <= n)%Z.
Proof.
  intros H. unfold sliceTo. rewrite length_firstn. lia.
Qed.

Lemma photoRefs_requests (photos : list string) (limit : Z) :
  (0 <= limit)%Z ->
  requestsAtMost env (Z.to_nat limit) (resolvePhotos env (photoRefsOf photos limit) [])
    (fun o => forall urls, o = Returned urls -> imagesWithin limit urls).
Proof.
  intros H. pose proof (sliceTo_length _ limit (uniqStrings (map Some photos)) H) as L.
  fold (photoRefsOf photos limit) in L.
  eapply requestsAtMost_weaken; [apply resolvePhotos_requests | lia |]. cbv beta.
  intros o Ho urls ->. destruct (Ho urls eq_refl) as (more & -> & L' & F).
  split; [simpl; lia | exact F].
Qed.

Lemma resolvePlaceMedia_requests (name city : string) (maxImages : option Z) :
  requestsAtMost env (2 + Z.to_nat (clamp maxImages 5 10))
    (resolvePlaceMedia env name city maxImages)
    (fun o => forall media, o = Returned (Some media) ->
                pm_placeId media <> ""
                /\ imagesWithin (clamp maxImages 5 10) (pm_imageUrls media)).
Proof.
  pose proof (clamp_range maxImages 5 10 ltac:(lia)) as C.
  unfold resolvePlaceMedia. cbv zeta.
  destruct (_ || _)%bool.
  { eapply requestsAtMost_weaken; [apply requestsAtMost_ret | lia | intros o q; exact q].
    discriminate. }
  apply (requestsAtMost_bind _ _ 1 (1 + Z.to_nat (clamp maxImages 5 10)) _ _ (fun _ => True));
    [apply googleTextSearch_requests | | discriminate].
  intros [|best rest] _.
  { eapply requestsAtMost_weaken; [apply requestsAtMost_ret | lia | intros o q; exact q].
    discriminate. }
  destruct (truthy (sr_place_id best)) eqn:T; cbn [negb].
  2:{ eapply requestsAtMost_weaken; [apply requestsAtMost_ret | lia | intros o q; exact q].
      discriminate. }
  apply (requestsAtMost_bind _ _ 1 (Z.to_nat (clamp maxImages 5 10)) _ _ (fun _ => True));
    [apply googlePlaceDetails_requests | | discriminate].
  intros details _.
  replace (Z.to_nat (clamp maxImages 5 10)) with (Z.to_nat (clamp maxImages 5 10) + 0) by lia.
  eapply requestsAtMost_bind; [apply photoRefs_requests; lia | | discriminate].
  intros imageUrls Hi. specialize (Hi imageUrls eq_refl).
  apply requestsAtMost_ret. intros media [= <-]. cbn [pm_placeId pm_imageUrls].
  split; [|exact Hi]. intros E. rewrite E in T. discriminate T.
Qed.

Lemma resolveHotels_requests (hotels : list (GoogleTextSearchResult Num))
  (limit : Z) (out : list (HotelOption Num)) :
  (0 <= limit)%Z ->
  requestsAtMost env (List.length hotels * (1 + Z.to_nat limit))
    (resolveHotels env hotels limit out)
    (fun o => forall all, o = Returned all ->
                exists more, all = out ++ more
                             /\ List.length more = List.length hotels
                             /\ Forall (fun h => imagesWithin limit (ho_imageUrls h)) more).
Proof.
  intros H. revert out. induction hotels as [|h hotels IH]; intros out.
  - apply requestsAtMost_ret. intros all [= <-]. exists []. rewrite app_nil_r. auto.
  - cbn [resolveHotels List.length].
    replace (S (List.length hotels) * (1 + Z.to_nat limit))
      with (1 + (Z.to_nat limit + List.length hotels * (1 + Z.to_nat limit))) by lia.
    apply (requestsAtMost_bind _ _ 1 _ _ _ (fun _ => True));
      [apply googlePlaceDetails_requests | | discriminate].
    intros details _.
    eapply requestsAtMost_bind; [apply photoRefs_requests; lia | | discriminate].
    intros imageUrls Hi. specialize (Hi imageUrls eq_refl).
    eapply requestsAtMost_weaken; [apply IH | lia |]. cbv beta.
    intros o Ho all ->. destruct (Ho all eq_refl) as (more & -> & L & F).
    eexists (_ :: more). rewrite <- app_assoc. split; [reflexivity|].
    split; [simpl; lia|]. constructor; [exact Hi | exact F].
Qed.

Lemma getHotelsForCity_requests (city : string) (maxHotels maxImagesPerHotel : option Z) :
  requestsAtMost env
    (1 + Z.to_nat (clamp maxHotels 10 20) * (1 + Z.to_nat (clamp maxImagesPerHotel 6 10)))
    (getHotelsForCity env city maxHotels maxImagesPerHotel)
    (fun o => forall hotels, o = Returned hotels ->
                (Z.of_nat (List.length hotels) <= clamp maxHotels 10 20)%Z
                /\ Forall (fun h => imagesWithin (clamp maxImagesPerHotel 6 10) (ho_imageUrls h))
                          hotels).
Proof.
  pose proof (clamp_range maxHotels 10 20 ltac:(lia)) as CH.
  pose proof (clamp_range maxImagesPerHotel 6 10 ltac:(lia)) as CI.
  unfold getHotelsForCity. cbv zeta.
  destruct (negb _).
  { eapply requestsAtMost_weaken; [apply requestsAtMost_ret | lia | intros o q; exact q].
    intros hotels [= <-]. split; [simpl; lia | constructor]. }
  apply (requestsAtMost_bind _ _ 1 _ _ _ (fun _ => True));
    [apply googleTextSearch_requests | | discriminate].
  intros results _.
  pose proof (sliceTo_length _ (clamp maxHotels 10 20) (filter namedResult results)
                ltac:(lia)) as L.
  eapply requestsAtMost_weaken; [apply resolveHotels_requests; lia | nia |]. cbv beta.
  intros o Ho hotels ->. destruct (Ho hotels eq_refl) as (more & -> & Lm & F).
  cbn [app]. split; [lia | exact F].
Qed.

Lemma textSearch_hit (query : string) (entry : CacheEntry (list (GoogleTextSearchResult Num)))
  (r : Run (ImagesState Num W)) :
  Map_get (tc_map (textSearchCache (world r))) (textSearchKey query) = Some entry ->
  (Date_now env (outside (world r)) <= ce_expiresAt entry)%Z ->
  googleTextSearch env query r = (Returned (ce_value entry), r).
Proof.
  intros G T. unfold googleTextSearch. cbv zeta. unfold bind at 1.
  unfold textSearchCache_get, TtlCache_get. rewrite G.
  destruct (ce_expiresAt entry <? Date_now env (outside (world r)))%Z eqn:X;
    [apply Z.ltb_lt in X; lia|].
  destruct r as [[d t p w q] tr]. reflexivity.
Qed.

Lemma textSearch_fill (query : string) (results : list (GoogleTextSearchResult Num))
  (r r1 : Run (ImagesState Num W)) :
  googleTextSearch env query r = (Returned results, r1) ->
  requested (world r1) <> requested (world r) ->
  Map_get (tc_map (textSearchCache (world r1))) (textSearchKey query)
  = Some (mkCacheEntry results
            (Date_now env (outside (world r1)) + defaultTtlMs (textSearchCache (world r))))
  /\ Forall (fun x => namedResult x = true) results.
Proof.
  unfold googleTextSearch. cbv zeta. unfold bind at 1. unfold textSearchCache_get.
  destruct (TtlCache_get (textSearchCache (world r)) (textSearchKey query)
              (Date_now env (outside (world r)))) as (found, c) eqn:G.
  assert (Dc : defaultTtlMs c = defaultTtlMs (textSearchCache (world r))).
  { revert G. unfold TtlCache_get. destruct (Map_get _ _) as [entry|]; [|now intros [= _ <-]].
    destruct (_ <? _)%Z; now intros [= _ <-]. }
  destruct found as [cached|].
  { intros [= _ <-] N. now contradiction N. }
  unfold bind at 1. unfold requireGoogleKey.
  destruct (GOOGLE_MAPS_API_KEY env) as [key|]; [|discriminate].
  destruct (truthy key); [|discriminate]. cbn [ret].
  unfold bind at 1. unfold request. cbn [world outside].
  destruct (getTextSearch env (textSearchUrl env query key) (outside (world r)))
    as ([data|msg], w); [|discriminate].
  destruct (_ && _)%bool; [discriminate|].
  unfold bind, textSearchCache_set, ret. cbn [world outside textSearchCache].
  intros [= <- <-] _. cbn [world outside textSearchCache]. unfold TtlCache_set. cbn [tc_map].
  rewrite Map_get_set, String.eqb_refl, Dc. split; [reflexivity|].
  apply Forall_forall. intros x Hx. now apply filter_In in Hx.
Qed.

End ImagesFacts.


(** X24.  [resolvePlaceMedia] asks for at most [maxImages] images, a
    number it first brings between 1 and 10 (5 when left out).  A run
    makes at most 2 requests besides one per image, and none at all when
    the process has no API key; a name or city that is blank gives
    [null] at once, with nothing requested or changed.  A place it
    returns has a place id that is not empty and at most that many image
    addresses, none of them empty. *)
Theorem resolvePlaceMedia_bounded (Num W : Type) (env : ImagesEnv Num W)
  (name city : string) (maxImages : option Z) (r : Run (ImagesState Num W)) :
  (1 <= clamp maxImages 5 10 <= 10)%Z
  /\ (exists urls,
        requested (world (snd (resolvePlaceMedia env name city maxImages r)))
        = requested (world r) ++ urls
        /\ (Z.of_nat (List.length urls) <= 2 + clamp maxImages 5 10)%Z
        /\ (hasKey env = false -> urls = []))
  /\ (trim name = "" \/ trim city = "" ->
      resolvePlaceMedia env name city maxImages r = (Returned None, r))
  /\ (forall media,
        fst (resolvePlaceMedia env name city maxImages r) = Returned (Some media) ->
        pm_placeId media <> ""
        /\ imagesWithin (clamp maxImages 5 10) (pm_imageUrls media)).
Proof.
  pose proof (clamp_range maxImages 5 10 ltac:(lia)) as C.
  destruct (resolvePlaceMedia_requests env name city maxImages r) as (urls & E & L & K & Q).
  split; [exact C|]. split; [exists urls; repeat split; auto; lia|]. split; [|exact Q].
  intros B. unfold resolvePlaceMedia. cbv zeta.
  destruct B as [-> | ->]; [reflexivity|]. now rewrite orb_true_r.
Qed.

(** X25.  [getHotelsForCity] keeps at most [maxHotels] hotels, a number
    it first brings between 1 and 20 (10 when left out), with at most
    [maxImagesPerHotel] images each, brought between 1 and 10 (6 when
    left out).  A run makes at most one request for the search and, for
    each hotel kept, one for its details and one per image; none at all
    when the process has no API key.  A blank city gives the empty list
    at once, with nothing requested or changed. *)
Theorem getHotelsForCity_bounded (Num W : Type) (env : ImagesEnv Num W)
  (city : string) (maxHotels maxImagesPerHotel : option Z) (r : Run (ImagesState Num W)) :
  (1 <= clamp maxHotels 10 20 <= 20)%Z
  /\ (1 <= clamp maxImagesPerHotel 6 10 <= 10)%Z
  /\ (exists urls,
        requested (world (snd (getHotelsForCity env city maxHotels maxImagesPerHotel r)))
        = requested (world r) ++ urls
        /\ (Z.of_nat (List.length urls)
            <= 1 + clamp maxHotels 10 20 * (1 + clamp maxImagesPerHotel 6 10))%Z
        /\ (hasKey env = false -> urls = []))
  /\ (trim city = "" ->
      getHotelsForCity env city maxHotels maxImagesPerHotel r = (Returned [], r))
  /\ (forall hotels,
        fst (getHotelsForCity env city maxHotels maxImagesPerHotel r) = Returned hotels ->
        (Z.of_nat (List.length hotels) <= clamp maxHotels 10 20)%Z
        /\ Forall (fun h => imagesWithin (clamp maxImagesPerHotel 6 10) (ho_imageUrls h))
                  hotels).
Proof.
  pose proof (clamp_range maxHotels 10 20 ltac:(lia)) as CH.
  pose proof (clamp_range maxImagesPerHotel 6 10 ltac:(lia)) as CI.
  destruct (getHotelsForCity_requests env city maxHotels maxImagesPerHotel r)
    as (urls & E & L & K & Q).
  split; [exact CH|]. split; [exact CI|].
  split; [exists urls; repeat split; auto; nia|]. split; [|exact Q].
  intros B. unfold getHotelsForCity. cbv zeta. now rewrite B.
Qed.

(** X26.  A text search that went to the network leaves its results in
    the cache: only results with a place id and a name, and for seven
    days every search whose query is the same up to letter case and
    outer white space gets those results back, with no request made, no
    key needed and nothing changed. *)
Theorem textSearch_served_from_cache (Num W : Type) (env : ImagesEnv Num W)
  (query query' : string) (results : list (GoogleTextSearchResult Num))
  (r r1 r2 : Run (ImagesState Num W)) :
  googleTextSearch env query r = (Returned results, r1) ->
  requested (world r1) <> requested (world r) ->
  defaultTtlMs (textSearchCache (world r)) = DEFAULT_TTL_MS ->
  trim (toLowerCase query') = trim (toLowerCase query) ->
  textSearchCache (world r2) = textSearchCache (world r1) ->
  (Date_now env (outside (world r2))
   <= Date_now env (outside (world r1)) + 7 * 24 * 60 * 60 * 1000)%Z ->
  Forall (fun x => sr_place_id x <> "" /\ sr_name x <> "") results
  /\ googleTextSearch env query' r2 = (Returned results, r2).
Proof.
  intros Run1 Net Ttl Same Kept Soon.
  destruct (textSearch_fill env query results r r1 Run1 Net) as (G & F).
  split.
  - eapply Forall_impl; [|exact F]. cbv beta. intros x Hx.
    apply andb_true_iff in Hx. now rewrite !truthy_true in Hx.
  - rewrite Ttl in G.
    assert (K : textSearchKey query' = textSearchKey query).
    { unfold textSearchKey. now rewrite Same. }
    rewrite <- K, <- Kept in G.
    apply (textSearch_hit env query' _ r2 G). cbn [ce_expiresAt].
    unfold DEFAULT_TTL_MS. lia.
Qed.

Lemma textSearch_served_from_cache_witness :
  googleTextSearch quietPlaces "  ART institute CHICAGO " afterOneSearch
  = (Returned [onePlace], afterOneSearch).
Proof.
  apply (textSearch_served_from_cache Z unit quietPlaces "Art Institute Chicago"
           "  ART institute CHICAGO " [onePlace] (mkRun (freshImages tt) [])
           afterOneSearch afterOneSearch).
  - vm_compute. reflexivity.
  - vm_compute. discriminate.
  - reflexivity.
  - vm_compute. reflexivity.
  - reflexivity.
  - vm_compute. discriminate.
Defined.
